(** * Treemap trees (tm_trees.py): a shallow embedding and its properties

    The Python objects of class [TMTree] live in a store indexed by object
    identity; every method becomes a function in a small state-and-error
    monad over that store.  Recursive methods take a recursion budget.
    The subclass [FileSystemTree] and the module papers.py (the class
    [PaperTree], its loader and its tree builder) run in a second monad,
    over the store and the attributes the subclasses add, with the
    operating system and the data file as parameters. *)

From Stdlib Require Import ZArith Bool Lia.
From Stdlib Require Import Floats.SpecFloat Strings.Ascii.
From stdpp Require Import base tactics option list strings numbers relations.

Local Open Scope Z_scope.

(** ** Python numbers *)

Module PyFloat.

(** A Python [float] is an IEEE binary64 value. *)
Definition float := spec_float.
Definition prec : Z := 53.
Definition emax : Z := 1024.

Inductive exn :=
| AttributeError
| ValueError
| ZeroDivisionError
| OverflowError.

Definition is_finite (f : float) : bool :=
  match f with
  | S754_zero _ | S754_finite _ _ _ => true
  | _ => false
  end.

(** [float(n)] for an [int] [n]: round to nearest even, [OverflowError]
    when the magnitude does not fit. *)
Definition of_int (n : Z) : exn + float :=
  let f := binary_normalize prec emax n 0 false in
  if is_finite f then inr f else inl OverflowError.

(** [a / b] on two [int]s: the correctly rounded quotient. *)
Definition int_truediv (a b : Z) : exn + float :=
  match b with
  | Z0 => inl ZeroDivisionError
  | _ =>
    let s := xorb (a <? 0) (b <? 0) in
    match a with
    | Z0 => inr (S754_zero s)
    | _ =>
      let '(q, e, l) :=
        SFdiv_core_binary prec emax (Z.abs a) 0 (Z.abs b) 0 in
      let f := binary_round_aux prec emax s q e l in
      if is_finite f then inr f else inl OverflowError
    end
  end.

(** [n * f] for an [int] [n] and a [float] [f]. *)
Definition int_mul (n : Z) (f : float) : exn + float :=
  match of_int n with
  | inl e => inl e
  | inr nf => inr (SFmul prec emax nf f)
  end.

(** [f > 0]. *)
Definition gt_zero (f : float) : bool :=
  match SFcompare f (S754_zero false) with
  | Some Gt => true
  | _ => false
  end.

(** [f <= 0] and [f < 0]. *)
Definition le_zero (f : float) : bool := SFleb f (S754_zero false).
Definition lt_zero (f : float) : bool := SFltb f (S754_zero false).

(** The three roundings to [int]; each fails on infinities and NaN. *)
Definition signed_mantissa (s : bool) (m : positive) : Z :=
  if s then Z.neg m else Z.pos m.

Definition round_with (rnd : Z → Z → Z) (f : float) : exn + Z :=
  match f with
  | S754_zero _ => inr 0
  | S754_finite s m e =>
    if 0 <=? e then inr (signed_mantissa s m * 2 ^ e)
    else inr (rnd (signed_mantissa s m) (2 ^ (- e)))
  | S754_infinity _ => inl OverflowError
  | S754_nan => inl ValueError
  end.

(** [math.floor], [math.ceil] and [int]. *)
Definition floor : float → exn + Z := round_with Z.div.
Definition ceil : float → exn + Z :=
  round_with (λ n d, - ((- n) / d)).
Definition trunc : float → exn + Z := round_with Z.quot.

End PyFloat.

Export PyFloat(exn(..), float).

(** ** The store of tree objects *)

Abbreviation id := nat.
Definition rect_t := (Z * Z * Z * Z)%type.
Definition colour_t := (Z * Z * Z)%type.

Record TMTree := mkTMTree {
  rect : rect_t;
  data_size : Z;
  _colour : colour_t;
  _name : option string;
  _subtrees : list id;
  _parent_tree : option id;
  _expanded : bool
}.

Abbreviation heap := (list TMTree).

Definition set_rect (r : rect_t) (t : TMTree) : TMTree :=
  mkTMTree r (data_size t) (_colour t) (_name t) (_subtrees t)
           (_parent_tree t) (_expanded t).
Definition set_data_size (z : Z) (t : TMTree) : TMTree :=
  mkTMTree (rect t) z (_colour t) (_name t) (_subtrees t)
           (_parent_tree t) (_expanded t).
Definition set_subtrees (l : list id) (t : TMTree) : TMTree :=
  mkTMTree (rect t) (data_size t) (_colour t) (_name t) l
           (_parent_tree t) (_expanded t).
Definition set_parent_tree (p : option id) (t : TMTree) : TMTree :=
  mkTMTree (rect t) (data_size t) (_colour t) (_name t) (_subtrees t)
           p (_expanded t).
Definition set_expanded (b : bool) (t : TMTree) : TMTree :=
  mkTMTree (rect t) (data_size t) (_colour t) (_name t) (_subtrees t)
           (_parent_tree t) b.

(** ** Outcomes and the monad of methods *)

Inductive result (A : Type) :=
| Ok (a : A)          (* normal return *)
| Raise (e : exn)     (* a Python exception propagates *)
| Diverge             (* the recursion budget ran out *)
| Dangling.           (* an identity that names no object *)
Arguments Ok {A} a.
Arguments Raise {A} e.
Arguments Diverge {A}.
Arguments Dangling {A}.

Definition M (A : Type) := heap → result (A * heap).

Definition ret {A} (a : A) : M A := λ h, Ok (a, h).
Definition bind {A B} (m : M A) (k : A → M B) : M B :=
  λ h, match m h with
       | Ok (a, h') => k a h'
       | Raise e => Raise e
       | Diverge => Diverge
       | Dangling => Dangling
       end.
Definition raise {A} (e : exn) : M A := λ _, Raise e.
Definition diverge {A} : M A := λ _, Diverge.
Definition lift {A} (x : exn + A) : M A :=
  match x with inl e => raise e | inr a => ret a end.

Notation "'let*' x ':=' m 'in' k" := (bind m (λ x, k))
  (at level 10, x pattern, m at level 100, k at level 200).
Notation "m ';;' k" := (bind m (λ _, k))
  (at level 100, k at level 200, right associativity).

(** Reading an object and assigning to its attributes. *)
Definition get (n : id) : M TMTree :=
  λ h, match h !! n with Some t => Ok (t, h) | None => Dangling end.
Definition modify (n : id) (f : TMTree → TMTree) : M unit :=
  λ h, match h !! n with
       | Some t => Ok (tt, <[n := f t]> h)
       | None => Dangling
       end.

(** [for x in l: body x]. *)
Fixpoint for_each {A} (l : list A) (body : A → M unit) : M unit :=
  match l with
  | [] => ret tt
  | x :: l' => body x;; for_each l' body
  end.

Definition is_empty (self : id) : M bool :=
  let* t := get self in ret (bool_decide (_name t = None)).

(** [sum(f x for x in l)], and the loop [total = 0; for x in l: total += f x]. *)
Fixpoint sum_over {A} (l : list A) (f : A → M Z) (total : Z) : M Z :=
  match l with
  | [] => ret total
  | x :: l' => let* v := f x in sum_over l' f (total + v)
  end.

(** [l.remove(x)]: drops the first occurrence, [ValueError] when absent. *)
Fixpoint list_remove (x : id) (l : list id) : option (list id) :=
  match l with
  | [] => None
  | y :: l' => if decide (y = x) then Some l'
               else cons y <$> list_remove x l'
  end.

(** ** Construction *)

(** helper to calculate the data size. *)
Fixpoint _sum_size (fuel : nat) (self : id) : M Z :=
  match fuel with
  | O => diverge
  | S fuel' =>
    let* t := get self in
    match _subtrees t with
    | [] => ret (data_size t)
    | _ :: _ =>
      let* total := sum_over (_subtrees t) (_sum_size fuel') 0 in
      modify self (set_data_size total);;
      let* t' := get self in
      ret (data_size t')
    end
  end.

Definition alloc (t : TMTree) : M id := λ h, Ok (length h, h ++ [t]).

(** [TMTree(name, subtrees, data_size)]; the random colour is an argument. *)
Definition __init__ (fuel : nat) (name : option string) (subtrees : list id)
    (size : Z) (colour : colour_t) : M id :=
  let* self :=
    alloc (mkTMTree (0, 0, 0, 0) size colour name subtrees None false) in
  _sum_size fuel self;;
  for_each subtrees (λ subtree, modify subtree (set_parent_tree (Some self)));;
  ret self.

Definition get_parent (self : id) : M (option id) :=
  let* t := get self in ret (_parent_tree t).

(** ** Layout *)

Definition _calculate_dimension (proportion : float) (total_dimension : Z)
    (offset : Z) (is_last_subtree : bool) : M Z :=
  if negb is_last_subtree then
    let* prod := lift (PyFloat.int_mul total_dimension proportion) in
    lift (PyFloat.trunc prod)
  else ret (total_dimension - offset).

Definition _handle_base_cases (update_rectangles : id → rect_t → M unit)
    (self : id) (r : rect_t) : M unit :=
  let* e := is_empty self in
  let* t := get self in
  if e && (0 <? data_size t) then modify self (set_rect r)
  else if data_size t =? 0 then
    modify self (set_rect (0, 0, 0, 0));;
    for_each (_subtrees t) (λ subtree, update_rectangles subtree r)
  else ret tt.

(** The body of [for i, subtree in enumerate(self._subtrees)], carrying
    the running [offset]. *)
Fixpoint _distribute_loop (update_rectangles : id → rect_t → M unit)
    (total_size : Z) (r : rect_t) (len : nat) (i : nat) (offset : Z)
    (l : list id) : M unit :=
  match l with
  | [] => ret tt
  | subtree :: l' =>
    let '(x, y, width, height) := r in
    let* st := get subtree in
    let* proportion := lift (PyFloat.int_truediv (data_size st) total_size) in
    let is_last := Nat.eqb i (len - 1) in
    if height <? width then
      let* current_width :=
        _calculate_dimension proportion width offset is_last in
      modify subtree (set_rect (x + offset, y, current_width, height));;
      let* st' := get subtree in
      update_rectangles subtree (rect st');;
      _distribute_loop update_rectangles total_size r len (S i)
                       (offset + current_width) l'
    else
      let* current_height :=
        _calculate_dimension proportion height offset is_last in
      modify subtree (set_rect (x, y + offset, width, current_height));;
      let* st' := get subtree in
      update_rectangles subtree (rect st');;
      _distribute_loop update_rectangles total_size r len (S i)
                       (offset + current_height) l'
  end.

Definition _distribute_space_subtrees
    (update_rectangles : id → rect_t → M unit)
    (self : id) (r : rect_t) : M unit :=
  let* e := is_empty self in
  let* t := get self in
  if negb e && (0 <? data_size t) then
    modify self (set_rect r);;
    _distribute_loop update_rectangles (data_size t) r
                     (length (_subtrees t)) 0%nat 0 (_subtrees t)
  else ret tt.

Fixpoint update_rectangles (fuel : nat) (self : id) (r : rect_t) : M unit :=
  match fuel with
  | O => diverge
  | S fuel' =>
    _handle_base_cases (update_rectangles fuel') self r;;
    _distribute_space_subtrees (update_rectangles fuel') self r
  end.

(** ** Spatial query *)

Definition _is_pos_inside_rect (self : id) (pos : Z * Z) : M bool :=
  let* t := get self in
  let '(x, y) := pos in
  let '(lower_x, lower_y, upper_x, upper_y) := rect t in
  ret ((lower_x <=? x) && (x <=? lower_x + upper_x)
       && ((lower_y <=? y) && (y <=? lower_y + upper_y))).

Definition _is_leaf_or_not_expanded (self : id) : M bool :=
  let* t := get self in
  ret (bool_decide (_subtrees t = []) || negb (_expanded t)).

(** [for tree in l: r = query tree; if r is not None: return r]. *)
Fixpoint first_found (l : list id) (query : id → M (option id))
    : M (option id) :=
  match l with
  | [] => ret None
  | tree :: l' =>
    let* pos_tree := query tree in
    match pos_tree with
    | Some found => ret (Some found)
    | None => first_found l' query
    end
  end.

Definition _search_subtrees_for_pos
    (get_tree_at_position : id → Z * Z → M (option id))
    (self : id) (pos : Z * Z) : M (option id) :=
  let* t := get self in
  first_found (_subtrees t) (λ tree, get_tree_at_position tree pos).

Fixpoint get_tree_at_position (fuel : nat) (self : id) (pos : Z * Z)
    : M (option id) :=
  match fuel with
  | O => diverge
  | S fuel' =>
    let* inside := _is_pos_inside_rect self pos in
    if inside then
      let* stop := _is_leaf_or_not_expanded self in
      if stop then ret (Some self)
      else _search_subtrees_for_pos (get_tree_at_position fuel') self pos
    else ret None
  end.

(** ** Data sizes *)

Fixpoint update_data_sizes (fuel : nat) (self : id) : M Z :=
  match fuel with
  | O => diverge
  | S fuel' =>
    let* t := get self in
    match _subtrees t with
    | [] => ret (data_size t)
    | _ :: _ =>
      let* total := sum_over (_subtrees t) (update_data_sizes fuel') 0 in
      modify self (set_data_size total);;
      let* t' := get self in
      ret (data_size t')
    end
  end.

(** The loop [while root._parent_tree is not None: root = root._parent_tree]. *)
Fixpoint climb (fuel : nat) (root : id) : M id :=
  match fuel with
  | O => diverge
  | S fuel' =>
    let* t := get root in
    match _parent_tree t with
    | None => ret root
    | Some p => climb fuel' p
    end
  end.

(** helper to get the top most root in the tree *)
Definition _helper_root (fuel : nat) (self : id) : M unit :=
  let* root := climb fuel self in
  update_data_sizes fuel root;;
  ret tt.

(** ** Mutations *)

(** [self._parent_tree._subtrees.remove(self)] followed by
    [if not self._parent_tree._subtrees: self._parent_tree._expanded = False];
    [parent] is the value of [self._parent_tree], which no statement of the
    callers changes before they are done with it. *)
Definition detach_from (parent : option id) (self : id) : M id :=
  match parent with
  | None => raise AttributeError
  | Some p =>
    let* pt := get p in
    match list_remove self (_subtrees pt) with
    | None => raise ValueError
    | Some l =>
      modify p (set_subtrees l);;
      (if bool_decide (l = []) then modify p (set_expanded false)
       else ret tt);;
      ret p
    end
  end.

Definition move (fuel : nat) (self destination : id) : M unit :=
  let* t := get self in
  if bool_decide (self = destination)
     || bool_decide (_parent_tree t = Some destination)
  then ret tt
  else
    let* d := get destination in
    if bool_decide (_subtrees t = []) && negb (bool_decide (_subtrees d = []))
    then
      let* p := detach_from (_parent_tree t) self in
      modify p (λ pt, set_data_size (data_size pt - data_size t) pt);;
      _helper_root fuel self;;
      modify self (set_parent_tree (Some destination));;
      modify destination (λ dt, set_subtrees (_subtrees dt ++ [self]) dt);;
      let* t' := get self in
      modify destination (λ dt, set_data_size (data_size dt + data_size t') dt);;
      _helper_root fuel destination
    else ret tt.

Definition _is_leaf (self : id) : M bool :=
  let* t := get self in ret (bool_decide (_subtrees t = [])).

Definition _increase_size (self : id) (factor : float) : M unit :=
  let* t := get self in
  let* prod := lift (PyFloat.int_mul (data_size t) factor) in
  let* change := lift (PyFloat.ceil prod) in
  modify self (set_data_size (data_size t + change)).

Definition _decrease_size (self : id) (factor : float) : M unit :=
  let* t := get self in
  if data_size t =? 0 then modify self (set_data_size (data_size t + 1))
  else
    let* prod := lift (PyFloat.int_mul (data_size t) factor) in
    let* change := lift (PyFloat.floor prod) in
    modify self (set_data_size (Z.max 1 (data_size t + change))).

Definition _apply_size_change (self : id) (factor : float) : M unit :=
  if PyFloat.gt_zero factor then _increase_size self factor
  else _decrease_size self factor.

Definition change_size (fuel : nat) (self : id) (factor : float) : M unit :=
  let* leaf := _is_leaf self in
  if negb leaf then ret tt
  else
    _apply_size_change self factor;;
    _helper_root fuel self.

(** helper for delete self, used to recalculate the data sizes after
    deletion *)
Fixpoint _recalculate_data_sizes (fuel : nat) (self : id) : M unit :=
  match fuel with
  | O => diverge
  | S fuel' =>
    let* t := get self in
    let* total :=
      sum_over (_subtrees t)
               (λ subtree, let* st := get subtree in ret (data_size st)) 0 in
    modify self (set_data_size total);;
    match _parent_tree t with
    | Some p => _recalculate_data_sizes fuel' p
    | None => ret tt
    end
  end.

Definition delete_self (fuel : nat) (self : id) : M bool :=
  let* t := get self in
  match _parent_tree t with
  | Some _ =>
    let* p := detach_from (_parent_tree t) self in
    _recalculate_data_sizes fuel p;;
    update_data_sizes fuel p;;
    modify self (set_data_size 0);;
    _helper_root fuel self;;
    ret true
  | None => ret false
  end.

Definition expand (self : id) : M unit :=
  let* t := get self in
  match _subtrees t with
  | [] => ret tt
  | _ :: _ => modify self (set_expanded true)
  end.

Fixpoint expand_all (fuel : nat) (self : id) : M unit :=
  match fuel with
  | O => diverge
  | S fuel' =>
    let* t := get self in
    match _subtrees t with
    | [] => ret tt
    | _ :: _ =>
      modify self (set_expanded true);;
      for_each (_subtrees t) (expand_all fuel')
    end
  end.

(** helper for the collapse function, Collapses all subtrees of this tree. *)
Fixpoint _collapse_parent (fuel : nat) (self : id) : M unit :=
  match fuel with
  | O => diverge
  | S fuel' =>
    modify self (set_expanded false);;
    let* t := get self in
    match _subtrees t with
    | [] => ret tt
    | _ :: _ => for_each (_subtrees t) (_collapse_parent fuel')
    end
  end.

Definition collapse (fuel : nat) (self : id) : M unit :=
  let* t := get self in
  match _parent_tree t with
  | Some p =>
    modify p (set_expanded false);;
    modify self (set_expanded false);;
    let* pt := get p in
    for_each (_subtrees pt) (_collapse_parent fuel)
  | None => ret tt
  end.

Fixpoint _get_root (fuel : nat) (self : id) : M id :=
  match fuel with
  | O => diverge
  | S fuel' =>
    let* t := get self in
    match _parent_tree t with
    | None => ret self
    | Some p => _get_root fuel' p
    end
  end.

Definition collapse_all (fuel : nat) (self : id) : M unit :=
  let* root := _get_root fuel self in
  _collapse_parent fuel root.

(** ** Public mutations as commands *)

Inductive mutation :=
| ChangeSize (node : id) (factor : float)
| Move (node destination : id)
| DeleteSelf (node : id)
| Expand (node : id)
| ExpandAll (node : id)
| Collapse (node : id)
| CollapseAll (node : id).

Definition run (fuel : nat) (op : mutation) : M unit :=
  match op with
  | ChangeSize n f => change_size fuel n f
  | Move n d => move fuel n d
  | DeleteSelf n => delete_self fuel n;; ret tt
  | Expand n => expand n
  | ExpandAll n => expand_all fuel n
  | Collapse n => collapse fuel n
  | CollapseAll n => collapse_all fuel n
  end.

(** * Vocabulary of the properties *)

(** Two stores agree up to the fields that [erase] forgets. *)
Definition agree (erase : TMTree → TMTree) (h h' : heap) : Prop :=
  erase <$> h' = erase <$> h.

Definition no_rect : TMTree → TMTree := set_rect (0, 0, 0, 0).
Definition no_size : TMTree → TMTree := set_data_size 0.
Definition no_expanded : TMTree → TMTree := set_expanded false.
(** What remains of an object when only the links are kept. *)
Definition shape (t : TMTree) : TMTree :=
  mkTMTree (0, 0, 0, 0) 0 (0, 0, 0) None (_subtrees t) (_parent_tree t) false.

(** What remains when only the list of children is kept. *)
Definition down (t : TMTree) : TMTree :=
  mkTMTree (0, 0, 0, 0) 0 (0, 0, 0) None (_subtrees t) None false.
(** What remains when only the parent link is kept. *)
Definition up (t : TMTree) : TMTree :=
  mkTMTree (0, 0, 0, 0) 0 (0, 0, 0) None [] (_parent_tree t) false.
(** What remains when the parent link is forgotten. *)
Definition no_parent : TMTree → TMTree := set_parent_tree None.

(** [c] is listed in [p._subtrees]. *)
Definition child (h : heap) (p c : id) : Prop :=
  ∃ t, h !! p = Some t ∧ c ∈ _subtrees t.
(** [c._parent_tree is p]. *)
Definition parent_is (h : heap) (c p : id) : Prop :=
  ∃ t, h !! c = Some t ∧ _parent_tree t = Some p.
(** [r._parent_tree is None]. *)
Definition root_node (h : heap) (r : id) : Prop :=
  ∃ t, h !! r = Some t ∧ _parent_tree t = None.
(** [n] is in the tree below [a] ([a] itself included). *)
Definition desc (h : heap) : id → id → Prop := rtc (child h).

Definition size_at (h : heap) (n : id) : Z :=
  from_option data_size 0 (h !! n).
Definition sum_sizes (h : heap) (l : list id) : Z :=
  foldr (λ c acc, size_at h c + acc) 0 l.

(** The weight-sum property at one node. *)
Definition good (h : heap) (n : id) : Prop :=
  ∀ t, h !! n = Some t → _subtrees t ≠ [] →
       data_size t = sum_sizes h (_subtrees t).

(** What one call on [c] achieves: only sizes change, only below [c] and
    never at a leaf, everything below [c] satisfies the weight-sum
    property, and the value returned is [c]'s new size. *)
Definition resized (c : id) (h : heap) (v : Z) (h' : heap) : Prop :=
  agree no_size h h'
  ∧ (∀ n, ¬ desc h c n → h' !! n = h !! n)
  ∧ (∀ n, desc h c n → good h' n)
  ∧ size_at h' c = v
  ∧ (∀ n t, h !! n = Some t → _subtrees t = [] → h' !! n = Some t).

(** The downward structure alone: children exist, are listed once and by
    one node only, and no node is below itself. *)
Record forest (h : heap) : Prop := mk_forest {
  f_closed : ∀ p c, child h p c → is_Some (h !! c);
  f_unique : ∀ p q c, child h p c → child h q c → p = q;
  f_nodup : ∀ p t, h !! p = Some t → NoDup (_subtrees t);
  f_acyclic : ∃ rk : id → nat, ∀ p c, child h p c → (rk c < rk p)%nat
}.

(** The store is a forest: children exist, are listed once, point back to
    the node that lists them, and no node is below itself. *)
Record wf (h : heap) : Prop := mk_wf {
  wf_closed : ∀ p c, child h p c → is_Some (h !! c);
  wf_parent : ∀ p c, child h p c → parent_is h c p;
  wf_nodup : ∀ p t, h !! p = Some t → NoDup (_subtrees t);
  wf_acyclic : ∃ rk : id → nat, ∀ p c, child h p c → (rk c < rk p)%nat
}.

(** The weight-sum invariant on every tree of the store. *)
Definition weights_ok (h : heap) : Prop :=
  ∀ r n, root_node h r → desc h r n → good h n.

(** [x] is met when following [_parent_tree] links upwards from [a]. *)
Definition on_chain (h : heap) : id → id → Prop :=
  rtc (λ a b, parent_is h a b).

(** The two properties every reachable store has. *)
Definition Inv (h : heap) : Prop := wf h ∧ weights_ok h.

(** What is left of an object when its rectangle and its expansion flag
    are forgotten. *)
Definition core (t : TMTree) : TMTree := no_rect (no_expanded t).

(** Childless objects are exactly as before. *)
Definition leaves_kept (h h' : heap) : Prop :=
  ∀ n t, h !! n = Some t → _subtrees t = [] → h' !! n = Some t.

(** Two runs from stores [h] and [g] that agree up to rectangles ended in
    [h'] and [g']: these agree up to rectangles again, and every object
    either has the same rectangle in both or was left alone by both. *)
Definition in_step (h h' g g' : heap) : Prop :=
  agree no_rect h' g'
  ∧ ∀ k, rect <$> h' !! k = rect <$> g' !! k
         ∨ (h' !! k = h !! k ∧ g' !! k = g !! k).

(** The object [x], if any, is not expanded. *)
Definition collapsed (h : heap) (x : id) : Prop :=
  ∀ t, h !! x = Some t → _expanded t = false.

(** [pos] lies in the rectangle, width and height taken as extents and
    all four bounds inclusive. *)
Definition inside (r : rect_t) (pos : Z * Z) : Prop :=
  let '(x, y, width, height) := r in
  let '(px, py) := pos in
  x ≤ px ≤ x + width ∧ y ≤ py ≤ y + height.

(** The first result that is not [None]. *)
Fixpoint first_success (l : list (option id)) : option id :=
  match l with
  | [] => None
  | Some found :: _ => Some found
  | None :: l' => first_success l'
  end.

(** The query on [n] returns [res], whatever the (large enough) budget. *)
Definition hit (h : heap) (n : id) (pos : Z * Z) (res : option id) : Prop :=
  ∃ fuel0, ∀ fuel, (fuel0 ≤ fuel)%nat →
                   get_tree_at_position fuel n pos h = Ok (res, h).

(** The object [x], if any, has the empty rectangle. *)
Definition zero_rect (h : heap) (x : id) : Prop :=
  ∀ t, h !! x = Some t → rect t = (0, 0, 0, 0).

(** The run comes to an end: it returns, or the float arithmetic raises
    OverflowError (a number does not fit a float). *)
Definition returns_or_overflows (o : result (unit * heap)) : Prop :=
  (∃ h', o = Ok (tt, h')) ∨ o = Raise OverflowError.

(** The rectangle a node has after [update_rectangles(r)] on it, from its
    name, its size and the rectangle [old] it had when the call began. *)
Definition own_rect (t : TMTree) (r old : rect_t) : rect_t :=
  if bool_decide (_name t = None) && (0 <? data_size t) then r
  else if data_size t =? 0 then (0, 0, 0, 0)
  else if 0 <? data_size t then r
  else old.

Definition sum_Z (l : list Z) : Z := foldr Z.add 0 l.

(** The extent that is divided among the children: the width when it
    exceeds the height, else the height. *)
Definition axis_total (r : rect_t) : Z :=
  let '(x, y, width, height) := r in
  if height <? width then width else height.

(** The strip of [r] at offset [o] with extent [d] along that axis. *)
Definition strip (r : rect_t) (o d : Z) : rect_t :=
  let '(x, y, width, height) := r in
  if height <? width then (x + o, y, d, height) else (x, y + o, width, d).

(** What the [j]-th child [c] of a laid out node gets: the extents are
    [dims], the running offset started at [off], [i + j] is the child's
    position among [len] children, [total_size] the parent's size. *)
Definition child_layout (h h' : heap) (r : rect_t) (total_size : Z)
    (len i : nat) (off : Z) (dims : list Z) (j : nat) (c : id) : Prop :=
  ∃ tc tc' d,
    h !! c = Some tc ∧ h' !! c = Some tc' ∧ dims !! j = Some d
    ∧ ((i + j)%nat ≠ (len - 1)%nat →
       ∃ p q, PyFloat.int_truediv (data_size tc) total_size = inr p
              ∧ PyFloat.int_mul (axis_total r) p = inr q
              ∧ PyFloat.trunc q = inr d)
    ∧ ((i + j)%nat = (len - 1)%nat →
       d = axis_total r - (off + sum_Z (take j dims)))
    ∧ rect tc' = (if data_size tc =? 0 then (0, 0, 0, 0)
                  else strip r (off + sum_Z (take j dims)) d).

(** Stores obtained from nothing by constructing nodes over parentless,
    distinct children, laying trees out, and applying public mutations. *)
Inductive reachable : heap → Prop :=
| reach_empty : reachable []
| reach_init h fuel name subtrees size colour self h' :
    reachable h →
    (∀ c, c ∈ subtrees → root_node h c) →
    NoDup subtrees →
    __init__ fuel name subtrees size colour h = Ok (self, h') →
    reachable h'
| reach_layout h fuel n r h' :
    reachable h →
    update_rectangles fuel n r h = Ok (tt, h') →
    reachable h'
| reach_mutation h fuel op h' :
    reachable h →
    run fuel op h = Ok (tt, h') →
    reachable h'.

(** ** Example stores *)

(** The store a run leaves behind (the store itself when the run fails). *)
Definition store_after {A} (m : M A) (h : heap) : heap :=
  match m h with Ok (_, h') => h' | _ => h end.

Definition grey : colour_t := (128, 128, 128).
(** The literals [0.5], [0.2], [-0.2] and [-0.5]. *)
Definition half : float := S754_finite false 4503599627370496 (-53).
Definition fifth : float := S754_finite false 7205759403792794 (-55).
Definition minus_fifth : float := S754_finite true 7205759403792794 (-55).
Definition minus_half : float := S754_finite true 4503599627370496 (-53).

(** [a = TMTree("a", [], 20); b = TMTree("b", [], 30);
    root = TMTree("root", [a, b])]. *)
Definition two_leaves_a : heap :=
  Eval vm_compute in store_after (__init__ 1 (Some "a") [] 20 grey) [].
Definition two_leaves_b : heap :=
  Eval vm_compute in
    store_after (__init__ 1 (Some "b") [] 30 grey) two_leaves_a.
Definition two_leaves : heap :=
  Eval vm_compute in
    store_after (__init__ 2 (Some "root") [0; 1]%nat 0 grey) two_leaves_b.
(** [TMTree("leaf", [], 50)] and [TMTree("leaf", [], 0)]. *)
Definition leaf50 : heap :=
  Eval vm_compute in store_after (__init__ 1 (Some "leaf") [] 50 grey) [].
Definition leaf0 : heap :=
  Eval vm_compute in store_after (__init__ 1 (Some "leaf") [] 0 grey) [].
(** ... then [b.delete_self()]. *)
Definition two_leaves_deleted : heap :=
  Eval vm_compute in store_after (delete_self 3 1%nat) two_leaves.
(** [b = TMTree("b", [], 5); a = TMTree("a", [b]);
    root = TMTree("root", [a])]. *)
Definition chain3_b : heap :=
  Eval vm_compute in store_after (__init__ 1 (Some "b") [] 5 grey) [].
Definition chain3_a : heap :=
  Eval vm_compute in store_after (__init__ 2 (Some "a") [0%nat] 0 grey) chain3_b.
Definition chain3 : heap :=
  Eval vm_compute in
    store_after (__init__ 3 (Some "root") [1%nat] 0 grey) chain3_a.
(** ... then [root.update_rectangles((0, 0, 100, 50))]. *)
Definition two_leaves_laid_out : heap :=
  Eval vm_compute in
    store_after (update_rectangles 3 2%nat (0, 0, 100, 50)) two_leaves.
(** [chain3] with everything expanded: [root.expand_all()]. *)
Definition chain3_expanded : heap :=
  Eval vm_compute in store_after (expand_all 3 2%nat) chain3.
(** Leaves of sizes 1, 1, 1 and 0 under one root, laid out in
    [(0, 0, 100, 5)], the root expanded. *)
Definition gap_a : heap :=
  Eval vm_compute in store_after (__init__ 1 (Some "a") [] 1 grey) [].
Definition gap_b : heap :=
  Eval vm_compute in store_after (__init__ 1 (Some "b") [] 1 grey) gap_a.
Definition gap_c : heap :=
  Eval vm_compute in store_after (__init__ 1 (Some "c") [] 1 grey) gap_b.
Definition gap_d : heap :=
  Eval vm_compute in store_after (__init__ 1 (Some "d") [] 0 grey) gap_c.
Definition gap_built : heap :=
  Eval vm_compute in
    store_after (__init__ 2 (Some "root") [0; 1; 2; 3]%nat 0 grey) gap_d.
Definition gap_laid_out : heap :=
  Eval vm_compute in
    store_after (update_rectangles 3 4%nat (0, 0, 100, 5)) gap_built.
Definition gap_tree : heap :=
  Eval vm_compute in store_after (expand 4%nat) gap_laid_out.
(** A root of size 0 over two nodes of size 0, each over two leaves of
    size 0. *)
Definition zeros_1 : heap :=
  Eval vm_compute in store_after (__init__ 1 (Some "l1") [] 0 grey) [].
Definition zeros_2 : heap :=
  Eval vm_compute in store_after (__init__ 1 (Some "l2") [] 0 grey) zeros_1.
Definition zeros_3 : heap :=
  Eval vm_compute in store_after (__init__ 1 (Some "l3") [] 0 grey) zeros_2.
Definition zeros_4 : heap :=
  Eval vm_compute in store_after (__init__ 1 (Some "l4") [] 0 grey) zeros_3.
Definition zeros_A : heap :=
  Eval vm_compute in
    store_after (__init__ 2 (Some "A") [0; 1]%nat 0 grey) zeros_4.
Definition zeros_B : heap :=
  Eval vm_compute in
    store_after (__init__ 2 (Some "B") [2; 3]%nat 0 grey) zeros_A.
Definition zeros : heap :=
  Eval vm_compute in
    store_after (__init__ 3 (Some "root") [4; 5]%nat 0 grey) zeros_B.
(** Leaves of sizes 1 and 2 under one root. *)
Definition thirds_a : heap :=
  Eval vm_compute in store_after (__init__ 1 (Some "a") [] 1 grey) [].
Definition thirds_b : heap :=
  Eval vm_compute in store_after (__init__ 1 (Some "b") [] 2 grey) thirds_a.
Definition thirds : heap :=
  Eval vm_compute in
    store_after (__init__ 2 (Some "root") [0; 1]%nat 0 grey) thirds_b.
(** ... then [root.update_rectangles((0, 0, -200, -100))]. *)
Definition thirds_laid_out : heap :=
  Eval vm_compute in
    store_after (update_rectangles 2 2%nat (0, 0, -200, -100)) thirds.
(** ... then [a.change_size(0.5)]. *)
Definition two_leaves_resized : heap :=
  Eval vm_compute in store_after (change_size 3 0%nat half) two_leaves.

(** [c = TMTree("c", [], 5); l = TMTree("l", [], 0); B = TMTree("B", [c]);
    A = TMTree("A", [B, l]); d = TMTree("d", [], 7);
    root = TMTree("root", [A, d])]. *)
Definition emptied_c : heap :=
  Eval vm_compute in store_after (__init__ 1 (Some "c") [] 5 grey) [].
Definition emptied_l : heap :=
  Eval vm_compute in store_after (__init__ 1 (Some "l") [] 0 grey) emptied_c.
Definition emptied_B : heap :=
  Eval vm_compute in
    store_after (__init__ 2 (Some "B") [0%nat] 0 grey) emptied_l.
Definition emptied_A : heap :=
  Eval vm_compute in
    store_after (__init__ 3 (Some "A") [2; 1]%nat 0 grey) emptied_B.
Definition emptied_d : heap :=
  Eval vm_compute in store_after (__init__ 1 (Some "d") [] 7 grey) emptied_A.
Definition emptied_built : heap :=
  Eval vm_compute in
    store_after (__init__ 4 (Some "root") [3; 4]%nat 0 grey) emptied_d.
(** ... then [root.update_rectangles((0, 0, 120, 50))]. *)
Definition emptied_laid_out : heap :=
  Eval vm_compute in
    store_after (update_rectangles 5 5%nat (0, 0, 120, 50)) emptied_built.
(** ... then [c.move(root)]: [A] and [B] are left with size 0 and with the
    rectangle (0, 0, 50, 50) they were given. *)
Definition emptied : heap :=
  Eval vm_compute in store_after (move 5 0%nat 5%nat) emptied_laid_out.

(** * The rest of the tree interface *)

(** ** The rectangles to draw *)

(** [rects = []; for tree in l: rects.extend(f(tree))]. *)
Fixpoint extend_each {A} (l : list id) (f : id → M (list A))
    (rects : list A) : M (list A) :=
  match l with
  | [] => ret rects
  | tree :: l' => let* more := f tree in extend_each l' f (rects ++ more)
  end.

Fixpoint get_rectangles (fuel : nat) (self : id)
    : M (list (rect_t * colour_t)) :=
  match fuel with
  | O => diverge
  | S fuel' =>
    let* e := is_empty self in
    if e then ret []
    else
      let* t := get self in
      if _expanded t then
        let* e' := is_empty self in
        if e' || ((data_size t =? 0) && bool_decide (_subtrees t = []))
        then ret []
        else if bool_decide (_subtrees t = []) then ret [(rect t, _colour t)]
        else extend_each (_subtrees t) (get_rectangles fuel') []
      else
        if (data_size t =? 0) && bool_decide (_subtrees t = []) then ret []
        else ret [(rect t, _colour t)]
  end.

(** ** The tree closest to the origin *)

(** The loop of [_same]: [closest] is replaced by a tree that lies further
    left or, failing that, further up. *)
Fixpoint closest_loop (l : list id) (closest : id) : M id :=
  match l with
  | [] => ret closest
  | tree :: l' =>
    let* t := get tree in
    let* c := get closest in
    let '(tx, ty, _, _) := rect t in
    let '(cx, cy, _, _) := rect c in
    if tx <? cx then closest_loop l' tree
    else if ty <? cy then closest_loop l' tree
    else closest_loop l' closest
  end.

Definition _same (trees : list id) : M (option id) :=
  match trees with
  | first :: _ :: _ => let* closest := closest_loop trees first in
                       ret (Some closest)
  | [only] => ret (Some only)
  | [] => ret None
  end.

(** * Subclasses and the papers module *)

(** ** More exceptions, more state *)

(** The exceptions that the subclasses and the module functions add to
    those of the tree methods. *)
Inductive error :=
| Builtin (e : exn)
| TypeError
| NotImplementedError
| OSError
| FormatError.   (* ValueError("CSV file format is wrong") *)

(** The attributes a [PaperTree] has on top of those of a [TMTree]. *)
Record PaperFields := mkPaperFields {
  _authors : string;
  _doi : string
}.

(** All objects: the trees, and the further attributes of those that are
    paper trees. *)
Record world := mkWorld {
  trees : heap;
  paper_fields : list (id * PaperFields)
}.

Inductive outcome (A : Type) :=
| Done (a : A)
| Fails (e : error)
| Unfinished           (* the recursion budget ran out *)
| NoObject.            (* an identity that names no object *)
Arguments Done {A} a.
Arguments Fails {A} e.
Arguments Unfinished {A}.
Arguments NoObject {A}.

Definition X (A : Type) := world → outcome (A * world).

Definition xret {A} (a : A) : X A := λ w, Done (a, w).
Definition xbind {A B} (m : X A) (k : A → X B) : X B :=
  λ w, match m w with
       | Done (a, w') => k a w'
       | Fails e => Fails e
       | Unfinished => Unfinished
       | NoObject => NoObject
       end.
Definition fail {A} (e : error) : X A := λ _, Fails e.
Definition unfinished {A} : X A := λ _, Unfinished.

Notation "'let+' x ':=' m 'in' k" := (xbind m (λ x, k))
  (at level 10, x pattern, m at level 100, k at level 200).

(** A tree method called from the larger setting. *)
Definition call {A} (m : M A) : X A :=
  λ w, match m (trees w) with
       | Ok (a, h') => Done (a, mkWorld h' (paper_fields w))
       | Raise e => Fails (Builtin e)
       | Diverge => Unfinished
       | Dangling => NoObject
       end.

(** The result of a library or system call. *)
Definition returned {A} (x : error + A) : X A :=
  match x with inl e => fail e | inr a => xret a end.

(** The identity the next object gets. *)
Definition next_id : X id := λ w, Done (length (trees w), w).

(** ** Path strings *)

(** [get_separator] of the three classes; [sep] is [os.sep]. *)
Definition TMTree_get_separator (self : id) : X string :=
  fail NotImplementedError.
Definition PaperTree_get_separator (self : id) : X string :=
  xret " : "%string.

(** [get_path_string], for objects whose class has [get_separator] as its
    method.  The result is [None] when a parentless node has no name. *)
Fixpoint get_path_string (get_separator : id → X string) (fuel : nat)
    (self : id) : X (option string) :=
  match fuel with
  | O => unfinished
  | S fuel' =>
    let+ t := call (get self) in
    match _parent_tree t with
    | None => xret (_name t)
    | Some p =>
      let+ above := get_path_string get_separator fuel' p in
      let+ sep := get_separator self in
      match above with
      | None => fail TypeError
      | Some a =>
        let+ t' := call (get self) in
        match _name t' with
        | None => fail TypeError
        | Some name => xret (Some ((a +:+ sep) +:+ name))
        end
      end
    end
  end.

(** ** Trees of files and folders *)

(** What the operating system answers. *)
Record os := mkOs {
  basename : string → string;
  isdir : string → bool;
  listdir : string → error + list string;
  join : string → string → string;
  getsize : string → error + Z
}.

(** [subtrees = []; for x in l: subtrees.append(f(x))]. *)
Fixpoint append_each {A} (l : list A) (f : A → X id) (subtrees : list id)
    : X (list id) :=
  match l with
  | [] => xret subtrees
  | x :: l' => let+ subtree := f x in append_each l' f (subtrees ++ [subtree])
  end.

(** [FileSystemTree(path)]; [pick n] is the random colour of the object
    with identity [n]. *)
Fixpoint FileSystemTree__init__ (sys : os) (pick : id → colour_t)
    (fuel : nat) (path : string) : X id :=
  match fuel with
  | O => unfinished
  | S fuel' =>
    let name := basename sys path in
    if isdir sys path then
      let+ filenames := returned (listdir sys path) in
      let+ subtrees :=
        append_each filenames
          (λ filename,
             FileSystemTree__init__ sys pick fuel' (join sys path filename))
          [] in
      let+ n := next_id in
      call (__init__ (S fuel') (Some name) subtrees 0 (pick n))
    else
      let+ n := next_id in
      let+ self := call (__init__ (S fuel') (Some name) [] 0 (pick n)) in
      let+ size := returned (getsize sys path) in
      let+ _ := call (modify self (set_data_size size)) in
      xret self
  end.

(** ** The papers data set *)

Record paper := mkPaper {
  p_authors : string;
  p_title : string;
  p_year : string;
  p_doi : string;
  p_citations : Z
}.

(** The nested dictionary: a dictionary in insertion order, or the list
    found under the key ['papers']. *)
#[warnings="-register-all"] Inductive pyval :=
| PDict (items : list (string * pyval))
| PList (entries : list paper).

Abbreviation dict := (list (string * pyval)).

(** [d[key]], if [key in d], and [d[key] = v]. *)
Fixpoint item (key : string) (d : dict) : option pyval :=
  match d with
  | [] => None
  | (k, v) :: d' => if decide (k = key) then Some v else item key d'
  end.

Fixpoint set_item (key : string) (v : pyval) (d : dict) : dict :=
  match d with
  | [] => [(key, v)]
  | (k, v0) :: d' =>
    if decide (k = key) then (k, v) :: d' else (k, v0) :: set_item key v d'
  end.

(** [s.split(': ')]; [piece] is what has been read since the last
    separator. *)
Fixpoint split_colon_space (s : string) (piece : string) : list string :=
  match s with
  | EmptyString => [piece]
  | String ":"%char (String " "%char rest) =>
    piece :: split_colon_space rest ""
  | String c rest => split_colon_space rest (piece +:+ String c "")
  end.

(** One row, from the dictionary [current_level] on: the loop over the
    remaining [categories], then the paper is appended.  The dictionary
    returned is [current_level] after the assignments made through it. *)
Fixpoint add_paper (int : string → option Z) (categories : list string)
    (authors title year doi citations : string) (current_level : dict)
    : error + dict :=
  match categories with
  | category :: rest =>
    (* if category not in current_level: current_level[category] = {} *)
    match default (PDict []) (item category current_level) with
    | PDict below =>
      match add_paper int rest authors title year doi citations below with
      | inr below' => inr (set_item category (PDict below') current_level)
      | inl e => inl e
      end
    | PList _ =>
      (* [current_level] is now a list *)
      match rest with
      | _ :: _ => inl TypeError
      | [] => inl FormatError
      end
    end
  | [] =>
    (* if 'papers' not in current_level: current_level['papers'] = [] *)
    match default (PList []) (item "papers" current_level) with
    | PList entries =>
      match int citations with
      | Some n =>
        inr (set_item "papers"
               (PList (entries ++ [mkPaper authors title year doi n]))
               current_level)
      | None => inl (Builtin ValueError)
      end
    | PDict _ => inl (Builtin AttributeError)
    end
  end.

(** The body of [for row in reader]. *)
Definition add_row (int : string → option Z) (by_year : bool)
    (row : list string) (data : dict) : error + dict :=
  match row with
  | [authors; title; year; category_string; doi; citations] =>
    let categories := split_colon_space category_string "" in
    if by_year then
      (* if year not in data: data[year] = {} *)
      match default (PDict []) (item year data) with
      | PDict below =>
        match add_paper int categories authors title year doi citations
                        below with
        | inr below' => inr (set_item year (PDict below') data)
        | inl e => inl e
        end
      | PList _ => inl TypeError
      end
    else add_paper int categories authors title year doi citations data
  | _ => inl (Builtin ValueError)
  end.

Fixpoint add_rows (int : string → option Z) (by_year : bool)
    (rows : list (list string)) (data : dict) : error + dict :=
  match rows with
  | [] => inr data
  | row :: rows' =>
    match add_row int by_year row data with
    | inr data' => add_rows int by_year rows' data'
    | inl e => inl e
    end
  end.

(** [_load_papers_to_dict]; [reader] is what [csv.reader] yields for the
    data file, [int] is Python's [int] on strings. *)
Definition _load_papers_to_dict (int : string → option Z)
    (reader : list (list string)) (by_year : bool) : error + dict :=
  match reader with
  | [] => inr []
  | _ :: rows => add_rows int by_year rows []
  end.

(** [PaperTree(name, subtrees, authors, doi, citations, by_year,
    all_papers)]; [load_and_build by_year] is
    [_build_tree_from_dict(_load_papers_to_dict(by_year))].  The two
    attributes of the subclass are recorded once the object has its
    identity. *)
Definition PaperTree__init__ (load_and_build : bool → X (list id))
    (pick : id → colour_t) (fuel : nat) (name : option string)
    (subtrees : list id) (authors doi : string) (citations : Z)
    (by_year all_papers : bool) : X id :=
  let+ subtrees :=
    if all_papers then load_and_build by_year else xret subtrees in
  let+ n := next_id in
  let+ self := call (__init__ fuel name subtrees citations (pick n)) in
  λ w, Done (self, mkWorld (trees w)
                     (paper_fields w ++ [(self, mkPaperFields authors doi)])).

(** [PaperTree(name=paper['title'], subtrees=[], authors=paper['authors'],
    doi=paper['doi'], citations=paper['citations'])]. *)
Definition paper_leaf (pick : id → colour_t) (fuel : nat) (p : paper)
    : X id :=
  PaperTree__init__ (λ _, unfinished) pick fuel (Some (p_title p)) []
                    (p_authors p) (p_doi p) (p_citations p) true false.

(** [for paper in v] for the value [v] found under ['papers']: iterating
    over a dictionary gives its keys, strings that cannot be indexed by
    ['title']. *)
Definition paper_leaves (pick : id → colour_t) (fuel : nat) (v : pyval)
    (subtrees : list id) : X (list id) :=
  match v with
  | PList entries => append_each entries (paper_leaf pick fuel) subtrees
  | PDict [] => xret subtrees
  | PDict (_ :: _) => fail TypeError
  end.

(** [sum(subtree.data_size for subtree in l)]. *)
Definition sum_data_sizes (l : list id) : X Z :=
  call (sum_over l (λ subtree, let* t := get subtree in ret (data_size t)) 0).

(** [_build_tree_from_dict(data, name)], by recursion on the nested
    dictionary; the name is not used by the code.  Keys are unique, so in
    the loop [data['papers']] is the [contents] found under ['papers']. *)
Fixpoint build_value (pick : id → colour_t) (fuel : nat) (v : pyval)
    : X (list id) :=
  match v with
  | PList _ => fail (Builtin AttributeError)
  | PDict data =>
    match item "papers" data, Nat.eqb (length data) 1 with
    | Some v, true => paper_leaves pick fuel v []
    | _, _ =>
      (fix each (l : dict) (subtrees : list id) : X (list id) :=
         match l with
         | [] => xret subtrees
         | (category, contents) :: l' =>
           if decide (category = "papers"%string) then
             let+ subtrees' := paper_leaves pick fuel contents subtrees in
             each l' subtrees'
           else
             let+ category_tree := build_value pick fuel contents in
             let+ citations := sum_data_sizes category_tree in
             let+ node :=
               PaperTree__init__ (λ _, unfinished) pick fuel (Some category)
                                 category_tree "" "" citations true false in
             each l' (subtrees ++ [node])
         end) data []
    end
  end.

Definition _build_tree_from_dict (pick : id → colour_t) (fuel : nat)
    (data : dict) (name : string) : X (list id) :=
  build_value pick fuel (PDict data).

(** [PaperTree(...)] with the loading tied in; [csv_file] is what opening
    and reading the data file gives. *)
Definition PaperTree (int : string → option Z)
    (csv_file : error + list (list string)) (pick : id → colour_t)
    (fuel : nat) (name : option string) (subtrees : list id)
    (authors doi : string) (citations : Z) (by_year all_papers : bool)
    : X id :=
  PaperTree__init__
    (λ by_year,
       let+ reader := returned csv_file in
       let+ data := returned (_load_papers_to_dict int reader by_year) in
       _build_tree_from_dict pick fuel data "CS1")
    pick fuel name subtrees authors doi citations by_year all_papers.

(** ** Vocabulary of the further properties *)

(** The object [x], if it has children, is expanded. *)
Definition opened (h : heap) (x : id) : Prop :=
  ∀ t, h !! x = Some t → _subtrees t ≠ [] → _expanded t = true.

(** [c] is a child of the expanded node [p]. *)
Definition open_child (h : heap) (p c : id) : Prop :=
  ∃ t, h !! p = Some t ∧ _expanded t = true ∧ c ∈ _subtrees t.

(** [m] is a leaf of the displayed-tree rooted at [a]: it is reached from
    [a] through expanded nodes, and is itself a leaf or not expanded. *)
Definition shown (h : heap) (a m : id) : Prop :=
  rtc (open_child h) a m
  ∧ ∃ t, h !! m = Some t ∧ (_subtrees t = [] ∨ _expanded t = false).

(** A childless node of size 0: nothing is drawn for it. *)
Definition blank (t : TMTree) : Prop :=
  data_size t = 0 ∧ _subtrees t = [].

(** [rc] is the rectangle and the colour of the object [m]. *)
Definition drawn_as (h : heap) (m : id) (rc : rect_t * colour_t) : Prop :=
  ∃ t, h !! m = Some t ∧ rc = (rect t, _colour t).

(** Every node below [a] has a name. *)
Definition named_below (h : heap) (a : id) : Prop :=
  ∀ x t, desc h a x → h !! x = Some t → _name t ≠ None.


(** The first coordinate and the second coordinate of a rectangle. *)
Definition rect_x (t : TMTree) : Z := (rect t).1.1.1.
Definition rect_y (t : TMTree) : Z := (rect t).1.1.2.

(** [path] and everything below it can be read: a file whose size is
    known, or a folder whose entries are listed and can be read in turn. *)
Inductive readable (sys : os) : string → Prop :=
| readable_file path size :
    isdir sys path = false → getsize sys path = inr size →
    readable sys path
| readable_dir path filenames :
    isdir sys path = true → listdir sys path = inr filenames →
    (∀ filename, filename ∈ filenames →
                 readable sys (join sys path filename)) →
    readable sys path.

(** The tree at [self] mirrors what is found at [path]: a file is a
    childless node with the file's name and size, a folder is a node with
    the folder's name and one child per entry, in the order listed, each
    mirroring its entry and having the folder's node as its parent. *)
Inductive mirrors (sys : os) (h : heap) : string → id → Prop :=
| mirrors_file path self t :
    h !! self = Some t → isdir sys path = false →
    _name t = Some (basename sys path) → _subtrees t = [] →
    getsize sys path = inr (data_size t) →
    mirrors sys h path self
| mirrors_dir path self t filenames :
    h !! self = Some t → isdir sys path = true →
    _name t = Some (basename sys path) →
    listdir sys path = inr filenames →
    mirrors_each sys h path self (_subtrees t) filenames →
    mirrors sys h path self
with mirrors_each (sys : os) (h : heap)
    : string → id → list id → list string → Prop :=
| mirrors_nil path self : mirrors_each sys h path self [] []
| mirrors_cons path self c l filename filenames :
    mirrors sys h (join sys path filename) c → parent_is h c self →
    mirrors_each sys h path self l filenames →
    mirrors_each sys h path self (c :: l) (filename :: filenames).

Scheme mirrors_mut := Induction for mirrors Sort Prop
  with mirrors_each_mut := Induction for mirrors_each Sort Prop.

(** [rk] decreases from every node to its children. *)
Definition ranked (h : heap) (rk : id → nat) : Prop :=
  ∀ p c, child h p c → (rk c < rk p)%nat.

(** The budget [F] is enough to build the tree of [path] in any store,
    and the tree built has rank below [F]. *)
Definition builds (sys : os) (pick : id → colour_t) (path : string)
    (F : nat) : Prop :=
  ∀ fuel, (F ≤ fuel)%nat → ∀ h pf rk, Inv h → ranked h rk →
    ∃ self w' rk',
      FileSystemTree__init__ sys pick fuel path (mkWorld h pf)
      = Done (self, w')
      ∧ ranked (trees w') rk'
      ∧ (∀ k, (k < length h)%nat → rk' k = rk k)
      ∧ (rk' self < F)%nat.

(** The loop of [_build_tree_from_dict], from the items [l] on. *)
Definition build_each (pick : id → colour_t) (fuel : nat)
    : dict → list id → X (list id) :=
  fix each (l : dict) (subtrees : list id) : X (list id) :=
    match l with
    | [] => xret subtrees
    | (category, contents) :: l' =>
      if decide (category = "papers"%string) then
        let+ subtrees' := paper_leaves pick fuel contents subtrees in
        each l' subtrees'
      else
        let+ category_tree := build_value pick fuel contents in
        let+ citations := sum_data_sizes category_tree in
        let+ node :=
          PaperTree__init__ (λ _, unfinished) pick fuel (Some category)
                            category_tree "" "" citations true false in
        each l' (subtrees ++ [node])
    end.

(** The papers held in a nested dictionary, in the order of its items. *)
Fixpoint papers_of (v : pyval) : list paper :=
  match v with
  | PList entries => entries
  | PDict items =>
    (fix each (l : dict) : list paper :=
       match l with
       | [] => []
       | (_, v') :: l' => papers_of v' ++ each l'
       end) items
  end.

(** The shape the loader gives a dictionary when no category is called
    ['papers']: under the key ['papers'] a list, under every other key a
    dictionary of that shape. *)
Fixpoint shaped (v : pyval) : bool :=
  match v with
  | PList _ => false
  | PDict items =>
    (fix each (l : dict) : bool :=
       match l with
       | [] => true
       | (key, v') :: l' =>
         (if decide (key = "papers"%string)
          then match v' with PList _ => true | PDict _ => false end
          else shaped v')
         && each l'
       end) items
  end.

(** How deep a nested dictionary is. *)
Fixpoint depth (v : pyval) : nat :=
  match v with
  | PList _ => O
  | PDict items =>
    S ((fix each (l : dict) : nat :=
          match l with
          | [] => O
          | (_, v') :: l' => Nat.max (depth v') (each l')
          end) items)
  end.

(** The citations of a list of papers, added up. *)
Definition sum_citations (l : list paper) : Z :=
  foldr (λ p acc, p_citations p + acc) 0 l.

(** The paper a row of six fields stands for, and the names on its way
    into the dictionary. *)
Definition row_paper (int : string → option Z) (row : list string)
    : option paper :=
  match row with
  | [authors; title; year; category_string; doi; citations] =>
    mkPaper authors title year doi <$> int citations
  | _ => None
  end.

Definition row_keys (by_year : bool) (row : list string) : list string :=
  match row with
  | [authors; title; year; category_string; doi; citations] =>
    (if by_year then [year] else [])
    ++ split_colon_space category_string ""
  | _ => []
  end.

(** What is found in a nested dictionary under the keys [keys] and then
    under ['papers'], and the papers listed there. *)
Fixpoint at_path (keys : list string) (d : dict) : option pyval :=
  match keys with
  | [] => item "papers" d
  | key :: keys' =>
    match item key d with
    | Some (PDict d') => at_path keys' d'
    | _ => None
    end
  end.

Definition entries_at (keys : list string) (d : dict) : list paper :=
  match at_path keys d with
  | Some (PList entries) => entries
  | _ => []
  end.

(** The object [n] is a leaf made for the paper [p]. *)
Definition paper_node (w : world) (n : id) (p : paper) : Prop :=
  ∃ t, trees w !! n = Some t ∧ _name t = Some (p_title p)
       ∧ _subtrees t = [] ∧ data_size t = p_citations p
       ∧ (n, mkPaperFields (p_authors p) (p_doi p)) ∈ paper_fields w.

(** [w'] is [w] with objects added: what was there is untouched. *)
Definition extends (w w' : world) : Prop :=
  ∃ new fields, w' = mkWorld (trees w ++ new) (paper_fields w ++ fields).

(** The nodes [subtrees] are distinct parentless nodes, none of them among
    the first [base] objects, of rank below [bound]; their sizes add up
    to the citations of the papers [ps], and each of these papers has its
    leaf below one of them. *)
Definition grove (base : nat) (w : world) (rk : id → nat) (bound : nat)
    (subtrees : list id) (ps : list paper) : Prop :=
  (∀ c, c ∈ subtrees →
     root_node (trees w) c ∧ (base ≤ c)%nat ∧ (rk c < bound)%nat)
  ∧ NoDup subtrees
  ∧ sum_sizes (trees w) subtrees = sum_citations ps
  ∧ (∀ p, p ∈ ps → ∃ c n, c ∈ subtrees ∧ desc (trees w) c n
                          ∧ paper_node w n p).

(** Every object of [w] is in [w'] with the same name, children and
    size, and with the same parent if it had one; the papers' fields of
    [w] are in [w']. *)
Definition kept (w w' : world) : Prop :=
  (∀ k t, trees w !! k = Some t →
     ∃ t', trees w' !! k = Some t' ∧ _name t' = _name t
           ∧ _subtrees t' = _subtrees t ∧ data_size t' = data_size t
           ∧ (_parent_tree t ≠ None → _parent_tree t' = _parent_tree t))
  ∧ (∀ x, x ∈ paper_fields w → x ∈ paper_fields w').

(** The nodes [subtrees] depict the items of a dictionary, in order: the
    list under ['papers'] is depicted by one leaf per paper, any other key
    by a node of that name, with no authors and no doi, whose children
    depict the dictionary under the key and have the node as their
    parent. *)
Inductive depicts (w : world) : dict → list id → Prop :=
| depicts_nil : depicts w [] []
| depicts_papers entries l leaves rest :
    Forall2 (paper_node w) leaves entries → depicts w l rest →
    depicts w (("papers"%string, PList entries) :: l) (leaves ++ rest)
| depicts_category key d l node t rest :
    key ≠ "papers"%string →
    trees w !! node = Some t → _name t = Some key →
    (node, mkPaperFields "" "") ∈ paper_fields w →
    depicts w d (_subtrees t) →
    (∀ c, c ∈ _subtrees t → parent_is (trees w) c node) →
    depicts w l rest →
    depicts w ((key, PDict d) :: l) (node :: rest).

(** Building the trees of the dictionary [data] succeeds in every store
    that satisfies the invariant, adds objects only, and gives a grove
    that depicts [data]. *)
Definition build_ok (pick : id → colour_t) (fuel : nat) (data : dict)
    : Prop :=
  ∀ h pf rk, Inv h → ranked h rk →
    ∃ subtrees w' rk',
      build_value pick fuel (PDict data) (mkWorld h pf) = Done (subtrees, w')
      ∧ extends (mkWorld h pf) w' ∧ Inv (trees w') ∧ ranked (trees w') rk'
      ∧ (∀ k, (k < length h)%nat → rk' k = rk k)
      ∧ grove (length h) w' rk' (depth (PDict data)) subtrees
              (papers_of (PDict data))
      ∧ depicts w' data subtrees.

(** ** Further examples *)

(** [two_leaves] and, beside it, [c = TMTree("c", [], 7)]. *)
Definition leaf_beside : heap :=
  Eval vm_compute in store_after (__init__ 1 (Some "c") [] 7 grey) two_leaves.

(** A folder [docs] that holds the files [a.txt], of 10 bytes, and
    [b.txt], of 20 bytes. *)
Definition docs_os : os :=
  mkOs (λ path, if decide (path = "docs"%string) then "docs"%string
                else if decide (path = "docs/a.txt"%string) then "a.txt"%string
                else "b.txt"%string)
       (λ path, bool_decide (path = "docs"%string))
       (λ path, if decide (path = "docs"%string)
                then inr ["a.txt"%string; "b.txt"%string] else inl OSError)
       (λ path filename, (path +:+ "/") +:+ filename)
       (λ path, if decide (path = "docs/a.txt"%string) then inr 10
                else if decide (path = "docs/b.txt"%string) then inr 20
                else if decide (path = "docs"%string) then inr 4096
                else inl OSError).

(** [int] on the strings of the examples: a string of decimal digits is
    its number, a string with any other character is refused. *)
Definition digit (c : ascii) : option Z :=
  let n := Z.of_nat (nat_of_ascii c) - 48 in
  if (0 <=? n) && (n <=? 9) then Some n else None.

Fixpoint digits (s : string) (acc : Z) : option Z :=
  match s with
  | EmptyString => Some acc
  | String c s' =>
    match digit c with
    | Some d => digits s' (10 * acc + d)
    | None => None
    end
  end.

Definition int_of_digits (s : string) : option Z :=
  match s with
  | EmptyString => None
  | _ => digits s 0
  end.

(** A data file of three papers, and a row whose citations are not a
    number. *)
Definition sample_header : list string :=
  ["Author"; "Title"; "Date"; "Category"; "Url"; "Citations"]%string.

Definition sample_rows : list (list string) :=
  [["Ada"; "On trees"; "2001"; "Education: Tools"; "10.1/1"; "5"];
   ["Bob"; "On maps"; "2001"; "Education"; "10.1/2"; "7"];
   ["Cy"; "More on maps"; "2002"; "Education"; "10.1/3"; "0"]]%string.


(** What the loader makes of the three rows, by year. *)
Definition sample_dict : dict :=
  Eval vm_compute in
    match _load_papers_to_dict int_of_digits (sample_header :: sample_rows)
                               true with
    | inr data => data
    | inl _ => []
    end.

(** * Reasoning about runs *)

Section MonadLemmas.
Context {A B : Type}.

Lemma bind_Ok (m : M A) (k : A → M B) h v h' :
  bind m k h = Ok (v, h') ↔ ∃ a h1, m h = Ok (a, h1) ∧ k a h1 = Ok (v, h').
Proof.
  unfold bind. split.
  - destruct (m h) as [[a h1]| | |]; try discriminate. eauto.
  - intros (a & h1 & -> & Hk). exact Hk.
Qed.

Lemma ret_Ok (a v : A) h h' : ret a h = Ok (v, h') ↔ v = a ∧ h' = h.
Proof. unfold ret. split; [intros [= <- <-] | intros [-> ->]]; auto. Qed.

Lemma lift_Ok (x : exn + A) v h h' :
  lift x h = Ok (v, h') ↔ x = inr v ∧ h' = h.
Proof.
  destruct x as [e|a]; simpl; unfold raise, ret; split.
  - discriminate.
  - intros [[=] _].
  - intros [= <- <-]; auto.
  - intros [[= ->] ->]; auto.
Qed.
End MonadLemmas.

Lemma get_Ok n h t h' : get n h = Ok (t, h') ↔ h !! n = Some t ∧ h' = h.
Proof.
  unfold get. destruct (h !! n) as [t0|]; split.
  - intros [= <- <-]. auto.
  - intros [[= ->] ->]. reflexivity.
  - discriminate.
  - intros [[=] _].
Qed.

Lemma modify_Ok n f h u h' :
  modify n f h = Ok (u, h') ↔ ∃ t, h !! n = Some t ∧ h' = <[n := f t]> h.
Proof.
  unfold modify. destruct (h !! n) as [t|]; split.
  - intros [= <- <-]. eauto.
  - intros (t' & [= <-] & ->). by destruct u.
  - discriminate.
  - intros (? & [=] & _).
Qed.

(** Decompose a successful run into the successful runs of its steps. *)
Ltac monad_inv :=
  repeat match goal with
  | H : bind _ _ _ = Ok _ |- _ =>
    let a := fresh "a" in let h1 := fresh "h" in let E := fresh "E" in
    apply bind_Ok in H as (a & h1 & E & H)
  | H : ret _ _ = Ok _ |- _ => apply ret_Ok in H as [? ?]; subst
  | H : get _ _ = Ok _ |- _ => apply get_Ok in H as [H ?]; subst
  | H : modify _ _ _ = Ok _ |- _ =>
    let t := fresh "t" in let E := fresh "E" in
    apply modify_Ok in H as (t & E & ?); subst
  | H : lift _ _ = Ok _ |- _ => apply lift_Ok in H as [H ?]; subst
  | H : raise _ _ = Ok _ |- _ => discriminate H
  | H : diverge _ = Ok _ |- _ => discriminate H
  | H : is_empty _ _ = Ok _ |- _ => unfold is_empty in H
  | H : Some _ = Some _ |- _ => injection H as H; subst
  | H : ?x = Some _, H' : ?x = Some _ |- _ => rewrite H in H'
  end.

(** ** Fields that a run leaves alone *)

Lemma agree_refl erase h : agree erase h h.
Proof. reflexivity. Qed.

Lemma agree_trans erase h1 h2 h3 :
  agree erase h1 h2 → agree erase h2 h3 → agree erase h1 h3.
Proof. unfold agree. congruence. Qed.

Lemma agree_insert erase h n t t' :
  h !! n = Some t → erase t' = erase t → agree erase h (<[n := t']> h).
Proof.
  intros Hn He. unfold agree. rewrite list_fmap_insert, He.
  apply list_insert_id. by rewrite list_lookup_fmap, Hn.
Qed.

Lemma agree_lookup erase h h' n :
  agree erase h h' → erase <$> (h' !! n) = erase <$> (h !! n).
Proof. intros Ha. rewrite <- !list_lookup_fmap. by rewrite Ha. Qed.

Lemma agree_length erase h h' : agree erase h h' → length h' = length h.
Proof.
  intros Ha. rewrite <- (length_fmap erase h'), <- (length_fmap erase h).
  by rewrite Ha.
Qed.

Lemma agree_Some erase h h' n t :
  agree erase h h' → h !! n = Some t →
  ∃ t', h' !! n = Some t' ∧ erase t' = erase t.
Proof.
  intros Ha Hn. apply (agree_lookup _ _ _ n) in Ha. rewrite Hn in Ha.
  destruct (h' !! n) as [t'|]; [|discriminate]. injection Ha as Ha. eauto.
Qed.

Lemma agree_Some_rev erase h h' n t' :
  agree erase h h' → h' !! n = Some t' →
  ∃ t, h !! n = Some t ∧ erase t' = erase t.
Proof.
  intros Ha Hn. apply (agree_lookup _ _ _ n) in Ha. rewrite Hn in Ha.
  destruct (h !! n) as [t|]; [|discriminate]. injection Ha as Ha. eauto.
Qed.

Lemma for_each_agree {A} erase (body : A → M unit) l :
  (∀ x h u h', x ∈ l → body x h = Ok (u, h') → agree erase h h') →
  ∀ h u h', for_each l body h = Ok (u, h') → agree erase h h'.
Proof.
  induction l as [|x l IH]; intros Hb h u h' Hrun; simpl in Hrun.
  - monad_inv. apply agree_refl.
  - monad_inv. eapply agree_trans.
    + eapply Hb; [left | eassumption].
    + eapply IH; [|eassumption]. intros; eapply Hb; [by right | eassumption].
Qed.

Lemma agree_weaken e1 e2 h h' :
  (∀ t, e2 (e1 t) = e2 t) → agree e1 h h' → agree e2 h h'.
Proof.
  intros Hc Ha. unfold agree in *.
  assert (Hx : ∀ l : heap, e2 <$> l = e2 <$> (e1 <$> l)).
  { intros l. rewrite <- list_fmap_compose. apply list_fmap_ext.
    intros i x _. simpl. by rewrite Hc. }
  by rewrite (Hx h'), (Hx h), Ha.
Qed.

Lemma agree_sym erase h h' : agree erase h h' → agree erase h' h.
Proof. unfold agree. congruence. Qed.

(** ** The forest structure depends on the links only *)

Section Shape.
Variables h h' : heap.
Hypothesis Hs : agree shape h h'.

Lemma shape_lookup n t :
  h !! n = Some t →
  ∃ t', h' !! n = Some t' ∧ _subtrees t' = _subtrees t
        ∧ _parent_tree t' = _parent_tree t.
Proof.
  intros Hn. destruct (agree_Some _ _ _ _ _ Hs Hn) as (t' & Hn' & He).
  exists t'. split; [done|]. by injection He.
Qed.

Lemma shape_lookup_rev n t' :
  h' !! n = Some t' →
  ∃ t, h !! n = Some t ∧ _subtrees t' = _subtrees t
       ∧ _parent_tree t' = _parent_tree t.
Proof.
  intros Hn. destruct (agree_Some_rev _ _ _ _ _ Hs Hn) as (t & Hn' & He).
  exists t. split; [done|]. by injection He.
Qed.

Lemma child_shape p c : child h p c ↔ child h' p c.
Proof.
  split; intros (t & Hp & Hc).
  - destruct (shape_lookup _ _ Hp) as (t' & ? & Hsub & _).
    exists t'. by rewrite Hsub.
  - destruct (shape_lookup_rev _ _ Hp) as (t' & ? & Hsub & _).
    exists t'. by rewrite <- Hsub.
Qed.

Lemma parent_is_shape c p : parent_is h c p ↔ parent_is h' c p.
Proof.
  split; intros (t & Hp & Hc).
  - destruct (shape_lookup _ _ Hp) as (t' & ? & _ & Hpar).
    exists t'. by rewrite Hpar.
  - destruct (shape_lookup_rev _ _ Hp) as (t' & ? & _ & Hpar).
    exists t'. by rewrite <- Hpar.
Qed.

Lemma root_node_shape r : root_node h r ↔ root_node h' r.
Proof.
  split; intros (t & Hp & Hc).
  - destruct (shape_lookup _ _ Hp) as (t' & ? & _ & Hpar).
    exists t'. by rewrite Hpar.
  - destruct (shape_lookup_rev _ _ Hp) as (t' & ? & _ & Hpar).
    exists t'. by rewrite <- Hpar.
Qed.

Lemma desc_shape a b : desc h a b ↔ desc h' a b.
Proof.
  unfold desc. split; apply rtc_subrel; intros x y; apply child_shape.
Qed.

Lemma forest_shape : forest h → forest h'.
Proof.
  intros [Hcl Hun Hnd [rk Hrk]]. split.
  - intros p c Hc%child_shape. destruct (Hcl _ _ Hc) as [t Ht].
    destruct (shape_lookup _ _ Ht) as (t' & ? & _). eauto.
  - intros p q c Hp%child_shape Hq%child_shape. eauto.
  - intros p t' Hp. destruct (shape_lookup_rev _ _ Hp) as (t & Ht & Hsub & _).
    rewrite Hsub. eauto.
  - exists rk. intros p c Hc%child_shape. eauto.
Qed.

Lemma wf_shape : wf h → wf h'.
Proof.
  intros [Hcl Hpar Hnd [rk Hrk]]. split.
  - intros p c Hc%child_shape. destruct (Hcl _ _ Hc) as [t Ht].
    destruct (shape_lookup _ _ Ht) as (t' & ? & _). eauto.
  - intros p c Hc%child_shape. by apply parent_is_shape, Hpar.
  - intros p t' Hp. destruct (shape_lookup_rev _ _ Hp) as (t & Ht & Hsub & _).
    rewrite Hsub. eauto.
  - exists rk. intros p c Hc%child_shape. eauto.
Qed.
End Shape.

Lemma shape_no_size t : shape (no_size t) = shape t.
Proof. reflexivity. Qed.
Lemma shape_no_rect t : shape (no_rect t) = shape t.
Proof. reflexivity. Qed.
Lemma shape_no_expanded t : shape (no_expanded t) = shape t.
Proof. reflexivity. Qed.

(** ** Trees in a well-formed store *)

Lemma wf_forest h : wf h → forest h.
Proof.
  intros [Hcl Hpa Hnd Hac]. split; [done| |done|done].
  intros p q c Hp Hq. apply Hpa in Hp as (t & Ht & Hp).
  apply Hpa in Hq as (t' & Ht' & Hq). congruence.
Qed.

Section ForestOnly.
Variable h : heap.
Hypothesis Hf : forest h.

Lemma desc_rank (rk : id → nat) a b :
  (∀ p c, child h p c → (rk c < rk p)%nat) →
  desc h a b → (rk b ≤ rk a)%nat.
Proof.
  intros Hrk. induction 1 as [|x y z Hxy _ IH]; [lia|].
  apply Hrk in Hxy. lia.
Qed.

Lemma forest_no_cycle a b : desc h a b → child h b a → False.
Proof.
  destruct (f_acyclic _ Hf) as [rk Hrk]. intros Hd Hc.
  apply (desc_rank rk) in Hd; [|done]. apply Hrk in Hc. lia.
Qed.

Lemma forest_ancestors_linear a b n :
  desc h a n → desc h b n → desc h a b ∨ desc h b a.
Proof.
  intros Ha. revert b. unfold desc in Ha. revert n Ha.
  apply (rtc_ind_r (λ n, ∀ b, desc h b n → desc h a b ∨ desc h b a)).
  - intros b Hb. by right.
  - intros y n Hay Hyn IH b Hb.
    apply rtc_inv_r in Hb as [->|(y' & Hby' & Hy'n)].
    + left. by eapply rtc_r.
    + rewrite (f_unique _ Hf _ _ _ Hy'n Hyn) in Hby'. by apply IH.
Qed.

Lemma forest_siblings_disjoint p c1 c2 n :
  child h p c1 → child h p c2 → c1 ≠ c2 →
  desc h c1 n → desc h c2 n → False.
Proof.
  assert (Hone : ∀ x y, child h p x → child h p y → x ≠ y →
                        desc h x y → False).
  { intros x y Hx Hy Hne Hd.
    apply rtc_inv_r in Hd as [->|(q & Hxq & Hqy)]; [done|].
    rewrite (f_unique _ Hf _ _ _ Hqy Hy) in Hxq.
    by eapply forest_no_cycle. }
  intros H1 H2 Hne Hd1 Hd2.
  destruct (forest_ancestors_linear _ _ _ Hd1 Hd2); eauto.
Qed.
End ForestOnly.

Section Forest.
Variable h : heap.
Hypothesis Hwf : wf h.

Lemma no_cycle a b : desc h a b → child h b a → False.
Proof. apply forest_no_cycle, wf_forest, Hwf. Qed.

Lemma parent_unique c p q : child h p c → child h q c → p = q.
Proof. apply (f_unique _ (wf_forest _ Hwf)). Qed.

Lemma ancestors_linear a b n :
  desc h a n → desc h b n → desc h a b ∨ desc h b a.
Proof. apply forest_ancestors_linear, wf_forest, Hwf. Qed.

Lemma siblings_disjoint p c1 c2 n :
  child h p c1 → child h p c2 → c1 ≠ c2 →
  desc h c1 n → desc h c2 n → False.
Proof. apply forest_siblings_disjoint, wf_forest, Hwf. Qed.

Lemma root_not_child r p : root_node h r → child h p r → False.
Proof.
  intros (t & Ht & Hr) Hc. apply (wf_parent _ Hwf) in Hc as (t' & Ht' & Hp).
  congruence.
Qed.

Lemma desc_root r a : root_node h r → desc h a r → a = r.
Proof.
  intros Hr Hd. apply rtc_inv_r in Hd as [->|(y & _ & Hc)]; [done|].
  by destruct (root_not_child _ _ Hr Hc).
Qed.

Lemma trees_disjoint r1 r2 n :
  root_node h r1 → root_node h r2 → desc h r1 n → desc h r2 n → r1 = r2.
Proof.
  intros H1 H2 Hd1 Hd2. destruct (ancestors_linear _ _ _ Hd1 Hd2) as [Hd|Hd].
  - by apply (desc_root _ _ H2).
  - symmetry. by apply (desc_root _ _ H1).
Qed.

Lemma desc_leaf a n t : h !! a = Some t → _subtrees t = [] → desc h a n → n = a.
Proof.
  intros Ha Hl Hd. apply rtc_inv in Hd as [->|(y & (t' & Ht' & Hy) & _)];
    [done|].
  rewrite Ha in Ht'. injection Ht' as <-. rewrite Hl in Hy.
  by apply elem_of_nil in Hy.
Qed.
End Forest.

Lemma sum_sizes_ext h h' l :
  (∀ c, c ∈ l → h' !! c = h !! c) → sum_sizes h' l = sum_sizes h l.
Proof.
  induction l as [|c l IH]; intros Heq; [done|]. simpl.
  rewrite IH by (intros; apply Heq; by right).
  unfold size_at. rewrite Heq by left. done.
Qed.

Lemma good_ext h h' n :
  good h n → h' !! n = h !! n → (∀ m, child h n m → h' !! m = h !! m) →
  good h' n.
Proof.
  intros Hg Hn Hm t Ht Hne. rewrite Hn in Ht.
  rewrite (Hg t Ht Hne). symmetry. apply sum_sizes_ext.
  intros c Hc. apply Hm. by exists t.
Qed.

(** ** Recomputing data sizes below a node *)

Lemma agree_size_shape h h' : agree no_size h h' → agree shape h h'.
Proof. apply agree_weaken. intros t. apply shape_no_size. Qed.

Section SumOver.
Variable f : id → M Z.
Hypothesis Hf : ∀ c h v h', forest h → f c h = Ok (v, h') → resized c h v h'.

Lemma sum_over_resized p l :
  ∀ h acc total h',
    forest h → (∀ c, c ∈ l → child h p c) → NoDup l →
    sum_over l f acc h = Ok (total, h') →
    agree no_size h h'
    ∧ (∀ n, (∀ c, c ∈ l → ¬ desc h c n) → h' !! n = h !! n)
    ∧ (∀ c n, c ∈ l → desc h c n → good h' n)
    ∧ total = acc + sum_sizes h' l
    ∧ (∀ n t, h !! n = Some t → _subtrees t = [] → h' !! n = Some t).
Proof.
  induction l as [|c l IH]; intros h acc total h' Hwf Hch Hnd Hrun;
    simpl in Hrun.
  - monad_inv. repeat split; try done.
    + intros c n Hc. by apply elem_of_nil in Hc.
    + simpl. lia.
  - monad_inv. rename a into v, h0 into h1.
    apply NoDup_cons in Hnd as [Hcl Hnd].
    destruct (Hf _ _ _ _ Hwf E) as (Ha1 & Hout1 & Hgood1 & Hv & Hleaf1).
    pose proof (agree_size_shape _ _ Ha1) as Hs1.
    pose proof (forest_shape _ _ Hs1 Hwf) as Hwf1.
    destruct (IH h1 (acc + v) total h' Hwf1) as (Ha2 & Hout2 & Hgood2 & Ht & Hleaf2);
      [|done|done|].
    { intros c' Hc'. apply (child_shape _ _ Hs1), Hch. by right. }
    assert (Hsib : ∀ c' n, c' ∈ l → desc h c n → ¬ desc h1 c' n).
    { intros c' n Hc' Hd Hd'. apply (desc_shape _ _ Hs1) in Hd'.
      eapply (forest_siblings_disjoint h Hwf p c c' n); eauto.
      - apply Hch. by left.
      - apply Hch. by right.
      - intros ->. done. }
    repeat split.
    + by eapply agree_trans.
    + intros n Hn. rewrite Hout2.
      * apply Hout1. apply Hn. by left.
      * intros c' Hc' Hd. apply (desc_shape _ _ Hs1) in Hd.
        eapply Hn; [by right|done].
    + intros c0 n [->|Hc0]%elem_of_cons Hd.
      * eapply good_ext; [by apply Hgood1| |].
        -- apply Hout2. intros c' Hc'. by apply Hsib.
        -- intros m Hm. apply Hout2. intros c' Hc'. apply Hsib; [done|].
           eapply rtc_r; [exact Hd|]. by apply (child_shape _ _ Hs1).
      * apply (Hgood2 c0); [done|]. by apply (desc_shape _ _ Hs1).
    + assert (Hc : size_at h' c = v).
      { rewrite <- Hv. unfold size_at. rewrite Hout2; [done|].
        intros c' Hc'. apply Hsib; [done|]. apply rtc_refl. }
      simpl. rewrite Ht, Hc. lia.
    + intros n t Hn Hl. eauto.
Qed.
End SumOver.

Lemma update_data_sizes_resized_forest fuel :
  ∀ r h v h', forest h → update_data_sizes fuel r h = Ok (v, h') →
              resized r h v h'.
Proof.
  induction fuel as [|fuel IH]; intros r h v h' Hwf Hrun; simpl in Hrun;
    [discriminate|].
  monad_inv. rename a into t. destruct (_subtrees t) as [|c0 l0] eqn:Hsub.
  - monad_inv. repeat split; try done.
    + intros n Hd. rewrite (desc_leaf h r n t E Hsub Hd).
      intros t' Ht' Hne. congruence.
    + unfold size_at. by rewrite E.
  - rewrite <- Hsub in Hrun. monad_inv.
    match goal with
    | H : sum_over _ _ _ _ = Ok (?a, ?h1) |- _ =>
      rename a into total; rename h1 into hs
    end.
    match goal with
    | H : hs !! r = Some ?x |- _ => rename x into t1; rename H into E1
    end.
    match goal with
    | H : <[r:=_]> hs !! r = Some _ |- _ => rename H into Hrun
    end.
    rename hs into h1.
    destruct (sum_over_resized _ IH r (_subtrees t) h 0 total h1 Hwf)
      as (Ha & Hout & Hgood & Htot & Hleaf); [| |done|].
    { intros c Hc. by exists t. }
    { by eapply f_nodup. }
    assert (Hr1 : h1 !! r = Some t).
    { rewrite Hout; [done|]. intros c Hc Hd.
      eapply (forest_no_cycle h Hwf c r); [done|]. by exists t. }
    rewrite Hr1 in E1. injection E1 as <-.
    rewrite list_lookup_insert_eq in Hrun by (by eapply lookup_lt_Some).
    injection Hrun as <-.
    pose proof (agree_size_shape _ _ Ha) as Hs1.
    assert (Hkids : ∀ n tn, desc h r n → h1 !! n = Some tn →
                            r ∉ _subtrees tn).
    { intros n tn Hd Hn Hin. eapply (forest_no_cycle h Hwf r n); [done|].
      apply (child_shape _ _ Hs1). by exists tn. }
    repeat split.
    + eapply agree_trans; [done|]. by eapply agree_insert.
    + intros n Hn. rewrite list_lookup_insert_ne.
      * apply Hout. intros c Hc Hd. apply Hn.
        eapply rtc_l; [|done]. by exists t.
      * intros <-. apply Hn, rtc_refl.
    + intros n Hd. destruct (decide (n = r)) as [->|Hne].
      * intros t' Ht' _.
        rewrite list_lookup_insert_eq in Ht' by (by eapply lookup_lt_Some).
        injection Ht' as <-. simpl.
        rewrite (sum_sizes_ext h1) by
          (intros c Hc; apply list_lookup_insert_ne; intros <-;
           by apply (Hkids r t (rtc_refl _ _) Hr1)).
        lia.
      * apply rtc_inv in Hd as [->|(y & Hy & Hd)]; [done|].
        destruct Hy as (t' & Ht' & Hy). rewrite E in Ht'. injection Ht' as <-.
        assert (Hdn : desc h r n).
        { eapply rtc_l; [|done]. by exists t. }
        eapply good_ext; [by apply (Hgood y n)| |].
        -- by apply list_lookup_insert_ne.
        -- intros m (tn & Htn & Hm). apply list_lookup_insert_ne. intros <-.
           by apply (Hkids n tn).
    + unfold size_at.
      rewrite list_lookup_insert_eq by (by eapply lookup_lt_Some). done.
    + intros n tn Hn Hl. rewrite list_lookup_insert_ne; [eauto|].
      intros <-. congruence.
Qed.

Lemma update_data_sizes_resized fuel r h v h' :
  wf h → update_data_sizes fuel r h = Ok (v, h') → resized r h v h'.
Proof. intros Hwf. by apply update_data_sizes_resized_forest, wf_forest. Qed.

(** The constructor's helper and [update_data_sizes] are the same function. *)
Lemma _sum_size_update_data_sizes : _sum_size = update_data_sizes.
Proof. reflexivity. Qed.

(** ** Climbing to the root *)

Lemma climb_Ok fuel : ∀ n h r h',
  climb fuel n h = Ok (r, h') → h' = h ∧ root_node h r ∧ on_chain h n r.
Proof.
  induction fuel as [|fuel IH]; intros n h r h' Hrun; simpl in Hrun;
    [discriminate|].
  monad_inv. rename a into t. destruct (_parent_tree t) as [p|] eqn:Hp.
  - destruct (IH _ _ _ _ Hrun) as (-> & Hr & Hc). repeat split; [done|].
    eapply rtc_l; [|exact Hc]. by exists t.
  - monad_inv. repeat split. + by exists t. + apply rtc_refl.
Qed.

Lemma climb_attached h (Hwf : wf h) r0 fuel : ∀ n r h',
  root_node h r0 → desc h r0 n → climb fuel n h = Ok (r, h') → r = r0.
Proof.
  induction fuel as [|fuel IH]; intros n r h' Hr0 Hd Hrun; simpl in Hrun;
    [discriminate|].
  monad_inv. rename a into t. destruct (_parent_tree t) as [p|] eqn:Hp.
  - apply rtc_inv_r in Hd as [->|(y & Hd & Hy)].
    + destruct Hr0 as (t0 & Ht0 & Hn). congruence.
    + destruct (wf_parent _ Hwf _ _ Hy) as (t' & Ht' & Hp').
      assert (y = p) as -> by congruence. eauto.
  - monad_inv. symmetry. eapply desc_root; eauto. by exists t.
Qed.

Lemma climb_chain h x : ∀ a, on_chain h a x →
  ∀ fuel r h', climb fuel a h = Ok (r, h') →
               ∃ fuel', climb fuel' x h = Ok (r, h').
Proof.
  intros a Hc. induction Hc as [a|a b x (t & Ht & Hp) _ IH];
    intros fuel r h' Hrun; [eauto|].
  destruct fuel as [|fuel]; simpl in Hrun; [discriminate|].
  monad_inv. rewrite Hp in Hrun. eauto.
Qed.

(** A node on the chain that sits in a tree sits in the tree found. *)
Lemma chain_attached h (Hwf : wf h) a x fuel r h' r2 :
  climb fuel a h = Ok (r, h') → on_chain h a x →
  root_node h r2 → desc h r2 x → r2 = r.
Proof.
  intros Hrun Hc Hr2 Hd.
  destruct (climb_chain _ _ _ Hc _ _ _ Hrun) as (fuel' & Hx).
  symmetry. eapply (climb_attached h Hwf r2); eauto.
Qed.

(** ** Restoring the weight-sum invariant from the root *)

Lemma weights_after_resize h r v h' :
  wf h → root_node h r → resized r h v h' →
  (∀ r2 n, root_node h r2 → r2 ≠ r → desc h r2 n → good h n) →
  weights_ok h'.
Proof.
  intros Hwf Hr (Ha & Hout & Hgood & _ & _) Hother r2 n Hr2 Hd.
  pose proof (agree_size_shape _ _ Ha) as Hs.
  apply (root_node_shape _ _ Hs) in Hr2. apply (desc_shape _ _ Hs) in Hd.
  destruct (decide (r2 = r)) as [->|Hne]; [by apply Hgood|].
  assert (Hnot : ∀ m, desc h r2 m → ¬ desc h r m).
  { intros m Hm Hm'. apply Hne. by eapply (trees_disjoint h Hwf). }
  eapply good_ext; [by eapply Hother| |].
  - by apply Hout, Hnot.
  - intros m Hm. apply Hout, Hnot. by eapply rtc_r.
Qed.

Lemma _helper_root_Ok fuel n h u h' :
  _helper_root fuel n h = Ok (u, h') →
  ∃ r v, climb fuel n h = Ok (r, h) ∧ update_data_sizes fuel r h = Ok (v, h').
Proof.
  unfold _helper_root. intros Hrun. monad_inv.
  destruct (climb_Ok _ _ _ _ _ E) as (-> & _ & _). eauto.
Qed.

(** [_helper_root] restores the invariant when every tree but the one it
    recomputes is already in order. *)
Lemma _helper_root_weights fuel n h u h' :
  wf h → _helper_root fuel n h = Ok (u, h') →
  (∀ r r2 m, climb fuel n h = Ok (r, h) → root_node h r2 → r2 ≠ r →
             desc h r2 m → good h m) →
  wf h' ∧ weights_ok h' ∧ agree no_size h h'
  ∧ (∀ m t, h !! m = Some t → _subtrees t = [] → h' !! m = Some t).
Proof.
  intros Hwf Hrun Hother.
  destruct (_helper_root_Ok _ _ _ _ _ Hrun) as (r & v & Hc & Hu).
  destruct (climb_Ok _ _ _ _ _ Hc) as (_ & Hr & _).
  pose proof (update_data_sizes_resized _ _ _ _ _ Hwf Hu) as Hres.
  pose proof Hres as (Ha & _ & _ & _ & Hleaf).
  split; [|split; [|split]]; try done.
  - eapply wf_shape; [|done]. by apply agree_size_shape.
  - eapply weights_after_resize; eauto.
Qed.

(** ** Runs that only touch rectangles or expansion flags *)

(** Chain [agree] backwards along the recorded steps of a run; [IH] covers
    the recursive calls. *)
Ltac agree_tac IH :=
  repeat match goal with
  | |- agree _ ?h ?h => apply agree_refl
  | |- agree ?e ?h (<[?n := ?t']> ?h) =>
    eapply agree_insert; [eassumption | reflexivity]
  | |- agree ?e ?h (<[?n := ?t']> ?h1) =>
    eapply (agree_trans e h h1);
    [|eapply agree_insert; [eassumption | reflexivity]]
  | H : ?m ?h1 = Ok (_, ?h') |- agree ?e ?h ?h' =>
    eapply (agree_trans e h h1);
    [|solve [ eapply IH; eassumption
            | eapply for_each_agree; [|eassumption];
              intros; cbv beta in *; eapply IH; eassumption ]]
  end.

Lemma _calculate_dimension_Ok proportion total offset last h v h' :
  _calculate_dimension proportion total offset last h = Ok (v, h') →
  h' = h
  ∧ if last then v = total - offset
    else ∃ q, PyFloat.int_mul total proportion = inr q
              ∧ PyFloat.trunc q = inr v.
Proof.
  unfold _calculate_dimension. destruct last; simpl; intros Hrun; monad_inv.
  - done.
  - eauto.
Qed.

Lemma _distribute_loop_agree (rec : id → rect_t → M unit) total_size r len :
  (∀ n r' h u h', rec n r' h = Ok (u, h') → agree no_rect h h') →
  ∀ l i offset h u h',
    _distribute_loop rec total_size r len i offset l h = Ok (u, h') →
    agree no_rect h h'.
Proof.
  intros Hrec. destruct r as [[[x y] width] height].
  induction l as [|c l IH]; intros i offset h u h' Hrun; simpl in Hrun.
  - monad_inv. apply agree_refl.
  - monad_inv. destruct (height <? width); monad_inv.
    all: match goal with
         | H : _calculate_dimension _ _ _ _ _ = Ok _ |- _ =>
           apply _calculate_dimension_Ok in H as [-> _]
         end.
    all: eapply agree_trans; [|eapply IH; eassumption].
    all: agree_tac Hrec.
Qed.

Lemma update_rectangles_agree fuel : ∀ n r h u h',
  update_rectangles fuel n r h = Ok (u, h') → agree no_rect h h'.
Proof.
  induction fuel as [|fuel IH]; intros n r h u h' Hrun; simpl in Hrun;
    [discriminate|].
  apply bind_Ok in Hrun as (u1 & h1 & Hbase & Hdist).
  apply (agree_trans _ _ h1).
  - unfold _handle_base_cases in Hbase. monad_inv.
    destruct (_ && _).
    + monad_inv. agree_tac IH.
    + destruct (_ =? 0); monad_inv; agree_tac IH.
  - unfold _distribute_space_subtrees in Hdist. monad_inv.
    destruct (_ && _); monad_inv; [|apply agree_refl].
    eapply agree_trans; [|eapply _distribute_loop_agree; [apply IH|eassumption]].
    agree_tac IH.
Qed.

Lemma expand_agree n h u h' :
  expand n h = Ok (u, h') → agree no_expanded h h'.
Proof.
  unfold expand. intros Hrun. monad_inv. destruct (_subtrees _); monad_inv;
    agree_tac I.
Qed.

Lemma expand_all_agree fuel : ∀ n h u h',
  expand_all fuel n h = Ok (u, h') → agree no_expanded h h'.
Proof.
  induction fuel as [|fuel IH]; intros n h u h' Hrun; simpl in Hrun;
    [discriminate|].
  monad_inv. destruct (_subtrees _) eqn:Hsub; monad_inv; agree_tac IH.
Qed.

Lemma _collapse_parent_agree fuel : ∀ n h u h',
  _collapse_parent fuel n h = Ok (u, h') → agree no_expanded h h'.
Proof.
  induction fuel as [|fuel IH]; intros n h u h' Hrun; simpl in Hrun;
    [discriminate|].
  monad_inv. destruct (_subtrees _) eqn:Hsub; monad_inv; agree_tac IH.
Qed.

Lemma collapse_agree fuel n h u h' :
  collapse fuel n h = Ok (u, h') → agree no_expanded h h'.
Proof.
  unfold collapse. intros Hrun. monad_inv.
  destruct (_parent_tree _); monad_inv;
    agree_tac (_collapse_parent_agree fuel).
Qed.

Lemma _get_root_Ok fuel : ∀ n h r h', _get_root fuel n h = Ok (r, h') → h' = h.
Proof.
  induction fuel as [|fuel IH]; intros n h r h' Hrun; simpl in Hrun;
    [discriminate|].
  monad_inv. destruct (_parent_tree _); monad_inv; eauto.
Qed.

Lemma collapse_all_agree fuel n h u h' :
  collapse_all fuel n h = Ok (u, h') → agree no_expanded h h'.
Proof.
  unfold collapse_all. intros Hrun. monad_inv.
  apply _get_root_Ok in E as ->. by eapply _collapse_parent_agree.
Qed.

Lemma agree_rect_core h h' : agree no_rect h h' → agree core h h'.
Proof. apply agree_weaken. by intros []. Qed.
Lemma agree_expanded_core h h' : agree no_expanded h h' → agree core h h'.
Proof. apply agree_weaken. by intros []. Qed.
Lemma agree_core_shape h h' : agree core h h' → agree shape h h'.
Proof. apply agree_weaken. by intros []. Qed.

Lemma core_lookup h h' n t :
  agree core h h' → h !! n = Some t →
  ∃ t', h' !! n = Some t' ∧ data_size t' = data_size t
        ∧ _subtrees t' = _subtrees t ∧ _parent_tree t' = _parent_tree t
        ∧ _name t' = _name t ∧ _colour t' = _colour t.
Proof.
  intros Ha Hn. destruct (agree_Some _ _ _ _ _ Ha Hn) as (t' & Hn' & He).
  exists t'. split; [done|]. injection He. auto.
Qed.

Lemma size_at_core h h' n : agree core h h' → size_at h' n = size_at h n.
Proof.
  intros Ha. unfold size_at. destruct (h !! n) as [t|] eqn:Hn.
  - destruct (core_lookup _ _ _ _ Ha Hn) as (t' & -> & Hs & _). done.
  - apply lookup_ge_None in Hn. rewrite <- (agree_length _ _ _ Ha) in Hn.
    apply lookup_ge_None in Hn. by rewrite Hn.
Qed.

Lemma Inv_core h h' : agree core h h' → Inv h → Inv h'.
Proof.
  intros Ha [Hwf Hw]. pose proof (agree_core_shape _ _ Ha) as Hs. split.
  - by eapply wf_shape.
  - intros r n Hr%(root_node_shape _ _ Hs) Hd%(desc_shape _ _ Hs) t' Ht' Hne.
    destruct (core_lookup _ _ _ _ (agree_sym _ _ _ Ha) Ht')
      as (t & Ht & Hsz & Hsub & _).
    rewrite <- Hsz, <- Hsub in *. rewrite (Hw r n Hr Hd t Ht Hne).
    clear -Ha. induction (_subtrees t) as [|c l IH]; [done|]. simpl.
    by rewrite IH, (size_at_core _ _ c Ha).
Qed.

(** ** Sizes of leaves are out of reach of the recomputation *)

Lemma sum_over_leaves (f : id → M Z) :
  (∀ c h v h', f c h = Ok (v, h') → agree no_size h h' ∧ leaves_kept h h') →
  ∀ l acc h v h', sum_over l f acc h = Ok (v, h') →
                  agree no_size h h' ∧ leaves_kept h h'.
Proof.
  intros Hf. induction l as [|c l IH]; intros acc h v h' Hrun; simpl in Hrun;
    monad_inv.
  - split; [apply agree_refl|]. by intros n t.
  - destruct (Hf _ _ _ _ E) as [Ha1 Hl1].
    destruct (IH _ _ _ _ Hrun) as [Ha2 Hl2]. split.
    + by eapply agree_trans.
    + intros n t Hn Hs. eauto.
Qed.

Lemma update_data_sizes_leaves fuel : ∀ r h v h',
  update_data_sizes fuel r h = Ok (v, h') →
  agree no_size h h' ∧ leaves_kept h h'.
Proof.
  induction fuel as [|fuel IH]; intros r h v h' Hrun; simpl in Hrun;
    [discriminate|].
  monad_inv. rename a into t. destruct (_subtrees t) as [|c0 l0] eqn:Hsub.
  - monad_inv. split; [apply agree_refl|]. by intros n t'.
  - rewrite <- Hsub in Hrun. monad_inv.
    match goal with
    | H : sum_over _ _ _ _ = Ok _ |- _ =>
      destruct (sum_over_leaves _ IH _ _ _ _ _ H) as [Ha Hl]
    end.
    match goal with
    | H : ?hs !! r = Some ?x |- agree _ _ (<[r := _]> ?hs) ∧ _ =>
      rename x into t1; rename H into Hr1
    end.
    destruct (agree_Some _ _ _ _ _ Ha E) as (t1' & Ht1' & Het).
    rewrite Hr1 in Ht1'. injection Ht1' as <-.
    split.
    + eapply agree_trans; [exact Ha|]. by eapply agree_insert.
    + intros n tn Hn Hs. rewrite list_lookup_insert_ne; [by eapply Hl|].
      intros <-. rewrite E in Hn. injection Hn as <-. congruence.
Qed.

Lemma _helper_root_leaves fuel n h u h' :
  _helper_root fuel n h = Ok (u, h') → agree no_size h h' ∧ leaves_kept h h'.
Proof.
  intros Hrun. destruct (_helper_root_Ok _ _ _ _ _ Hrun) as (r & v & _ & Hu).
  by eapply update_data_sizes_leaves.
Qed.

(** The size a leaf gets from [_apply_size_change]. *)
Lemma _apply_size_change_Ok n factor h u h' :
  _apply_size_change n factor h = Ok (u, h') →
  ∃ t z, h !! n = Some t ∧ h' = <[n := set_data_size z t]> h
    ∧ (PyFloat.gt_zero factor = true →
       ∃ p c, PyFloat.int_mul (data_size t) factor = inr p
              ∧ PyFloat.ceil p = inr c ∧ z = data_size t + c)
    ∧ (PyFloat.gt_zero factor = false → data_size t = 0 → z = 1)
    ∧ (PyFloat.gt_zero factor = false → data_size t ≠ 0 →
       ∃ p c, PyFloat.int_mul (data_size t) factor = inr p
              ∧ PyFloat.floor p = inr c ∧ z = Z.max 1 (data_size t + c)).
Proof.
  unfold _apply_size_change, _increase_size, _decrease_size.
  destruct (PyFloat.gt_zero factor) eqn:Hgt; intros Hrun; monad_inv.
  - eexists _, _. split; [done|]. split; [done|].
    split; [eauto|]. split; discriminate.
  - destruct (data_size a =? 0) eqn:Hz; monad_inv.
    + apply Z.eqb_eq in Hz. eexists _, _. split; [done|]. split; [done|].
      split; [discriminate|]. split; [intros; lia|]. done.
    + apply Z.eqb_neq in Hz. eexists _, _. split; [done|]. split; [done|].
      split; [discriminate|]. split; [done|]. eauto.
Qed.

(** ** The pattern of the size-changing mutations

    Objects in [X] are touched, then [_helper_root] runs.  When every
    touched object that still sits in a tree sits in the tree that is
    recomputed, the invariant is back. *)

Lemma desc_unchanged h0 h1 r2 m :
  (∀ k, desc h1 r2 k → h1 !! k = h0 !! k) → desc h1 r2 m → desc h0 r2 m.
Proof.
  intros Hsame Hd. unfold desc in Hd. revert m Hd.
  apply (rtc_ind_r (λ m, desc h0 r2 m)); [apply rtc_refl|].
  intros y m Hy (t & Ht & Hm) IH. eapply rtc_r; [exact IH|].
  exists t. by rewrite <- Hsame.
Qed.

Lemma touch_then_helper_root h0 h1 (X : id → Prop) fuel a u h' :
  Inv h0 → wf h1 → (∀ k, ¬ X k → h1 !! k = h0 !! k) →
  _helper_root fuel a h1 = Ok (u, h') →
  (∀ r x r2, climb fuel a h1 = Ok (r, h1) → X x →
             root_node h1 r2 → desc h1 r2 x → r2 = r) →
  Inv h'.
Proof.
  intros [Hwf0 Hw0] Hwf1 Hsame Hrun Htouch.
  destruct (_helper_root_weights _ _ _ _ _ Hwf1 Hrun) as (Hwf' & Hw' & _);
    [|by split].
  intros r r2 m Hc Hr2 Hne Hd.
  assert (Hkeep : ∀ k, desc h1 r2 k → h1 !! k = h0 !! k).
  { intros k Hk. apply Hsame. intros Hx. apply Hne. by eapply Htouch. }
  assert (Hr0 : root_node h0 r2).
  { destruct Hr2 as (t & Ht & Hp). exists t.
    by rewrite <- (Hkeep r2 (rtc_refl _ _)). }
  pose proof (desc_unchanged _ _ _ _ Hkeep Hd) as Hd0.
  eapply good_ext; [by apply (Hw0 r2 m)|by apply Hkeep|].
  intros c (t & Ht & Hc'). apply Hkeep. eapply rtc_r; [exact Hd|].
  exists t. by rewrite (Hkeep m Hd).
Qed.

Lemma wf_insert_same_links h n t t' :
  wf h → h !! n = Some t → shape t' = shape t → wf (<[n := t']> h).
Proof.
  intros Hwf Hn He. eapply wf_shape; [|exact Hwf]. by eapply agree_insert.
Qed.

Lemma change_size_Inv fuel n factor h u h' :
  Inv h → change_size fuel n factor h = Ok (u, h') → Inv h'.
Proof.
  intros HI Hrun. unfold change_size, _is_leaf in Hrun. monad_inv.
  destruct (negb _); monad_inv; [done|].
  match goal with
  | H : _apply_size_change _ _ _ = Ok _ |- _ =>
    apply _apply_size_change_Ok in H as (t & z & Ht & -> & _)
  end.
  eapply (touch_then_helper_root h _ (λ x, x = n)); [done| | |eassumption|].
  - eapply wf_insert_same_links; [apply HI|done|done].
  - intros k Hk. by apply list_lookup_insert_ne.
  - intros r x r2 Hc -> Hr2 Hd. symmetry.
    eapply climb_attached; [|exact Hr2|exact Hd|exact Hc].
    eapply wf_insert_same_links; [apply HI|done|done].
Qed.

(** ** Structural edits: taking a child out, hanging a leaf in *)

Lemma list_remove_subset x l l' :
  list_remove x l = Some l' → ∀ y, y ∈ l' → y ∈ l.
Proof.
  revert l'. induction l as [|z l IH]; intros l' Hr y Hy; simpl in Hr;
    [discriminate|].
  destruct (decide (z = x)) as [->|Hne].
  - injection Hr as <-. by right.
  - destruct (list_remove x l) as [l0|]; [|discriminate].
    injection Hr as <-. apply elem_of_cons in Hy as [->|Hy]; [left|right].
    by eapply IH.
Qed.

Lemma list_remove_elem x l l' : list_remove x l = Some l' → x ∈ l.
Proof.
  revert l'. induction l as [|z l IH]; intros l' Hr; simpl in Hr;
    [discriminate|].
  destruct (decide (z = x)) as [->|Hne]; [left|].
  destruct (list_remove x l) as [l0|]; [|discriminate]. right. by eapply IH.
Qed.

Lemma list_remove_None x l : list_remove x l = None ↔ x ∉ l.
Proof.
  induction l as [|z l IH]; simpl.
  - split; [intros _; apply not_elem_of_nil|done].
  - destruct (decide (z = x)) as [->|Hne].
    + split; [discriminate|]. intros Hn. destruct Hn. left.
    + destruct (list_remove x l) as [l0|]; simpl.
      * split; [discriminate|]. intros Hn. exfalso.
        assert (x ∉ l) as Hl by (intros ?; apply Hn; by right).
        apply IH in Hl. discriminate.
      * split; [|done]. intros _. apply not_elem_of_cons. split; [done|].
        by apply IH.
Qed.

Lemma list_remove_NoDup x l l' :
  NoDup l → list_remove x l = Some l' → NoDup l' ∧ x ∉ l'.
Proof.
  revert l'. induction l as [|z l IH]; intros l' Hnd Hr; simpl in Hr;
    [discriminate|].
  apply NoDup_cons in Hnd as [Hz Hnd].
  destruct (decide (z = x)) as [->|Hne].
  - injection Hr as <-. done.
  - destruct (list_remove x l) as [l0|] eqn:Hl; [|discriminate].
    injection Hr as <-. destruct (IH l0 Hnd eq_refl) as [Hnd0 Hx0]. split.
    + apply NoDup_cons. split; [|done]. intros Hin. apply Hz.
      by eapply list_remove_subset.
    + apply not_elem_of_cons. split; [done|done].
Qed.

Lemma child_insert h p pt pt' a b :
  h !! p = Some pt →
  child (<[p := pt']> h) a b ↔
  if decide (a = p) then b ∈ _subtrees pt' else child h a b.
Proof.
  intros Hp. pose proof (lookup_lt_Some _ _ _ Hp) as Hlt. unfold child.
  destruct (decide (a = p)) as [->|Hne].
  - rewrite list_lookup_insert_eq by done. split.
    + by intros (t & [= <-] & Hb).
    + intros Hb. eauto.
  - by rewrite list_lookup_insert_ne.
Qed.

Lemma parent_is_insert h p pt pt' c q :
  h !! p = Some pt →
  parent_is (<[p := pt']> h) c q ↔
  if decide (c = p) then _parent_tree pt' = Some q else parent_is h c q.
Proof.
  intros Hp. pose proof (lookup_lt_Some _ _ _ Hp) as Hlt. unfold parent_is.
  destruct (decide (c = p)) as [->|Hne].
  - rewrite list_lookup_insert_eq by done. split.
    + by intros (t & [= <-] & Hb).
    + intros Hb. eauto.
  - by rewrite list_lookup_insert_ne.
Qed.

Lemma is_Some_insert (h : heap) p pt' c :
  is_Some (h !! c) → is_Some (<[p := pt']> h !! c).
Proof.
  intros Hc%lookup_lt_is_Some. apply lookup_lt_is_Some.
  by rewrite length_insert.
Qed.

(** Replacing [p]'s list of children by the list without [s]. *)
Lemma wf_remove_child h p pt s l pt2 :
  wf h → h !! p = Some pt → list_remove s (_subtrees pt) = Some l →
  _subtrees pt2 = l → _parent_tree pt2 = _parent_tree pt →
  wf (<[p := pt2]> h)
  ∧ (∀ q, ¬ child (<[p := pt2]> h) q s)
  ∧ (∀ a b, child (<[p := pt2]> h) a b → child h a b).
Proof.
  intros Hwf Hp Hrem Hsub Hpar.
  destruct (list_remove_NoDup _ _ _ (wf_nodup _ Hwf _ _ Hp) Hrem) as [Hnd Hs].
  assert (Hmono : ∀ a b, child (<[p := pt2]> h) a b → child h a b).
  { intros a b Hc. apply (child_insert _ _ _ pt2 _ _ Hp) in Hc.
    destruct (decide (a = p)) as [->|]; [|done].
    exists pt. split; [done|]. rewrite Hsub in Hc.
    by eapply list_remove_subset. }
  split; [|split; [|done]].
  - destruct Hwf as [Hcl Hpa Hno [rk Hrk]]. split.
    + intros a b Hc%Hmono. by eapply is_Some_insert, Hcl.
    + intros a b Hc%Hmono. apply Hpa in Hc.
      apply (parent_is_insert _ _ _ _ _ _ Hp).
      destruct (decide (b = p)) as [->|]; [|done].
      destruct Hc as (t & Ht & Hq). congruence.
    + intros a t Ha. destruct (decide (a = p)) as [->|Hne].
      * rewrite list_lookup_insert_eq in Ha by (by eapply lookup_lt_Some).
        injection Ha as <-. by rewrite Hsub.
      * rewrite list_lookup_insert_ne in Ha by done. eauto.
    + exists rk. intros a b Hc%Hmono. eauto.
  - intros q Hc. pose proof (Hmono _ _ Hc) as Hc0.
    assert (q = p) as ->.
    { eapply (parent_unique h Hwf s); [done|]. exists pt. split; [done|].
      by eapply list_remove_elem. }
    apply (child_insert _ _ _ pt2 _ _ Hp) in Hc.
    rewrite decide_True in Hc by done. by rewrite Hsub in Hc.
Qed.

(** Hanging the unattached leaf [s] in as the last child of [d]. *)
Lemma wf_add_leaf h h' s d ts td ts' td' :
  wf h → s ≠ d → (∀ q, ¬ child h q s) →
  h !! s = Some ts → _subtrees ts = [] →
  h !! d = Some td →
  h' !! s = Some ts' → _subtrees ts' = [] → _parent_tree ts' = Some d →
  h' !! d = Some td' → _subtrees td' = _subtrees td ++ [s] →
  _parent_tree td' = _parent_tree td →
  (∀ k, k ≠ s → k ≠ d → h' !! k = h !! k) →
  wf h'
  ∧ (∀ a b, child h' a b → child h a b ∨ (a = d ∧ b = s)).
Proof.
  intros Hwf Hsd Hfree Hs Hsl Hd Hs' Hsl' Hsp' Hd' Hdl' Hdp' Hother.
  assert (Hedge : ∀ a b, child h' a b → child h a b ∨ (a = d ∧ b = s)).
  { intros a b (t & Ht & Hb). destruct (decide (a = d)) as [->|Had].
    - rewrite Hd' in Ht. injection Ht as <-. rewrite Hdl' in Hb.
      apply elem_of_app in Hb as [Hb|Hb%list_elem_of_singleton];
        [left; by exists td|by right].
    - destruct (decide (a = s)) as [->|Has].
      + rewrite Hs' in Ht. injection Ht as <-. rewrite Hsl' in Hb.
        by apply elem_of_nil in Hb.
      + left. exists t. by rewrite <- Hother. }
  assert (Hsome : ∀ k, is_Some (h !! k) → is_Some (h' !! k)).
  { intros k Hk. destruct (decide (k = s)) as [->|]; [eauto|].
    destruct (decide (k = d)) as [->|]; [eauto|]. by rewrite Hother. }
  split; [|done]. destruct Hwf as [Hcl Hpa Hno [rk Hrk]]. split.
  - intros a b [Hc|[-> ->]]%Hedge; [by eapply Hsome, Hcl|eauto].
  - intros a b [Hc|[-> ->]]%Hedge; [|by exists ts'].
    assert (b ≠ s) by (intros ->; by eapply Hfree).
    destruct (Hpa _ _ Hc) as (t & Ht & Hp).
    destruct (decide (b = d)) as [->|Hbd].
    + exists td'. split; [done|]. congruence.
    + exists t. by rewrite Hother.
  - intros a t Ha. destruct (decide (a = d)) as [->|Had].
    + rewrite Hd' in Ha. injection Ha as <-. rewrite Hdl'.
      apply NoDup_app. split; [by eapply Hno|]. split; [|apply NoDup_singleton].
      intros x Hx ->%list_elem_of_singleton. apply (Hfree d). by exists td.
    + destruct (decide (a = s)) as [->|Has].
      * rewrite Hs' in Ha. injection Ha as <-. rewrite Hsl'. apply NoDup_nil_2.
      * rewrite Hother in Ha by done. eauto.
  - exists (λ x, if decide (x = s) then O else S (rk x)).
    intros a b Hc. assert (a ≠ s).
    { intros ->. destruct Hc as (t & Ht & Hb). rewrite Hs' in Ht.
      injection Ht as <-. rewrite Hsl' in Hb. by apply elem_of_nil in Hb. }
    rewrite (decide_False (P := a = s)) by done.
    destruct (decide (b = s)); [lia|].
    apply Hedge in Hc as [Hc|[_ ->]]; [|done]. apply Hrk in Hc. lia.
Qed.

Lemma detach_from_Ok par s h p h1 :
  detach_from par s h = Ok (p, h1) →
  par = Some p
  ∧ ∃ pt l pt', h !! p = Some pt ∧ list_remove s (_subtrees pt) = Some l
      ∧ h1 = <[p := pt']> h
      ∧ pt' = (if bool_decide (l = [])
               then set_expanded false (set_subtrees l pt)
               else set_subtrees l pt).
Proof.
  unfold detach_from. destruct par as [p0|]; [|discriminate].
  intros Hrun. apply bind_Ok in Hrun as (pt & h0 & Hg & Hrun).
  apply get_Ok in Hg as [Hp ->].
  destruct (list_remove s (_subtrees pt)) as [l|] eqn:Hrem; [|discriminate].
  apply bind_Ok in Hrun as (u1 & h2 & Hm & Hrun).
  apply modify_Ok in Hm as (t1 & Ht1 & ->). rewrite Hp in Ht1.
  injection Ht1 as <-.
  apply bind_Ok in Hrun as (u2 & h3 & Hm & Hrun).
  apply ret_Ok in Hrun as [<- ->]. split; [done|].
  exists pt, l. destruct (bool_decide (l = [])).
  - apply modify_Ok in Hm as (t2 & Ht2 & ->).
    rewrite list_lookup_insert_eq in Ht2 by (by eapply lookup_lt_Some).
    injection Ht2 as <-. eexists. split; [done|]. split; [done|].
    by rewrite list_insert_insert_eq.
  - apply ret_Ok in Hm as [_ ->]. eauto.
Qed.

Lemma move_Inv fuel s d h u h' :
  Inv h → move fuel s d h = Ok (u, h') → Inv h'.
Proof.
  intros HI Hrun. pose proof HI as [Hwf Hw]. unfold move in Hrun.
  apply bind_Ok in Hrun as (t & h0 & Ht & Hrun). apply get_Ok in Ht as [Ht ->].
  destruct (_ || _) eqn:Hsame.
  { apply ret_Ok in Hrun as [_ ->]. done. }
  apply orb_false_iff in Hsame as [Hsd%bool_decide_eq_false _].
  apply bind_Ok in Hrun as (dt0 & h0 & Hd0 & Hrun).
  apply get_Ok in Hd0 as [Hd0 ->].
  destruct (_ && _) eqn:Hguard; [|apply ret_Ok in Hrun as [_ ->]; done].
  apply andb_true_iff in Hguard as [Hleaf%bool_decide_eq_true _].
  apply bind_Ok in Hrun as (p & h1 & Hdet & Hrun).
  apply detach_from_Ok in Hdet as (Hpar & pt & l & pt' & Hp & Hrem & -> & Hpt').
  apply bind_Ok in Hrun as (u2 & h2 & Hm & Hrun).
  apply modify_Ok in Hm as (x & Hx & ->).
  rewrite list_lookup_insert_eq in Hx by (by eapply lookup_lt_Some).
  injection Hx as <-. rewrite list_insert_insert_eq in Hrun.
  set (pt2 := set_data_size (data_size pt' - data_size t) pt') in *.
  assert (Hsub2 : _subtrees pt2 = l) by (subst pt2 pt'; by destruct (bool_decide _)).
  assert (Hpar2 : _parent_tree pt2 = _parent_tree pt)
    by (subst pt2 pt'; by destruct (bool_decide _)).
  destruct (wf_remove_child h p pt s l pt2 Hwf Hp Hrem Hsub2 Hpar2)
    as (Hwf2 & Hfree2 & Hmono2).
  assert (Hsp : s ≠ p).
  { intros ->. apply list_remove_elem in Hrem. rewrite Ht in Hp.
    injection Hp as <-. rewrite Hleaf in Hrem. by apply elem_of_nil in Hrem. }
  assert (Hs2 : <[p := pt2]> h !! s = Some t)
    by (by rewrite list_lookup_insert_ne).
  apply bind_Ok in Hrun as (u3 & h3 & Hroot1 & Hrun).
  assert (HI3 : Inv h3).
  { eapply (touch_then_helper_root h _ (λ x, x = p)); [done|exact Hwf2| |
      exact Hroot1|].
    - intros k Hk. by apply list_lookup_insert_ne.
    - intros r x r2 Hc -> Hr2 Hdx.
      eapply (chain_attached _ Hwf2 s p); [exact Hc| |done|done].
      apply rtc_once. by exists t. }
  destruct (_helper_root_leaves _ _ _ _ _ Hroot1) as [Ha3 Hl3].
  pose proof (agree_size_shape _ _ Ha3) as Hs3.
  pose proof (Hl3 _ _ Hs2 Hleaf) as Hs3'.
  assert (Hfree3 : ∀ q, ¬ child h3 q s).
  { intros q Hc%(child_shape _ _ Hs3). by eapply Hfree2. }
  apply bind_Ok in Hrun as (u4 & h4 & Hm & Hrun).
  apply modify_Ok in Hm as (x & Hx & ->). rewrite Hs3' in Hx.
  injection Hx as <-.
  apply bind_Ok in Hrun as (u5 & h5 & Hm & Hrun).
  apply modify_Ok in Hm as (dt & Hdt & ->).
  rewrite list_lookup_insert_ne in Hdt by done.
  apply bind_Ok in Hrun as (t' & h5' & Hg & Hrun).
  apply get_Ok in Hg as [Hg ->].
  apply bind_Ok in Hrun as (u6 & h6 & Hm & Hrun).
  apply modify_Ok in Hm as (x & Hx & ->).
  pose proof (lookup_lt_Some _ _ _ Hs3') as Hslt.
  pose proof (lookup_lt_Some _ _ _ Hdt) as Hdlt.
  rewrite list_lookup_insert_eq in Hx by (by rewrite length_insert).
  injection Hx as <-. rewrite list_insert_insert_eq in Hrun.
  match type of Hrun with _helper_root _ _ ?hh = _ => set (h6 := hh) in * end.
  assert (Hs6 : h6 !! s = Some (set_parent_tree (Some d) t)).
  { subst h6. rewrite list_lookup_insert_ne by done.
    by rewrite list_lookup_insert_eq. }
  assert (Hother6 : ∀ k, k ≠ s → k ≠ d → h6 !! k = h3 !! k).
  { intros k Hks Hkd. subst h6. by rewrite !list_lookup_insert_ne. }
  match goal with
  | _ := <[d := ?x]> _ |- _ => set (td' := x) in *
  end.
  assert (Hd6 : h6 !! d = Some td').
  { subst h6. apply list_lookup_insert_eq. by rewrite length_insert. }
  destruct (wf_add_leaf h3 h6 s d t dt (set_parent_tree (Some d) t) td')
    as (Hwf6 & Hedge6); try done; [apply HI3|].
  eapply (touch_then_helper_root h3 h6 (λ x, x = s ∨ x = d)); [done|done| |
    exact Hrun|].
  - intros k Hk. apply Hother6; intros ->; apply Hk; auto.
  - intros r x r2 Hc Hx Hr2 Hdx.
    assert (Hdd : desc h6 r2 d).
    { destruct Hx as [->| ->]; [|done].
      apply rtc_inv_r in Hdx as [->|(y & Hy & Hys)].
      - destruct Hr2 as (tr & Htr & Hnone). rewrite Hs6 in Htr.
        by injection Htr as <-.
      - destruct (wf_parent _ Hwf6 _ _ Hys) as (ty & Hty & Hpy).
        rewrite Hs6 in Hty. injection Hty as <-. simpl in Hpy.
        by injection Hpy as <-. }
    symmetry. by eapply (climb_attached h6 Hwf6 r2).
Qed.

Lemma on_chain_shape h h' a b :
  agree shape h h' → on_chain h a b → on_chain h' a b.
Proof.
  intros Hs. unfold on_chain. apply rtc_subrel. intros x y.
  apply (parent_is_shape _ _ Hs).
Qed.

Lemma sum_over_reads l : ∀ acc h v h',
  sum_over l (λ c, let* st := get c in ret (data_size st)) acc h = Ok (v, h') →
  h' = h.
Proof.
  induction l as [|c l IH]; intros acc h v h' Hrun; simpl in Hrun; monad_inv;
    eauto.
Qed.

Lemma _recalculate_data_sizes_Ok fuel : ∀ p h u h',
  _recalculate_data_sizes fuel p h = Ok (u, h') →
  agree no_size h h' ∧ ∀ k, ¬ on_chain h p k → h' !! k = h !! k.
Proof.
  induction fuel as [|fuel IH]; intros p h u h' Hrun; simpl in Hrun;
    [discriminate|].
  apply bind_Ok in Hrun as (t & h0 & Hg & Hrun). apply get_Ok in Hg as [Hp ->].
  apply bind_Ok in Hrun as (total & h0 & Hsum & Hrun).
  apply sum_over_reads in Hsum as ->.
  apply bind_Ok in Hrun as (u1 & h1 & Hm & Hrun).
  apply modify_Ok in Hm as (x & Hx & ->). rewrite Hp in Hx. injection Hx as <-.
  assert (Ha1 : agree no_size h (<[p := set_data_size total t]> h))
    by (by eapply agree_insert).
  destruct (_parent_tree t) as [q|] eqn:Hq.
  - destruct (IH _ _ _ _ Hrun) as [Ha2 Hout]. split.
    + by eapply agree_trans.
    + intros k Hk. rewrite Hout.
      * apply list_lookup_insert_ne. intros <-. apply Hk, rtc_refl.
      * intros Hc. apply Hk. eapply rtc_l; [by exists t|].
        eapply on_chain_shape; [|exact Hc].
        by apply agree_sym, agree_size_shape.
  - apply ret_Ok in Hrun as [_ ->]. split; [done|].
    intros k Hk. apply list_lookup_insert_ne. intros <-. apply Hk, rtc_refl.
Qed.

Lemma delete_self_Inv fuel s h b h' :
  Inv h → delete_self fuel s h = Ok (b, h') → Inv h'.
Proof.
  intros HI Hrun. pose proof HI as [Hwf Hw]. unfold delete_self in Hrun.
  apply bind_Ok in Hrun as (t & h0 & Ht & Hrun). apply get_Ok in Ht as [Ht ->].
  destruct (_parent_tree t) as [p0|] eqn:Hpar;
    [|apply ret_Ok in Hrun as [_ ->]; done].
  apply bind_Ok in Hrun as (p & h1 & Hdet & Hrun).
  apply detach_from_Ok in Hdet as (Hp0 & pt & l & pt' & Hp & Hrem & -> & Hpt').
  injection Hp0 as ->.
  assert (Hsub' : _subtrees pt' = l) by (subst pt'; by destruct (bool_decide _)).
  assert (Hpar' : _parent_tree pt' = _parent_tree pt)
    by (subst pt'; by destruct (bool_decide _)).
  destruct (wf_remove_child h p pt s l pt' Hwf Hp Hrem Hsub' Hpar')
    as (Hwf1 & Hfree1 & Hmono1).
  assert (Hsp : s ≠ p).
  { intros ->. eapply (no_cycle h Hwf p p); [apply rtc_refl|].
    exists pt. split; [done|]. by eapply list_remove_elem. }
  set (h1 := <[p := pt']> h) in *.
  apply bind_Ok in Hrun as (u2 & h2 & Hrec & Hrun).
  destruct (_recalculate_data_sizes_Ok _ _ _ _ _ Hrec) as [Ha2 Hout2].
  pose proof (agree_size_shape _ _ Ha2) as Hs2.
  pose proof (wf_shape _ _ Hs2 Hwf1) as Hwf2.
  apply bind_Ok in Hrun as (v & h3 & Hupd & Hrun).
  destruct (update_data_sizes_resized _ _ _ _ _ Hwf2 Hupd)
    as (Ha3 & Hout3 & _ & _ & _).
  pose proof (agree_size_shape _ _ Ha3) as Hs3.
  pose proof (wf_shape _ _ Hs3 Hwf2) as Hwf3.
  apply bind_Ok in Hrun as (u4 & h4' & Hm & Hrun).
  apply modify_Ok in Hm as (t3 & Ht3 & ->).
  set (h4 := <[s := set_data_size 0 t3]> h3) in *.
  assert (Ha4 : agree no_size h3 h4) by (by eapply agree_insert).
  pose proof (agree_size_shape _ _ Ha4) as Hs4.
  pose proof (wf_shape _ _ Hs4 Hwf3) as Hwf4.
  assert (Hs14 : agree shape h1 h4).
  { eapply agree_trans; [exact Hs2|]. by eapply agree_trans. }
  assert (Hsp4 : parent_is h4 s p).
  { apply (parent_is_shape _ _ Hs14). exists t. split; [|done].
    subst h1. by rewrite list_lookup_insert_ne. }
  apply bind_Ok in Hrun as (u5 & h5 & Hroot & Hrun).
  apply ret_Ok in Hrun as [_ ->].
  eapply (touch_then_helper_root h h4 (λ k, on_chain h4 s k ∨ desc h4 p k));
    [done|done| |exact Hroot|].
  - intros k Hk.
    assert (Hks : k ≠ s) by (intros ->; apply Hk; left; apply rtc_refl).
    assert (Hkp : k ≠ p) by (intros ->; apply Hk; right; apply rtc_refl).
    subst h4. rewrite list_lookup_insert_ne by done.
    rewrite Hout3.
    2:{ intros Hd. apply Hk. right. apply (desc_shape _ _ Hs4).
        by apply (desc_shape _ _ Hs3). }
    rewrite Hout2.
    2:{ intros Hc. apply Hk. left. eapply rtc_l; [exact Hsp4|].
        by eapply on_chain_shape. }
    subst h1. by rewrite list_lookup_insert_ne.
  - intros r x r2 Hc Hx Hr2 Hdx.
    assert (Hpr : ∀ r', root_node h4 r' → desc h4 r' p → r' = r).
    { intros r' Hr' Hd'. eapply (chain_attached h4 Hwf4 s p); eauto.
      by apply rtc_once. }
    destruct Hx as [Hx|Hx].
    + by eapply (chain_attached h4 Hwf4 s x).
    + destruct (ancestors_linear h4 Hwf4 _ _ _ Hdx Hx) as [Hd|Hd].
      * by apply Hpr.
      * apply (desc_root h4 Hwf4 _ _ Hr2) in Hd as ->.
        apply Hpr; [done|apply rtc_refl].
Qed.

(** ** Construction keeps the invariant *)

Lemma agree_pointwise erase (h h' : heap) :
  (∀ k, erase <$> h' !! k = erase <$> h !! k) → agree erase h h'.
Proof.
  intros Hk. apply list_eq. intros k. by rewrite !list_lookup_fmap.
Qed.

Section Down.
Variables h h' : heap.
Hypothesis Hs : agree down h h'.

Lemma child_down p c : child h p c ↔ child h' p c.
Proof.
  split; intros (t & Hp & Hc).
  - destruct (agree_Some _ _ _ _ _ Hs Hp) as (t' & Hp' & He).
    exists t'. split; [done|]. injection He as He. by rewrite He.
  - destruct (agree_Some_rev _ _ _ _ _ Hs Hp) as (t' & Hp' & He).
    exists t'. split; [done|]. injection He as He. by rewrite <- He.
Qed.

Lemma desc_down a b : desc h a b ↔ desc h' a b.
Proof.
  unfold desc. split; apply rtc_subrel; intros x y; apply child_down.
Qed.

Lemma forest_down : forest h → forest h'.
Proof.
  intros [Hcl Hun Hnd [rk Hrk]]. split.
  - intros p c Hc%child_down. apply Hcl in Hc.
    apply lookup_lt_is_Some. rewrite (agree_length _ _ _ Hs).
    by apply lookup_lt_is_Some.
  - intros p q c Hp%child_down Hq%child_down. eauto.
  - intros p t' Hp.
    destruct (agree_Some_rev _ _ _ _ _ Hs Hp) as (t & Ht & He).
    injection He as He. rewrite He. eauto.
  - exists rk. intros p c Hc%child_down. eauto.
Qed.
End Down.

Lemma for_each_set_parent q l : ∀ h u h',
  for_each l (λ c, modify c (set_parent_tree q)) h = Ok (u, h') →
  ∀ k, h' !! k = if decide (k ∈ l) then set_parent_tree q <$> h !! k
                 else h !! k.
Proof.
  induction l as [|c l IH]; intros h u h' Hrun k; simpl in Hrun.
  - apply ret_Ok in Hrun as [_ ->]. rewrite decide_False; [done|].
    apply not_elem_of_nil.
  - apply bind_Ok in Hrun as (u1 & h1 & Hm & Hrun).
    apply modify_Ok in Hm as (t & Ht & ->). rewrite (IH _ _ _ Hrun k).
    pose proof (lookup_lt_Some _ _ _ Ht) as Hlt.
    destruct (decide (k = c)) as [->|Hne].
    + rewrite list_lookup_insert_eq by done. rewrite Ht.
      rewrite (decide_True (P := c ∈ c :: l)) by left.
      by destruct (decide (c ∈ l)).
    + rewrite list_lookup_insert_ne by done.
      destruct (decide (k ∈ l)) as [Hin|Hin].
      * rewrite decide_True; [done|by right].
      * rewrite decide_False; [done|].
        apply not_elem_of_cons. done.
Qed.

Lemma good_same_sizes h h' n :
  (∀ k, size_at h' k = size_at h k) →
  (∀ t', h' !! n = Some t' →
         ∃ t, h !! n = Some t ∧ data_size t = data_size t'
              ∧ _subtrees t = _subtrees t') →
  good h n → good h' n.
Proof.
  intros Hsz Hn Hg t' Ht' Hne. destruct (Hn t' Ht') as (t & Ht & Hd & Hsub).
  rewrite <- Hd, <- Hsub in *. rewrite (Hg t Ht Hne).
  clear -Hsz. induction (_subtrees t) as [|c l IH]; [done|]. simpl.
  by rewrite IH, Hsz.
Qed.

Lemma forest_linked_wf h :
  forest h → (∀ p c, child h p c → parent_is h c p) → wf h.
Proof. intros [Hcl _ Hnd Hac] Hl. by split. Qed.

Lemma agree_size_down h h' : agree no_size h h' → agree down h h'.
Proof. apply agree_weaken. by intros []. Qed.

Lemma desc_old (h h1 : heap) n a b :
  (∀ x y, child h1 x y → x ≠ n → child h x y ∧ y ≠ n) →
  a ≠ n → desc h1 a b → desc h a b ∧ b ≠ n.
Proof.
  intros Hold Ha Hd. induction Hd as [a|a y b Hay _ IH]; [split; [apply rtc_refl|done]|].
  destruct (Hold _ _ Hay Ha) as [Hc Hy]. destruct (IH Hy) as [Hd Hb].
  split; [|done]. by eapply rtc_l.
Qed.

Lemma __init___spec fuel name kids size colour h self h' :
  Inv h → (∀ c, c ∈ kids → root_node h c) → NoDup kids →
  __init__ fuel name kids size colour h = Ok (self, h') →
  Inv h' ∧ self = length h
  ∧ (∃ t, h' !! self = Some t ∧ _name t = name ∧ _subtrees t = kids
          ∧ _parent_tree t = None ∧ _expanded t = false
          ∧ (kids = [] → data_size t = size))
  ∧ (∀ c, c ∈ kids → parent_is h' c self).
Proof.
  intros [Hwf Hw] Hroots Hnd Hrun. unfold __init__ in Hrun.
  apply bind_Ok in Hrun as (n & h1 & Hal & Hrun).
  injection Hal as <- <-. set (n := length h) in *.
  set (nd := mkTMTree (0, 0, 0, 0) size colour name kids None false) in *.
  set (h1 := h ++ [nd]) in *.
  apply bind_Ok in Hrun as (v & h2 & Hsum & Hrun).
  apply bind_Ok in Hrun as (u & h3 & Hpar & Hrun).
  apply ret_Ok in Hrun as [-> ->].
  pose proof (for_each_set_parent _ _ _ _ _ Hpar) as Hl3.
  (* the store after allocation *)
  assert (HA1 : ∀ k, k ≠ n → h1 !! k = h !! k).
  { intros k Hk. subst h1. destruct (decide (k < n)%nat) as [Hlt|Hge].
    - by apply lookup_app_l.
    - rewrite (lookup_ge_None_2 h) by (subst n; lia).
      apply lookup_ge_None_2. rewrite length_app. simpl. subst n. lia. }
  assert (HA2 : h1 !! n = Some nd) by apply list_lookup_middle, eq_refl.
  assert (Hin : ∀ k, is_Some (h !! k) → k ≠ n).
  { intros k Hk%lookup_lt_is_Some. subst n. lia. }
  assert (Hkid : ∀ c, c ∈ kids → c ≠ n ∧ ∀ a, ¬ child h a c).
  { intros c Hc. pose proof (Hroots c Hc) as Hr. split.
    - destruct Hr as (t & Ht & _). apply Hin. eauto.
    - intros a Ha. by eapply (root_not_child h Hwf). }
  assert (Hedge : ∀ a b, child h1 a b ↔
                         (a ≠ n ∧ child h a b) ∨ (a = n ∧ b ∈ kids)).
  { intros a b. unfold child. destruct (decide (a = n)) as [->|Hne].
    - rewrite HA2. split.
      + intros (t & [= <-] & Hb). by right.
      + intros [[? _]|[_ Hb]]; [done|]. by exists nd.
    - rewrite HA1 by done. split; [by left|]. by intros [[_ ?]|[? _]]. }
  assert (Hold : ∀ x y, child h1 x y → x ≠ n → child h x y ∧ y ≠ n).
  { intros x y [[_ Hc]|[? _]]%Hedge Hx; [|done]. split; [done|].
    apply Hin. by eapply (wf_closed h Hwf). }
  assert (Hf1 : forest h1).
  { destruct (wf_forest _ Hwf) as [Hcl Hun Hno [rk Hrk]]. split.
    - intros a b [[_ Hc]|[_ Hb]]%Hedge.
      + destruct (Hcl _ _ Hc) as [t Ht]. exists t. rewrite HA1; [done|].
        apply Hin. eauto.
      + destruct (Hroots b Hb) as (t & Ht & _). exists t.
        rewrite HA1; [done|]. apply Hin. eauto.
    - intros a b c [[Ha Hc]|[-> Hc]]%Hedge [[Hb Hc']|[-> Hc']]%Hedge;
        [eauto| | |done].
      + by destruct (proj2 (Hkid c Hc') a).
      + by destruct (proj2 (Hkid c Hc) b).
    - intros a t Ha. destruct (decide (a = n)) as [->|Hne].
      + rewrite HA2 in Ha. by injection Ha as <-.
      + rewrite HA1 in Ha by done. eauto.
    - exists (λ x, if decide (x = n) then S (max_list (rk <$> kids)) else rk x).
      intros a b [[Ha Hc]|[-> Hc]]%Hedge.
      + rewrite (decide_False (P := a = n)) by done.
        rewrite (decide_False (P := b = n)); [eauto|].
        apply Hin. eauto.
      + rewrite (decide_True (P := n = n)) by done.
        rewrite (decide_False (P := b = n)) by (by apply Hkid).
        assert (rk b ≤ max_list (rk <$> kids))%nat; [|lia].
        apply max_list_elem_of_le, list_elem_of_fmap. eauto. }
  (* the sizes are recomputed below the new node *)
  change (update_data_sizes fuel n h1 = Ok (v, h2)) in Hsum.
  destruct (update_data_sizes_resized_forest _ _ _ _ _ Hf1 Hsum)
    as (Ha2 & Hout2 & Hgood2 & Hv & Hleaf2).
  pose proof (agree_size_shape _ _ Ha2) as Hs2.
  (* the children get their parent *)
  assert (Ha3 : agree down h2 h3).
  { apply agree_pointwise. intros k. rewrite Hl3.
    destruct (decide (k ∈ kids)); [|done]. by destruct (h2 !! k). }
  assert (Ha13 : agree down h1 h3).
  { eapply agree_trans; [|exact Ha3]. by apply agree_size_down. }
  assert (Hsz3 : ∀ k, size_at h3 k = size_at h2 k).
  { intros k. unfold size_at. rewrite Hl3.
    destruct (decide (k ∈ kids)); [|done]. by destruct (h2 !! k). }
  assert (Hlook3 : ∀ k t1, h1 !! k = Some t1 →
            ∃ t3, h3 !! k = Some t3 ∧ _subtrees t3 = _subtrees t1
                  ∧ _name t3 = _name t1 ∧ _expanded t3 = _expanded t1
                  ∧ _parent_tree t3 = (if decide (k ∈ kids) then Some n
                                       else _parent_tree t1)
                  ∧ (_subtrees t1 = [] → data_size t3 = data_size t1)).
  { intros k t1 Hk.
    destruct (agree_Some _ _ _ _ _ Ha2 Hk) as (t2 & Hk2 & He).
    rewrite Hl3, Hk2. injection He as Hr Hc Hnm Hsb Hpt Hex.
    assert (Hsize : _subtrees t1 = [] → data_size t2 = data_size t1).
    { intros Hlf. pose proof (Hleaf2 _ _ Hk Hlf) as Hk2'. congruence. }
    destruct (decide (k ∈ kids)); eexists; (split; [done|]); simpl; auto. }
  assert (Hwf3 : wf h3).
  { apply forest_linked_wf; [by eapply forest_down|].
    intros a b Hc%(child_down _ _ Ha13). apply Hedge in Hc as [[Ha Hc]|[-> Hc]].
    - destruct (wf_parent h Hwf _ _ Hc) as (tb & Htb & Hpb).
      assert (b ≠ n) by (apply Hin; eauto).
      destruct (Hlook3 b tb) as (t3 & Ht3 & _ & _ & _ & Hp3 & _);
        [by rewrite HA1|].
      exists t3. split; [done|]. rewrite Hp3.
      destruct (decide (b ∈ kids)) as [Hbk|]; [|done].
      destruct (Hroots b Hbk) as (tb' & Htb' & Hnone). congruence.
    - destruct (Hroots b Hc) as (tb & Htb & _).
      destruct (Hlook3 b tb) as (t3 & Ht3 & _ & _ & _ & Hp3 & _).
      { rewrite HA1; [done|]. by apply Hkid. }
      exists t3. split; [done|]. by rewrite Hp3, decide_True. }
  assert (Hn3 : ¬ n ∈ kids) by (intros Hk; by destruct (Hkid n Hk)).
  split; [split; [done|]|split; [done|split]].
  - intros r m Hr Hd. apply (desc_down _ _ Ha13) in Hd.
    eapply good_same_sizes; [exact Hsz3| |].
    { intros t3 Ht3. rewrite Hl3 in Ht3.
      destruct (h2 !! m) as [t2|] eqn:Hm2;
        [|by destruct (decide (m ∈ kids))].
      exists t2. split; [done|].
      destruct (decide (m ∈ kids)); injection Ht3 as <-; done. }
    destruct (decide (r = n)) as [->|Hrn]; [by apply Hgood2|].
    destruct (desc_old h h1 n r m Hold Hrn Hd) as [Hd0 Hmn].
    assert (Hr0 : root_node h r).
    { destruct Hr as (t3 & Ht3 & Hp3).
      destruct (h1 !! r) as [t1|] eqn:Hr1.
      - destruct (Hlook3 r t1 Hr1) as (t3' & Ht3' & _ & _ & _ & Hp3' & _).
        rewrite Ht3 in Ht3'. injection Ht3' as <-. rewrite Hp3 in Hp3'.
        destruct (decide (r ∈ kids)); [done|]. exists t1.
        by rewrite <- HA1.
      - apply lookup_ge_None in Hr1. apply lookup_lt_Some in Ht3.
        rewrite <- (agree_length _ _ _ Ha13) in Hr1. lia. }
    assert (Hrk : r ∉ kids).
    { intros Hk. destruct Hr as (t3 & Ht3 & Hp3).
      destruct Hr0 as (t0 & Ht0 & _).
      destruct (Hlook3 r t0) as (t3' & Ht3' & _ & _ & _ & Hp3' & _);
        [by rewrite HA1|].
      rewrite decide_True in Hp3' by done. congruence. }
    assert (Hnot : ∀ x, desc h r x → ¬ desc h1 n x).
    { intros x Hx Hnx. apply rtc_inv in Hnx as [<-|(c & Hc & Hcx)].
      - apply (Hin n); [|done]. apply rtc_inv_r in Hx as [<-|(y & _ & Hy)].
        + destruct Hr0 as (t0 & Ht0 & _). eauto.
        + by eapply (wf_closed h Hwf).
      - apply Hedge in Hc as [[? _]|[_ Hc]]; [done|].
        destruct (desc_old h h1 n c x Hold (proj1 (Hkid c Hc)) Hcx) as [Hcx0 _].
        apply Hrk.
        by rewrite <- (trees_disjoint h Hwf c r x (Hroots c Hc) Hr0 Hcx0 Hx). }
    assert (Hsame : ∀ x, desc h r x → h2 !! x = h !! x).
    { intros x Hx. rewrite Hout2 by (by apply Hnot). apply HA1.
      intros ->. apply (Hnot n Hx), rtc_refl. }
    eapply good_ext; [by apply (Hw r m)|by apply Hsame|].
    intros c Hc. apply Hsame. by eapply rtc_r.
  - destruct (Hlook3 n nd HA2) as (t3 & Ht3 & Hsb & Hnm & Hex & Hp3 & Hsz).
    exists t3. rewrite decide_False in Hp3 by done. simpl in *.
    repeat (split; [done|]). done.
  - intros c Hc. destruct (Hroots c Hc) as (tc & Htc & _).
    destruct (Hlook3 c tc) as (t3 & Ht3 & _ & _ & _ & Hp3 & _).
    { rewrite HA1; [done|]. by apply Hkid. }
    exists t3. split; [done|]. by rewrite Hp3, decide_True.
Qed.

(** ** Termination of the downward recursions

    In a forest the recursion below [n] needs a budget above the rank of
    [n]; the runs only change fields that the forest does not depend on. *)

Lemma sum_over_total (F : id → M Z) h l :
  (∀ c h1, c ∈ l → agree down h h1 →
           ∃ v h2, F c h1 = Ok (v, h2) ∧ agree down h1 h2) →
  ∀ acc h1, agree down h h1 →
            ∃ v h2, sum_over l F acc h1 = Ok (v, h2) ∧ agree down h1 h2.
Proof.
  induction l as [|c l IH]; intros HF acc h1 Ha; simpl.
  - eexists _, _. split; [reflexivity|apply agree_refl].
  - destruct (HF c h1 (list_elem_of_here _ _) Ha) as (v & h2 & Hc & Ha2).
    destruct (IH (λ c' h' Hc', HF c' h' (list_elem_of_further _ _ _ Hc'))
                 (acc + v) h2 (agree_trans _ _ _ _ Ha Ha2))
      as (v' & h3 & Hl & Ha3).
    exists v', h3. split; [|by eapply agree_trans].
    apply bind_Ok. eauto.
Qed.

Lemma for_each_total (body : id → M unit) h l :
  (∀ c h1, c ∈ l → agree down h h1 →
           ∃ h2, body c h1 = Ok (tt, h2) ∧ agree down h1 h2) →
  ∀ h1, agree down h h1 →
        ∃ h2, for_each l body h1 = Ok (tt, h2) ∧ agree down h1 h2.
Proof.
  induction l as [|c l IH]; intros HF h1 Ha; simpl.
  - eexists. split; [reflexivity|apply agree_refl].
  - destruct (HF c h1 (list_elem_of_here _ _) Ha) as (h2 & Hc & Ha2).
    destruct (IH (λ c' h' Hc', HF c' h' (list_elem_of_further _ _ _ Hc'))
                 h2 (agree_trans _ _ _ _ Ha Ha2)) as (h3 & Hl & Ha3).
    exists h3. split; [|by eapply agree_trans].
    apply bind_Ok. eauto.
Qed.

Lemma down_insert (h : heap) n t t' :
  h !! n = Some t → _subtrees t' = _subtrees t → agree down h (<[n := t']> h).
Proof.
  intros Hn Hs. eapply agree_insert; [done|]. unfold down. by rewrite Hs.
Qed.

Lemma down_lookup h h1 n t :
  agree down h h1 → h !! n = Some t →
  ∃ t1, h1 !! n = Some t1 ∧ _subtrees t1 = _subtrees t.
Proof.
  intros Ha Hn. destruct (agree_Some _ _ _ _ _ Ha Hn) as (t1 & Hn1 & He).
  exists t1. split; [done|]. by injection He.
Qed.

Lemma update_data_sizes_total h (rk : id → nat) :
  forest h → (∀ p c, child h p c → (rk c < rk p)%nat) →
  ∀ fuel r h1, agree down h h1 → is_Some (h !! r) → (rk r < fuel)%nat →
    ∃ v h2, update_data_sizes fuel r h1 = Ok (v, h2) ∧ agree down h1 h2.
Proof.
  intros Hf Hrk. induction fuel as [|fuel IH]; intros r h1 Ha [t Ht] Hlt;
    [lia|].
  destruct (down_lookup _ _ _ _ Ha Ht) as (t1 & Ht1 & Hs1). simpl.
  destruct (_subtrees t1) as [|c0 l0] eqn:Hsub.
  - exists (data_size t1), h1. split; [|apply agree_refl].
    apply bind_Ok. exists t1, h1. split; [by apply get_Ok|].
    by rewrite Hsub.
  - destruct (sum_over_total (update_data_sizes fuel) h (_subtrees t1))
      with (acc := 0) (h1 := h1) as (total & h2 & Hsum & Ha2); [|done|].
    { intros c h' Hc Ha'. rewrite Hsub, Hs1 in Hc.
      assert (Hch : child h r c) by (by exists t).
      apply IH; [done|by eapply f_closed|]. apply Hrk in Hch. lia. }
    destruct (down_lookup _ _ _ _ Ha2 Ht1) as (t2 & Ht2 & Hs2).
    exists total, (<[r := set_data_size total t2]> h2). split.
    + apply bind_Ok. exists t1, h1. split; [by apply get_Ok|].
      rewrite Hsub. rewrite <- Hsub. apply bind_Ok. exists total, h2.
      split; [done|]. apply bind_Ok.
      exists tt, (<[r := set_data_size total t2]> h2).
      split; [apply modify_Ok; eauto|].
      apply bind_Ok. eexists _, _. split; [apply get_Ok; split; [|done]|].
      * apply list_lookup_insert_eq. by eapply lookup_lt_Some.
      * reflexivity.
    + eapply agree_trans; [exact Ha2|]. by eapply down_insert.
Qed.

Lemma climb_total h r n :
  wf h → root_node h r → desc h r n →
  ∃ fuel0, ∀ fuel, (fuel0 ≤ fuel)%nat → climb fuel n h = Ok (r, h).
Proof.
  intros Hwf Hr Hd. unfold desc in Hd. revert n Hd.
  apply (rtc_ind_r (λ n, ∃ fuel0, ∀ fuel, (fuel0 ≤ fuel)%nat →
                                         climb fuel n h = Ok (r, h))).
  - exists 1%nat. intros [|fuel] Hle; [lia|]. simpl.
    destruct Hr as (t & Ht & Hp). apply bind_Ok.
    exists t, h. split; [by apply get_Ok|]. by rewrite Hp.
  - intros y n _ Hyn (fuel0 & IH). exists (S fuel0).
    intros [|fuel] Hle; [lia|]. simpl.
    destruct (wf_parent _ Hwf _ _ Hyn) as (t & Ht & Hp). apply bind_Ok.
    exists t, h. split; [by apply get_Ok|]. rewrite Hp. apply IH. lia.
Qed.

Lemma _helper_root_total h r n :
  wf h → root_node h r → desc h r n →
  ∃ fuel0, ∀ fuel, (fuel0 ≤ fuel)%nat →
                   ∃ h', _helper_root fuel n h = Ok (tt, h').
Proof.
  intros Hwf Hr Hd. destruct (climb_total h r n Hwf Hr Hd) as (f1 & Hclimb).
  destruct (wf_acyclic _ Hwf) as [rk Hrk].
  exists (f1 `max` S (rk r))%nat. intros fuel Hle.
  destruct (update_data_sizes_total h rk (wf_forest _ Hwf) Hrk fuel r h)
    as (v & h' & Hu & _); [apply agree_refl| |lia|].
  { destruct Hr as (t & Ht & _). eauto. }
  exists h'. unfold _helper_root. apply bind_Ok. exists r, h.
  split; [apply Hclimb; lia|]. apply bind_Ok. eauto.
Qed.

(** * The claims *)

Lemma Inv_empty : Inv [].
Proof.
  assert (Hno : ∀ p c, ¬ child [] p c) by (by intros p c (t & Ht & _)).
  split; [split|].
  - intros p c Hc. by destruct (Hno _ _ Hc).
  - intros p c Hc. by destruct (Hno _ _ Hc).
  - intros p t Hp. done.
  - exists (λ _, O). intros p c Hc. by destruct (Hno _ _ Hc).
  - intros r n (t & Ht & _). done.
Qed.

Lemma run_Inv fuel op h u h' : Inv h → run fuel op h = Ok (u, h') → Inv h'.
Proof.
  intros HI Hrun. destruct op; simpl in Hrun.
  - by eapply change_size_Inv.
  - by eapply move_Inv.
  - apply bind_Ok in Hrun as (b & h1 & Hdel & Hret).
    apply ret_Ok in Hret as [_ ->]. by eapply delete_self_Inv.
  - eapply Inv_core; [|done]. by eapply agree_expanded_core, expand_agree.
  - eapply Inv_core; [|done]. by eapply agree_expanded_core, expand_all_agree.
  - eapply Inv_core; [|done]. by eapply agree_expanded_core, collapse_agree.
  - eapply Inv_core; [|done].
    by eapply agree_expanded_core, collapse_all_agree.
Qed.

Lemma reachable_Inv h : reachable h → Inv h.
Proof.
  induction 1 as [|h fuel name kids size colour self h' _ IH Hroots Hnd Hrun
                  |h fuel n r h' _ IH Hrun|h fuel op h' _ IH Hrun].
  - apply Inv_empty.
  - by destruct (__init___spec _ _ _ _ _ _ _ _ IH Hroots Hnd Hrun).
  - eapply Inv_core; [|done].
    by eapply agree_rect_core, update_rectangles_agree.
  - by eapply run_Inv.
Qed.

Lemma reachable_two_leaves : reachable two_leaves.
Proof.
  assert (Ha : reachable two_leaves_a).
  { eapply (reach_init [] 1 (Some "a") [] 20 grey 0%nat);
      [apply reach_empty| |apply NoDup_nil_2|reflexivity].
    intros c Hc. by apply elem_of_nil in Hc. }
  assert (Hb : reachable two_leaves_b).
  { eapply (reach_init two_leaves_a 1 (Some "b") [] 30 grey 1%nat);
      [exact Ha| |apply NoDup_nil_2|reflexivity].
    intros c Hc. by apply elem_of_nil in Hc. }
  eapply (reach_init two_leaves_b 2 (Some "root") [0; 1]%nat 0 grey 2%nat);
    [exact Hb| | |reflexivity].
  - intros c Hc. apply elem_of_cons in Hc as [->|Hc];
      [|apply list_elem_of_singleton in Hc as ->];
      eexists; split; reflexivity.
  - apply NoDup_cons. split; [|apply NoDup_singleton].
    intros Hin. by apply list_elem_of_singleton in Hin.
Qed.

Lemma reachable_two_leaves_resized : reachable two_leaves_resized.
Proof.
  eapply (reach_mutation two_leaves 3 (ChangeSize 0%nat half));
    [apply reachable_two_leaves|reflexivity].
Qed.

(** C1.  In every store obtained by constructing trees and then applying
    any finite sequence of the public mutations (and layouts), every node
    with at least one child that sits in a tree (is reachable from a
    parentless node through [_subtrees]) has [data_size] equal to the sum
    of its children's [data_size]. *)
Theorem weight_sum_invariant h r n t :
  reachable h → root_node h r → desc h r n →
  h !! n = Some t → _subtrees t ≠ [] →
  data_size t = sum_sizes h (_subtrees t).
Proof.
  intros Hreach Hr Hd Hn Hne.
  destruct (reachable_Inv _ Hreach) as [_ Hw]. by apply (Hw r n).
Qed.

Lemma weight_sum_invariant_witness :
  ∃ t, two_leaves_resized !! 2%nat = Some t ∧ data_size t = 60
       ∧ data_size t = sum_sizes two_leaves_resized [0; 1]%nat.
Proof.
  eexists. split; [reflexivity|]. split; [reflexivity|].
  apply (weight_sum_invariant two_leaves_resized 2%nat 2%nat).
  - apply reachable_two_leaves_resized.
  - eexists. split; reflexivity.
  - apply rtc_refl.
  - reflexivity.
  - discriminate.
Defined.

Lemma le_zero_not_gt f : PyFloat.le_zero f = true → PyFloat.gt_zero f = false.
Proof.
  unfold PyFloat.le_zero, PyFloat.gt_zero, SFleb.
  by destruct (SFcompare f _) as [[]|].
Qed.

Lemma lt_zero_not_gt f : PyFloat.lt_zero f = true → PyFloat.gt_zero f = false.
Proof.
  unfold PyFloat.lt_zero, PyFloat.gt_zero, SFltb.
  by destruct (SFcompare f _) as [[]|].
Qed.

(** C3.  [change_size] on a node with children changes nothing.  On a leaf
    it sets [data_size] as follows: for [factor > 0] it adds
    [ceil(data_size * factor)]; for [factor <= 0] and size 0 the size
    becomes 1; for [factor < 0] and a positive size it becomes
    [max(1, data_size + floor(data_size * factor))], which is at least 1.
    The call returns for a leaf that sits in a tree of a reachable store
    once its arithmetic succeeds.  A leaf of size 50 goes to 60 under 0.2
    and to 40 under -0.2; a leaf of size 0 goes to 1 under -0.5. *)
Theorem change_size_spec h n t factor :
  h !! n = Some t →
  (_subtrees t ≠ [] → ∀ fuel, change_size fuel n factor h = Ok (tt, h))
  ∧ (_subtrees t = [] → ∀ fuel h',
       change_size fuel n factor h = Ok (tt, h') →
       ∃ t', h' !! n = Some t'
         ∧ (PyFloat.gt_zero factor = true →
            ∃ p c, PyFloat.int_mul (data_size t) factor = inr p
                   ∧ PyFloat.ceil p = inr c
                   ∧ data_size t' = data_size t + c)
         ∧ (PyFloat.le_zero factor = true → data_size t = 0 →
            data_size t' = 1)
         ∧ (PyFloat.lt_zero factor = true → 0 < data_size t →
            ∃ p c, PyFloat.int_mul (data_size t) factor = inr p
                   ∧ PyFloat.floor p = inr c
                   ∧ data_size t' = Z.max 1 (data_size t + c)
                   ∧ 1 ≤ data_size t'))
  ∧ (_subtrees t = [] → reachable h → (∃ r, root_node h r ∧ desc h r n) →
     ∀ h1, _apply_size_change n factor h = Ok (tt, h1) →
     ∃ fuel0, ∀ fuel, (fuel0 ≤ fuel)%nat →
                      ∃ h', change_size fuel n factor h = Ok (tt, h'))
  ∧ (∃ h', change_size 1 0%nat fifth leaf50 = Ok (tt, h')
           ∧ size_at h' 0%nat = 60)
  ∧ (∃ h', change_size 1 0%nat minus_fifth leaf50 = Ok (tt, h')
           ∧ size_at h' 0%nat = 40)
  ∧ (∃ h', change_size 1 0%nat minus_half leaf0 = Ok (tt, h')
           ∧ size_at h' 0%nat = 1).
Proof.
  intros Hn. split; [|split; [|split; [|split; [|split]]]].
  - intros Hne fuel. unfold change_size, _is_leaf. apply bind_Ok.
    exists false, h. split.
    + apply bind_Ok. exists t, h. split; [by apply get_Ok|].
      by rewrite bool_decide_eq_false_2.
    + reflexivity.
  - intros Hleaf fuel h' Hrun. unfold change_size, _is_leaf in Hrun.
    apply bind_Ok in Hrun as (lf & h0 & Hl & Hrun).
    apply bind_Ok in Hl as (t0 & h0' & Hg & Hl). apply get_Ok in Hg as [Hg ->].
    apply ret_Ok in Hl as [-> ->]. rewrite Hn in Hg. injection Hg as <-.
    rewrite bool_decide_eq_true_2 in Hrun by done. simpl in Hrun.
    apply bind_Ok in Hrun as (u1 & h1 & Happ & Hroot).
    apply _apply_size_change_Ok in Happ as (t0 & z & Ht0 & -> & Hpos & Hz & Hneg).
    rewrite Hn in Ht0. injection Ht0 as <-.
    destruct (_helper_root_leaves _ _ _ _ _ Hroot) as [_ Hkept].
    exists (set_data_size z t). split.
    { apply Hkept; [|done]. apply list_lookup_insert_eq.
      by eapply lookup_lt_Some. }
    simpl. split; [done|]. split.
    + intros Hle. by apply Hz, le_zero_not_gt.
    + intros Hlt Hp. destruct Hneg as (p & c & Hp1 & Hp2 & ->);
        [by apply lt_zero_not_gt|lia|].
      exists p, c. repeat (split; [done|]). lia.
  - intros Hleaf Hreach (r & Hr & Hd) h1 Happ.
    pose proof (reachable_Inv _ Hreach) as [Hwf _].
    pose proof Happ as Happ'.
    apply _apply_size_change_Ok in Happ' as (t0 & z & Ht0 & -> & _).
    assert (Hs : agree shape h (<[n := set_data_size z t0]> h))
      by (by eapply agree_insert).
    destruct (_helper_root_total (<[n := set_data_size z t0]> h) r n)
      as (fuel0 & Hroot).
    { by eapply wf_shape. }
    { by apply (root_node_shape _ _ Hs). }
    { by apply (desc_shape _ _ Hs). }
    exists fuel0. intros fuel Hle. destruct (Hroot fuel Hle) as (h' & Hh').
    exists h'. unfold change_size, _is_leaf. apply bind_Ok.
    exists true, h. split.
    + apply bind_Ok. exists t, h. split; [by apply get_Ok|].
      by rewrite bool_decide_eq_true_2.
    + simpl. apply bind_Ok. eauto.
  - eexists. split; reflexivity.
  - eexists. split; reflexivity.
  - eexists. split; reflexivity.
Qed.

Lemma change_size_spec_witness :
  ∃ h', change_size 3 0%nat half two_leaves = Ok (tt, h')
        ∧ ∃ t', h' !! 0%nat = Some t' ∧ data_size t' = 30.
Proof.
  assert (Hn : two_leaves !! 0%nat
               = Some (mkTMTree (0, 0, 0, 0) 20 grey (Some "a") [] (Some 2%nat)
                                false)) by reflexivity.
  destruct (change_size_spec two_leaves 0%nat _ half Hn)
    as (_ & Hleaf & _).
  eexists. split; [reflexivity|].
  destruct (Hleaf eq_refl 3%nat _ eq_refl) as (t' & Ht' & Hpos & _).
  exists t'. split; [exact Ht'|].
  destruct (Hpos eq_refl) as (p & c & Hp & Hc & ->).
  vm_compute in Hp. injection Hp as <-. vm_compute in Hc.
  injection Hc as <-. reflexivity.
Defined.

(** ** Termination of [delete_self] on a node that sits in a tree *)

Lemma climb_up fuel : ∀ n h h1 r,
  agree up h h1 → climb fuel n h = Ok (r, h) → climb fuel n h1 = Ok (r, h1).
Proof.
  induction fuel as [|fuel IH]; intros n h h1 r Ha Hrun; simpl in Hrun;
    [discriminate|].
  apply bind_Ok in Hrun as (t & h0 & Hg & Hrun). apply get_Ok in Hg as [Hn ->].
  destruct (agree_Some _ _ _ _ _ Ha Hn) as (t1 & Hn1 & He).
  injection He as He. simpl. apply bind_Ok. exists t1, h1.
  split; [by apply get_Ok|]. rewrite He.
  destruct (_parent_tree t) as [p|]; [by eapply IH|].
  by apply ret_Ok in Hrun as [-> _].
Qed.

Lemma sum_over_reads_total l : ∀ (h : heap) acc,
  (∀ c, c ∈ l → is_Some (h !! c)) →
  ∃ v, sum_over l (λ c, let* st := get c in ret (data_size st)) acc h
       = Ok (v, h).
Proof.
  induction l as [|c l IH]; intros h acc Hl; simpl; [by eexists|].
  destruct (Hl c (list_elem_of_here _ _)) as [t Ht].
  destruct (IH h (acc + data_size t)) as (v & Hv).
  { intros c' Hc'. apply Hl. by right. }
  exists v. apply bind_Ok. exists (data_size t), h. split; [|done].
  apply bind_Ok. exists t, h. split; [by apply get_Ok|done].
Qed.

Lemma agree_size_up h h' : agree no_size h h' → agree up h h'.
Proof. apply agree_weaken. by intros []. Qed.

Lemma _recalculate_data_sizes_total fuel : ∀ n h0 h1 r,
  climb fuel n h0 = Ok (r, h0) → agree up h0 h1 → forest h1 →
  ∃ h2, _recalculate_data_sizes fuel n h1 = Ok (tt, h2).
Proof.
  induction fuel as [|fuel IH]; intros n h0 h1 r Hrun Ha Hf; simpl in Hrun;
    [discriminate|].
  apply bind_Ok in Hrun as (t & h & Hg & Hrun). apply get_Ok in Hg as [Hn ->].
  destruct (agree_Some _ _ _ _ _ Ha Hn) as (t1 & Hn1 & He).
  injection He as He.
  destruct (sum_over_reads_total (_subtrees t1) h1 0) as (total & Hsum).
  { intros c Hc. apply (f_closed _ Hf n). by exists t1. }
  set (h1' := <[n := set_data_size total t1]> h1).
  assert (Ha' : agree no_size h1 h1') by (by eapply agree_insert).
  assert (∃ h2, match _parent_tree t1 with
                | Some p => _recalculate_data_sizes fuel p
                | None => ret tt
                end h1' = Ok (tt, h2)) as (h2 & Hrest).
  { rewrite He. destruct (_parent_tree t) as [p|]; [|by eexists].
    eapply IH; [exact Hrun| |].
    - eapply agree_trans; [exact Ha|]. by apply agree_size_up.
    - eapply forest_down; [|exact Hf]. by apply agree_size_down. }
  exists h2. simpl. apply bind_Ok. exists t1, h1.
  split; [by apply get_Ok|]. apply bind_Ok. exists total, h1.
  split; [done|]. apply bind_Ok. exists tt, h1'. split; [|done].
  apply modify_Ok. eauto.
Qed.

Lemma detach_from_total h p pt s :
  h !! p = Some pt → s ∈ _subtrees pt →
  ∃ l pt', list_remove s (_subtrees pt) = Some l
           ∧ detach_from (Some p) s h = Ok (p, <[p := pt']> h)
           ∧ _subtrees pt' = l ∧ _parent_tree pt' = _parent_tree pt
           ∧ data_size pt' = data_size pt.
Proof.
  intros Hp Hs. destruct (list_remove s (_subtrees pt)) as [l|] eqn:Hrem.
  2:{ by apply list_remove_None in Hrem. }
  exists l. unfold detach_from, bind, get. rewrite Hp, Hrem.
  unfold modify at 1. rewrite Hp.
  destruct (bool_decide (l = [])).
  - exists (set_expanded false (set_subtrees l pt)). split; [done|].
    unfold modify. rewrite list_lookup_insert_eq by (by eapply lookup_lt_Some).
    by rewrite list_insert_insert_eq.
  - exists (set_subtrees l pt). done.
Qed.

Lemma delete_self_total h s ts p r :
  wf h → h !! s = Some ts → _parent_tree ts = Some p →
  root_node h r → desc h r s →
  ∃ fuel0, ∀ fuel, (fuel0 ≤ fuel)%nat →
                   ∃ h', delete_self fuel s h = Ok (true, h').
Proof.
  intros Hwf Hs Hpar Hr Hd.
  assert (child h p s ∧ desc h r p) as [Hps Hdp].
  { apply rtc_inv_r in Hd as [->|(y & Hy & Hys)].
    - destruct Hr as (tr & Htr & Hnone). congruence.
    - destruct (wf_parent _ Hwf _ _ Hys) as (t' & Ht' & Hp').
      assert (y = p) as -> by congruence. done. }
  destruct Hps as (pt & Hp & Hin).
  destruct (detach_from_total h p pt s Hp Hin)
    as (l & pt' & Hrem & Hdet & Hsub' & Hpar' & _).
  destruct (wf_remove_child h p pt s l pt' Hwf Hp Hrem Hsub' Hpar')
    as (Hwf1 & _ & _).
  set (h1 := <[p := pt']> h) in *.
  pose proof (wf_forest _ Hwf1) as Hf1.
  destruct (f_acyclic _ Hf1) as [rk Hrk].
  destruct (climb_total h r p Hwf Hr Hdp) as (f1 & Hclimb1).
  destruct (climb_total h r s Hwf Hr Hd) as (f2 & Hclimb2).
  assert (Hup1 : agree up h h1).
  { eapply agree_insert; [done|]. unfold up. by rewrite Hpar'. }
  exists (Nat.max (Nat.max f1 f2) (Nat.max (S (rk p)) (S (rk r)))).
  intros fuel Hle.
  destruct (_recalculate_data_sizes_total fuel p h h1 r) as (h2 & Hrec);
    [apply Hclimb1; lia|done|done|].
  destruct (_recalculate_data_sizes_Ok _ _ _ _ _ Hrec) as [Ha2 _].
  destruct (update_data_sizes_total h1 rk Hf1 Hrk fuel p h2)
    as (v & h3 & Hupd & Ha3); [by apply agree_size_down| |lia|].
  { apply lookup_lt_is_Some. subst h1. rewrite length_insert.
    by eapply lookup_lt_Some. }
  destruct (update_data_sizes_leaves _ _ _ _ _ Hupd) as [Ha3' _].
  assert (Hlen : length h3 = length h).
  { rewrite (agree_length _ _ _ Ha3'), (agree_length _ _ _ Ha2).
    subst h1. apply length_insert. }
  destruct (lookup_lt_is_Some_2 h3 s) as [t3 Ht3].
  { rewrite Hlen. by eapply lookup_lt_Some. }
  set (h4 := <[s := set_data_size 0 t3]> h3).
  assert (Ha4 : agree no_size h3 h4) by (by eapply agree_insert).
  assert (Hup4 : agree up h h4).
  { eapply agree_trans; [exact Hup1|].
    apply agree_size_up. eapply agree_trans; [exact Ha2|].
    by eapply agree_trans. }
  assert (Hdown4 : agree down h1 h4).
  { apply agree_size_down. eapply agree_trans; [exact Ha2|].
    by eapply agree_trans. }
  destruct (update_data_sizes_total h1 rk Hf1 Hrk fuel r h4)
    as (v' & h5 & Hupd' & _); [done| |lia|].
  { apply lookup_lt_is_Some. subst h1. rewrite length_insert.
    destruct Hr as (tr & Htr & _). by eapply lookup_lt_Some. }
  exists h5. unfold delete_self. apply bind_Ok. exists ts, h.
  split; [by apply get_Ok|]. rewrite Hpar. apply bind_Ok. exists p, h1.
  split; [done|]. apply bind_Ok. exists tt, h2. split; [done|].
  apply bind_Ok. exists v, h3. split; [done|]. apply bind_Ok.
  exists tt, h4. split; [apply modify_Ok; eauto|]. apply bind_Ok.
  exists tt, h5. split; [|done]. unfold _helper_root. apply bind_Ok.
  exists r, h4. split.
  - eapply climb_up; [exact Hup4|]. apply Hclimb2. lia.
  - apply bind_Ok. eauto.
Qed.

Lemma reachable_two_leaves_deleted : reachable two_leaves_deleted.
Proof.
  eapply (reach_mutation two_leaves 3 (DeleteSelf 1%nat));
    [apply reachable_two_leaves|reflexivity].
Qed.

(** C5, as stated, fails: after [b.delete_self()] the node [b] still has
    its parent reference, and a second [b.delete_self()] raises
    [ValueError] instead of returning [True]. *)
Lemma delete_self_twice_raises :
  reachable two_leaves_deleted
  ∧ (∃ t, two_leaves_deleted !! 1%nat = Some t
          ∧ _parent_tree t = Some 2%nat)
  ∧ ∀ fuel, delete_self fuel 1%nat two_leaves_deleted = Raise ValueError.
Proof.
  split; [apply reachable_two_leaves_deleted|]. split.
  - eexists. split; reflexivity.
  - intros fuel. reflexivity.
Qed.

(** C5, amended.  The invalid mutations return with the store unchanged:
    [move] when the node is the destination, when its parent already is
    the destination, when it has children, or when the destination has no
    children; [delete_self] and [collapse] on a node without a parent.
    [delete_self], when it returns, returns [False] exactly when the node
    has no parent; it returns [True] for a node that has a parent and sits
    in a tree of a reachable store. *)
Theorem invalid_mutations_are_noops h s d ts td :
  h !! s = Some ts → h !! d = Some td →
  (s = d → ∀ fuel, move fuel s d h = Ok (tt, h))
  ∧ (_parent_tree ts = Some d → ∀ fuel, move fuel s d h = Ok (tt, h))
  ∧ (_subtrees ts ≠ [] → ∀ fuel, move fuel s d h = Ok (tt, h))
  ∧ (_subtrees td = [] → ∀ fuel, move fuel s d h = Ok (tt, h))
  ∧ (_parent_tree ts = None →
     ∀ fuel, delete_self fuel s h = Ok (false, h)
             ∧ collapse fuel s h = Ok (tt, h))
  ∧ (∀ fuel b h', delete_self fuel s h = Ok (b, h') →
                  (b = false ↔ _parent_tree ts = None))
  ∧ (reachable h → _parent_tree ts ≠ None →
     (∃ r, root_node h r ∧ desc h r s) →
     ∃ fuel0, ∀ fuel, (fuel0 ≤ fuel)%nat →
                      ∃ h', delete_self fuel s h = Ok (true, h')).
Proof.
  intros Hs Hd.
  assert (Hmove : ∀ fuel,
    bool_decide (s = d) || bool_decide (_parent_tree ts = Some d) = true
    ∨ bool_decide (_subtrees ts = [])
      && negb (bool_decide (_subtrees td = [])) = false →
    move fuel s d h = Ok (tt, h)).
  { intros fuel Hc. unfold move, bind, get. rewrite Hs.
    destruct (_ || _); [done|]. destruct Hc as [Hc|Hc]; [done|].
    rewrite Hd. by rewrite Hc. }
  split; [|split; [|split; [|split; [|split; [|split]]]]].
  - intros Heq fuel. apply Hmove. left.
    by rewrite (bool_decide_eq_true_2 _ Heq).
  - intros Hp fuel. apply Hmove. left.
    rewrite (bool_decide_eq_true_2 _ Hp). apply orb_true_r.
  - intros Hne fuel. apply Hmove. right.
    by rewrite (bool_decide_eq_false_2 _ Hne).
  - intros Hl fuel. apply Hmove. right.
    rewrite (bool_decide_eq_true_2 _ Hl). apply andb_false_r.
  - intros Hp fuel. unfold delete_self, collapse, bind, get.
    by rewrite Hs, Hp.
  - intros fuel b h' Hrun. unfold delete_self in Hrun.
    apply bind_Ok in Hrun as (t & h0 & Hg & Hrun).
    apply get_Ok in Hg as [Hg ->]. rewrite Hs in Hg. injection Hg as <-.
    destruct (_parent_tree ts) as [p|].
    + monad_inv. split; discriminate.
    + apply ret_Ok in Hrun as [-> _]. done.
  - intros Hreach Hp (r & Hr & Hdr).
    destruct (_parent_tree ts) as [p|] eqn:Hpar; [|done].
    eapply delete_self_total; eauto. by apply reachable_Inv.
Qed.

Lemma invalid_mutations_are_noops_witness :
  move 3 0%nat 0%nat two_leaves = Ok (tt, two_leaves)
  ∧ move 3 0%nat 2%nat two_leaves = Ok (tt, two_leaves)
  ∧ delete_self 3 2%nat two_leaves = Ok (false, two_leaves)
  ∧ ∃ fuel h', delete_self fuel 0%nat two_leaves = Ok (true, h').
Proof.
  assert (H0 : two_leaves !! 0%nat
               = Some (mkTMTree (0, 0, 0, 0) 20 grey (Some "a") [] (Some 2%nat)
                                false)) by reflexivity.
  assert (H2 : two_leaves !! 2%nat
               = Some (mkTMTree (0, 0, 0, 0) 50 grey (Some "root")
                                [0; 1]%nat None false)) by reflexivity.
  destruct (invalid_mutations_are_noops two_leaves 0%nat 0%nat _ _ H0 H0)
    as (Hself & _ & _ & _ & _ & _ & Htrue).
  destruct (invalid_mutations_are_noops two_leaves 0%nat 2%nat _ _ H0 H2)
    as (_ & Hparent & _).
  destruct (invalid_mutations_are_noops two_leaves 2%nat 2%nat _ _ H2 H2)
    as (_ & _ & _ & _ & Hroot & _).
  split; [by apply Hself|]. split; [by apply Hparent|].
  split; [by apply Hroot|].
  destruct Htrue as (fuel0 & Hf).
  - apply reachable_two_leaves.
  - discriminate.
  - exists 2%nat. split; [eexists; split; reflexivity|].
    apply rtc_once. eexists. split; [reflexivity|left].
  - destruct (Hf fuel0 (le_n _)) as (h' & Hh'). eauto.
Defined.

(** ** Construction returns *)

Lemma alloc_forest h nd :
  wf h → (∀ c, c ∈ _subtrees nd → root_node h c) → NoDup (_subtrees nd) →
  forest (h ++ [nd]).
Proof.
  intros Hwf Hroots Hnd. set (n := length h). set (h1 := h ++ [nd]).
  assert (HA1 : ∀ k, k ≠ n → h1 !! k = h !! k).
  { intros k Hk. subst h1. destruct (decide (k < n)%nat) as [Hlt|Hge].
    - by apply lookup_app_l.
    - rewrite (lookup_ge_None_2 h) by (subst n; lia).
      apply lookup_ge_None_2. rewrite length_app. simpl. subst n. lia. }
  assert (HA2 : h1 !! n = Some nd) by apply list_lookup_middle, eq_refl.
  assert (Hin : ∀ k, is_Some (h !! k) → k ≠ n).
  { intros k Hk%lookup_lt_is_Some. subst n. lia. }
  assert (Hkid : ∀ c, c ∈ _subtrees nd → c ≠ n ∧ ∀ a, ¬ child h a c).
  { intros c Hc. pose proof (Hroots c Hc) as Hr. split.
    - destruct Hr as (t & Ht & _). apply Hin. eauto.
    - intros a Ha. by eapply (root_not_child h Hwf). }
  assert (Hedge : ∀ a b, child h1 a b ↔
                         (a ≠ n ∧ child h a b) ∨ (a = n ∧ b ∈ _subtrees nd)).
  { intros a b. unfold child. destruct (decide (a = n)) as [->|Hne].
    - rewrite HA2. split.
      + intros (t & [= <-] & Hb). by right.
      + intros [[? _]|[_ Hb]]; [done|]. by exists nd.
    - rewrite HA1 by done. split; [by left|]. by intros [[_ ?]|[? _]]. }
  destruct (wf_forest _ Hwf) as [Hcl Hun Hno [rk Hrk]]. split.
  - intros a b [[_ Hc]|[_ Hb]]%Hedge.
    + destruct (Hcl _ _ Hc) as [t Ht]. exists t. rewrite HA1; [done|].
      apply Hin. eauto.
    + destruct (Hroots b Hb) as (t & Ht & _). exists t.
      rewrite HA1; [done|]. apply Hin. eauto.
  - intros a b c [[Ha Hc]|[-> Hc]]%Hedge [[Hb Hc']|[-> Hc']]%Hedge;
      [eauto| | |done].
    + by destruct (proj2 (Hkid c Hc') a).
    + by destruct (proj2 (Hkid c Hc) b).
  - intros a t Ha. destruct (decide (a = n)) as [->|Hne].
    + rewrite HA2 in Ha. by injection Ha as <-.
    + rewrite HA1 in Ha by done. eauto.
  - exists (λ x, if decide (x = n)
                 then S (max_list (rk <$> _subtrees nd)) else rk x).
    intros a b [[Ha Hc]|[-> Hc]]%Hedge.
    + rewrite (decide_False (P := a = n)) by done.
      rewrite (decide_False (P := b = n)); [eauto|].
      apply Hin. eauto.
    + rewrite (decide_True (P := n = n)) by done.
      rewrite (decide_False (P := b = n)) by (by apply Hkid).
      assert (rk b ≤ max_list (rk <$> _subtrees nd))%nat; [|lia].
      apply max_list_elem_of_le, list_elem_of_fmap. eauto.
Qed.

Lemma for_each_modify_total (f : TMTree → TMTree) l : ∀ h : heap,
  (∀ c, c ∈ l → is_Some (h !! c)) →
  ∃ h', for_each l (λ c, modify c f) h = Ok (tt, h').
Proof.
  induction l as [|c l IH]; intros h Hl; simpl; [by eexists|].
  destruct (Hl c (list_elem_of_here _ _)) as [t Ht].
  destruct (IH (<[c := f t]> h)) as (h' & Hh').
  { intros c' Hc'. apply is_Some_insert, Hl. by right. }
  exists h'. apply bind_Ok. exists tt, (<[c := f t]> h). split; [|done].
  apply modify_Ok. eauto.
Qed.

Lemma __init___total h name kids size colour :
  wf h → (∀ c, c ∈ kids → root_node h c) → NoDup kids →
  ∃ fuel0, ∀ fuel, (fuel0 ≤ fuel)%nat →
    ∃ h', __init__ fuel name kids size colour h = Ok (length h, h').
Proof.
  intros Hwf Hroots Hnd.
  set (nd := mkTMTree (0, 0, 0, 0) size colour name kids None false).
  pose proof (alloc_forest h nd Hwf Hroots Hnd) as Hf1.
  destruct (f_acyclic _ Hf1) as [rk Hrk].
  exists (S (rk (length h))). intros fuel Hle.
  destruct (update_data_sizes_total _ rk Hf1 Hrk fuel (length h) (h ++ [nd]))
    as (v & h2 & Hsum & Ha2); [apply agree_refl| |lia|].
  { exists nd. by apply list_lookup_middle. }
  destruct (for_each_modify_total (set_parent_tree (Some (length h))) kids h2)
    as (h3 & Hpar).
  { intros c Hc. destruct (Hroots c Hc) as (t & Ht & _).
    apply lookup_lt_is_Some. rewrite (agree_length _ _ _ Ha2), length_app.
    apply lookup_lt_Some in Ht. lia. }
  exists h3. unfold __init__. apply bind_Ok. exists (length h), (h ++ [nd]).
  split; [done|]. apply bind_Ok. exists v, h2. split; [exact Hsum|].
  apply bind_Ok. exists tt, h3. split; [exact Hpar|done].
Qed.

(** C9, as stated, fails: [TMTree(None, [leaf])] is constructed. *)
Lemma nameless_parent_constructed :
  ∃ h', __init__ 2 None [0%nat] 0 grey leaf50 = Ok (1%nat, h')
        ∧ ∃ t, h' !! 1%nat = Some t ∧ _name t = None
               ∧ _subtrees t = [0%nat] ∧ data_size t = 50.
Proof.
  eexists. split; [reflexivity|]. eexists. split; [reflexivity|]. done.
Qed.

(** C9, amended.  Construction does not check the name: over parentless,
    distinct children of a reachable store, a call with the name absent
    returns a new parentless node with name [None] and exactly those
    children, whose [data_size] is the sum of theirs when there are any,
    and every child's parent is the new node. *)
Theorem nameless_construction_accepted h kids size colour :
  reachable h → (∀ c, c ∈ kids → root_node h c) → NoDup kids →
  ∃ fuel0, ∀ fuel, (fuel0 ≤ fuel)%nat →
    ∃ h' t,
      __init__ fuel None kids size colour h = Ok (length h, h')
      ∧ h' !! length h = Some t ∧ _name t = None ∧ _subtrees t = kids
      ∧ _parent_tree t = None
      ∧ (kids ≠ [] → data_size t = sum_sizes h' kids)
      ∧ (∀ c, c ∈ kids → parent_is h' c (length h)).
Proof.
  intros Hreach Hroots Hnd. pose proof (reachable_Inv _ Hreach) as HI.
  destruct (__init___total h None kids size colour (proj1 HI) Hroots Hnd)
    as (fuel0 & Htot).
  exists fuel0. intros fuel Hle. destruct (Htot fuel Hle) as (h' & Hrun).
  destruct (__init___spec _ _ _ _ _ _ _ _ HI Hroots Hnd Hrun)
    as ([Hwf' Hw'] & _ & (t & Ht & Hname & Hsub & Hpar & _) & Hkids).
  exists h', t. repeat (split; [done|]). split; [|done].
  intros Hne. rewrite <- Hsub. apply (Hw' (length h) (length h)).
  - by exists t.
  - apply rtc_refl.
  - done.
  - by rewrite Hsub.
Qed.

Lemma nameless_construction_accepted_witness :
  ∃ fuel h' t,
    __init__ fuel None [0%nat] 0 grey leaf50 = Ok (1%nat, h')
    ∧ h' !! 1%nat = Some t ∧ _name t = None ∧ _subtrees t = [0%nat].
Proof.
  destruct (nameless_construction_accepted leaf50 [0%nat] 0 grey)
    as (fuel0 & Hf).
  - eapply (reach_init [] 1 (Some "leaf") [] 50 grey 0%nat);
      [apply reach_empty| |apply NoDup_nil_2|reflexivity].
    intros c Hc. by apply elem_of_nil in Hc.
  - intros c Hc. apply list_elem_of_singleton in Hc as ->.
    eexists. split; reflexivity.
  - apply NoDup_singleton.
  - destruct (Hf fuel0 (le_n _)) as (h' & t & Hrun & Ht & Hn & Hs & _).
    exists fuel0, h', t. done.
Defined.

Lemma reachable_chain3 : reachable chain3.
Proof.
  assert (Hb : reachable chain3_b).
  { eapply (reach_init [] 1 (Some "b") [] 5 grey 0%nat);
      [apply reach_empty| |apply NoDup_nil_2|reflexivity].
    intros c Hc. by apply elem_of_nil in Hc. }
  assert (Ha : reachable chain3_a).
  { eapply (reach_init chain3_b 2 (Some "a") [0%nat] 0 grey 1%nat);
      [exact Hb| |apply NoDup_singleton|reflexivity].
    intros c Hc. apply list_elem_of_singleton in Hc as ->.
    eexists. split; reflexivity. }
  eapply (reach_init chain3_a 3 (Some "root") [1%nat] 0 grey 2%nat);
    [exact Ha| |apply NoDup_singleton|reflexivity].
  intros c Hc. apply list_elem_of_singleton in Hc as ->.
  eexists. split; reflexivity.
Qed.

(** C8: the code at the failing input.  In the freshly built chain
    root > a > b, [a.expand()] returns with [a] expanded while its parent,
    the root, is not. *)
Theorem expand_under_collapsed_parent :
  reachable chain3
  ∧ ∃ h' ta troot,
      expand 1%nat chain3 = Ok (tt, h')
      ∧ h' !! 1%nat = Some ta ∧ _expanded ta = true
      ∧ _parent_tree ta = Some 2%nat
      ∧ h' !! 2%nat = Some troot ∧ _expanded troot = false.
Proof.
  split; [apply reachable_chain3|].
  eexists _, _, _. split; [reflexivity|]. split; [reflexivity|].
  split; [reflexivity|]. split; [reflexivity|]. split; reflexivity.
Qed.

(** ** Layout reads no rectangle it has not written *)

Lemma in_step_refl h g : agree no_rect h g → in_step h h g g.
Proof. intros Ha. split; [done|]. intros k. by right. Qed.

Lemma in_step_trans h h1 h2 g g1 g2 :
  in_step h h1 g g1 → in_step h1 h2 g1 g2 → in_step h h2 g g2.
Proof.
  intros [_ H1] [Ha H2]. split; [done|]. intros k.
  destruct (H2 k) as [?|[Hh Hg]]; [by left|].
  rewrite Hh, Hg. apply H1.
Qed.

Lemma in_step_set_rect h g k t tg r :
  agree no_rect h g → h !! k = Some t → g !! k = Some tg →
  in_step h (<[k := set_rect r t]> h) g (<[k := set_rect r tg]> g).
Proof.
  intros Ha Hk Hg. split.
  - eapply agree_trans; [apply agree_sym; by eapply agree_insert|].
    eapply agree_trans; [exact Ha|]. by eapply agree_insert.
  - intros j. destruct (decide (j = k)) as [->|Hne].
    + left. rewrite !list_lookup_insert_eq; [done|..];
        by eapply lookup_lt_Some.
    + right. by rewrite !list_lookup_insert_ne.
Qed.

Lemma no_rect_fields t t' :
  no_rect t' = no_rect t →
  data_size t' = data_size t ∧ _name t' = _name t
  ∧ _subtrees t' = _subtrees t ∧ _parent_tree t' = _parent_tree t
  ∧ _colour t' = _colour t ∧ _expanded t' = _expanded t.
Proof. intros He. injection He. auto 10. Qed.

Lemma _handle_base_cases_eq rec n r (h : heap) t :
  h !! n = Some t →
  _handle_base_cases rec n r h =
  (if bool_decide (_name t = None) && (0 <? data_size t)
   then modify n (set_rect r)
   else if data_size t =? 0
        then modify n (set_rect (0, 0, 0, 0));;
             for_each (_subtrees t) (λ subtree, rec subtree r)
        else ret tt) h.
Proof.
  intros Hn. unfold _handle_base_cases, is_empty.
  unfold bind at 1. unfold bind at 1. unfold get at 1. rewrite Hn.
  unfold ret at 1. unfold bind at 1. unfold get at 1. by rewrite Hn.
Qed.

Lemma _distribute_space_subtrees_eq rec n r (h : heap) t :
  h !! n = Some t →
  _distribute_space_subtrees rec n r h =
  (if negb (bool_decide (_name t = None)) && (0 <? data_size t)
   then modify n (set_rect r);;
        _distribute_loop rec (data_size t) r (length (_subtrees t)) 0%nat 0
                         (_subtrees t)
   else ret tt) h.
Proof.
  intros Hn. unfold _distribute_space_subtrees, is_empty.
  unfold bind at 1. unfold bind at 1. unfold get at 1. rewrite Hn.
  unfold ret at 1. unfold bind at 1. unfold get at 1. by rewrite Hn.
Qed.

Lemma get_bind {B} c (k : TMTree → M B) (g : heap) tg :
  g !! c = Some tg → (let* st := get c in k st) g = k tg g.
Proof. intros Hc. unfold bind, get. by rewrite Hc. Qed.

Lemma lift_bind {A B} (x : exn + A) v (k : A → M B) (g : heap) :
  x = inr v → (let* p := lift x in k p) g = k v g.
Proof. by intros ->. Qed.

Section InStep.
Variable rec : id → rect_t → M unit.
Hypothesis Hrec : ∀ n r h g u h',
  agree no_rect h g → rec n r h = Ok (u, h') →
  ∃ g', rec n r g = Ok (u, g') ∧ in_step h h' g g'.

Lemma for_each_in_step r l : ∀ h g u h',
  agree no_rect h g →
  for_each l (λ subtree, rec subtree r) h = Ok (u, h') →
  ∃ g', for_each l (λ subtree, rec subtree r) g = Ok (u, g')
        ∧ in_step h h' g g'.
Proof.
  induction l as [|c l IH]; intros h g u h' Ha Hrun; simpl in Hrun.
  - apply ret_Ok in Hrun as [-> ->]. exists g. split; [done|].
    by apply in_step_refl.
  - apply bind_Ok in Hrun as (u1 & h1 & Hc & Hrun).
    destruct (Hrec _ _ _ _ _ _ Ha Hc) as (g1 & Hg1 & Hs1).
    destruct (IH _ _ _ _ (proj1 Hs1) Hrun) as (g' & Hg' & Hs2).
    exists g'. split; [|by eapply in_step_trans].
    simpl. apply bind_Ok. eauto.
Qed.

Lemma modify_in_step n r h g u h' :
  agree no_rect h g → modify n (set_rect r) h = Ok (u, h') →
  ∃ g', modify n (set_rect r) g = Ok (u, g') ∧ in_step h h' g g'.
Proof.
  intros Ha Hm. apply modify_Ok in Hm as (t & Ht & ->).
  destruct (agree_Some _ _ _ _ _ Ha Ht) as (tg & Hg & _).
  exists (<[n := set_rect r tg]> g). split.
  - apply modify_Ok. eauto.
  - by apply in_step_set_rect.
Qed.

Lemma _handle_base_cases_in_step n r h g u h' :
  agree no_rect h g → _handle_base_cases rec n r h = Ok (u, h') →
  ∃ g', _handle_base_cases rec n r g = Ok (u, g') ∧ in_step h h' g g'.
Proof.
  intros Ha Hrun.
  assert (∃ t, h !! n = Some t) as (t & Hn).
  { unfold _handle_base_cases, is_empty in Hrun.
    apply bind_Ok in Hrun as (e & h0 & He & _).
    apply bind_Ok in He as (t & h0' & Hg & _). apply get_Ok in Hg as [Hn _].
    eauto. }
  destruct (agree_Some _ _ _ _ _ Ha Hn) as (tg & Hng & Heq).
  destruct (no_rect_fields _ _ Heq) as (Hsz & Hnm & Hsb & _).
  rewrite (_handle_base_cases_eq _ _ _ _ _ Hn) in Hrun.
  rewrite (_handle_base_cases_eq _ _ _ _ _ Hng), Hsz, Hnm, Hsb.
  destruct (_ && _); [by apply modify_in_step|].
  destruct (_ =? 0).
  - apply bind_Ok in Hrun as (u1 & h1 & Hm & Hrun).
    destruct (modify_in_step _ _ _ _ _ _ Ha Hm) as (g1 & Hg1 & Hs1).
    destruct (for_each_in_step _ _ _ _ _ _ (proj1 Hs1) Hrun)
      as (g' & Hg' & Hs2).
    exists g'. split; [|by eapply in_step_trans]. apply bind_Ok. eauto.
  - apply ret_Ok in Hrun as [-> ->]. exists g. split; [done|].
    by apply in_step_refl.
Qed.

Lemma _distribute_loop_in_step total_size r len l : ∀ i offset h g u h',
  agree no_rect h g →
  _distribute_loop rec total_size r len i offset l h = Ok (u, h') →
  ∃ g', _distribute_loop rec total_size r len i offset l g = Ok (u, g')
        ∧ in_step h h' g g'.
Proof.
  destruct r as [[[x y] width] height].
  induction l as [|c l IH]; intros i offset h g u h' Ha Hrun;
    simpl in Hrun.
  - apply ret_Ok in Hrun as [-> ->]. exists g. split; [done|].
    by apply in_step_refl.
  - apply bind_Ok in Hrun as (st & h0 & Hg & Hrun).
    apply get_Ok in Hg as [Hc ->].
    apply bind_Ok in Hrun as (prop & h0 & Hp & Hrun).
    apply lift_Ok in Hp as [Hp ->].
    destruct (agree_Some _ _ _ _ _ Ha Hc) as (stg & Hcg & Heq).
    destruct (no_rect_fields _ _ Heq) as (Hsz & _).
    assert (Hstep : ∀ r' dim, 
      (let* st' := get c in
       rec c (rect st');;
       _distribute_loop rec total_size (x, y, width, height) len (S i)
                        (offset + dim) l)
        (<[c := set_rect r' st]> h) = Ok (u, h') →
      ∃ g', (modify c (set_rect r');;
             let* st' := get c in
             rec c (rect st');;
             _distribute_loop rec total_size (x, y, width, height) len
                              (S i) (offset + dim) l) g = Ok (u, g')
            ∧ in_step h h' g g').
    { intros r' dim Hk.
      pose proof (in_step_set_rect h g c st stg r' Ha Hc Hcg) as Hs1.
      apply bind_Ok in Hk as (st' & h0 & Hg & Hk).
      apply get_Ok in Hg as [Hst' ->].
      rewrite list_lookup_insert_eq in Hst' by (by eapply lookup_lt_Some).
      injection Hst' as <-. simpl in Hk.
      apply bind_Ok in Hk as (u2 & h2 & Hr & Hk).
      destruct (Hrec _ _ _ _ _ _ (proj1 Hs1) Hr) as (g2 & Hg2 & Hs2).
      destruct (IH _ _ _ _ _ _ (proj1 Hs2) Hk) as (g' & Hg' & Hs3).
      exists g'. split.
      - apply bind_Ok. exists tt, (<[c := set_rect r' stg]> g).
        split; [apply modify_Ok; eauto|]. apply bind_Ok.
        exists (set_rect r' stg), (<[c := set_rect r' stg]> g).
        split.
        + apply get_Ok. split; [|done]. apply list_lookup_insert_eq.
          by eapply lookup_lt_Some.
        + simpl. apply bind_Ok. eauto.
      - eapply in_step_trans; [exact Hs1|]. by eapply in_step_trans. }
    simpl. rewrite (get_bind _ _ _ _ Hcg), Hsz, (lift_bind _ _ _ _ Hp).
    destruct (height <? width).
    + apply bind_Ok in Hrun as (dim & h0 & Hd & Hrun).
      pose proof Hd as Hd'.
      apply _calculate_dimension_Ok in Hd' as [-> _].
      apply bind_Ok in Hrun as (u1 & h1 & Hm & Hrun).
      apply modify_Ok in Hm as (st1 & Hst1 & ->). rewrite Hc in Hst1.
      injection Hst1 as <-.
      destruct (Hstep _ _ Hrun) as (g' & Hg' & Hs).
      exists g'. split; [|done]. apply bind_Ok. exists dim, g.
      split; [|done]. revert Hd. unfold _calculate_dimension.
      destruct (negb _); [|by intros [= <-]].
      unfold bind, lift. destruct (PyFloat.int_mul _ _); [done|]. simpl.
      destruct (PyFloat.trunc _); [done|]. by intros [= <-].
    + apply bind_Ok in Hrun as (dim & h0 & Hd & Hrun).
      pose proof Hd as Hd'.
      apply _calculate_dimension_Ok in Hd' as [-> _].
      apply bind_Ok in Hrun as (u1 & h1 & Hm & Hrun).
      apply modify_Ok in Hm as (st1 & Hst1 & ->). rewrite Hc in Hst1.
      injection Hst1 as <-.
      destruct (Hstep _ _ Hrun) as (g' & Hg' & Hs).
      exists g'. split; [|done]. apply bind_Ok. exists dim, g.
      split; [|done]. revert Hd. unfold _calculate_dimension.
      destruct (negb _); [|by intros [= <-]].
      unfold bind, lift. destruct (PyFloat.int_mul _ _); [done|]. simpl.
      destruct (PyFloat.trunc _); [done|]. by intros [= <-].
Qed.
End InStep.

Lemma _distribute_space_subtrees_in_step rec n r h g u h' :
  (∀ n r h g u h',
     agree no_rect h g → rec n r h = Ok (u, h') →
     ∃ g', rec n r g = Ok (u, g') ∧ in_step h h' g g') →
  agree no_rect h g → _distribute_space_subtrees rec n r h = Ok (u, h') →
  ∃ g', _distribute_space_subtrees rec n r g = Ok (u, g')
        ∧ in_step h h' g g'.
Proof.
  intros Hrec Ha Hrun.
  assert (∃ t, h !! n = Some t) as (t & Hn).
  { unfold _distribute_space_subtrees, is_empty in Hrun.
    apply bind_Ok in Hrun as (e & h0 & He & _).
    apply bind_Ok in He as (t & h0' & Hg & _). apply get_Ok in Hg as [Hn _].
    eauto. }
  destruct (agree_Some _ _ _ _ _ Ha Hn) as (tg & Hng & Heq).
  destruct (no_rect_fields _ _ Heq) as (Hsz & Hnm & Hsb & _).
  rewrite (_distribute_space_subtrees_eq _ _ _ _ _ Hn) in Hrun.
  rewrite (_distribute_space_subtrees_eq _ _ _ _ _ Hng), Hsz, Hnm, Hsb.
  destruct (_ && _).
  - apply bind_Ok in Hrun as (u1 & h1 & Hm & Hrun).
    destruct (modify_in_step _ _ _ _ _ _ Ha Hm) as (g1 & Hg1 & Hs1).
    destruct (_distribute_loop_in_step rec Hrec _ _ _ _ _ _ _ _ _ _
                                       (proj1 Hs1) Hrun) as (g' & Hg' & Hs2).
    exists g'. split; [|by eapply in_step_trans]. apply bind_Ok. eauto.
  - apply ret_Ok in Hrun as [-> ->]. exists g. split; [done|].
    by apply in_step_refl.
Qed.

Lemma update_rectangles_in_step fuel : ∀ n r h g u h',
  agree no_rect h g → update_rectangles fuel n r h = Ok (u, h') →
  ∃ g', update_rectangles fuel n r g = Ok (u, g') ∧ in_step h h' g g'.
Proof.
  induction fuel as [|fuel IH]; intros n r h g u h' Ha Hrun; simpl in Hrun;
    [discriminate|].
  apply bind_Ok in Hrun as (u1 & h1 & Hbase & Hdist).
  destruct (_handle_base_cases_in_step _ IH _ _ _ _ _ _ Ha Hbase)
    as (g1 & Hg1 & Hs1).
  destruct (_distribute_space_subtrees_in_step _ _ _ _ _ _ _ IH
                                               (proj1 Hs1) Hdist)
    as (g' & Hg' & Hs2).
  exists g'. split; [|by eapply in_step_trans]. simpl. apply bind_Ok. eauto.
Qed.

Lemma same_but_rect t t' : no_rect t' = no_rect t → rect t' = rect t → t' = t.
Proof. destruct t, t'. simpl. intros [= -> -> -> -> -> ->] ->. done. Qed.

(** ** Collapsing *)

Lemma agree_expanded_shape h h' : agree no_expanded h h' → agree shape h h'.
Proof. apply agree_weaken. by intros []. Qed.

Lemma collapsed_insert (h : heap) k t x :
  collapsed h x → collapsed (<[k := set_expanded false t]> h) x.
Proof.
  intros Hx t' Ht'. destruct (decide (x = k)) as [->|Hne].
  - apply list_lookup_insert_Some in Ht' as [(_ & <- & _)|[? ?]]; [done|done].
  - rewrite list_lookup_insert_ne in Ht' by done. eauto.
Qed.

Lemma collapsed_insert_eq (h : heap) k t :
  collapsed (<[k := set_expanded false t]> h) k.
Proof.
  intros t' Ht'.
  apply list_lookup_insert_Some in Ht' as [(_ & <- & _)|[? ?]]; done.
Qed.

Lemma for_each_collapse (body : id → M unit) h l :
  (∀ y h1, y ∈ l → agree no_expanded h h1 →
     ∃ h2, body y h1 = Ok (tt, h2) ∧ agree no_expanded h1 h2
           ∧ (∀ x, desc h y x → collapsed h2 x)
           ∧ (∀ x, collapsed h1 x → collapsed h2 x)) →
  ∀ h1, agree no_expanded h h1 →
    ∃ h2, for_each l body h1 = Ok (tt, h2) ∧ agree no_expanded h1 h2
          ∧ (∀ y x, y ∈ l → desc h y x → collapsed h2 x)
          ∧ (∀ x, collapsed h1 x → collapsed h2 x).
Proof.
  induction l as [|c l IH]; intros Hb h1 Ha; simpl.
  - exists h1. split; [done|]. split; [apply agree_refl|]. split; [|done].
    intros y x Hy. by apply elem_of_nil in Hy.
  - destruct (Hb c h1 (list_elem_of_here _ _) Ha) as (h2 & Hc & Ha2 & Hd2 & Hm2).
    destruct (IH (λ y h' Hy, Hb y h' (list_elem_of_further _ _ _ Hy)) h2
                 (agree_trans _ _ _ _ Ha Ha2)) as (h3 & Hl & Ha3 & Hd3 & Hm3).
    exists h3. split; [apply bind_Ok; eauto|].
    split; [by eapply agree_trans|]. split; [|by eauto].
    intros y x [->|Hy]%elem_of_cons Hx; eauto.
Qed.

Lemma _collapse_parent_spec h (rk : id → nat) :
  forest h → (∀ p c, child h p c → (rk c < rk p)%nat) →
  ∀ fuel c h1, agree no_expanded h h1 → is_Some (h !! c) →
    (rk c < fuel)%nat →
    ∃ h2, _collapse_parent fuel c h1 = Ok (tt, h2)
          ∧ agree no_expanded h1 h2
          ∧ (∀ x, desc h c x → collapsed h2 x)
          ∧ (∀ x, collapsed h1 x → collapsed h2 x).
Proof.
  intros Hf Hrk. induction fuel as [|fuel IH]; intros c h1 Ha [t Ht] Hlt;
    [lia|].
  destruct (agree_Some _ _ _ _ _ Ha Ht) as (t1 & Ht1 & He).
  assert (Hsub : _subtrees t1 = _subtrees t) by (by injection He).
  set (h1' := <[c := set_expanded false t1]> h1).
  assert (Ha1 : agree no_expanded h1 h1') by (by eapply agree_insert).
  assert (Hc1 : h1' !! c = Some (set_expanded false t1)).
  { apply list_lookup_insert_eq. by eapply lookup_lt_Some. }
  destruct (for_each_collapse (_collapse_parent fuel) h (_subtrees t))
    with (h1 := h1') as (h2 & Hl & Ha2 & Hd2 & Hm2).
  { intros y h' Hy Ha'. assert (Hch : child h c y) by (by exists t).
    apply IH; [done|by eapply f_closed|]. apply Hrk in Hch. lia. }
  { by eapply agree_trans. }
  exists h2. split; [|split; [by eapply agree_trans|split]].
  - simpl. apply bind_Ok. exists tt, h1'. split; [apply modify_Ok; eauto|].
    apply bind_Ok. exists (set_expanded false t1), h1'.
    split; [by apply get_Ok|]. simpl. rewrite Hsub.
    destruct (_subtrees t) as [|y l] eqn:Hl'; [|done].
    simpl in Hl. by rewrite Hl.
  - intros x Hx. apply rtc_inv in Hx as [<-|(y & (t' & Ht' & Hy) & Hx)].
    + apply Hm2, collapsed_insert_eq.
    + rewrite Ht in Ht'. injection Ht' as <-. by eapply Hd2.
  - intros x Hx. by apply Hm2, collapsed_insert.
Qed.

(** C6.  [collapse] on a node without a parent changes nothing.  On a
    node whose parent is [p] it returns (for every large enough budget)
    with only expansion flags changed, the flag of [p] and the node's own
    flag false, and the flag of every node below every child of [p]
    false: the whole sibling group is collapsed. *)
Theorem collapse_spec h n t :
  reachable h → h !! n = Some t →
  (_parent_tree t = None → ∀ fuel, collapse fuel n h = Ok (tt, h))
  ∧ (∀ p, _parent_tree t = Some p → is_Some (h !! p) →
     ∃ fuel0, ∀ fuel, (fuel0 ≤ fuel)%nat →
       ∃ h', collapse fuel n h = Ok (tt, h')
             ∧ agree no_expanded h h'
             ∧ collapsed h' p ∧ collapsed h' n
             ∧ ∀ c x, child h p c → desc h c x → collapsed h' x).
Proof.
  intros Hreach Hn. split.
  - intros Hp fuel. unfold collapse, bind, get. by rewrite Hn, Hp.
  - intros p Hp [tp Htp]. destruct (reachable_Inv _ Hreach) as [Hwf _].
    pose proof (wf_forest _ Hwf) as Hf. destruct (f_acyclic _ Hf) as [rk Hrk].
    exists (S (rk p)). intros fuel Hle.
    set (h1 := <[p := set_expanded false tp]> h).
    assert (Ha1 : agree no_expanded h h1) by (by eapply agree_insert).
    destruct (agree_Some _ _ _ _ _ Ha1 Hn) as (t1 & Ht1 & _).
    set (h2 := <[n := set_expanded false t1]> h1).
    assert (Ha2 : agree no_expanded h1 h2) by (by eapply agree_insert).
    assert (Ha12 : agree no_expanded h h2) by (by eapply agree_trans).
    destruct (agree_Some _ _ _ _ _ Ha12 Htp) as (tp2 & Htp2 & He).
    assert (Hsub : _subtrees tp2 = _subtrees tp) by (by injection He).
    destruct (for_each_collapse (_collapse_parent fuel) h (_subtrees tp))
      with (h1 := h2) as (h3 & Hl & Ha3 & Hd3 & Hm3); [|done|].
    { intros y h' Hy Ha'. assert (Hch : child h p y) by (by exists tp).
      apply (_collapse_parent_spec h rk Hf Hrk); [done|by eapply f_closed|].
      apply Hrk in Hch. lia. }
    exists h3. split; [|split; [by eapply agree_trans|split; [|split]]].
    + unfold collapse. apply bind_Ok. exists t, h.
      split; [by apply get_Ok|]. rewrite Hp. apply bind_Ok. exists tt, h1.
      split; [apply modify_Ok; eauto|]. apply bind_Ok. exists tt, h2.
      split; [apply modify_Ok; eauto|]. apply bind_Ok. exists tp2, h2.
      split; [by apply get_Ok|]. by rewrite Hsub.
    + apply Hm3, collapsed_insert, collapsed_insert_eq.
    + apply Hm3, collapsed_insert_eq.
    + intros c x (tp' & Htp' & Hc) Hx. rewrite Htp in Htp'.
      injection Htp' as <-. by eapply Hd3.
Qed.

Lemma collapse_spec_witness :
  ∃ fuel h', collapse fuel 1%nat chain3_expanded = Ok (tt, h')
             ∧ collapsed h' 2%nat ∧ collapsed h' 1%nat ∧ collapsed h' 0%nat.
Proof.
  assert (Hreach : reachable chain3_expanded).
  { eapply (reach_mutation chain3 3 (ExpandAll 2%nat));
      [apply reachable_chain3|reflexivity]. }
  assert (H1 : chain3_expanded !! 1%nat
               = Some (mkTMTree (0, 0, 0, 0) 5 grey (Some "a") [0%nat]
                                (Some 2%nat) true)) by reflexivity.
  destruct (collapse_spec chain3_expanded 1%nat _ Hreach H1) as [_ Hc].
  destruct (Hc 2%nat eq_refl) as (fuel0 & Hf); [by eexists|].
  destruct (Hf fuel0 (le_n _)) as (h' & Hrun & _ & Hp & Hn & Hbelow).
  exists fuel0, h'. split; [done|]. split; [done|]. split; [done|].
  apply (Hbelow 1%nat 0%nat).
  - eexists. split; [reflexivity|left].
  - apply rtc_once. eexists. split; [reflexivity|left].
Defined.

(** ** The spatial query *)

Lemma _is_pos_inside_rect_Ok n pos h b h' t :
  h !! n = Some t → _is_pos_inside_rect n pos h = Ok (b, h') →
  h' = h ∧ (b = true ↔ inside (rect t) pos).
Proof.
  intros Hn Hrun. unfold _is_pos_inside_rect in Hrun.
  rewrite (get_bind _ _ _ _ Hn) in Hrun. destruct pos as [px py].
  destruct (rect t) as [[[x y] w] hg]. apply ret_Ok in Hrun as [-> ->].
  split; [done|]. unfold inside.
  rewrite !andb_true_iff, !Z.leb_le. tauto.
Qed.

Lemma first_found_total (q : id → M (option id)) l (h : heap) :
  (∀ c, c ∈ l → ∃ rc, q c h = Ok (rc, h)) →
  ∃ results, Forall2 (λ c rc, q c h = Ok (rc, h)) l results
             ∧ first_found l q h = Ok (first_success results, h).
Proof.
  induction l as [|c l IH]; intros Hq.
  - exists []. split; [constructor|done].
  - destruct (Hq c (list_elem_of_here _ _)) as (rc & Hc).
    destruct IH as (results & HF & Hl).
    { intros c' Hc'. apply Hq. by right. }
    exists (rc :: results). split; [by constructor|].
    simpl. apply bind_Ok. exists rc, h. split; [done|].
    by destruct rc.
Qed.

Lemma first_found_mono (q q' : id → M (option id)) l :
  (∀ c h rc h', q c h = Ok (rc, h') → q' c h = Ok (rc, h')) →
  ∀ h r h', first_found l q h = Ok (r, h') → first_found l q' h = Ok (r, h').
Proof.
  intros Hq. induction l as [|c l IH]; intros h r h' Hrun; simpl in *;
    [done|].
  apply bind_Ok in Hrun as (rc & h1 & Hc & Hrun). apply bind_Ok.
  exists rc, h1. split; [by apply Hq|]. destruct rc; [done|by apply IH].
Qed.

Lemma get_tree_at_position_S pos fuel : ∀ n h res h',
  get_tree_at_position fuel n pos h = Ok (res, h') →
  get_tree_at_position (S fuel) n pos h = Ok (res, h').
Proof.
  induction fuel as [|fuel IH]; intros n h res h' Hrun; [discriminate|].
  remember (S fuel) as fuel1 eqn:Hf. simpl. rewrite Hf in Hrun.
  simpl in Hrun. apply bind_Ok in Hrun as (b & h1 & Hb & Hrun).
  apply bind_Ok. exists b, h1. split; [done|].
  destruct b; [|done]. apply bind_Ok in Hrun as (st & h2 & Hst & Hrun).
  apply bind_Ok. exists st, h2. split; [done|].
  destruct st; [done|]. unfold _search_subtrees_for_pos in *.
  apply bind_Ok in Hrun as (t & h3 & Hg & Hrun). apply bind_Ok.
  exists t, h3. split; [done|].
  eapply first_found_mono; [|exact Hrun].
  intros c h0 rc h0' Hc. subst fuel1. by apply IH.
Qed.

Lemma get_tree_at_position_mono pos fuel fuel' n h res h' :
  (fuel ≤ fuel')%nat →
  get_tree_at_position fuel n pos h = Ok (res, h') →
  get_tree_at_position fuel' n pos h = Ok (res, h').
Proof.
  induction 1 as [|m _ IH]; [done|]. intros Hrun.
  by apply get_tree_at_position_S, IH.
Qed.

Lemma _is_pos_inside_rect_total n pos (h : heap) t :
  h !! n = Some t → ∃ b, _is_pos_inside_rect n pos h = Ok (b, h).
Proof.
  intros Hn. unfold _is_pos_inside_rect. rewrite (get_bind _ _ _ _ Hn).
  destruct pos as [px py]. destruct (rect t) as [[[x y] w] hg]. by eexists.
Qed.

Lemma _is_leaf_or_not_expanded_eq n (h : heap) t :
  h !! n = Some t →
  _is_leaf_or_not_expanded n h
  = Ok (bool_decide (_subtrees t = []) || negb (_expanded t), h).
Proof.
  intros Hn. unfold _is_leaf_or_not_expanded. by rewrite (get_bind _ _ _ _ Hn).
Qed.

Lemma get_tree_at_position_total h (rk : id → nat) pos :
  forest h → (∀ p c, child h p c → (rk c < rk p)%nat) →
  ∀ fuel n, is_Some (h !! n) → (rk n < fuel)%nat →
            ∃ res, get_tree_at_position fuel n pos h = Ok (res, h).
Proof.
  intros Hf Hrk. induction fuel as [|fuel IH]; intros n [t Ht] Hlt; [lia|].
  simpl. destruct (_is_pos_inside_rect_total n pos h t Ht) as (b & Hb).
  unfold bind at 1. rewrite Hb. destruct b; [|by eexists].
  unfold bind at 1. rewrite (_is_leaf_or_not_expanded_eq _ _ _ Ht).
  destruct (_ || _); [by eexists|].
  unfold _search_subtrees_for_pos. rewrite (get_bind _ _ _ _ Ht).
  destruct (first_found_total
              (λ tree, get_tree_at_position fuel tree pos)
              (_subtrees t) h) as (results & _ & Hl); [|eauto].
  intros c Hc. assert (Hch : child h n c) by (by exists t).
  apply IH; [by eapply f_closed|]. apply Hrk in Hch. lia.
Qed.

Lemma reachable_gap_tree : reachable gap_tree.
Proof.
  assert (Hleaf : ∀ h name size n h',
            reachable h → __init__ 1 name [] size grey h = Ok (n, h') →
            reachable h').
  { intros h name size n h' Hh Hrun.
    eapply (reach_init h 1 name [] size grey n);
      [exact Hh| |apply NoDup_nil_2|exact Hrun].
    intros c Hc. by apply elem_of_nil in Hc. }
  assert (Ha : reachable gap_a)
    by (eapply (Hleaf [] (Some "a") 1 0%nat); [apply reach_empty|reflexivity]).
  assert (Hb : reachable gap_b)
    by (eapply (Hleaf gap_a (Some "b") 1 1%nat); [exact Ha|reflexivity]).
  assert (Hc : reachable gap_c)
    by (eapply (Hleaf gap_b (Some "c") 1 2%nat); [exact Hb|reflexivity]).
  assert (Hd : reachable gap_d)
    by (eapply (Hleaf gap_c (Some "d") 0 3%nat); [exact Hc|reflexivity]).
  assert (Hr : reachable gap_built).
  { eapply (reach_init gap_d 2 (Some "root") [0; 1; 2; 3]%nat 0 grey 4%nat);
      [exact Hd| | |reflexivity].
    - intros c Hin. repeat (apply elem_of_cons in Hin as [->|Hin];
        [eexists; split; reflexivity|]). by apply elem_of_nil in Hin.
    - repeat (apply NoDup_cons; split;
        [intros Hin; repeat (apply elem_of_cons in Hin as [Hin|Hin];
                             [discriminate|]);
         by apply elem_of_nil in Hin|]).
      apply NoDup_nil_2. }
  assert (Hl : reachable gap_laid_out).
  { eapply (reach_layout gap_built 3 4%nat (0, 0, 100, 5)); [exact Hr|].
    vm_compute. reflexivity. }
  eapply (reach_mutation gap_laid_out 0 (Expand 4%nat)); [exact Hl|].
  vm_compute. reflexivity.
Qed.

(** C7, as stated, fails: in a freshly laid out, reachable tree the point
    (100, 3) lies inside the rectangle (0, 0, 100, 5) of the expanded
    root, and the query on the root returns [None]. *)
Lemma query_none_inside :
  reachable gap_tree
  ∧ (∃ t, gap_tree !! 4%nat = Some t ∧ rect t = (0, 0, 100, 5)
          ∧ inside (rect t) (100, 3))
  ∧ hit gap_tree 4%nat (100, 3) None.
Proof.
  split; [apply reachable_gap_tree|]. split.
  - eexists. split; [reflexivity|]. split; [reflexivity|].
    simpl. lia.
  - exists 2%nat. intros fuel Hle.
    eapply get_tree_at_position_mono; [exact Hle|]. vm_compute. reflexivity.
Qed.

Lemma hit_unique h n pos r1 r2 : hit h n pos r1 → hit h n pos r2 → r1 = r2.
Proof.
  intros (f1 & H1) (f2 & H2).
  specialize (H1 (Nat.max f1 f2) (Nat.le_max_l _ _)).
  specialize (H2 (Nat.max f1 f2) (Nat.le_max_r _ _)). congruence.
Qed.

(** C7, amended.  In a reachable store the query on a node returns, with
    a result that does not depend on the budget.  It is [None] when the
    point lies outside the node's rectangle (bounds inclusive); the node
    itself when the point is inside and the node is a leaf or not
    expanded; otherwise the result of the first child, in list order,
    whose query does not return [None], and [None] when there is no such
    child, which can happen with the point inside the rectangle. *)
Theorem get_tree_at_position_spec h n t pos :
  reachable h → h !! n = Some t →
  ∃ res, hit h n pos res
    ∧ (¬ inside (rect t) pos → res = None)
    ∧ (inside (rect t) pos → _subtrees t = [] ∨ _expanded t = false →
       res = Some n)
    ∧ (inside (rect t) pos → _subtrees t ≠ [] → _expanded t = true →
       ∃ results, Forall2 (λ c rc, hit h c pos rc) (_subtrees t) results
                  ∧ res = first_success results).
Proof.
  intros Hreach Hn. destruct (reachable_Inv _ Hreach) as [Hwf _].
  pose proof (wf_forest _ Hwf) as Hf. destruct (f_acyclic _ Hf) as [rk Hrk].
  destruct (get_tree_at_position_total h rk pos Hf Hrk (S (rk n)) n)
    as (res & Hres); [eauto|lia|].
  exists res. split.
  { exists (S (rk n)). intros fuel Hle.
    by eapply get_tree_at_position_mono. }
  simpl in Hres. apply bind_Ok in Hres as (b & h1 & Hb & Hres).
  destruct (_is_pos_inside_rect_Ok _ _ _ _ _ _ Hn Hb) as [-> Hin].
  destruct b.
  2:{ apply ret_Ok in Hres as [-> _]. split; [done|].
      split; intros Hi; apply Hin in Hi; discriminate. }
  unfold bind at 1 in Hres.
  rewrite (_is_leaf_or_not_expanded_eq _ _ _ Hn) in Hres.
  split; [intros Hout; destruct Hout; by apply Hin|].
  destruct (bool_decide (_subtrees t = [])) eqn:Hleaf; simpl in Hres.
  { apply ret_Ok in Hres as [-> _]. split; [done|].
    intros _ Hne. by apply bool_decide_eq_true in Hleaf. }
  destruct (_expanded t) eqn:Hexp; simpl in Hres.
  2:{ apply ret_Ok in Hres as [-> _]. split; [done|]. done. }
  apply bool_decide_eq_false in Hleaf. split.
  { intros _ [Hl|Hl]; [done|discriminate]. }
  intros _ _ _. unfold _search_subtrees_for_pos in Hres.
  rewrite (get_bind _ _ _ _ Hn) in Hres.
  destruct (first_found_total
              (λ tree, get_tree_at_position (rk n) tree pos)
              (_subtrees t) h) as (results & HF & Hl).
  { intros c Hc. assert (Hch : child h n c) by (by exists t).
    apply (get_tree_at_position_total h rk pos Hf Hrk);
      [by eapply f_closed|by apply Hrk]. }
  exists results. split; [|congruence].
  eapply Forall2_impl; [exact HF|]. intros c rc Hc. exists (rk n).
  intros fuel Hle. by eapply get_tree_at_position_mono.
Qed.

Lemma get_tree_at_position_spec_witness :
  hit gap_tree 4%nat (99, 3) (Some 2%nat)
  ∧ ∃ results,
      Forall2 (λ c rc, hit gap_tree c (99, 3) rc) [0; 1; 2; 3]%nat results
      ∧ Some 2%nat = first_success results.
Proof.
  assert (H4 : gap_tree !! 4%nat
               = Some (mkTMTree (0, 0, 100, 5) 3 grey (Some "root")
                                [0; 1; 2; 3]%nat None true)) by reflexivity.
  destruct (get_tree_at_position_spec gap_tree 4%nat _ (99, 3)
              reachable_gap_tree H4) as (res & Hhit & _ & _ & Hkids).
  assert (Hres : hit gap_tree 4%nat (99, 3) (Some 2%nat)).
  { exists 2%nat. intros fuel Hle.
    eapply get_tree_at_position_mono; [exact Hle|]. vm_compute. reflexivity. }
  rewrite (hit_unique _ _ _ _ _ Hres Hhit). split; [exact Hhit|].
  apply Hkids; [simpl; lia|discriminate|reflexivity].
Defined.

(** ** Layout works below the node only *)

Lemma agree_rect_shape h h' : agree no_rect h h' → agree shape h h'.
Proof. apply agree_weaken. by intros []. Qed.

Lemma for_each_local (body : id → M unit) h l :
  (∀ c h1 h2, c ∈ l → agree no_rect h h1 → body c h1 = Ok (tt, h2) →
              ∀ x, ¬ desc h c x → h2 !! x = h1 !! x) →
  (∀ c h1 u h2, body c h1 = Ok (u, h2) → agree no_rect h1 h2) →
  ∀ h1 h2, agree no_rect h h1 → for_each l body h1 = Ok (tt, h2) →
           ∀ x, (∀ c, c ∈ l → ¬ desc h c x) → h2 !! x = h1 !! x.
Proof.
  intros Hb Hag. induction l as [|c l IH]; intros h1 h2 Ha Hrun x Hx;
    simpl in Hrun.
  - by apply ret_Ok in Hrun as [_ ->].
  - apply bind_Ok in Hrun as ([] & h1' & Hc & Hrun).
    rewrite (IH (λ c' h' h'' Hc', Hb c' h' h'' (list_elem_of_further _ _ _ Hc'))
                h1' h2).
    + eapply Hb; eauto; [left|]. apply Hx. left.
    + eapply agree_trans; [exact Ha|]. by eapply Hag.
    + done.
    + intros c' Hc'. apply Hx. by right.
Qed.

Lemma _distribute_loop_local (rec : id → rect_t → M unit) h total r len l :
  (∀ c r' h1 h2, c ∈ l → agree no_rect h h1 → rec c r' h1 = Ok (tt, h2) →
                 ∀ x, ¬ desc h c x → h2 !! x = h1 !! x) →
  (∀ c r' h1 u h2, rec c r' h1 = Ok (u, h2) → agree no_rect h1 h2) →
  ∀ i offset h1 h2, agree no_rect h h1 →
    _distribute_loop rec total r len i offset l h1 = Ok (tt, h2) →
    ∀ x, (∀ c, c ∈ l → ¬ desc h c x) → h2 !! x = h1 !! x.
Proof.
  intros Hb Hag. destruct r as [[[x0 y0] w] hg].
  induction l as [|c l IH]; intros i offset h1 h2 Ha Hrun x Hx;
    simpl in Hrun.
  - by apply ret_Ok in Hrun as [_ ->].
  - apply bind_Ok in Hrun as (st & h0 & Hg & Hrun).
    apply get_Ok in Hg as [Hc ->].
    apply bind_Ok in Hrun as (prop & h0 & Hp & Hrun).
    apply lift_Ok in Hp as [Hp ->].
    assert (Hxc : x ≠ c).
    { intros ->. apply (Hx c); [left|apply rtc_refl]. }
    assert (Hstep : ∀ r' dim,
      (let* st' := get c in
       rec c (rect st');;
       _distribute_loop rec total (x0, y0, w, hg) len (S i) (offset + dim) l)
        (<[c := set_rect r' st]> h1) = Ok (tt, h2) →
      h2 !! x = h1 !! x).
    { intros r' dim Hk. apply bind_Ok in Hk as (st' & h0 & Hg & Hk).
      apply get_Ok in Hg as [_ ->].
      apply bind_Ok in Hk as ([] & h3 & Hr & Hk).
      assert (Ha1 : agree no_rect h (<[c := set_rect r' st]> h1)).
      { eapply agree_trans; [exact Ha|]. by eapply agree_insert. }
      transitivity (h3 !! x).
      - eapply (IH (λ c' r'' h' h'' Hc',
                    Hb c' r'' h' h'' (list_elem_of_further _ _ _ Hc')));
          [|exact Hk|].
        + eapply agree_trans; [exact Ha1|]. by eapply Hag.
        + intros c' Hc'. apply Hx. by right.
      - transitivity (<[c := set_rect r' st]> h1 !! x);
          [|by apply list_lookup_insert_ne].
        eapply (Hb c); [left|exact Ha1|exact Hr|]. apply Hx. left. }
    destruct (hg <? w).
    + apply bind_Ok in Hrun as (dim & h0 & Hd & Hrun).
      apply _calculate_dimension_Ok in Hd as [-> _].
      apply bind_Ok in Hrun as (u1 & h1' & Hm & Hrun).
      apply modify_Ok in Hm as (st1 & Hst1 & ->). rewrite Hc in Hst1.
      injection Hst1 as <-. by eapply Hstep.
    + apply bind_Ok in Hrun as (dim & h0 & Hd & Hrun).
      apply _calculate_dimension_Ok in Hd as [-> _].
      apply bind_Ok in Hrun as (u1 & h1' & Hm & Hrun).
      apply modify_Ok in Hm as (st1 & Hst1 & ->). rewrite Hc in Hst1.
      injection Hst1 as <-. by eapply Hstep.
Qed.

Lemma _handle_base_cases_agree fuel n r h u h' :
  _handle_base_cases (update_rectangles fuel) n r h = Ok (u, h') →
  agree no_rect h h'.
Proof.
  intros Hbase. unfold _handle_base_cases in Hbase. monad_inv.
  destruct (_ && _).
  - monad_inv. agree_tac update_rectangles_agree.
  - destruct (_ =? 0); monad_inv; agree_tac (update_rectangles_agree fuel).
Qed.

Lemma update_rectangles_local h fuel : ∀ n r h1 h2,
  agree no_rect h h1 → update_rectangles fuel n r h1 = Ok (tt, h2) →
  ∀ x, ¬ desc h n x → h2 !! x = h1 !! x.
Proof.
  induction fuel as [|fuel IH]; intros n r h1 h2 Ha Hrun x Hx;
    simpl in Hrun; [discriminate|].
  apply bind_Ok in Hrun as ([] & h1' & Hbase & Hdist).
  assert (∃ t1, h1 !! n = Some t1) as (t1 & Hn1).
  { unfold _handle_base_cases, is_empty in Hbase.
    apply bind_Ok in Hbase as (e & h0 & He & _).
    apply bind_Ok in He as (t & h0' & Hg & _). apply get_Ok in Hg as [Hn _].
    eauto. }
  destruct (agree_Some_rev _ _ _ _ _ (agree_rect_shape _ _ Ha) Hn1)
    as (t & Hn & Hsh).
  assert (Hsub : _subtrees t1 = _subtrees t) by (by injection Hsh).
  assert (Hxn : x ≠ n) by (intros ->; apply Hx, rtc_refl).
  assert (Hkid : ∀ c, c ∈ _subtrees t1 → ¬ desc h c x).
  { intros c Hc Hd. apply Hx. eapply rtc_l; [|exact Hd]. exists t.
    by rewrite <- Hsub. }
  pose proof (_handle_base_cases_agree _ _ _ _ _ _ Hbase) as Hab.
  assert (Ha1 : agree no_rect h h1') by (by eapply agree_trans).
  assert (Hx1 : h1' !! x = h1 !! x).
  { rewrite (_handle_base_cases_eq _ _ _ _ _ Hn1) in Hbase.
    destruct (_ && _).
    - apply modify_Ok in Hbase as (t0 & _ & ->).
      by apply list_lookup_insert_ne.
    - destruct (_ =? 0); [|by apply ret_Ok in Hbase as [_ ->]].
      apply bind_Ok in Hbase as (u1 & h0 & Hm & Hl).
      apply modify_Ok in Hm as (t0 & Ht0 & ->).
      transitivity (<[n := set_rect (0, 0, 0, 0) t0]> h1 !! x);
        [|by apply list_lookup_insert_ne].
      eapply (for_each_local _ h (_subtrees t1)); [| | |exact Hl|exact Hkid].
      + intros c h3 h4 _ Ha3 Hr3. cbv beta in Hr3. eapply IH; eassumption.
      + intros c h3 u h4. apply update_rectangles_agree.
      + eapply agree_trans; [exact Ha|]. by apply (agree_insert _ _ _ t0). }
  rewrite <- Hx1.
  destruct (agree_Some _ _ _ _ _ Hab Hn1) as (t1' & Hn1' & He').
  assert (Hsub' : _subtrees t1' = _subtrees t1) by (by injection He').
  rewrite (_distribute_space_subtrees_eq _ _ _ _ _ Hn1') in Hdist.
  destruct (_ && _); [|by apply ret_Ok in Hdist as [_ ->]].
  apply bind_Ok in Hdist as (u1 & h0 & Hm & Hl).
  apply modify_Ok in Hm as (t0 & Ht0 & ->).
  transitivity (<[n := set_rect r t0]> h1' !! x);
    [|by apply list_lookup_insert_ne].
  eapply (_distribute_loop_local _ h); [| | |exact Hl|by rewrite Hsub'].
  - intros c r' h3 h4 _ Ha3 Hr3. eapply IH; eassumption.
  - intros c r' h3 u h4. apply update_rectangles_agree.
  - eapply agree_trans; [exact Ha1|]. by apply (agree_insert _ _ _ t0).
Qed.

Lemma update_rectangles_own h fuel n r h1 h2 t1 :
  forest h → agree no_rect h h1 → h1 !! n = Some t1 →
  update_rectangles fuel n r h1 = Ok (tt, h2) →
  ∃ t2, h2 !! n = Some t2 ∧ rect t2 = own_rect t1 r (rect t1)
        ∧ no_rect t2 = no_rect t1.
Proof.
  intros Hf Ha Hn1 Hrun. destruct fuel as [|fuel]; [discriminate|].
  simpl in Hrun. apply bind_Ok in Hrun as ([] & h1' & Hbase & Hdist).
  destruct (agree_Some_rev _ _ _ _ _ (agree_rect_shape _ _ Ha) Hn1)
    as (t & Hn & Hsh).
  assert (Hsub : _subtrees t1 = _subtrees t) by (by injection Hsh).
  assert (Hkid : ∀ c, c ∈ _subtrees t1 → ¬ desc h c n).
  { intros c Hc Hd. eapply (forest_no_cycle h Hf c n); [done|].
    exists t. by rewrite <- Hsub. }
  pose proof (_handle_base_cases_agree _ _ _ _ _ _ Hbase) as Hab.
  assert (Ha1 : agree no_rect h h1') by (by eapply agree_trans).
  pose proof (lookup_lt_Some _ _ _ Hn1) as Hlt.
  assert (Hb : h1' !! n = Some
    (if bool_decide (_name t1 = None) && (0 <? data_size t1)
     then set_rect r t1
     else if data_size t1 =? 0 then set_rect (0, 0, 0, 0) t1 else t1)).
  { rewrite (_handle_base_cases_eq _ _ _ _ _ Hn1) in Hbase.
    destruct (_ && _).
    - apply modify_Ok in Hbase as (t0 & Ht0 & ->). rewrite Hn1 in Ht0.
      injection Ht0 as <-. by apply list_lookup_insert_eq.
    - destruct (_ =? 0); [|by apply ret_Ok in Hbase as [_ ->]].
      apply bind_Ok in Hbase as (u1 & h0 & Hm & Hl).
      apply modify_Ok in Hm as (t0 & Ht0 & ->). rewrite Hn1 in Ht0.
      injection Ht0 as <-.
      transitivity (<[n := set_rect (0, 0, 0, 0) t1]> h1 !! n);
        [|by apply list_lookup_insert_eq].
      eapply (for_each_local _ h (_subtrees t1)); [| | |exact Hl|exact Hkid].
      + intros c h3 h4 _ Ha3 Hr3. cbv beta in Hr3.
        eapply update_rectangles_local; eassumption.
      + intros c h3 u h4. apply update_rectangles_agree.
      + eapply agree_trans; [exact Ha|]. by apply (agree_insert _ _ _ t1). }
  match type of Hb with _ = Some ?x => set (t1' := x) in * end.
  assert (Hfields : no_rect t1' = no_rect t1).
  { subst t1'. destruct (_ && _); [done|]. by destruct (_ =? 0). }
  destruct (no_rect_fields _ _ Hfields) as (Hsz & Hnm & Hsb & _).
  rewrite (_distribute_space_subtrees_eq _ _ _ _ _ Hb), Hsz, Hnm in Hdist.
  unfold own_rect.
  destruct (bool_decide (_name t1 = None)) eqn:Hname; simpl in *.
  - apply ret_Ok in Hdist as [_ ->]. exists t1'. split; [done|].
    split; [|done]. subst t1'. destruct (0 <? data_size t1) eqn:Hpos; [done|].
    by destruct (data_size t1 =? 0).
  - destruct (0 <? data_size t1) eqn:Hpos.
    + apply bind_Ok in Hdist as (u1 & h0 & Hm & Hl).
      apply modify_Ok in Hm as (t0 & Ht0 & ->). rewrite Hb in Ht0.
      injection Ht0 as <-. exists (set_rect r t1').
      assert (Hz : (data_size t1 =? 0) = false) by lia. rewrite Hz.
      split; [|split; [done|by rewrite <- Hfields]].
      transitivity (<[n := set_rect r t1']> h1' !! n).
      2:{ apply list_lookup_insert_eq. by rewrite (agree_length _ _ _ Hab). }
      eapply (_distribute_loop_local _ h); [| | |exact Hl|by rewrite Hsb].
      * intros c r' h3 h4 _ Ha3 Hr3.
        eapply update_rectangles_local; eassumption.
      * intros c r' h3 u h4. apply update_rectangles_agree.
      * eapply agree_trans; [exact Ha1|]. by apply (agree_insert _ _ _ t1').
    + apply ret_Ok in Hdist as [_ ->]. exists t1'. split; [done|].
      split; [|done]. subst t1'. by destruct (data_size t1 =? 0).
Qed.

(** ** Layout comes to an end *)

Lemma shr_1_nonneg mrs : 0 ≤ shr_m mrs → 0 ≤ shr_m (shr_1 mrs).
Proof. destruct mrs as [[|[p|p|]|p] r s]; simpl; lia. Qed.

Lemma iter_pos_shr_1_nonneg p : ∀ mrs,
  0 ≤ shr_m mrs → 0 ≤ shr_m (SpecFloat.iter_pos shr_1 p mrs).
Proof.
  induction p as [p IH|p IH|]; intros mrs Hm; simpl.
  - by apply IH, IH, shr_1_nonneg.
  - by apply IH, IH.
  - by apply shr_1_nonneg.
Qed.

Lemma shr_fexp_nonneg prec emax m e l :
  0 ≤ m → 0 ≤ shr_m (shr_fexp prec emax m e l).1.
Proof.
  intros Hm. unfold shr_fexp, shr.
  assert (H0 : 0 ≤ shr_m (shr_record_of_loc m l)) by (by destruct l as [|[]]).
  destruct (_ - e); simpl; [done| |done]. by apply iter_pos_shr_1_nonneg.
Qed.

Lemma round_nearest_even_nonneg m l : 0 ≤ m → 0 ≤ round_nearest_even m l.
Proof.
  intros Hm. destruct l as [|[]]; simpl; try lia. destruct (Z.even m); lia.
Qed.

(** Rounding a mantissa that is not negative gives a number or an
    infinity. *)
Lemma binary_round_aux_not_nan prec emax s m e l :
  0 ≤ m → binary_round_aux prec emax s m e l ≠ S754_nan.
Proof.
  intros Hm. unfold binary_round_aux.
  pose proof (shr_fexp_nonneg prec emax m e l Hm) as H1.
  destruct (shr_fexp prec emax m e l) as [mrs' e']. simpl in H1.
  pose proof (shr_fexp_nonneg prec emax _ e' loc_Exact
                (round_nearest_even_nonneg _ (loc_of_shr_record mrs') H1))
    as H2.
  destruct (shr_fexp prec emax _ e' loc_Exact) as [mrs'' e'']. simpl in H2.
  destruct (shr_m mrs'') as [|p|p]; [done| |lia].
  by destruct (e'' <=? emax - prec).
Qed.

Lemma of_int_overflows n e : PyFloat.of_int n = inl e → e = OverflowError.
Proof.
  unfold PyFloat.of_int. destruct (PyFloat.is_finite _); [done|].
  by intros [= <-].
Qed.

Lemma of_int_finite n f : PyFloat.of_int n = inr f → PyFloat.is_finite f = true.
Proof.
  unfold PyFloat.of_int. destruct (PyFloat.is_finite _) eqn:Hf; [|done].
  by intros [= <-].
Qed.

Lemma int_truediv_overflows a b e :
  b ≠ 0 → PyFloat.int_truediv a b = inl e → e = OverflowError.
Proof.
  intros Hb. unfold PyFloat.int_truediv.
  destruct b; [done| |]; (destruct a; [done| |]);
    destruct (SFdiv_core_binary _ _ _ _ _ _) as [[q e0] l];
    destruct (PyFloat.is_finite _); try done; by intros [= <-].
Qed.

Lemma int_truediv_finite a b f :
  PyFloat.int_truediv a b = inr f → PyFloat.is_finite f = true.
Proof.
  unfold PyFloat.int_truediv.
  destruct b; [done| |]; (destruct a; [by intros [= <-]| |]);
    destruct (SFdiv_core_binary _ _ _ _ _ _) as [[q e0] l];
    destruct (PyFloat.is_finite _) eqn:Hf; try done; by intros [= <-].
Qed.

Lemma SFmul_not_nan x y :
  PyFloat.is_finite x = true → PyFloat.is_finite y = true →
  SFmul PyFloat.prec PyFloat.emax x y ≠ S754_nan.
Proof.
  destruct x as [sx|sx| |sx mx ex], y as [sy|sy| |sy my ey]; try done.
  intros _ _. simpl. by apply binary_round_aux_not_nan.
Qed.

Lemma trunc_overflows f e :
  f ≠ S754_nan → PyFloat.trunc f = inl e → e = OverflowError.
Proof.
  destruct f as [s|s| |s m e0]; simpl; try done.
  - by intros _ [= <-].
  - by destruct (0 <=? e0).
Qed.

(** The extent of a strip is computed, or the arithmetic overflows. *)
Lemma _calculate_dimension_settles proportion total offset last h :
  PyFloat.is_finite proportion = true →
  (∃ d, _calculate_dimension proportion total offset last h = Ok (d, h))
  ∨ _calculate_dimension proportion total offset last h
    = Raise OverflowError.
Proof.
  intros Hp. unfold _calculate_dimension. destruct last; simpl.
  { left. by eexists. }
  unfold bind, lift, PyFloat.int_mul.
  destruct (PyFloat.of_int total) as [e|nf] eqn:Ho.
  { right. by rewrite (of_int_overflows _ _ Ho). }
  simpl. destruct (PyFloat.trunc _) as [e|d] eqn:Ht.
  - right. apply trunc_overflows in Ht as ->; [done|].
    apply SFmul_not_nan; [by eapply of_int_finite|done].
  - left. by eexists.
Qed.

Lemma bind_returns_or_overflows {A} (m : M A) (k : A → M unit) h :
  (∃ a h1, m h = Ok (a, h1) ∧ returns_or_overflows (k a h1))
  ∨ m h = Raise OverflowError →
  returns_or_overflows (bind m k h).
Proof.
  unfold bind. intros [(a & h1 & -> & Hk)| ->]; [done|by right].
Qed.

Lemma for_each_returns_or_overflows (body : id → M unit) h l :
  (∀ c h1, c ∈ l → agree no_rect h h1 → returns_or_overflows (body c h1)) →
  (∀ c h1 u h2, body c h1 = Ok (u, h2) → agree no_rect h1 h2) →
  ∀ h1, agree no_rect h h1 → returns_or_overflows (for_each l body h1).
Proof.
  intros Hb Hag. induction l as [|c l IH]; intros h1 Ha; simpl.
  { left. by eexists. }
  apply bind_returns_or_overflows.
  destruct (Hb c h1 (list_elem_of_here _ _) Ha) as [(h2 & Hc)|Hc];
    [left|by right].
  exists tt, h2. split; [done|]. apply IH.
  - intros c' h' Hc'. apply Hb. by right.
  - eapply agree_trans; [exact Ha|]. by eapply Hag.
Qed.

Lemma _distribute_loop_returns_or_overflows (rec : id → rect_t → M unit)
    h total r len l :
  total ≠ 0 →
  (∀ c, c ∈ l → is_Some (h !! c)) →
  (∀ c r' h1, c ∈ l → agree no_rect h h1 →
              returns_or_overflows (rec c r' h1)) →
  (∀ c r' h1 u h2, rec c r' h1 = Ok (u, h2) → agree no_rect h1 h2) →
  ∀ i offset h1, agree no_rect h h1 →
    returns_or_overflows (_distribute_loop rec total r len i offset l h1).
Proof.
  intros Htotal. destruct r as [[[x y] w] hg].
  induction l as [|c l IH]; intros Hex Hb Hag i offset h1 Ha; simpl.
  { left. by eexists. }
  destruct (Hex c (list_elem_of_here _ _)) as [tc Htc].
  destruct (agree_Some _ _ _ _ _ Ha Htc) as (st & Hc & _).
  rewrite (get_bind _ _ _ _ Hc).
  apply bind_returns_or_overflows.
  destruct (PyFloat.int_truediv (data_size st) total) as [e|prop] eqn:Hp.
  { right. by rewrite (int_truediv_overflows _ _ _ Htotal Hp). }
  left. exists prop, h1. split; [done|].
  pose proof (int_truediv_finite _ _ _ Hp) as Hfin.
  assert (Hstep : ∀ r' dim,
    returns_or_overflows
      ((modify c (set_rect r');;
        let* st' := get c in
        rec c (rect st');;
        _distribute_loop rec total (x, y, w, hg) len (S i) (offset + dim) l)
         h1)).
  { intros r' dim. apply bind_returns_or_overflows. left.
    exists tt, (<[c := set_rect r' st]> h1).
    split; [apply modify_Ok; eauto|].
    assert (Hc1 : <[c := set_rect r' st]> h1 !! c = Some (set_rect r' st)).
    { apply list_lookup_insert_eq. by eapply lookup_lt_Some. }
    rewrite (get_bind _ _ _ _ Hc1).
    assert (Ha1 : agree no_rect h (<[c := set_rect r' st]> h1)).
    { eapply agree_trans; [exact Ha|]. by apply (agree_insert _ _ _ st). }
    apply bind_returns_or_overflows.
    destruct (Hb c (rect (set_rect r' st)) _ (list_elem_of_here _ _) Ha1)
      as [(h2 & Hr)|Hr]; [left|by right].
    exists tt, h2. split; [done|]. apply IH.
    - intros c' Hc'. apply Hex. by right.
    - intros c' r'' h' Hc'. apply Hb. by right.
    - done.
    - eapply agree_trans; [exact Ha1|]. by eapply Hag. }
  destruct (hg <? w).
  - apply bind_returns_or_overflows.
    destruct (_calculate_dimension_settles prop w offset
                (i =? len - 1)%nat h1 Hfin) as [(d & Hd)|Hd];
      [left|by right].
    exists d, h1. split; [done|]. apply Hstep.
  - apply bind_returns_or_overflows.
    destruct (_calculate_dimension_settles prop hg offset
                (i =? len - 1)%nat h1 Hfin) as [(d & Hd)|Hd];
      [left|by right].
    exists d, h1. split; [done|]. apply Hstep.
Qed.

(** In a forest, with a budget above the rank of the node, the call
    returns or the arithmetic overflows: it does not run out of budget,
    it meets no missing object, and it divides by no zero. *)
Lemma update_rectangles_returns_or_overflows h (rk : id → nat) :
  forest h → (∀ p c, child h p c → (rk c < rk p)%nat) →
  ∀ fuel n r h1, agree no_rect h h1 → is_Some (h !! n) → (rk n < fuel)%nat →
    returns_or_overflows (update_rectangles fuel n r h1).
Proof.
  intros Hf Hrk. induction fuel as [|fuel IH]; intros n r h1 Ha [t Ht] Hlt;
    [lia|].
  destruct (agree_Some _ _ _ _ _ Ha Ht) as (t1 & Ht1 & He).
  destruct (no_rect_fields _ _ He) as (Hsz & Hnm & Hsub & _).
  assert (Hkid : ∀ c, c ∈ _subtrees t1 → is_Some (h !! c) ∧ (rk c < fuel)%nat).
  { intros c Hc. assert (Hch : child h n c) by (exists t; by rewrite <- Hsub).
    split; [by eapply f_closed|]. apply Hrk in Hch. lia. }
  assert (Hrec : ∀ c r' h', c ∈ _subtrees t1 → agree no_rect h h' →
                   returns_or_overflows (update_rectangles fuel c r' h')).
  { intros c r' h' Hc Ha'. destruct (Hkid c Hc). by apply IH. }
  simpl. apply bind_returns_or_overflows.
  assert (Hbase : (∃ h1', _handle_base_cases (update_rectangles fuel) n r h1
                          = Ok (tt, h1'))
                  ∨ _handle_base_cases (update_rectangles fuel) n r h1
                    = Raise OverflowError).
  { rewrite (_handle_base_cases_eq _ _ _ _ _ Ht1).
    destruct (_ && _).
    { left. eexists. apply modify_Ok. eauto. }
    destruct (_ =? 0); [|left; by eexists].
    assert (Hl : returns_or_overflows
                   ((modify n (set_rect (0, 0, 0, 0));;
                     for_each (_subtrees t1)
                       (λ subtree, update_rectangles fuel subtree r)) h1)).
    { apply bind_returns_or_overflows. left.
      exists tt, (<[n := set_rect (0, 0, 0, 0) t1]> h1).
      split; [apply modify_Ok; eauto|].
      apply (for_each_returns_or_overflows _ h).
      - intros c h' Hc Ha'. by apply Hrec.
      - intros c h' u h2. apply update_rectangles_agree.
      - eapply agree_trans; [exact Ha|]. by apply (agree_insert _ _ _ t1). }
    exact Hl. }
  destruct Hbase as [(h1' & Hbase)|Hbase]; [left|by right].
  exists tt, h1'. split; [done|].
  pose proof (_handle_base_cases_agree _ _ _ _ _ _ Hbase) as Hab.
  assert (Ha1 : agree no_rect h h1') by (by eapply agree_trans).
  destruct (agree_Some _ _ _ _ _ Hab Ht1) as (t1' & Ht1' & He').
  destruct (no_rect_fields _ _ He') as (Hsz' & Hnm' & Hsub' & _).
  rewrite (_distribute_space_subtrees_eq _ _ _ _ _ Ht1').
  destruct (negb _ && (0 <? data_size t1')) eqn:Hcond; [|left; by eexists].
  apply andb_true_iff in Hcond as [_ Hpos%Z.ltb_lt].
  apply bind_returns_or_overflows. left.
  exists tt, (<[n := set_rect r t1']> h1').
  split; [apply modify_Ok; eauto|].
  apply (_distribute_loop_returns_or_overflows _ h).
  - lia.
  - intros c Hc. rewrite Hsub' in Hc. by apply Hkid.
  - intros c r' h' Hc Ha'. rewrite Hsub' in Hc. by apply Hrec.
  - intros c r' h' u h2. apply update_rectangles_agree.
  - eapply agree_trans; [exact Ha1|]. by apply (agree_insert _ _ _ t1').
Qed.

(** C10.  [update_rectangles] changes rectangles only, and only those of
    the node and of the nodes below it: when it returns, name, data_size,
    children, parent, colour and expansion flag of every object are as
    before, every object that is not below the node is exactly as before,
    and calling it again with the same rectangle returns with the very
    same store, so every rectangle is the same.  In a well-formed store
    the call on an existing node comes to an end for every large enough
    budget: it returns, or the float arithmetic raises OverflowError. *)
Theorem update_rectangles_frame_idempotent n r h :
  (∀ fuel h', update_rectangles fuel n r h = Ok (tt, h') →
     length h' = length h
     ∧ (∀ k t', h' !! k = Some t' →
          ∃ t, h !! k = Some t ∧ _name t' = _name t
               ∧ data_size t' = data_size t ∧ _subtrees t' = _subtrees t
               ∧ _parent_tree t' = _parent_tree t ∧ _colour t' = _colour t
               ∧ _expanded t' = _expanded t)
     ∧ (∀ x, ¬ desc h n x → h' !! x = h !! x)
     ∧ update_rectangles fuel n r h' = Ok (tt, h'))
  ∧ (wf h → is_Some (h !! n) →
     ∃ fuel0, ∀ fuel, (fuel0 ≤ fuel)%nat →
       returns_or_overflows (update_rectangles fuel n r h)).
Proof.
  split.
  - intros fuel h' Hrun.
    pose proof (update_rectangles_agree _ _ _ _ _ _ Hrun) as Ha.
    split; [by eapply agree_length|]. split; [|split].
    + intros k t' Hk.
      destruct (agree_Some_rev _ _ _ _ _ Ha Hk) as (t & Ht & He).
      exists t. split; [done|].
      destruct (no_rect_fields _ _ He) as (? & ? & ? & ? & ? & ?). auto 10.
    + by apply (update_rectangles_local h fuel n r h h' (agree_refl _ _)).
    + destruct (update_rectangles_in_step _ _ _ _ _ _ _ Ha Hrun)
        as (g' & Hg' & Ha' & Hk).
      assert (g' = h') as ->; [|done]. apply list_eq. intros k.
      pose proof (agree_lookup _ _ _ k Ha') as Hl.
      assert (Hr : rect <$> g' !! k = rect <$> h' !! k).
      { destruct (Hk k) as [Hr|[_ Hr]]; [done|by rewrite Hr]. }
      destruct (g' !! k) as [tg|], (h' !! k) as [th|]; try done.
      injection Hl as Hl. injection Hr as Hr. f_equal.
      destruct tg, th; simpl in *; congruence.
  - intros Hwf Hn. pose proof (wf_forest _ Hwf) as Hf.
    destruct (f_acyclic _ Hf) as [rk Hrk]. exists (S (rk n)).
    intros fuel Hle.
    apply (update_rectangles_returns_or_overflows h rk Hf Hrk);
      [apply agree_refl|done|lia].
Qed.

Lemma update_rectangles_frame_idempotent_witness :
  update_rectangles 3 2%nat (0, 0, 100, 50) two_leaves
  = Ok (tt, two_leaves_laid_out)
  ∧ update_rectangles 3 2%nat (0, 0, 100, 50) two_leaves_laid_out
    = Ok (tt, two_leaves_laid_out)
  ∧ rect <$> two_leaves_laid_out
    = [(0, 0, 40, 50); (40, 0, 60, 50); (0, 0, 100, 50)]
  ∧ (∃ h', update_rectangles 1 0%nat (5, 5, 10, 10) two_leaves_laid_out
           = Ok (tt, h')
           ∧ rect <$> h' !! 0%nat = Some (5, 5, 10, 10)
           ∧ h' !! 1%nat = two_leaves_laid_out !! 1%nat
           ∧ h' !! 2%nat = two_leaves_laid_out !! 2%nat)
  ∧ (∃ fuel, returns_or_overflows
               (update_rectangles fuel 2%nat (0, 0, 100, 50) two_leaves)).
Proof.
  assert (Hrun : update_rectangles 3 2%nat (0, 0, 100, 50) two_leaves
                 = Ok (tt, two_leaves_laid_out)) by (vm_compute; reflexivity).
  destruct (update_rectangles_frame_idempotent 2%nat (0, 0, 100, 50)
              two_leaves) as [Hframe Hends].
  split; [exact Hrun|]. split; [apply (Hframe 3%nat _ Hrun)|].
  split; [reflexivity|]. split.
  - destruct (update_rectangles_frame_idempotent 0%nat (5, 5, 10, 10)
                two_leaves_laid_out) as [Hleaf _].
    eexists. split; [vm_compute; reflexivity|]. split; [reflexivity|].
    assert (Hout : ∀ x, x ≠ 0%nat → ¬ desc two_leaves_laid_out 0%nat x).
    { intros x Hx Hd. apply rtc_inv in Hd as [Heq|(y & (t & Ht & Hy) & _)];
        [by apply Hx|].
      injection Ht as <-. by apply elem_of_nil in Hy. }
    split; apply (Hleaf 1%nat _ eq_refl); apply Hout; discriminate.
  - destruct Hends as (fuel0 & Hf);
      [apply reachable_Inv, reachable_two_leaves|by eexists|].
    exists fuel0. by apply Hf.
Defined.

Lemma for_each_settles erase (P : heap → id → Prop) (body : id → M unit) h l :
  (∀ y h1, y ∈ l → agree erase h h1 →
     ∃ h2, body y h1 = Ok (tt, h2) ∧ agree erase h1 h2
           ∧ (∀ x, desc h y x → P h2 x)
           ∧ (∀ x, P h1 x → P h2 x)) →
  ∀ h1, agree erase h h1 →
    ∃ h2, for_each l body h1 = Ok (tt, h2) ∧ agree erase h1 h2
          ∧ (∀ y x, y ∈ l → desc h y x → P h2 x)
          ∧ (∀ x, P h1 x → P h2 x).
Proof.
  induction l as [|c l IH]; intros Hb h1 Ha; simpl.
  - exists h1. split; [done|]. split; [apply agree_refl|]. split; [|done].
    intros y x Hy. by apply elem_of_nil in Hy.
  - destruct (Hb c h1 (list_elem_of_here _ _) Ha) as (h2 & Hc & Ha2 & Hd2 & Hm2).
    destruct (IH (λ y h' Hy, Hb y h' (list_elem_of_further _ _ _ Hy)) h2
                 (agree_trans _ _ _ _ Ha Ha2)) as (h3 & Hl & Ha3 & Hd3 & Hm3).
    exists h3. split; [apply bind_Ok; eauto|].
    split; [by eapply agree_trans|]. split; [|by eauto].
    intros y x [->|Hy]%elem_of_cons Hx; eauto.
Qed.

(** With size 0 the call is: take the empty rectangle, then lay every
    child out in the rectangle given. *)
Lemma update_rectangles_zero_eq fuel n r (h : heap) t :
  h !! n = Some t → data_size t = 0 →
  update_rectangles (S fuel) n r h
  = (modify n (set_rect (0, 0, 0, 0));;
     for_each (_subtrees t) (λ subtree, update_rectangles fuel subtree r)) h.
Proof.
  intros Hn Hz. simpl. unfold bind at 1.
  rewrite (_handle_base_cases_eq _ _ _ _ _ Hn), Hz. simpl.
  rewrite andb_false_r.
  destruct ((modify n (set_rect (0, 0, 0, 0));;
             for_each (_subtrees t)
               (λ subtree, update_rectangles fuel subtree r)) h)
    as [[[] h1]| | |] eqn:Hrun; try done.
  assert (Ha : agree no_rect h h1).
  { monad_inv. agree_tac (update_rectangles_agree fuel). }
  destruct (agree_Some _ _ _ _ _ Ha Hn) as (t1 & Hn1 & He).
  destruct (no_rect_fields _ _ He) as (Hsz & _).
  rewrite (_distribute_space_subtrees_eq _ _ _ _ _ Hn1), Hsz, Hz.
  by rewrite andb_false_r.
Qed.

Lemma zero_rect_insert (h : heap) k t x :
  zero_rect h x → zero_rect (<[k := set_rect (0, 0, 0, 0) t]> h) x.
Proof.
  intros Hx t' Ht'. destruct (decide (x = k)) as [->|Hne].
  - apply list_lookup_insert_Some in Ht' as [(_ & <- & _)|[? ?]]; [done|done].
  - rewrite list_lookup_insert_ne in Ht' by done. eauto.
Qed.

Lemma zero_rect_insert_eq (h : heap) k t :
  zero_rect (<[k := set_rect (0, 0, 0, 0) t]> h) k.
Proof.
  intros t' Ht'.
  apply list_lookup_insert_Some in Ht' as [(_ & <- & _)|[? ?]]; done.
Qed.

Lemma zero_layout h (rk : id → nat) r :
  forest h → (∀ p c, child h p c → (rk c < rk p)%nat) →
  ∀ fuel n h1, agree no_rect h h1 → is_Some (h !! n) → (rk n < fuel)%nat →
    (∀ x t, desc h n x → h !! x = Some t → data_size t = 0) →
    ∃ h2, update_rectangles fuel n r h1 = Ok (tt, h2)
          ∧ agree no_rect h1 h2
          ∧ (∀ x, desc h n x → zero_rect h2 x)
          ∧ (∀ x, zero_rect h1 x → zero_rect h2 x).
Proof.
  intros Hf Hrk. induction fuel as [|fuel IH]; intros n h1 Ha [t Ht] Hlt Hz;
    [lia|].
  destruct (agree_Some _ _ _ _ _ Ha Ht) as (t1 & Ht1 & He).
  destruct (no_rect_fields _ _ He) as (Hsz & _ & Hsub & _).
  assert (Hz1 : data_size t1 = 0).
  { rewrite Hsz. eapply Hz; [apply rtc_refl|done]. }
  rewrite (update_rectangles_zero_eq _ _ _ _ _ Ht1 Hz1).
  set (h1' := <[n := set_rect (0, 0, 0, 0) t1]> h1).
  assert (Ha1 : agree no_rect h1 h1') by (by eapply agree_insert).
  destruct (for_each_settles no_rect zero_rect
              (λ subtree, update_rectangles fuel subtree r) h (_subtrees t))
    with (h1 := h1') as (h2 & Hl & Ha2 & Hd2 & Hm2).
  { intros y h' Hy Ha'. assert (Hch : child h n y) by (by exists t).
    apply IH; [done|by eapply f_closed| |].
    - apply Hrk in Hch. lia.
    - intros x tx Hx. apply Hz. by eapply rtc_l. }
  { by eapply agree_trans. }
  exists h2. split; [|split; [by eapply agree_trans|split]].
  - apply bind_Ok. exists tt, h1'. split; [apply modify_Ok; eauto|].
    by rewrite Hsub.
  - intros x Hx. apply rtc_inv in Hx as [<-|(y & (t' & Ht' & Hy) & Hx)].
    + apply Hm2, zero_rect_insert_eq.
    + rewrite Ht in Ht'. injection Ht' as <-. by eapply Hd2.
  - intros x Hx. by apply Hm2, zero_rect_insert.
Qed.

Lemma reachable_zeros : reachable zeros.
Proof.
  assert (Hleaf : ∀ h name n h',
            reachable h → __init__ 1 name [] 0 grey h = Ok (n, h') →
            reachable h').
  { intros h name n h' Hh Hrun.
    eapply (reach_init h 1 name [] 0 grey n);
      [exact Hh| |apply NoDup_nil_2|exact Hrun].
    intros c Hc. by apply elem_of_nil in Hc. }
  assert (Hpair : ∀ h fuel name a b n h',
            reachable h → a ≠ b → root_node h a → root_node h b →
            __init__ fuel name [a; b] 0 grey h = Ok (n, h') → reachable h').
  { intros h fuel name a b n h' Hh Hab Ha Hb Hrun.
    eapply (reach_init h fuel name [a; b] 0 grey n); [exact Hh| | |exact Hrun].
    - intros c Hc. apply elem_of_cons in Hc as [->|Hc]; [done|].
      by apply list_elem_of_singleton in Hc as ->.
    - apply NoDup_cons. split; [|apply NoDup_singleton].
      intros Hin. by apply list_elem_of_singleton in Hin. }
  assert (H1 : reachable zeros_1)
    by (eapply (Hleaf [] (Some "l1") 0%nat); [apply reach_empty|reflexivity]).
  assert (H2 : reachable zeros_2)
    by (eapply (Hleaf zeros_1 (Some "l2") 1%nat); [exact H1|reflexivity]).
  assert (H3 : reachable zeros_3)
    by (eapply (Hleaf zeros_2 (Some "l3") 2%nat); [exact H2|reflexivity]).
  assert (H4 : reachable zeros_4)
    by (eapply (Hleaf zeros_3 (Some "l4") 3%nat); [exact H3|reflexivity]).
  assert (HA : reachable zeros_A).
  { eapply (Hpair zeros_4 2%nat (Some "A") 0%nat 1%nat 4%nat);
      [exact H4|done| | |reflexivity]; eexists; split; reflexivity. }
  assert (HB : reachable zeros_B).
  { eapply (Hpair zeros_A 2%nat (Some "B") 2%nat 3%nat 5%nat);
      [exact HA|done| | |reflexivity]; eexists; split; reflexivity. }
  eapply (Hpair zeros_B 3%nat (Some "root") 4%nat 5%nat 6%nat);
    [exact HB|done| | |reflexivity]; eexists; split; reflexivity.
Qed.

Lemma reachable_emptied : reachable emptied.
Proof.
  assert (Hleaf : ∀ h name size n h',
            reachable h → __init__ 1 name [] size grey h = Ok (n, h') →
            reachable h').
  { intros h name size n h' Hh Hrun.
    eapply (reach_init h 1 name [] size grey n);
      [exact Hh| |apply NoDup_nil_2|exact Hrun].
    intros c Hc. by apply elem_of_nil in Hc. }
  assert (Hc : reachable emptied_c)
    by (eapply (Hleaf [] (Some "c") 5 0%nat); [apply reach_empty|reflexivity]).
  assert (Hl : reachable emptied_l)
    by (eapply (Hleaf emptied_c (Some "l") 0 1%nat); [exact Hc|reflexivity]).
  assert (HB : reachable emptied_B).
  { eapply (reach_init emptied_l 2 (Some "B") [0%nat] 0 grey 2%nat);
      [exact Hl| |apply NoDup_singleton|reflexivity].
    intros c ->%list_elem_of_singleton. eexists. split; reflexivity. }
  assert (HA : reachable emptied_A).
  { eapply (reach_init emptied_B 3 (Some "A") [2; 1]%nat 0 grey 3%nat);
      [exact HB| | |reflexivity].
    - intros c Hin. apply elem_of_cons in Hin as [->|Hin];
        [|apply list_elem_of_singleton in Hin as ->];
        eexists; split; reflexivity.
    - apply NoDup_cons. split; [|apply NoDup_singleton].
      intros Hin. by apply list_elem_of_singleton in Hin. }
  assert (Hd : reachable emptied_d)
    by (eapply (Hleaf emptied_A (Some "d") 7 4%nat); [exact HA|reflexivity]).
  assert (Hb : reachable emptied_built).
  { eapply (reach_init emptied_d 4 (Some "root") [3; 4]%nat 0 grey 5%nat);
      [exact Hd| | |reflexivity].
    - intros c Hin. apply elem_of_cons in Hin as [->|Hin];
        [|apply list_elem_of_singleton in Hin as ->];
        eexists; split; reflexivity.
    - apply NoDup_cons. split; [|apply NoDup_singleton].
      intros Hin. by apply list_elem_of_singleton in Hin. }
  assert (Hlo : reachable emptied_laid_out).
  { eapply (reach_layout emptied_built 5 5%nat (0, 0, 120, 50));
      [exact Hb|reflexivity]. }
  eapply (reach_mutation emptied_laid_out 5 (Move 0%nat 5%nat));
    [exact Hlo|reflexivity].
Qed.

Lemma zeros_ranked :
  ∀ p c, child zeros p c
         → ((if decide (c = 6%nat) then 2 else if decide (4 ≤ c)%nat then 1
             else 0)
            < (if decide (p = 6%nat) then 2 else if decide (4 ≤ p)%nat then 1
               else 0))%nat.
Proof.
  intros p c (t & Ht & Hc).
  destruct p as [|[|[|[|[|[|[|p]]]]]]]; vm_compute in Ht; try discriminate;
    injection Ht as <-; simpl in Hc;
    repeat (apply elem_of_cons in Hc as [->|Hc]; [vm_compute; lia|]);
    by apply elem_of_nil in Hc.
Qed.

Lemma zeros_all_below x : (x < 7)%nat → desc zeros 6%nat x.
Proof.
  intros Hx.
  assert (H4 : desc zeros 6%nat 4%nat)
    by (apply rtc_once; eexists; split; [reflexivity|left]).
  assert (H5 : desc zeros 6%nat 5%nat)
    by (apply rtc_once; eexists; split; [reflexivity|right; left]).
  destruct x as [|[|[|[|[|[|[|x]]]]]]]; [| | | |done|done|apply rtc_refl|lia].
  - eapply rtc_r; [exact H4|]. eexists. split; [reflexivity|left].
  - eapply rtc_r; [exact H4|]. eexists. split; [reflexivity|right; left].
  - eapply rtc_r; [exact H5|]. eexists. split; [reflexivity|left].
  - eapply rtc_r; [exact H5|]. eexists. split; [reflexivity|right; left].
Qed.

Lemma zeros_all_zero x tx : zeros !! x = Some tx → data_size tx = 0.
Proof.
  intros Hx. destruct x as [|[|[|[|[|[|[|x]]]]]]];
    vm_compute in Hx; try discriminate; by injection Hx as <-.
Qed.

(** C4.  For a node of size 0 in a well-formed store, whatever rectangles
    the store holds, [update_rectangles] gives the node the rectangle
    (0,0,0,0) and lays every child out in the rectangle it was given; the
    node has (0,0,0,0) when the call returns; the call comes to an end for
    every large enough budget, by returning or by an OverflowError of the
    float arithmetic below a child of another size, never by a division by
    zero.  When every node below it has size 0 the call returns and every
    node below has (0,0,0,0).  For the tree root(0) > A(0), B(0), each
    over two leaves of size 0, laid out in (0,0,100,100), every rectangle
    is (0,0,0,0), whatever the rectangles were before. *)
Theorem zero_size_layout h n t r :
  wf h → h !! n = Some t → data_size t = 0 →
  (∀ fuel,
     update_rectangles (S fuel) n r h
     = (modify n (set_rect (0, 0, 0, 0));;
        for_each (_subtrees t)
                 (λ subtree, update_rectangles fuel subtree r)) h)
  ∧ (∀ fuel h', update_rectangles fuel n r h = Ok (tt, h') →
                ∃ t', h' !! n = Some t' ∧ rect t' = (0, 0, 0, 0))
  ∧ (∃ fuel0, ∀ fuel, (fuel0 ≤ fuel)%nat →
       returns_or_overflows (update_rectangles fuel n r h))
  ∧ ((∀ x tx, desc h n x → h !! x = Some tx → data_size tx = 0) →
     ∃ fuel0, ∀ fuel, (fuel0 ≤ fuel)%nat →
       ∃ h', update_rectangles fuel n r h = Ok (tt, h')
             ∧ ∀ x, desc h n x → zero_rect h' x)
  ∧ (∀ g, agree no_rect zeros g →
       ∃ h', update_rectangles 3 6%nat (0, 0, 100, 100) g = Ok (tt, h')
             ∧ rect <$> h' = replicate 7 (0, 0, 0, 0)).
Proof.
  intros Hwf Hn Hz. pose proof (wf_forest _ Hwf) as Hf.
  split; [|split; [|split; [|split]]].
  - intros fuel. by apply update_rectangles_zero_eq.
  - intros fuel h' Hrun.
    destruct (update_rectangles_own h fuel n r h h' t Hf (agree_refl _ _)
                                    Hn Hrun) as (t' & Ht' & Hr & _).
    exists t'. split; [done|]. rewrite Hr. unfold own_rect.
    rewrite Hz. simpl. by rewrite andb_false_r.
  - destruct (f_acyclic _ Hf) as [rk Hrk]. exists (S (rk n)).
    intros fuel Hle.
    apply (update_rectangles_returns_or_overflows h rk Hf Hrk);
      [apply agree_refl|by eexists|lia].
  - intros Hall. destruct (f_acyclic _ Hf) as [rk Hrk].
    exists (S (rk n)). intros fuel Hle.
    destruct (zero_layout h rk r Hf Hrk fuel n h (agree_refl _ _))
      as (h' & Hrun & _ & Hzero & _); [eauto|lia|done|].
    eauto.
  - intros g Hg.
    destruct (zero_layout zeros _ (0, 0, 100, 100)
                (wf_forest _ (proj1 (reachable_Inv _ reachable_zeros)))
                zeros_ranked 3 6%nat g Hg)
      as (h' & Hrun & Ha & Hzero & _);
      [by eexists|vm_compute; lia
      |intros x tx _ Hx; by eapply zeros_all_zero|].
    exists h'. split; [done|].
    assert (Hlen : length h' = 7%nat).
    { by rewrite (agree_length _ _ _ Ha), (agree_length _ _ _ Hg). }
    apply (list_eq_same_length _ _ 7%nat);
      [by rewrite ?length_fmap, ?length_replicate
      |by rewrite ?length_fmap, ?length_replicate|].
    intros i x y Hi Hx Hy. apply lookup_replicate in Hy as [-> _].
    rewrite list_lookup_fmap in Hx.
    destruct (h' !! i) as [ti|] eqn:Hti; [|done]. injection Hx as <-.
    by apply (Hzero i (zeros_all_below i Hi)).
Qed.

Lemma zero_size_layout_witness :
  rect <$> emptied !! 3%nat = Some (0, 0, 50, 50)
  ∧ rect <$> emptied !! 2%nat = Some (0, 0, 50, 50)
  ∧ ∃ fuel h', update_rectangles fuel 3%nat (1, 2, 3, 4) emptied
               = Ok (tt, h')
               ∧ zero_rect h' 3%nat ∧ zero_rect h' 2%nat
               ∧ zero_rect h' 1%nat.
Proof.
  split; [reflexivity|]. split; [reflexivity|].
  assert (H3 : emptied !! 3%nat
               = Some (mkTMTree (0, 0, 50, 50) 0 grey (Some "A")
                                [2; 1]%nat (Some 5%nat) false))
    by reflexivity.
  destruct (zero_size_layout emptied 3%nat _ (1, 2, 3, 4)
              (proj1 (reachable_Inv _ reachable_emptied)) H3 eq_refl)
    as (_ & _ & _ & Hall & _).
  assert (H32 : desc emptied 3%nat 2%nat)
    by (apply rtc_once; eexists; split; [reflexivity|left]).
  assert (H31 : desc emptied 3%nat 1%nat)
    by (apply rtc_once; eexists; split; [reflexivity|right; left]).
  destruct Hall as (fuel0 & Hf).
  - intros x tx Hd Hx.
    assert (Hin : x = 3%nat ∨ x = 2%nat ∨ x = 1%nat).
    { clear Hx. revert x Hd.
      apply (rtc_ind_r (λ x, x = 3%nat ∨ x = 2%nat ∨ x = 1%nat) 3%nat);
        [by left|].
      intros b c _ (ta & Hta & Hb) IH.
      destruct IH as [->|[->| ->]]; injection Hta as <-; simpl in Hb.
      - apply elem_of_cons in Hb as [->|Hb]; [right; by left|].
        apply list_elem_of_singleton in Hb as ->. right. by right.
      - by apply elem_of_nil in Hb.
      - by apply elem_of_nil in Hb. }
    destruct Hin as [->|[->| ->]]; by injection Hx as <-.
  - destruct (Hf fuel0 (le_n _)) as (h' & Hrun & Hzero).
    exists fuel0, h'. split; [done|].
    split; [apply Hzero, rtc_refl|]. split; by apply Hzero.
Defined.

(** ** The strips of the children *)

Lemma own_rect_fresh t r :
  own_rect (set_rect r t) r r = if data_size t =? 0 then (0, 0, 0, 0) else r.
Proof.
  unfold own_rect. simpl. destruct (_ && _) eqn:Hc.
  - apply andb_true_iff in Hc as [_ Hpos]. apply Z.ltb_lt in Hpos.
    destruct (Z.eqb_spec (data_size t) 0); [lia|done].
  - destruct (data_size t =? 0); [done|]. by destruct (0 <? data_size t).
Qed.

Lemma _distribute_loop_spec h n fuel total_size r len :
  forest h →
  ∀ l i off h1 h2,
    (∀ c, c ∈ l → child h n c) → NoDup l → agree no_rect h h1 →
    _distribute_loop (update_rectangles fuel) total_size r len i off l h1
    = Ok (tt, h2) →
    ∃ dims, length dims = length l
            ∧ ∀ j c, l !! j = Some c →
                     child_layout h h2 r total_size len i off dims j c.
Proof.
  intros Hf. destruct r as [[[x y] w] hg]. set (r := (x, y, w, hg)).
  induction l as [|c l IH]; intros i off h1 h2 Hch Hnd Ha Hrun.
  - exists []. split; [done|]. intros j c Hj. done.
  - apply NoDup_cons in Hnd as [Hcl Hnd].
    simpl in Hrun.
    apply bind_Ok in Hrun as (st & h0 & Hg & Hrun).
    apply get_Ok in Hg as [Hc ->].
    apply bind_Ok in Hrun as (prop & h0 & Hp & Hrun).
    apply lift_Ok in Hp as [Hp ->].
    destruct (agree_Some_rev _ _ _ _ _ Ha Hc) as (tc & Htc & He).
    destruct (no_rect_fields _ _ He) as (Hsz & _).
    assert (Hstep : ∀ d,
      _calculate_dimension prop (axis_total r) off (i =? len - 1)%nat h1
      = Ok (d, h1) →
      (let* st' := get c in
       update_rectangles fuel c (rect st');;
       _distribute_loop (update_rectangles fuel) total_size r len (S i)
                        (off + d) l)
        (<[c := set_rect (strip r off d) st]> h1) = Ok (tt, h2) →
      ∃ dims, length dims = length (c :: l)
              ∧ ∀ j c', (c :: l) !! j = Some c' →
                        child_layout h h2 r total_size len i off dims j c').
    { intros d Hd Hk. apply bind_Ok in Hk as (st' & h0 & Hg & Hk).
      apply get_Ok in Hg as [Hst' ->].
      rewrite list_lookup_insert_eq in Hst' by (by eapply lookup_lt_Some).
      injection Hst' as <-. simpl in Hk.
      apply bind_Ok in Hk as ([] & h3 & Hrec & Hk).
      set (h1' := <[c := set_rect (strip r off d) st]> h1) in *.
      assert (Ha1 : agree no_rect h h1').
      { eapply agree_trans; [exact Ha|]. by apply (agree_insert _ _ _ st). }
      assert (Hc1 : h1' !! c = Some (set_rect (strip r off d) st)).
      { apply list_lookup_insert_eq. by eapply lookup_lt_Some. }
      destruct (update_rectangles_own h fuel c _ h1' h3 _ Hf Ha1 Hc1 Hrec)
        as (t3 & Ht3 & Hr3 & _).
      change (rect (set_rect (strip r off d) st)) with (strip r off d) in Hr3.
      rewrite own_rect_fresh in Hr3.
      assert (Ha3 : agree no_rect h h3).
      { eapply agree_trans; [exact Ha1|].
        by eapply update_rectangles_agree. }
      destruct (IH (S i) (off + d) h3 h2) as (dims & Hlen & Hall);
        [intros; apply Hch; by right|done|done|exact Hk|].
      assert (Hkeep : h2 !! c = h3 !! c).
      { eapply (_distribute_loop_local _ h); [| | |exact Hk|].
        - intros c' r' h4 h5 _ Ha4 Hr4.
          eapply update_rectangles_local; eassumption.
        - intros c' r' h4 u h5. apply update_rectangles_agree.
        - done.
        - intros c' Hc' Hd'.
          eapply (forest_siblings_disjoint h Hf n c' c c);
            [apply Hch; by right|apply Hch; left| |done|apply rtc_refl].
          intros ->. done. }
      exists (d :: dims). split; [simpl; by rewrite Hlen|].
      intros [|j] c' Hj; simpl in Hj.
      - injection Hj as <-. exists tc, t3, d.
        split; [done|]. split; [by rewrite Hkeep|]. split; [done|].
        rewrite Nat.add_0_r. simpl. rewrite Z.add_0_r.
        apply _calculate_dimension_Ok in Hd as [_ Hd].
        split; [|split].
        + intros Hne. apply Nat.eqb_neq in Hne. rewrite Hne in Hd.
          destruct Hd as (q & Hq1 & Hq2). exists prop, q.
          by rewrite <- Hsz.
        + intros Heq. apply Nat.eqb_eq in Heq. by rewrite Heq in Hd.
        + by rewrite <- Hsz.
      - destruct (Hall j c' Hj)
          as (tc' & tc'' & d' & H1 & H2 & H3 & H4 & H5 & H6).
        exists tc', tc'', d'. split; [done|]. split; [done|].
        split; [done|]. simpl.
        replace (i + S j)%nat with (S i + j)%nat by lia.
        replace (off + (d + sum_Z (take j dims)))
          with (off + d + sum_Z (take j dims)) by lia.
        done. }
    unfold r, axis_total, strip in Hstep.
    destruct (hg <? w) eqn:Hwh.
    + apply bind_Ok in Hrun as (d & h0 & Hd & Hrun).
      pose proof Hd as Hd'.
      apply _calculate_dimension_Ok in Hd' as [-> _].
      apply bind_Ok in Hrun as (u1 & h1' & Hm & Hrun).
      apply modify_Ok in Hm as (st1 & Hst1 & ->). rewrite Hc in Hst1.
      injection Hst1 as <-. by apply (Hstep d).
    + apply bind_Ok in Hrun as (d & h0 & Hd & Hrun).
      pose proof Hd as Hd'.
      apply _calculate_dimension_Ok in Hd' as [-> _].
      apply bind_Ok in Hrun as (u1 & h1' & Hm & Hrun).
      apply modify_Ok in Hm as (st1 & Hst1 & ->). rewrite Hc in Hst1.
      injection Hst1 as <-. by apply (Hstep d).
Qed.

Lemma sum_Z_app l1 l2 : sum_Z (l1 ++ l2) = sum_Z l1 + sum_Z l2.
Proof.
  unfold sum_Z. induction l1 as [|a l1 IH]; simpl; [done|]. rewrite IH. lia.
Qed.

Lemma sum_Z_last (dims : list Z) k d :
  length dims = S k → dims !! k = Some d →
  sum_Z dims = sum_Z (take k dims) + d.
Proof.
  intros Hlen Hk.
  assert (Hd : dims = take k dims ++ [d]).
  { rewrite <- (take_S_r _ _ _ Hk), <- Hlen. symmetry. apply firstn_all. }
  rewrite Hd at 1. rewrite sum_Z_app.
  change (sum_Z [d]) with (d + 0). lia.
Qed.

Lemma reachable_thirds : reachable thirds.
Proof.
  assert (Ha : reachable thirds_a).
  { eapply (reach_init [] 1 (Some "a") [] 1 grey 0%nat);
      [apply reach_empty| |apply NoDup_nil_2|reflexivity].
    intros c Hc. by apply elem_of_nil in Hc. }
  assert (Hb : reachable thirds_b).
  { eapply (reach_init thirds_a 1 (Some "b") [] 2 grey 1%nat);
      [exact Ha| |apply NoDup_nil_2|reflexivity].
    intros c Hc. by apply elem_of_nil in Hc. }
  eapply (reach_init thirds_b 2 (Some "root") [0; 1]%nat 0 grey 2%nat);
    [exact Hb| | |reflexivity].
  - intros c Hc. apply elem_of_cons in Hc as [->|Hc];
      [|apply list_elem_of_singleton in Hc as ->];
      eexists; split; reflexivity.
  - apply NoDup_cons. split; [|apply NoDup_singleton].
    intros Hin. by apply list_elem_of_singleton in Hin.
Qed.

(** C2, as stated, fails: with leaves of sizes 1 and 2 laid out in
    (0, 0, -200, -100) the split is along the height -100, and the first
    child gets the extent -33, the product truncated toward zero, where
    the floor is -34. *)
Lemma negative_extent_not_floor :
  reachable thirds
  ∧ (∃ h' ta tb,
       update_rectangles 2 2%nat (0, 0, -200, -100) thirds = Ok (tt, h')
       ∧ h' !! 0%nat = Some ta ∧ rect ta = (0, 0, -200, -33)
       ∧ h' !! 1%nat = Some tb ∧ rect tb = (0, -33, -200, -67))
  ∧ (-100 * 1) `div` 3 = -34
  ∧ (∃ p q, PyFloat.int_truediv 1 3 = inr p
            ∧ PyFloat.int_mul (-100) p = inr q
            ∧ PyFloat.floor q = inr (-34)
            ∧ PyFloat.trunc q = inr (-33)).
Proof.
  split; [apply reachable_thirds|]. split; [|split].
  - eexists _, _, _. split; [vm_compute; reflexivity|].
    split; [reflexivity|]. split; [reflexivity|]. split; reflexivity.
  - reflexivity.
  - eexists _, _. split; [vm_compute; reflexivity|].
    split; [vm_compute; reflexivity|]. split; vm_compute; reflexivity.
Qed.

(** C2, as stated, fails in a second way: the rectangles of the children
    need not tile the parent.  With leaves of sizes 1, 1, 1 and 0 laid out
    in (0, 0, 100, 5) the extents given are 33, 33, 33 and the remaining
    1, but the last child, of size 0, ends with (0, 0, 0, 0), so the
    children cover the widths 0 to 99 only. *)
Lemma zero_weight_child_leaves_gap :
  reachable gap_built
  ∧ update_rectangles 3 4%nat (0, 0, 100, 5) gap_built
    = Ok (tt, gap_laid_out)
  ∧ rect <$> gap_laid_out
    = [(0, 0, 33, 5); (33, 0, 33, 5); (66, 0, 33, 5); (0, 0, 0, 0);
       (0, 0, 100, 5)].
Proof.
  split; [|split; [vm_compute; reflexivity|reflexivity]].
  assert (Hleaf : ∀ h name size n h',
            reachable h → __init__ 1 name [] size grey h = Ok (n, h') →
            reachable h').
  { intros h name size n h' Hh Hrun.
    eapply (reach_init h 1 name [] size grey n);
      [exact Hh| |apply NoDup_nil_2|exact Hrun].
    intros c Hc. by apply elem_of_nil in Hc. }
  assert (Ha : reachable gap_a)
    by (eapply (Hleaf [] (Some "a") 1 0%nat); [apply reach_empty|reflexivity]).
  assert (Hb : reachable gap_b)
    by (eapply (Hleaf gap_a (Some "b") 1 1%nat); [exact Ha|reflexivity]).
  assert (Hc : reachable gap_c)
    by (eapply (Hleaf gap_b (Some "c") 1 2%nat); [exact Hb|reflexivity]).
  assert (Hd : reachable gap_d)
    by (eapply (Hleaf gap_c (Some "d") 0 3%nat); [exact Hc|reflexivity]).
  eapply (reach_init gap_d 2 (Some "root") [0; 1; 2; 3]%nat 0 grey 4%nat);
    [exact Hd| | |reflexivity].
  - intros c Hin.
    repeat (apply elem_of_cons in Hin as [->|Hin];
            [eexists; split; reflexivity|]).
    by apply elem_of_nil in Hin.
  - repeat (apply NoDup_cons; split;
            [intros Hin;
             repeat (apply elem_of_cons in Hin as [Hin|Hin];
                     [discriminate|]);
             by apply elem_of_nil in Hin|]).
    apply NoDup_nil_2.
Qed.

(** The call does not always return: an extent too large for a float
    makes the product raise OverflowError. *)
Lemma huge_extent_overflows :
  update_rectangles 2 2%nat (0, 0, 2 ^ 1024, 1) thirds = Raise OverflowError.
Proof. vm_compute. reflexivity. Qed.

(** C2, amended.  For a named node of positive size in a well-formed
    store, [update_rectangles(r)] comes to an end for every large enough
    budget: it returns, or the float arithmetic raises OverflowError.
    When it returns, the node has the rectangle [r]; the children are
    given consecutive strips of [r] along the width when width > height
    and along the height otherwise; the extent of a child that is not the
    last is [int(total_extent * (child.data_size / node.data_size))] in
    float arithmetic, truncated toward zero; the last child's extent is
    the total extent minus the extents before it, so the extents add up
    to the total extent; a child of size other than 0 ends with its
    strip, a child of size 0 with (0,0,0,0).  Nothing depends on the sign
    of the width or the height. *)
Theorem update_rectangles_strips h n t r :
  wf h → h !! n = Some t → _name t ≠ None → 0 < data_size t →
  (∃ fuel0, ∀ fuel, (fuel0 ≤ fuel)%nat →
     returns_or_overflows (update_rectangles fuel n r h))
  ∧ ∀ fuel h', update_rectangles fuel n r h = Ok (tt, h') →
      (∃ t', h' !! n = Some t' ∧ rect t' = r)
      ∧ ∃ dims,
          length dims = length (_subtrees t)
          ∧ (_subtrees t ≠ [] → sum_Z dims = axis_total r)
          ∧ ∀ j c, _subtrees t !! j = Some c →
                   child_layout h h' r (data_size t) (length (_subtrees t))
                                0 0 dims j c.
Proof.
  intros Hwf Hn Hname Hpos. pose proof (wf_forest _ Hwf) as Hf.
  split.
  { destruct (f_acyclic _ Hf) as [rk Hrk]. exists (S (rk n)).
    intros fuel Hle.
    apply (update_rectangles_returns_or_overflows h rk Hf Hrk);
      [apply agree_refl|by eexists|lia]. }
  intros fuel h' Hrun.
  assert (He : bool_decide (_name t = None) = false)
    by (by apply bool_decide_eq_false).
  assert (Hp : (0 <? data_size t) = true) by (by apply Z.ltb_lt).
  split.
  - destruct (update_rectangles_own h fuel n r h h' t Hf (agree_refl _ _)
                                    Hn Hrun) as (t' & Ht' & Hr & _).
    exists t'. split; [done|]. rewrite Hr. unfold own_rect.
    rewrite He, Hp. simpl.
    destruct (Z.eqb_spec (data_size t) 0); [lia|done].
  - destruct fuel as [|fuel]; [discriminate|]. simpl in Hrun.
    apply bind_Ok in Hrun as ([] & h1 & Hbase & Hdist).
    rewrite (_handle_base_cases_eq _ _ _ _ _ Hn), He in Hbase.
    assert (Hz : (data_size t =? 0) = false) by lia.
    simpl in Hbase. rewrite Hz in Hbase.
    apply ret_Ok in Hbase as [_ ->].
    rewrite (_distribute_space_subtrees_eq _ _ _ _ _ Hn), He, Hp in Hdist.
    simpl in Hdist. apply bind_Ok in Hdist as (u1 & h1 & Hm & Hloop).
    apply modify_Ok in Hm as (t0 & Ht0 & ->). rewrite Hn in Ht0.
    injection Ht0 as <-. destruct u1.
    destruct (_distribute_loop_spec h n fuel (data_size t) r
                (length (_subtrees t)) Hf (_subtrees t) 0%nat 0
                (<[n := set_rect r t]> h) h') as (dims & Hlen & Hall).
    { intros c Hc. by exists t. }
    { by eapply f_nodup. }
    { by apply (agree_insert _ _ _ t). }
    { exact Hloop. }
    exists dims. split; [done|]. split; [|done].
    intros Hne. destruct (_subtrees t) as [|c0 l0] eqn:Hsub; [done|].
    simpl in Hlen.
    destruct (lookup_lt_is_Some_2 (c0 :: l0) (length l0)) as [c Hc];
      [simpl; lia|].
    destruct (Hall _ _ Hc) as (tc & tc' & d & _ & _ & Hd & _ & Hlast & _).
    rewrite (sum_Z_last dims (length l0) d Hlen Hd).
    rewrite Hlast by (simpl; lia). lia.
Qed.

Lemma update_rectangles_strips_witness :
  (∃ fuel, returns_or_overflows
             (update_rectangles fuel 2%nat (0, 0, -200, -100) thirds))
  ∧ ∃ dims,
      update_rectangles 2 2%nat (0, 0, -200, -100) thirds
      = Ok (tt, thirds_laid_out)
      ∧ length dims = 2%nat ∧ sum_Z dims = -100
      ∧ child_layout thirds thirds_laid_out (0, 0, -200, -100) 3 2 0 0 dims
                     0 0%nat.
Proof.
  assert (H2 : thirds !! 2%nat
               = Some (mkTMTree (0, 0, 0, 0) 3 grey (Some "root")
                                [0; 1]%nat None false)) by reflexivity.
  assert (Hrun : update_rectangles 2 2%nat (0, 0, -200, -100) thirds
                 = Ok (tt, thirds_laid_out)) by (vm_compute; reflexivity).
  destruct (update_rectangles_strips thirds 2%nat _ (0, 0, -200, -100)
              (proj1 (reachable_Inv _ reachable_thirds)) H2)
    as ((fuel0 & Hends) & Hspec); [discriminate|reflexivity|].
  split; [exists fuel0; by apply Hends|].
  destruct (Hspec 2%nat thirds_laid_out Hrun)
    as (_ & dims & Hlen & Hsum & Hall).
  exists dims. split; [exact Hrun|]. split; [exact Hlen|].
  split; [by apply Hsum|]. by apply Hall.
Defined.

(** ** Two remarks *)

(** Truncation toward zero is the floor on floats that are not negative. *)
Remark trunc_floor_nonneg (f : float) :
  match f with S754_finite true _ _ => False | _ => True end →
  PyFloat.trunc f = PyFloat.floor f.
Proof.
  destruct f as [s|s| |[] m e]; try done. intros _.
  unfold PyFloat.trunc, PyFloat.floor, PyFloat.round_with.
  destruct (0 <=? e) eqn:He; [done|]. f_equal. simpl.
  apply Z.quot_div_nonneg; [done|]. apply Z.pow_pos_nonneg; lia.
Qed.

(** A deleted node is outside every tree: it keeps its children and its
    parent reference, and its size is forced to 0. *)
Remark deleted_node_is_detached :
  ∃ h' ta tb,
    delete_self 3 1%nat chain3 = Ok (true, h')
    ∧ h' !! 1%nat = Some ta ∧ _subtrees ta = [0%nat] ∧ data_size ta = 0
    ∧ _parent_tree ta = Some 2%nat
    ∧ h' !! 0%nat = Some tb ∧ data_size tb = 5
    ∧ ¬ child h' 2%nat 1%nat.
Proof.
  eexists _, _, _. split; [vm_compute; reflexivity|].
  repeat (split; [reflexivity|]).
  intros (t & Ht & Hin). injection Ht as <-. by apply elem_of_nil in Hin.
Qed.

(** * Further properties of the tree methods *)

(** ** [update_data_sizes] *)

Lemma sum_over_fixed (f : id → M Z) (h : heap) l :
  (∀ c v h', c ∈ l → f c h = Ok (v, h') → h' = h ∧ v = size_at h c) →
  ∀ acc v h', sum_over l f acc h = Ok (v, h') →
              h' = h ∧ v = acc + sum_sizes h l.
Proof.
  induction l as [|c l IH]; intros Hf acc v h' Hrun; simpl in Hrun.
  - apply ret_Ok in Hrun as [-> ->]. simpl. split; [done|lia].
  - apply bind_Ok in Hrun as (vc & h1 & Hc & Hrun).
    destruct (Hf c vc h1 (list_elem_of_here _ _) Hc) as [-> ->].
    destruct (IH (λ c' v' h'' Hc', Hf c' v' h'' (list_elem_of_further _ _ _ Hc'))
                 _ _ _ Hrun) as [-> ->].
    split; [done|]. simpl. lia.
Qed.

Lemma set_data_size_same t : set_data_size (data_size t) t = t.
Proof. by destruct t. Qed.

(** Where the weight-sum property holds already nothing is changed. *)
Lemma update_data_sizes_fixed fuel : ∀ r h v h',
  (∀ n, desc h r n → good h n) →
  update_data_sizes fuel r h = Ok (v, h') → h' = h ∧ v = size_at h r.
Proof.
  induction fuel as [|fuel IH]; intros r h v h' Hgood Hrun; simpl in Hrun;
    [discriminate|].
  apply bind_Ok in Hrun as (t & h0 & Hg & Hrun). apply get_Ok in Hg as [Hr ->].
  destruct (_subtrees t) as [|c0 l0] eqn:Hsub.
  - apply ret_Ok in Hrun as [-> ->]. split; [done|].
    unfold size_at. by rewrite Hr.
  - rewrite <- Hsub in Hrun.
    apply bind_Ok in Hrun as (total & h1 & Hsum & Hrun).
    apply sum_over_fixed in Hsum as [-> ->].
    2:{ intros c v' h'' Hc Hrunc. eapply IH; [|exact Hrunc].
        intros n Hn. apply Hgood. eapply rtc_l; [|exact Hn]. by exists t. }
    assert (Htot : 0 + sum_sizes h (_subtrees t) = data_size t).
    { rewrite (Hgood r (rtc_refl _ _) t Hr); [lia|]. by rewrite Hsub. }
    rewrite Htot in Hrun.
    apply bind_Ok in Hrun as (u & h2 & Hm & Hrun).
    apply modify_Ok in Hm as (t1 & Ht1 & ->). rewrite Hr in Ht1.
    injection Ht1 as <-. rewrite set_data_size_same in Hrun.
    rewrite list_insert_id in Hrun by done.
    apply bind_Ok in Hrun as (t2 & h3 & Hg & Hrun).
    apply get_Ok in Hg as [Hr2 ->]. apply ret_Ok in Hrun as [-> ->].
    rewrite Hr in Hr2. injection Hr2 as <-. split; [done|].
    unfold size_at. by rewrite Hr.
Qed.

(** [update_data_sizes] on a node of a forest returns (for every large
    enough budget).  Only [data_size] attributes change, only at nodes
    below the node that have children; afterwards each of them has the sum
    of its children's sizes, the value returned is the node's size, and a
    second call changes nothing and returns the same value. *)
Theorem update_data_sizes_spec h r :
  forest h → is_Some (h !! r) →
  ∃ fuel0, ∀ fuel, (fuel0 ≤ fuel)%nat →
    ∃ v h',
      update_data_sizes fuel r h = Ok (v, h')
      ∧ agree no_size h h'
      ∧ (∀ n, ¬ desc h r n → h' !! n = h !! n)
      ∧ leaves_kept h h'
      ∧ (∀ n, desc h r n → good h' n)
      ∧ size_at h' r = v
      ∧ update_data_sizes fuel r h' = Ok (v, h').
Proof.
  intros Hf Hr. destruct (f_acyclic _ Hf) as [rk Hrk].
  exists (S (rk r)). intros fuel Hle.
  destruct (update_data_sizes_total h rk Hf Hrk fuel r h)
    as (v & h' & Hrun & _); [apply agree_refl|done|lia|].
  destruct (update_data_sizes_resized_forest _ _ _ _ _ Hf Hrun)
    as (Ha & Hout & Hgood & Hv & Hleaves).
  exists v, h'. repeat (split; [done|]).
  destruct (update_data_sizes_total h rk Hf Hrk fuel r h')
    as (v2 & h2 & Hrun2 & _); [by apply agree_size_down|done|lia|].
  assert (Hgood' : ∀ n, desc h' r n → good h' n).
  { intros n Hn. apply Hgood.
    apply (desc_shape h' h); [|done]. by apply agree_sym, agree_size_shape. }
  destruct (update_data_sizes_fixed _ _ _ _ _ Hgood' Hrun2) as [-> ->].
  by rewrite Hv in Hrun2.
Qed.

(** ** Parent links of nodes that sit in a tree *)

Lemma chain_desc h r a b :
  wf h → root_node h r → desc h r a → on_chain h a b →
  desc h b a ∧ desc h r b.
Proof.
  intros Hwf Hr Ha Hc. induction Hc as [a|a q b (t & Ht & Hp) _ IH].
  - split; [apply rtc_refl|done].
  - assert (child h q a ∧ desc h r q) as [Hqa Hq].
    { apply rtc_inv_r in Ha as [->|(y & Hy & Hya)].
      - destruct Hr as (tr & Htr & Hnone). congruence.
      - destruct (wf_parent _ Hwf _ _ Hya) as (t' & Ht' & Hp').
        assert (y = q) as -> by congruence. done. }
    destruct (IH Hq) as [Hbq Hb]. split; [|done]. by eapply rtc_r.
Qed.

Lemma attached_parent h r s ts p :
  wf h → root_node h r → desc h r s → h !! s = Some ts →
  _parent_tree ts = Some p → child h p s ∧ desc h r p ∧ s ≠ p.
Proof.
  intros Hwf Hr Hd Hs Hp.
  assert (child h p s ∧ desc h r p) as [Hps Hdp].
  { apply rtc_inv_r in Hd as [->|(y & Hy & Hys)].
    - destruct Hr as (tr & Htr & Hnone). congruence.
    - destruct (wf_parent _ Hwf _ _ Hys) as (t' & Ht' & Hp').
      assert (y = p) as -> by congruence. done. }
  split; [done|]. split; [done|]. intros ->.
  by eapply (no_cycle h Hwf p p); [apply rtc_refl|].
Qed.

Lemma _get_root_climb : _get_root = climb.
Proof. reflexivity. Qed.

Lemma climb_chain_total h n r :
  on_chain h n r → root_node h r →
  ∃ fuel0, ∀ fuel, (fuel0 ≤ fuel)%nat → climb fuel n h = Ok (r, h).
Proof.
  intros Hc Hr. induction Hc as [a|a q b (t & Ht & Hp) _ IH].
  - exists 1%nat. intros [|fuel] Hle; [lia|]. simpl.
    destruct Hr as (t & Ht & Hp). apply bind_Ok.
    exists t, h. split; [by apply get_Ok|]. by rewrite Hp.
  - destruct (IH Hr) as (fuel0 & Hclimb). exists (S fuel0).
    intros [|fuel] Hle; [lia|]. simpl. apply bind_Ok.
    exists t, h. split; [by apply get_Ok|]. rewrite Hp. apply Hclimb. lia.
Qed.

(** [_helper_root] returns from every node whose parent links lead to a
    parentless node. *)
Lemma _helper_root_chain_total h r n :
  forest h → on_chain h n r → root_node h r →
  ∃ fuel0, ∀ fuel, (fuel0 ≤ fuel)%nat →
                   ∃ h', _helper_root fuel n h = Ok (tt, h').
Proof.
  intros Hf Hc Hr. destruct (climb_chain_total h n r Hc Hr) as (f1 & Hclimb).
  destruct (f_acyclic _ Hf) as [rk Hrk].
  exists (f1 `max` S (rk r))%nat. intros fuel Hle.
  destruct (update_data_sizes_total h rk Hf Hrk fuel r h)
    as (v & h' & Hu & _); [apply agree_refl| |lia|].
  { destruct Hr as (t & Ht & _). eauto. }
  exists h'. unfold _helper_root. apply bind_Ok. exists r, h.
  split; [apply Hclimb; lia|]. apply bind_Ok. eauto.
Qed.

Lemma desc_on_chain h r n : wf h → desc h r n → on_chain h n r.
Proof.
  intros Hwf Hd. induction Hd as [a|a y b Hay _ IH]; [apply rtc_refl|].
  eapply rtc_r; [exact IH|]. by apply wf_parent.
Qed.

(** ** [move] *)

Lemma no_size_append a b z (l : list id) :
  no_size a = no_size b →
  no_size (set_data_size z (set_subtrees (_subtrees a ++ l) a))
  = no_size (set_subtrees (_subtrees b ++ l) b).
Proof. destruct a, b. intros [= -> -> -> -> -> ->]. reflexivity. Qed.

Lemma no_size_set_data_size z t : no_size (set_data_size z t) = no_size t.
Proof. by destruct t. Qed.

Lemma no_size_subtrees a b : no_size a = no_size b → _subtrees a = _subtrees b.
Proof. destruct a, b. by intros [= -> -> -> -> -> ->]. Qed.

(** What a move that passes the two tests has done when it returns. *)
Lemma move_effect fuel s d h u h' t td :
  h !! s = Some t → h !! d = Some td → s ≠ d →
  _parent_tree t ≠ Some d → _subtrees t = [] → _subtrees td ≠ [] →
  move fuel s d h = Ok (u, h') →
  ∃ p tp l,
    _parent_tree t = Some p ∧ h !! p = Some tp
    ∧ list_remove s (_subtrees tp) = Some l
    ∧ h' !! s = Some (set_parent_tree (Some d) t)
    ∧ (∃ td', h' !! d = Some td'
         ∧ no_size td' = no_size (set_subtrees (_subtrees td ++ [s]) td))
    ∧ (∃ tp', h' !! p = Some tp'
         ∧ no_size tp' = no_size (if bool_decide (l = [])
                                  then set_expanded false (set_subtrees l tp)
                                  else set_subtrees l tp)
         ∧ (l = [] → data_size tp' = data_size tp - data_size t))
    ∧ (∀ k, k ≠ s → k ≠ d → k ≠ p →
            no_size <$> h' !! k = no_size <$> h !! k)
    ∧ (∀ k tk, h !! k = Some tk → _subtrees tk = [] → k ≠ s →
               h' !! k = Some tk).
Proof.
  intros Ht Hd Hsd Hnotd Hleaf Hdkids Hrun. unfold move in Hrun.
  apply bind_Ok in Hrun as (t0 & h0 & Ht0 & Hrun).
  apply get_Ok in Ht0 as [Ht0 ->]. rewrite Ht in Ht0. injection Ht0 as <-.
  rewrite (bool_decide_eq_false_2 (s = d)) in Hrun by done.
  rewrite (bool_decide_eq_false_2 (_parent_tree t = Some d)) in Hrun by done.
  simpl in Hrun.
  apply bind_Ok in Hrun as (dt0 & h0 & Hd0 & Hrun).
  apply get_Ok in Hd0 as [Hd0 ->]. rewrite Hd in Hd0. injection Hd0 as <-.
  rewrite (bool_decide_eq_true_2 (_subtrees t = [])) in Hrun by done.
  rewrite (bool_decide_eq_false_2 (_subtrees td = [])) in Hrun by done.
  simpl in Hrun.
  apply bind_Ok in Hrun as (p & h1 & Hdet & Hrun).
  apply detach_from_Ok in Hdet as (Hpar & pt & l & pt' & Hp & Hrem & -> & Hpt').
  assert (Hpd : p ≠ d) by (intros ->; done).
  assert (Hsp : s ≠ p).
  { intros ->. apply list_remove_elem in Hrem. rewrite Ht in Hp.
    injection Hp as <-. rewrite Hleaf in Hrem. by apply elem_of_nil in Hrem. }
  apply bind_Ok in Hrun as (u2 & h2 & Hm & Hrun).
  apply modify_Ok in Hm as (x & Hx & ->).
  rewrite list_lookup_insert_eq in Hx by (by eapply lookup_lt_Some).
  injection Hx as <-. rewrite list_insert_insert_eq in Hrun.
  set (pt2 := set_data_size (data_size pt' - data_size t) pt') in *.
  set (h2 := <[p := pt2]> h) in *.
  assert (Hp2 : h2 !! p = Some pt2).
  { apply list_lookup_insert_eq. by eapply lookup_lt_Some. }
  assert (Hs2 : h2 !! s = Some t) by (subst h2; by rewrite list_lookup_insert_ne).
  assert (Hd2 : h2 !! d = Some td) by (subst h2; by rewrite list_lookup_insert_ne).
  apply bind_Ok in Hrun as (u3 & h3 & Hroot1 & Hrun).
  destruct (_helper_root_leaves _ _ _ _ _ Hroot1) as [Ha3 Hl3].
  pose proof (Hl3 _ _ Hs2 Hleaf) as Hs3.
  apply bind_Ok in Hrun as (u4 & h4 & Hm & Hrun).
  apply modify_Ok in Hm as (x & Hx & ->). rewrite Hs3 in Hx.
  injection Hx as <-.
  apply bind_Ok in Hrun as (u5 & h5 & Hm & Hrun).
  apply modify_Ok in Hm as (dt & Hdt & ->).
  rewrite list_lookup_insert_ne in Hdt by done.
  apply bind_Ok in Hrun as (t' & h5' & Hg & Hrun).
  apply get_Ok in Hg as [Hg ->].
  apply bind_Ok in Hrun as (u6 & h6 & Hm & Hrun).
  apply modify_Ok in Hm as (x & Hx & ->).
  pose proof (lookup_lt_Some _ _ _ Hs3) as Hslt.
  pose proof (lookup_lt_Some _ _ _ Hdt) as Hdlt.
  rewrite list_lookup_insert_eq in Hx by (by rewrite length_insert).
  injection Hx as <-. rewrite list_insert_insert_eq in Hrun.
  match type of Hrun with _helper_root _ _ ?hh = _ => set (h6 := hh) in * end.
  match goal with
  | _ := <[d := ?x]> _ |- _ => set (td6 := x) in *
  end.
  assert (Hs6 : h6 !! s = Some (set_parent_tree (Some d) t)).
  { subst h6. rewrite list_lookup_insert_ne by done.
    by rewrite list_lookup_insert_eq. }
  assert (Hd6 : h6 !! d = Some td6).
  { subst h6. apply list_lookup_insert_eq. by rewrite length_insert. }
  assert (Hother6 : ∀ k, k ≠ s → k ≠ d → h6 !! k = h3 !! k).
  { intros k Hks Hkd. subst h6. by rewrite !list_lookup_insert_ne. }
  destruct (_helper_root_leaves _ _ _ _ _ Hrun) as [Ha6 Hl6].
  destruct (agree_Some _ _ _ _ _ Ha3 Hd2) as (dt3 & Hdt3 & Hedt).
  rewrite Hdt in Hdt3. injection Hdt3 as <-.
  exists p, pt, l. repeat (split; [done|]). split; [|split; [|split; [|split]]].
  - by apply Hl6.
  - destruct (agree_Some _ _ _ _ _ Ha6 Hd6) as (td' & Htd' & He).
    exists td'. split; [done|]. rewrite He. subst td6.
    by apply no_size_append.
  - destruct (agree_Some _ _ _ _ _ Ha3 Hp2) as (tp3 & Htp3 & He3).
    assert (Htp6 : h6 !! p = Some tp3) by (by rewrite Hother6).
    destruct (agree_Some _ _ _ _ _ Ha6 Htp6) as (tp' & Htp' & He6).
    exists tp'. split; [done|]. split.
    + rewrite He6, He3. subst pt2. by rewrite no_size_set_data_size, Hpt'.
    + intros ->. rewrite bool_decide_eq_true_2 in Hpt' by done.
      assert (Hleaf2 : _subtrees pt2 = []) by (subst pt2 pt'; done).
      pose proof (Hl3 _ _ Hp2 Hleaf2) as Hp3.
      assert (Hp6 : h6 !! p = Some pt2) by (by rewrite Hother6).
      pose proof (Hl6 _ _ Hp6 Hleaf2) as Hp'. rewrite Htp' in Hp'.
      injection Hp' as ->. subst pt2 pt'. done.
  - intros k Hks Hkd Hkp.
    rewrite (agree_lookup _ _ _ k Ha6), Hother6 by done.
    rewrite (agree_lookup _ _ _ k Ha3). subst h2.
    by rewrite list_lookup_insert_ne.
  - intros k tk Hk Hkleaf Hks.
    assert (Hkp : k ≠ p).
    { intros ->. rewrite Hp in Hk. injection Hk as <-.
      apply list_remove_elem in Hrem. rewrite Hkleaf in Hrem.
      by apply elem_of_nil in Hrem. }
    assert (Hkd : k ≠ d).
    { intros ->. rewrite Hd in Hk. by injection Hk as <-. }
    apply Hl6; [|done]. rewrite Hother6 by done. apply Hl3; [|done].
    subst h2. by rewrite list_lookup_insert_ne.
Qed.

(** Climbing does not look at what a node off the chain holds. *)
Lemma climb_except s (h1 : heap) fuel : ∀ n h r,
  climb fuel n h = Ok (r, h) → ¬ on_chain h n s →
  (∀ k, k ≠ s → up <$> h1 !! k = up <$> h !! k) →
  climb fuel n h1 = Ok (r, h1).
Proof.
  induction fuel as [|fuel IH]; intros n h r Hrun Hoff Hup; simpl in Hrun;
    [discriminate|].
  apply bind_Ok in Hrun as (t & h0 & Hg & Hrun). apply get_Ok in Hg as [Hn ->].
  assert (Hns : n ≠ s) by (intros ->; apply Hoff, rtc_refl).
  pose proof (Hup n Hns) as Hk. rewrite Hn in Hk.
  destruct (h1 !! n) as [t1|] eqn:Hn1; [|discriminate].
  injection Hk as Hk. simpl. apply bind_Ok. exists t1, h1.
  split; [by apply get_Ok|]. rewrite Hk.
  destruct (_parent_tree t) as [q|] eqn:Hq.
  - eapply IH; [exact Hrun| |done]. intros Hc. apply Hoff.
    eapply rtc_l; [|exact Hc]. by exists t.
  - by apply ret_Ok in Hrun as [-> _].
Qed.

Lemma list_remove_other x l l' y :
  list_remove x l = Some l' → y ∈ l → y ≠ x → y ∈ l'.
Proof.
  revert l'. induction l as [|z l IH]; intros l' Hr Hy Hne; simpl in Hr;
    [discriminate|].
  destruct (decide (z = x)) as [->|Hzx].
  - injection Hr as <-. by apply elem_of_cons in Hy as [->|Hy].
  - destruct (list_remove x l) as [l0|]; [|discriminate].
    injection Hr as <-. apply elem_of_cons in Hy as [->|Hy]; [left|right].
    by apply IH.
Qed.

Lemma move_total h s d ts td p r r' :
  wf h →
  h !! s = Some ts → _subtrees ts = [] → _parent_tree ts = Some p →
  h !! d = Some td → _subtrees td ≠ [] → s ≠ d → p ≠ d →
  root_node h r → desc h r s → root_node h r' → desc h r' d →
  ∃ fuel0, ∀ fuel, (fuel0 ≤ fuel)%nat →
                   ∃ h', move fuel s d h = Ok (tt, h').
Proof.
  intros Hwf Hs Hleaf Hpar Hd Hdkids Hsd Hpd Hr Hrs Hr' Hrd.
  destruct (attached_parent h r s ts p Hwf Hr Hrs Hs Hpar)
    as ((pt & Hp & Hin) & Hrp & Hsp).
  destruct (detach_from_total h p pt s Hp Hin)
    as (l & pt' & Hrem & Hdet & Hsub' & Hpar' & _).
  set (pt2 := set_data_size (data_size pt' - data_size ts) pt').
  assert (Hsub2 : _subtrees pt2 = l) by done.
  assert (Hpar2 : _parent_tree pt2 = _parent_tree pt) by done.
  destruct (wf_remove_child h p pt s l pt2 Hwf Hp Hrem Hsub2 Hpar2)
    as (Hwf2 & Hfree2 & Hmono2).
  set (h2 := <[p := pt2]> h) in *.
  pose proof (wf_forest _ Hwf2) as Hf2.
  destruct (wf_acyclic _ Hwf) as [rk Hrk].
  destruct (climb_total h r s Hwf Hr Hrs) as (f1 & Hclimb1).
  destruct (climb_total h r' d Hwf Hr' Hrd) as (f2 & Hclimb2).
  assert (Hup2 : agree up h h2).
  { eapply agree_insert; [done|]. unfold up. by rewrite Hpar2. }
  assert (Hnokids : ∀ y, ¬ child h s y).
  { intros y (t & Ht & Hy). rewrite Hs in Ht. injection Ht as <-.
    rewrite Hleaf in Hy. by apply elem_of_nil in Hy. }
  exists (Nat.max (Nat.max f1 f2) (S (S (Nat.max (rk r) (rk r'))))).
  intros fuel Hle.
  (* the first recomputation *)
  assert (∃ h3, _helper_root fuel s h2 = Ok (tt, h3)) as (h3 & Hroot1).
  { destruct (update_data_sizes_total h2 rk Hf2) with (fuel := fuel) (r := r)
        (h1 := h2) as (v & h3 & Hu & _).
    - intros a b Hc. by apply Hrk, Hmono2.
    - apply agree_refl.
    - apply lookup_lt_is_Some. subst h2. rewrite length_insert.
      destruct Hr as (tr & Htr & _). by eapply lookup_lt_Some.
    - lia.
    - exists h3. unfold _helper_root. apply bind_Ok. exists r, h2. split.
      + eapply climb_up; [exact Hup2|]. apply Hclimb1. lia.
      + apply bind_Ok. eauto. }
  destruct (_helper_root_leaves _ _ _ _ _ Hroot1) as [Ha3 Hl3].
  pose proof (agree_size_shape _ _ Ha3) as Hs3.
  pose proof (wf_shape _ _ Hs3 Hwf2) as Hwf3.
  assert (Hs2 : h2 !! s = Some ts)
    by (subst h2; by rewrite list_lookup_insert_ne).
  assert (Hd2 : h2 !! d = Some td)
    by (subst h2; by rewrite list_lookup_insert_ne).
  pose proof (Hl3 _ _ Hs2 Hleaf) as Hs3'.
  destruct (agree_Some _ _ _ _ _ Ha3 Hd2) as (dt & Hdt & Hedt).
  assert (Hfree3 : ∀ q, ¬ child h3 q s).
  { intros q Hc%(child_shape _ _ Hs3). by eapply Hfree2. }
  set (ts' := set_parent_tree (Some d) ts).
  set (td6 := set_data_size (data_size (set_subtrees (_subtrees dt ++ [s]) dt)
                             + data_size ts')
                            (set_subtrees (_subtrees dt ++ [s]) dt)).
  set (h4 := <[s := ts']> h3).
  set (h6 := <[d := td6]> h4).
  pose proof (lookup_lt_Some _ _ _ Hs3') as Hslt.
  pose proof (lookup_lt_Some _ _ _ Hdt) as Hdlt.
  assert (Hs6 : h6 !! s = Some ts').
  { subst h6 h4. rewrite list_lookup_insert_ne by done.
    by rewrite list_lookup_insert_eq. }
  assert (Hd6 : h6 !! d = Some td6).
  { subst h6 h4. apply list_lookup_insert_eq. by rewrite length_insert. }
  assert (Hother6 : ∀ k, k ≠ s → k ≠ d → h6 !! k = h3 !! k).
  { intros k Hks Hkd. subst h6 h4. by rewrite !list_lookup_insert_ne. }
  destruct (wf_add_leaf h3 h6 s d ts dt ts' td6) as (Hwf6 & Hedge6);
    try done.
  pose proof (wf_forest _ Hwf6) as Hf6.
  (* parent links off [s] are those of [h] *)
  assert (Hup6 : ∀ k, k ≠ s → up <$> h6 !! k = up <$> h !! k).
  { intros k Hks. rewrite <- (agree_lookup _ _ _ k Hup2).
    rewrite <- (agree_lookup _ _ _ k (agree_size_up _ _ Ha3)).
    destruct (decide (k = d)) as [->|Hkd]; [|by rewrite Hother6].
    rewrite Hd6, Hdt. done. }
  assert (Hoff : ¬ on_chain h d s).
  { intros Hc. destruct (chain_desc h r' d s Hwf Hr' Hrd Hc) as [Hsd' _].
    apply (desc_leaf h s d ts Hs Hleaf) in Hsd'. done. }
  (* a rank for the forest after the move *)
  set (rk6 := λ k, if decide (k = s) then O else S (rk k)).
  assert (Hrk6 : ∀ a b, child h6 a b → (rk6 b < rk6 a)%nat).
  { intros a b Hc. destruct (Hedge6 _ _ Hc) as [Hc3|[-> ->]].
    - apply (child_shape _ _ Hs3) in Hc3. apply Hmono2 in Hc3.
      unfold rk6. destruct (decide (a = s)) as [->|_].
      { by destruct (Hnokids _ Hc3). }
      destruct (decide (b = s)); [lia|]. apply Hrk in Hc3. lia.
    - unfold rk6. rewrite decide_True by done.
      rewrite decide_False by done. lia. }
  assert (Hr6 : root_node h6 r').
  { assert (Hr's : r' ≠ s).
    { intros ->. destruct Hr' as (t & Ht & Hnone). congruence. }
    destruct Hr' as (t & Ht & Hnone). pose proof (Hup6 r' Hr's) as Hk.
    rewrite Ht in Hk. destruct (h6 !! r') as [t6|] eqn:Ht6; [|discriminate].
    injection Hk as Hk. exists t6. split; [done|]. congruence. }
  destruct (update_data_sizes_total h6 rk6 Hf6 Hrk6 fuel r' h6)
    as (v & h' & Hu & _); [apply agree_refl| | |].
  { destruct Hr6 as (t & Ht & _). eauto. }
  { unfold rk6. destruct (decide (r' = s)); lia. }
  exists h'. unfold move. apply bind_Ok. exists ts, h.
  split; [by apply get_Ok|].
  rewrite (bool_decide_eq_false_2 (s = d)) by done.
  rewrite (bool_decide_eq_false_2 (_parent_tree ts = Some d))
    by (rewrite Hpar; congruence).
  simpl. apply bind_Ok. exists td, h. split; [by apply get_Ok|].
  rewrite (bool_decide_eq_true_2 (_subtrees ts = [])) by done.
  rewrite (bool_decide_eq_false_2 (_subtrees td = [])) by done.
  simpl. rewrite Hpar. apply bind_Ok. exists p, (<[p := pt']> h).
  split; [done|]. apply bind_Ok. exists tt, h2. split.
  { apply modify_Ok. exists pt'. split.
    - apply list_lookup_insert_eq. by eapply lookup_lt_Some.
    - subst h2 pt2. by rewrite list_insert_insert_eq. }
  apply bind_Ok. exists tt, h3. split; [done|].
  apply bind_Ok. exists tt, h4. split; [apply modify_Ok; eauto|].
  apply bind_Ok. exists tt, (<[d := set_subtrees (_subtrees dt ++ [s]) dt]> h4).
  split.
  { apply modify_Ok. exists dt. split; [|done]. subst h4.
    by rewrite list_lookup_insert_ne. }
  apply bind_Ok. exists ts', (<[d := set_subtrees (_subtrees dt ++ [s]) dt]> h4).
  split.
  { apply get_Ok. split; [|done]. rewrite list_lookup_insert_ne by done.
    subst h4. by rewrite list_lookup_insert_eq. }
  apply bind_Ok. exists tt, h6. split.
  { apply modify_Ok. eexists. split.
    - apply list_lookup_insert_eq. subst h4. by rewrite length_insert.
    - subst h6. by rewrite list_insert_insert_eq. }
  unfold _helper_root. apply bind_Ok. exists r', h6. split.
  - eapply (climb_except s h6); [|exact Hoff|exact Hup6]. apply Hclimb2. lia.
  - apply bind_Ok. exists v, h'. split; [done|]. done.
Qed.

Lemma list_remove_nil x l : list_remove x l = Some [] → l = [x].
Proof.
  destruct l as [|z l]; simpl; [discriminate|].
  destruct (decide (z = x)) as [->|Hne]; [by intros [= ->]|].
  destruct (list_remove x l); discriminate.
Qed.

(** [move] of a leaf that sits in a tree into a node with children that
    sits in a tree (neither the leaf itself nor its parent) returns, for
    every large enough budget.  Afterwards the leaf is unchanged but for
    its parent, which is the destination; the destination has the leaf as
    its last child; the old parent has lost it, and is collapsed with size
    0 when it has no child left; no other attribute but sizes has changed
    anywhere, every other leaf keeps its size, and the weight sums hold
    again. *)
Theorem move_spec h s d ts td p r r' :
  Inv h →
  h !! s = Some ts → _subtrees ts = [] → _parent_tree ts = Some p →
  h !! d = Some td → _subtrees td ≠ [] → s ≠ d → p ≠ d →
  root_node h r → desc h r s → root_node h r' → desc h r' d →
  ∃ tp l,
    h !! p = Some tp ∧ list_remove s (_subtrees tp) = Some l
    ∧ ∃ fuel0, ∀ fuel, (fuel0 ≤ fuel)%nat →
        ∃ h', move fuel s d h = Ok (tt, h')
          ∧ Inv h'
          ∧ h' !! s = Some (set_parent_tree (Some d) ts)
          ∧ (∃ td', h' !! d = Some td'
               ∧ no_size td'
                 = no_size (set_subtrees (_subtrees td ++ [s]) td))
          ∧ (∃ tp', h' !! p = Some tp'
               ∧ no_size tp'
                 = no_size (if bool_decide (l = [])
                            then set_expanded false (set_subtrees l tp)
                            else set_subtrees l tp)
               ∧ (l = [] → data_size tp' = 0))
          ∧ (∀ k, k ≠ s → k ≠ d → k ≠ p →
                  no_size <$> h' !! k = no_size <$> h !! k)
          ∧ (∀ k tk, h !! k = Some tk → _subtrees tk = [] → k ≠ s →
                     h' !! k = Some tk).
Proof.
  intros HI Hs Hleaf Hpar Hd Hdkids Hsd Hpd Hr Hrs Hr' Hrd.
  pose proof HI as [Hwf Hw].
  destruct (attached_parent h r s ts p Hwf Hr Hrs Hs Hpar)
    as ((tp & Hp & Hin) & Hrp & Hsp).
  destruct (list_remove s (_subtrees tp)) as [l|] eqn:Hrem.
  2:{ by apply list_remove_None in Hrem. }
  exists tp, l. split; [done|]. split; [done|].
  destruct (move_total h s d ts td p r r') as (fuel0 & Htot); try done.
  exists fuel0. intros fuel Hle. destruct (Htot fuel Hle) as (h' & Hrun).
  exists h'. split; [done|]. split; [by eapply move_Inv|].
  destruct (move_effect fuel s d h tt h' ts td)
    as (p0 & tp0 & l0 & Hpar0 & Hp0 & Hrem0 & Hs' & Hd' & Hp' & Hoth & Hlv);
    try done.
  { rewrite Hpar. congruence. }
  rewrite Hpar in Hpar0. injection Hpar0 as <-. rewrite Hp in Hp0.
  injection Hp0 as <-. rewrite Hrem in Hrem0. injection Hrem0 as <-.
  repeat (split; [done|]). split; [|done].
  destruct Hp' as (tp' & Htp' & He & Hz). exists tp'.
  repeat (split; [done|]). intros ->. rewrite Hz by done.
  apply list_remove_nil in Hrem.
  rewrite (Hw r p Hr Hrp tp Hp) by (by rewrite Hrem). rewrite Hrem. simpl.
  unfold size_at. rewrite Hs. simpl. lia.
Qed.

(** [move] of a leaf that has no parent into a node with children raises
    [AttributeError]: the code reads [self._parent_tree._subtrees]. *)
Theorem move_parentless_raises fuel h s d ts td :
  h !! s = Some ts → _subtrees ts = [] → _parent_tree ts = None →
  h !! d = Some td → _subtrees td ≠ [] → s ≠ d →
  move fuel s d h = Raise AttributeError.
Proof.
  intros Hs Hleaf Hpar Hd Hkids Hsd. unfold move, bind, get.
  rewrite Hs, Hpar, Hleaf.
  rewrite (bool_decide_eq_false_2 (s = d)) by done.
  rewrite (bool_decide_eq_false_2 (None = Some d)) by done.
  simpl. rewrite Hd.
  rewrite (bool_decide_eq_false_2 (_subtrees td = [])) by done.
  reflexivity.
Qed.

(** ** [delete_self] *)

Lemma on_chain_up h h' a b : agree up h h' → on_chain h a b → on_chain h' a b.
Proof.
  intros Hu. unfold on_chain. apply rtc_subrel. intros x y (t & Ht & Hp).
  destruct (agree_Some _ _ _ _ _ Hu Ht) as (t' & Ht' & He).
  injection He as He. exists t'. split; [done|]. congruence.
Qed.

Lemma not_above_parent h r p s :
  wf h → root_node h r → desc h r p → child h p s → ¬ on_chain h p s.
Proof.
  intros Hwf Hr Hp Hps Hc.
  destruct (chain_desc h r p s Hwf Hr Hp Hc) as [Hsp _].
  by eapply (no_cycle h Hwf s p).
Qed.

Lemma climb_same f1 : ∀ f2 n h r1 r2 h1 h2,
  climb f1 n h = Ok (r1, h1) → climb f2 n h = Ok (r2, h2) → r1 = r2.
Proof.
  induction f1 as [|f1 IH]; intros f2 n h r1 r2 h1 h2 H1 H2; simpl in H1;
    [discriminate|].
  destruct f2 as [|f2]; simpl in H2; [discriminate|].
  apply bind_Ok in H1 as (t & h0 & Hg & H1). apply get_Ok in Hg as [Hg ->].
  apply bind_Ok in H2 as (t' & h0 & Hg' & H2). apply get_Ok in Hg' as [Hg' ->].
  rewrite Hg in Hg'. injection Hg' as <-.
  destruct (_parent_tree t) as [q|]; [by eapply IH|].
  apply ret_Ok in H1 as [-> _]. by apply ret_Ok in H2 as [-> _].
Qed.

Lemma delete_self_effect fuel s h b h' ts p r :
  wf h → h !! s = Some ts → _parent_tree ts = Some p →
  root_node h r → desc h r s →
  delete_self fuel s h = Ok (b, h') →
  ∃ tp l,
    h !! p = Some tp ∧ list_remove s (_subtrees tp) = Some l
    ∧ b = true
    ∧ h' !! s = Some (set_data_size 0 ts)
    ∧ (∃ tp', h' !! p = Some tp'
         ∧ no_size tp' = no_size (if bool_decide (l = [])
                                  then set_expanded false (set_subtrees l tp)
                                  else set_subtrees l tp)
         ∧ (l = [] → data_size tp' = 0))
    ∧ (∀ k, k ≠ p → no_size <$> h' !! k = no_size <$> h !! k)
    ∧ (∀ k tk, h !! k = Some tk → _subtrees tk = [] → k ≠ s →
               h' !! k = Some tk).
Proof.
  intros Hwf Hs Hpar Hr Hrs Hrun.
  destruct (attached_parent h r s ts p Hwf Hr Hrs Hs Hpar)
    as (Hps & Hrp & Hsp).
  unfold delete_self in Hrun.
  apply bind_Ok in Hrun as (t & h0 & Ht & Hrun). apply get_Ok in Ht as [Ht ->].
  rewrite Hs in Ht. injection Ht as <-. rewrite Hpar in Hrun.
  apply bind_Ok in Hrun as (p0 & h1 & Hdet & Hrun).
  apply detach_from_Ok in Hdet as (Hp0 & pt & l & pt' & Hp & Hrem & -> & Hpt').
  injection Hp0 as <-.
  assert (Hsub' : _subtrees pt' = l) by (subst pt'; by destruct (bool_decide _)).
  assert (Hpar' : _parent_tree pt' = _parent_tree pt)
    by (subst pt'; by destruct (bool_decide _)).
  destruct (wf_remove_child h p pt s l pt' Hwf Hp Hrem Hsub' Hpar')
    as (Hwf1 & Hfree1 & Hmono1).
  set (h1 := <[p := pt']> h) in *.
  assert (Hup1 : agree up h h1).
  { eapply agree_insert; [done|]. unfold up. by rewrite Hpar'. }
  assert (Hp1 : h1 !! p = Some pt').
  { apply list_lookup_insert_eq. by eapply lookup_lt_Some. }
  assert (Hoth1 : ∀ k, k ≠ p → h1 !! k = h !! k).
  { intros k Hk. subst h1. by rewrite list_lookup_insert_ne. }
  apply bind_Ok in Hrun as (u2 & h2 & Hrec & Hrun).
  destruct (_recalculate_data_sizes_Ok _ _ _ _ _ Hrec) as [Ha2 Hout2].
  pose proof (agree_size_shape _ _ Ha2) as Hs2.
  pose proof (wf_shape _ _ Hs2 Hwf1) as Hwf2.
  apply bind_Ok in Hrun as (v & h3 & Hupd & Hrun).
  destruct (update_data_sizes_resized _ _ _ _ _ Hwf2 Hupd)
    as (Ha3 & Hout3 & _ & _ & Hl3).
  pose proof (agree_size_shape _ _ Ha3) as Hs3.
  pose proof (wf_shape _ _ Hs3 Hwf2) as Hwf3.
  apply bind_Ok in Hrun as (u4 & h4' & Hm & Hrun).
  apply modify_Ok in Hm as (t3 & Ht3 & ->).
  set (h4 := <[s := set_data_size 0 t3]> h3) in *.
  assert (Ha4 : agree no_size h3 h4) by (by eapply agree_insert).
  pose proof (agree_size_shape _ _ Ha4) as Hs4.
  pose proof (wf_shape _ _ Hs4 Hwf3) as Hwf4.
  assert (Hs14 : agree shape h1 h4).
  { eapply agree_trans; [exact Hs2|]. by eapply agree_trans. }
  apply bind_Ok in Hrun as (u5 & h5 & Hroot & Hrun).
  apply ret_Ok in Hrun as [-> ->].
  (* nobody lists [s] any more *)
  assert (Hnot1 : ∀ a, a ≠ s → ¬ desc h1 a s).
  { intros a Ha Hd. apply rtc_inv_r in Hd as [->|(y & _ & Hys)]; [done|].
    by eapply Hfree1. }
  (* [s] is as it was when its size is set *)
  assert (Hchain_s : ¬ on_chain h1 p s).
  { intros Hc. apply (not_above_parent h r p s Hwf Hr Hrp Hps).
    eapply on_chain_up; [|exact Hc]. apply agree_sym. exact Hup1. }
  assert (Hs3' : h3 !! s = Some ts).
  { rewrite Hout3.
    - rewrite Hout2 by done. by rewrite Hoth1.
    - intros Hd%(desc_shape _ _ Hs2). by eapply (Hnot1 p). }
  rewrite Hs3' in Ht3. injection Ht3 as <-.
  destruct (_helper_root_Ok _ _ _ _ _ Hroot) as (r5 & v5 & Hclimb & Hupd5).
  destruct (update_data_sizes_resized _ _ _ _ _ Hwf4 Hupd5)
    as (Ha5 & Hout5 & _ & _ & Hl5).
  assert (Hr5 : r5 = r).
  { destruct (climb_Ok _ _ _ _ _ Hclimb) as (_ & Hroot5 & Hc5).
    assert (Hup4 : agree up h h4).
    { eapply agree_trans; [exact Hup1|]. apply agree_size_up.
      eapply agree_trans; [exact Ha2|]. by eapply agree_trans. }
    destruct (climb_total h r s Hwf Hr Hrs) as (f0 & Hf0).
    pose proof (climb_up _ _ _ _ _ Hup4 (Hf0 f0 (le_n _))) as Hbig.
    by eapply climb_same. }
  subst r5.
  assert (Hs4' : h4 !! s = Some (set_data_size 0 ts)).
  { apply list_lookup_insert_eq. by eapply lookup_lt_Some. }
  assert (Hrs' : r ≠ s).
  { intros ->. destruct Hr as (t & Ht & Hnone). congruence. }
  exists pt, l. repeat (split; [done|]). split; [|split; [|split]].
  - rewrite Hout5; [done|].
    intros Hd%(desc_shape _ _ Hs14). by eapply (Hnot1 r).
  - assert (Ha15 : agree no_size h1 h5).
    { eapply agree_trans; [exact Ha2|]. eapply agree_trans; [exact Ha3|].
      by eapply agree_trans. }
    destruct (agree_Some _ _ _ _ _ Ha15 Hp1) as (tp' & Htp' & He).
    exists tp'. split; [done|]. split; [by rewrite He, Hpt'|].
    intros ->. rewrite bool_decide_eq_true_2 in Hpt' by done.
    (* the first step of the recalculation gives size 0 *)
    destruct fuel as [|fuel]; simpl in Hrec; [discriminate|].
    apply bind_Ok in Hrec as (x & h0 & Hg & Hrec).
    apply get_Ok in Hg as [Hg ->]. rewrite Hp1 in Hg. injection Hg as <-.
    rewrite Hsub' in Hrec. simpl in Hrec.
    apply bind_Ok in Hrec as (tot & h0 & Hret & Hrec).
    apply ret_Ok in Hret as [-> ->].
    apply bind_Ok in Hrec as (u & h1' & Hm & Hrec).
    apply modify_Ok in Hm as (x & Hx & ->). rewrite Hp1 in Hx.
    injection Hx as <-.
    assert (Hp1' : <[p := set_data_size 0 pt']> h1 !! p
                   = Some (set_data_size 0 pt')).
    { apply list_lookup_insert_eq. by eapply lookup_lt_Some. }
    assert (Hp2 : h2 !! p = Some (set_data_size 0 pt')).
    { destruct (_parent_tree pt') as [q|] eqn:Hq.
      - destruct (_recalculate_data_sizes_Ok _ _ _ _ _ Hrec) as [_ Hout].
        rewrite Hout; [done|]. intros Hc.
        assert (child h q p ∧ desc h r q) as [Hqp Hrq].
        { destruct (attached_parent h r p pt q Hwf Hr Hrp Hp) as (? & ? & _);
            [congruence|done]. }
        apply (not_above_parent h r q p Hwf Hr Hrq Hqp).
        eapply on_chain_up; [|exact Hc]. apply agree_sym.
        eapply agree_trans; [exact Hup1|]. apply agree_size_up.
        by eapply agree_insert.
      - by apply ret_Ok in Hrec as [_ ->]. }
    assert (Hleafp : _subtrees (set_data_size 0 pt') = []) by done.
    pose proof (Hl3 _ _ Hp2 Hleafp) as Hp3.
    assert (Hp4 : h4 !! p = Some (set_data_size 0 pt')).
    { subst h4. by rewrite list_lookup_insert_ne. }
    pose proof (Hl5 _ _ Hp4 Hleafp) as Hp5. rewrite Htp' in Hp5.
    by injection Hp5 as ->.
  - intros k Hk.
    assert (Ha15 : agree no_size h1 h5).
    { eapply agree_trans; [exact Ha2|]. eapply agree_trans; [exact Ha3|].
      by eapply agree_trans. }
    rewrite (agree_lookup _ _ _ k Ha15). by rewrite Hoth1.
  - intros k tk Hk Hkleaf Hks.
    assert (Hkp : k ≠ p).
    { intros ->. rewrite Hp in Hk. injection Hk as <-.
      apply list_remove_elem in Hrem. rewrite Hkleaf in Hrem.
      by apply elem_of_nil in Hrem. }
    apply Hl5; [|done]. subst h4. rewrite list_lookup_insert_ne by done.
    apply Hl3; [|done]. rewrite Hout2; [by rewrite Hoth1|].
    intros Hc.
    assert (Hc' : on_chain h p k).
    { eapply on_chain_up; [|exact Hc]. by apply agree_sym. }
    destruct (chain_desc h r p k Hwf Hr Hrp Hc') as [Hkp' _].
    apply (desc_leaf h k p tk Hk Hkleaf) in Hkp'. done.
Qed.

(** [delete_self] on a node that sits in a tree and has a parent returns
    [True], for every large enough budget.  Afterwards the node is as it
    was, parent reference and children included, but for its size, which
    is 0; its parent has lost it, and is collapsed with size 0 when it has
    no child left; no other attribute but sizes has changed anywhere,
    every other leaf keeps its size, and the weight sums hold again. *)
Theorem delete_self_spec h s ts p r :
  Inv h → h !! s = Some ts → _parent_tree ts = Some p →
  root_node h r → desc h r s →
  ∃ tp l,
    h !! p = Some tp ∧ list_remove s (_subtrees tp) = Some l
    ∧ ∃ fuel0, ∀ fuel, (fuel0 ≤ fuel)%nat →
        ∃ h', delete_self fuel s h = Ok (true, h')
          ∧ Inv h'
          ∧ h' !! s = Some (set_data_size 0 ts)
          ∧ (∃ tp', h' !! p = Some tp'
               ∧ no_size tp'
                 = no_size (if bool_decide (l = [])
                            then set_expanded false (set_subtrees l tp)
                            else set_subtrees l tp)
               ∧ (l = [] → data_size tp' = 0))
          ∧ (∀ k, k ≠ p → no_size <$> h' !! k = no_size <$> h !! k)
          ∧ (∀ k tk, h !! k = Some tk → _subtrees tk = [] → k ≠ s →
                     h' !! k = Some tk).
Proof.
  intros HI Hs Hpar Hr Hrs. pose proof HI as [Hwf _].
  destruct (attached_parent h r s ts p Hwf Hr Hrs Hs Hpar)
    as ((tp & Hp & Hin) & Hrp & Hsp).
  destruct (list_remove s (_subtrees tp)) as [l|] eqn:Hrem.
  2:{ by apply list_remove_None in Hrem. }
  exists tp, l. split; [done|]. split; [done|].
  destruct (delete_self_total h s ts p r Hwf Hs Hpar Hr Hrs) as (fuel0 & Htot).
  exists fuel0. intros fuel Hle. destruct (Htot fuel Hle) as (h' & Hrun).
  exists h'. split; [done|]. split; [by eapply delete_self_Inv|].
  destruct (delete_self_effect fuel s h true h' ts p r Hwf Hs Hpar Hr Hrs Hrun)
    as (tp0 & l0 & Hp0 & Hrem0 & _ & Hrest).
  rewrite Hp in Hp0. injection Hp0 as <-. rewrite Hrem in Hrem0.
  by injection Hrem0 as <-.
Qed.

(** ** [expand_all] and [collapse_all] *)

Lemma opened_insert (h : heap) k t x :
  opened h x → opened (<[k := set_expanded true t]> h) x.
Proof.
  intros Hx t' Ht' Hne. destruct (decide (x = k)) as [->|Hnk].
  - apply list_lookup_insert_Some in Ht' as [(_ & <- & _)|[? ?]]; [done|done].
  - rewrite list_lookup_insert_ne in Ht' by done. eauto.
Qed.

Lemma opened_insert_eq (h : heap) k t :
  opened (<[k := set_expanded true t]> h) k.
Proof.
  intros t' Ht' _.
  apply list_lookup_insert_Some in Ht' as [(_ & <- & _)|[? ?]]; done.
Qed.

(** A loop over children, each call working below its child only. *)
Lemma for_each_below erase (P : heap → id → Prop) (Q : heap → heap → Prop)
    (body : id → M unit) h l :
  (∀ h1, Q h1 h1) → (∀ h1 h2 h3, Q h1 h2 → Q h2 h3 → Q h1 h3) →
  (∀ y h1, y ∈ l → agree erase h h1 →
     ∃ h2, body y h1 = Ok (tt, h2) ∧ agree erase h1 h2
           ∧ (∀ x, desc h y x → P h2 x)
           ∧ (∀ x, P h1 x → P h2 x)
           ∧ (∀ x, ¬ desc h y x → h2 !! x = h1 !! x)
           ∧ Q h1 h2) →
  ∀ h1, agree erase h h1 →
    ∃ h2, for_each l body h1 = Ok (tt, h2) ∧ agree erase h1 h2
          ∧ (∀ y x, y ∈ l → desc h y x → P h2 x)
          ∧ (∀ x, P h1 x → P h2 x)
          ∧ (∀ x, (∀ y, y ∈ l → ¬ desc h y x) → h2 !! x = h1 !! x)
          ∧ Q h1 h2.
Proof.
  intros Qrefl Qtrans. induction l as [|c l IH]; intros Hb h1 Ha; simpl.
  - exists h1. split; [done|]. split; [apply agree_refl|].
    split; [intros y x Hy; by apply elem_of_nil in Hy|].
    split; [done|]. split; [done|]. apply Qrefl.
  - destruct (Hb c h1 (list_elem_of_here _ _) Ha)
      as (h2 & Hc & Ha2 & Hd2 & Hm2 & Ho2 & Hl2).
    destruct (IH (λ y h' Hy, Hb y h' (list_elem_of_further _ _ _ Hy)) h2
                 (agree_trans _ _ _ _ Ha Ha2))
      as (h3 & Hl & Ha3 & Hd3 & Hm3 & Ho3 & Hl3).
    exists h3. split; [apply bind_Ok; eauto|].
    split; [by eapply agree_trans|]. split; [|split; [by eauto|split]].
    + intros y x [->|Hy]%elem_of_cons Hx; eauto.
    + intros x Hx. rewrite Ho3 by (intros y Hy; apply Hx; by right).
      apply Ho2, Hx. left.
    + eauto.
Qed.

Lemma leaves_kept_refl h : leaves_kept h h.
Proof. by intros n t. Qed.

Lemma leaves_kept_trans h1 h2 h3 :
  leaves_kept h1 h2 → leaves_kept h2 h3 → leaves_kept h1 h3.
Proof. intros H1 H2 n t Hn Hl. eauto. Qed.

Lemma expand_all_below h (rk : id → nat) :
  forest h → (∀ p c, child h p c → (rk c < rk p)%nat) →
  ∀ fuel n h1, agree no_expanded h h1 → is_Some (h !! n) →
    (rk n < fuel)%nat →
    ∃ h2, expand_all fuel n h1 = Ok (tt, h2)
          ∧ agree no_expanded h1 h2
          ∧ (∀ x, desc h n x → opened h2 x)
          ∧ (∀ x, opened h1 x → opened h2 x)
          ∧ (∀ x, ¬ desc h n x → h2 !! x = h1 !! x)
          ∧ leaves_kept h1 h2.
Proof.
  intros Hf Hrk. induction fuel as [|fuel IH]; intros n h1 Ha [t Ht] Hlt;
    [lia|].
  destruct (agree_Some _ _ _ _ _ Ha Ht) as (t1 & Ht1 & He).
  assert (Hsub : _subtrees t1 = _subtrees t) by (by injection He).
  destruct (_subtrees t) as [|c0 l0] eqn:Hkids.
  { exists h1. split.
    - simpl. apply bind_Ok. exists t1, h1. split; [by apply get_Ok|].
      by rewrite Hsub.
    - split; [apply agree_refl|]. split; [|split; [done|split; [done|]]].
      + intros x Hx. apply (desc_leaf h n x t Ht Hkids) in Hx as ->.
        intros t' Ht' Hne. rewrite Ht1 in Ht'. injection Ht' as <-.
        by rewrite Hsub in Hne.
      + by intros k tk. }
  rewrite <- Hkids in *.
  set (h1' := <[n := set_expanded true t1]> h1).
  assert (Ha1 : agree no_expanded h1 h1') by (by eapply agree_insert).
  destruct (for_each_below no_expanded opened leaves_kept (expand_all fuel)
              h (_subtrees t) leaves_kept_refl leaves_kept_trans)
    with (h1 := h1') as (h2 & Hl & Ha2 & Hd2 & Hm2 & Ho2 & Hl2).
  { intros y h' Hy Ha'. assert (Hch : child h n y) by (by exists t).
    apply IH; [done|by eapply f_closed|]. apply Hrk in Hch. lia. }
  { by eapply agree_trans. }
  exists h2. split; [|split; [by eapply agree_trans|split; [|split; [|split]]]].
  - simpl. apply bind_Ok. exists t1, h1. split; [by apply get_Ok|].
    rewrite Hsub. rewrite Hkids. rewrite <- Hkids.
    apply bind_Ok. exists tt, h1'. split; [apply modify_Ok; eauto|done].
  - intros x Hx. apply rtc_inv in Hx as [<-|(y & (t' & Ht' & Hy) & Hx)].
    + apply Hm2, opened_insert_eq.
    + rewrite Ht in Ht'. injection Ht' as <-. by eapply Hd2.
  - intros x Hx. by apply Hm2, opened_insert.
  - intros x Hx. rewrite Ho2.
    + apply list_lookup_insert_ne. intros <-. apply Hx, rtc_refl.
    + intros y Hy Hd. apply Hx. eapply rtc_l; [|exact Hd]. by exists t.
  - intros k tk Hk Hleaf. apply Hl2; [|done].
    subst h1'. rewrite list_lookup_insert_ne; [done|].
    intros <-. rewrite Ht1 in Hk. injection Hk as <-.
    rewrite Hsub, Hkids in Hleaf. discriminate.
Qed.

(** [expand_all] on a node of a forest returns, for every large enough
    budget.  Only expansion flags change, only at nodes below the node
    that have children, and each of these is expanded afterwards. *)
Theorem expand_all_spec h n :
  forest h → is_Some (h !! n) →
  ∃ fuel0, ∀ fuel, (fuel0 ≤ fuel)%nat →
    ∃ h', expand_all fuel n h = Ok (tt, h')
          ∧ agree no_expanded h h'
          ∧ (∀ x, desc h n x → opened h' x)
          ∧ (∀ x, ¬ desc h n x → h' !! x = h !! x)
          ∧ leaves_kept h h'.
Proof.
  intros Hf Hn. destruct (f_acyclic _ Hf) as [rk Hrk].
  exists (S (rk n)). intros fuel Hle.
  destruct (expand_all_below h rk Hf Hrk fuel n h)
    as (h' & Hrun & Ha & Hopen & _ & Hout & Hleaves);
    [apply agree_refl|done|lia|].
  by exists h'.
Qed.

Lemma _collapse_parent_below h (rk : id → nat) :
  forest h → (∀ p c, child h p c → (rk c < rk p)%nat) →
  ∀ fuel n h1, agree no_expanded h h1 → is_Some (h !! n) →
    (rk n < fuel)%nat →
    ∃ h2, _collapse_parent fuel n h1 = Ok (tt, h2)
          ∧ agree no_expanded h1 h2
          ∧ (∀ x, desc h n x → collapsed h2 x)
          ∧ (∀ x, collapsed h1 x → collapsed h2 x)
          ∧ (∀ x, ¬ desc h n x → h2 !! x = h1 !! x).
Proof.
  intros Hf Hrk. induction fuel as [|fuel IH]; intros n h1 Ha [t Ht] Hlt;
    [lia|].
  destruct (agree_Some _ _ _ _ _ Ha Ht) as (t1 & Ht1 & He).
  assert (Hsub : _subtrees t1 = _subtrees t) by (by injection He).
  set (h1' := <[n := set_expanded false t1]> h1).
  assert (Ha1 : agree no_expanded h1 h1') by (by eapply agree_insert).
  assert (Hn1 : h1' !! n = Some (set_expanded false t1)).
  { apply list_lookup_insert_eq. by eapply lookup_lt_Some. }
  destruct (for_each_below no_expanded collapsed (λ _ _, True)
              (_collapse_parent fuel) h (_subtrees t))
    with (h1 := h1') as (h2 & Hl & Ha2 & Hd2 & Hm2 & Ho2 & _); [done|done| | |].
  { intros y h' Hy Ha'. assert (Hch : child h n y) by (by exists t).
    destruct (IH y h') as (h2 & Hrun & Hrest);
      [done|by eapply f_closed|apply Hrk in Hch; lia|].
    exists h2. by repeat (split; [tauto|]). }
  { by eapply agree_trans. }
  exists h2. split; [|split; [by eapply agree_trans|split; [|split]]].
  - simpl. apply bind_Ok. exists tt, h1'. split; [apply modify_Ok; eauto|].
    apply bind_Ok. exists (set_expanded false t1), h1'.
    split; [by apply get_Ok|]. simpl. rewrite Hsub.
    destruct (_subtrees t) as [|y l] eqn:Hl'; [|done].
    simpl in Hl. by rewrite Hl.
  - intros x Hx. apply rtc_inv in Hx as [<-|(y & (t' & Ht' & Hy) & Hx)].
    + apply Hm2, collapsed_insert_eq.
    + rewrite Ht in Ht'. injection Ht' as <-. by eapply Hd2.
  - intros x Hx. by apply Hm2, collapsed_insert.
  - intros x Hx. rewrite Ho2.
    + apply list_lookup_insert_ne. intros <-. apply Hx, rtc_refl.
    + intros y Hy Hd. apply Hx. eapply rtc_l; [|exact Hd]. by exists t.
Qed.

(** [collapse_all] on a node whose parent links lead to the parentless
    node [r] returns, for every large enough budget.  Only expansion flags
    change, only in the tree of [r], and every node of that tree is
    collapsed afterwards. *)
Theorem collapse_all_spec h n r :
  forest h → on_chain h n r → root_node h r →
  ∃ fuel0, ∀ fuel, (fuel0 ≤ fuel)%nat →
    ∃ h', collapse_all fuel n h = Ok (tt, h')
          ∧ agree no_expanded h h'
          ∧ (∀ x, desc h r x → collapsed h' x)
          ∧ (∀ x, ¬ desc h r x → h' !! x = h !! x).
Proof.
  intros Hf Hc Hr. destruct (f_acyclic _ Hf) as [rk Hrk].
  destruct (climb_chain_total h n r Hc Hr) as (f1 & Hclimb).
  exists (Nat.max f1 (S (rk r))). intros fuel Hle.
  destruct (_collapse_parent_below h rk Hf Hrk fuel r h)
    as (h' & Hrun & Ha & Hcol & _ & Hout); [apply agree_refl| |lia|].
  { destruct Hr as (t & Ht & _). eauto. }
  exists h'. split; [|done]. unfold collapse_all. apply bind_Ok.
  exists r, h. split; [|done]. rewrite _get_root_climb. apply Hclimb. lia.
Qed.

(** ** [get_rectangles] *)

Lemma open_child_child h p c : open_child h p c → child h p c.
Proof. intros (t & Ht & _ & Hc). by exists t. Qed.

Lemma open_desc h a m : rtc (open_child h) a m → desc h a m.
Proof. apply rtc_subrel. intros x y. apply open_child_child. Qed.

Lemma shown_here h a t :
  h !! a = Some t → _subtrees t = [] ∨ _expanded t = false →
  ∀ m, shown h a m ↔ m = a.
Proof.
  intros Ha Hstop m. split.
  - intros [Hr _]. apply rtc_inv in Hr as [->|(c & (t' & Ht' & He & Hc) & _)];
      [done|].
    rewrite Ha in Ht'. injection Ht' as <-. destruct Hstop as [Hl|Hl].
    + rewrite Hl in Hc. by apply elem_of_nil in Hc.
    + congruence.
  - intros ->. split; [apply rtc_refl|]. by exists t.
Qed.

Lemma shown_below h a t :
  h !! a = Some t → _subtrees t ≠ [] → _expanded t = true →
  ∀ m, shown h a m ↔ ∃ c, c ∈ _subtrees t ∧ shown h c m.
Proof.
  intros Ha Hkids He m. split.
  - intros [Hr (tm & Hm & Hstop)].
    apply rtc_inv in Hr as [->|(c & (t' & Ht' & _ & Hc) & Hr)].
    + rewrite Ha in Hm. injection Hm as <-. destruct Hstop; congruence.
    + rewrite Ha in Ht'. injection Ht' as <-. exists c. split; [done|].
      split; [done|]. by exists tm.
  - intros (c & Hc & Hr & Hstop). split; [|done].
    eapply rtc_l; [|exact Hr]. by exists t.
Qed.

Lemma extend_each_spec {A} (R : id → A → Prop) (S : id → id → Prop)
    (f : id → M (list A)) (h : heap) l :
  (∀ c, c ∈ l → ∃ ms rects, f c h = Ok (rects, h) ∧ Forall2 R ms rects
                            ∧ NoDup ms ∧ ∀ m, m ∈ ms ↔ S c m) →
  NoDup l →
  (∀ c1 c2 m, c1 ∈ l → c2 ∈ l → c1 ≠ c2 → S c1 m → S c2 m → False) →
  ∀ acc_ms acc, Forall2 R acc_ms acc → NoDup acc_ms →
    (∀ m c, m ∈ acc_ms → c ∈ l → ¬ S c m) →
    ∃ ms rects, extend_each l f acc h = Ok (rects, h) ∧ Forall2 R ms rects
                ∧ NoDup ms
                ∧ ∀ m, m ∈ ms ↔ m ∈ acc_ms ∨ ∃ c, c ∈ l ∧ S c m.
Proof.
  induction l as [|c l IH]; intros Hf Hnd Hdis acc_ms acc HF Hacc Hfresh.
  - exists acc_ms, acc. split; [done|]. split; [done|]. split; [done|].
    intros m. split; [by left|]. intros [?|(c & Hc & _)]; [done|].
    by apply elem_of_nil in Hc.
  - apply NoDup_cons in Hnd as [Hc Hnd].
    destruct (Hf c (list_elem_of_here _ _)) as (ms1 & r1 & Hrun & HF1 & Hnd1 & Hin1).
    destruct (IH (λ c' Hc', Hf c' (list_elem_of_further _ _ _ Hc')) Hnd)
      with (acc_ms := acc_ms ++ ms1) (acc := acc ++ r1)
      as (ms & rects & Hl & HFl & Hndl & Hinl).
    + intros c1 c2 m H1 H2. apply Hdis; by right.
    + by apply Forall2_app.
    + apply NoDup_app. split; [done|]. split; [|done].
      intros m Hm Hm1. apply Hin1 in Hm1. eapply Hfresh; [done|left|done].
    + intros m c' [Hm|Hm]%elem_of_app Hc'.
      * apply Hfresh; [done|by right].
      * apply Hin1 in Hm. intros Hs. eapply (Hdis c c' m); [left|by right| |done|done].
        intros ->. done.
    + exists ms, rects. split; [simpl; apply bind_Ok; eauto|].
      split; [done|]. split; [done|]. intros m. rewrite Hinl.
      rewrite elem_of_app, Hin1. split.
      * intros [[?|?]|(c' & Hc' & ?)]; [by left|right|right].
        -- exists c. split; [left|done].
        -- exists c'. split; [by right|done].
      * intros [?|(c' & [->|Hc']%elem_of_cons & ?)]; [by left; left|by left; right|].
        right. by exists c'.
Qed.

Lemma is_empty_bind {B} n (k : bool → M B) (h : heap) t :
  h !! n = Some t →
  (let* e := is_empty n in k e) h = k (bool_decide (_name t = None)) h.
Proof. intros Hn. unfold is_empty, bind, get, ret. by rewrite Hn. Qed.

Lemma get_rectangles_eq fuel a (h : heap) t :
  h !! a = Some t → _name t ≠ None →
  get_rectangles (S fuel) a h
  = (if (data_size t =? 0) && bool_decide (_subtrees t = []) then ret []
     else if negb (_expanded t) || bool_decide (_subtrees t = [])
          then ret [(rect t, _colour t)]
          else extend_each (_subtrees t) (get_rectangles fuel) []) h.
Proof.
  intros Ha Hname. simpl. rewrite (is_empty_bind _ _ _ _ Ha).
  rewrite (bool_decide_eq_false_2 _ Hname). rewrite (get_bind _ _ _ _ Ha).
  destruct (_expanded t).
  - rewrite (is_empty_bind _ _ _ _ Ha).
    rewrite (bool_decide_eq_false_2 _ Hname). simpl.
    by destruct ((data_size t =? 0) && bool_decide (_subtrees t = [])).
  - simpl. by destruct ((data_size t =? 0) && bool_decide (_subtrees t = [])).
Qed.

Lemma get_rectangles_shown h (rk : id → nat) :
  forest h → (∀ p c, child h p c → (rk c < rk p)%nat) →
  ∀ fuel a, is_Some (h !! a) → (rk a < fuel)%nat → named_below h a →
    ∃ ms rects,
      get_rectangles fuel a h = Ok (rects, h)
      ∧ Forall2 (drawn_as h) ms rects
      ∧ NoDup ms
      ∧ ∀ m, m ∈ ms ↔ shown h a m ∧ ∃ t, h !! m = Some t ∧ ¬ blank t.
Proof.
  intros Hf Hrk. induction fuel as [|fuel IH]; intros a [t Ht] Hlt Hnamed;
    [lia|].
  assert (Hname : bool_decide (_name t = None) = false).
  { apply bool_decide_eq_false. by apply (Hnamed a t (rtc_refl _ _)). }
  assert (Hone : (∀ m, shown h a m ↔ m = a) → ¬ blank t →
    ∃ ms, Forall2 (drawn_as h) ms [(rect t, _colour t)] ∧ NoDup ms
          ∧ ∀ m, m ∈ ms ↔ shown h a m ∧ ∃ t, h !! m = Some t ∧ ¬ blank t).
  { intros Hs Hb. exists [a]. split.
    - constructor; [by exists t|constructor].
    - split; [apply NoDup_singleton|]. intros m. rewrite Hs.
      rewrite list_elem_of_singleton. split; [|tauto].
      intros ->. split; [done|]. by exists t. }
  assert (Hnil : (∀ m, shown h a m ↔ m = a) → blank t →
    ∃ ms : list id, Forall2 (drawn_as h) ms [] ∧ NoDup ms
          ∧ ∀ m, m ∈ ms ↔ shown h a m ∧ ∃ t, h !! m = Some t ∧ ¬ blank t).
  { intros Hs Hb. exists []. split; [constructor|].
    split; [apply NoDup_nil_2|]. intros m. rewrite Hs. split.
    - intros Hm. by apply elem_of_nil in Hm.
    - intros [-> (t' & Ht' & Hnb)]. rewrite Ht in Ht'. by injection Ht' as <-. }
  assert (Hblank : (data_size t =? 0) && bool_decide (_subtrees t = []) = true
                   ↔ blank t).
  { unfold blank. rewrite andb_true_iff, Z.eqb_eq, bool_decide_eq_true. done. }
  rewrite (get_rectangles_eq _ _ _ _ Ht) by (by apply (Hnamed a t (rtc_refl _ _))).
  destruct ((data_size t =? 0) && bool_decide (_subtrees t = [])) eqn:Hb.
  { pose proof (proj1 Hblank eq_refl) as Hbl.
    destruct (Hnil) as (ms & ? & ? & ?); [|done|].
    - apply (shown_here h a t Ht). left. apply Hbl.
    - exists ms, []. done. }
  assert (Hnb : ¬ blank t).
  { intros Hbl. apply Hblank in Hbl. discriminate. }
  destruct (_expanded t) eqn:Hexp; simpl.
  2:{ destruct (Hone) as (ms & ? & ? & ?); [|done|].
      - apply (shown_here h a t Ht). by right.
      - exists ms, [(rect t, _colour t)]. done. }
  destruct (bool_decide (_subtrees t = [])) eqn:Hleaf.
  { apply bool_decide_eq_true in Hleaf.
    destruct (Hone) as (ms & ? & ? & ?); [|done|].
    - apply (shown_here h a t Ht). by left.
    - exists ms, [(rect t, _colour t)]. done. }
  apply bool_decide_eq_false in Hleaf.
  destruct (extend_each_spec (drawn_as h)
              (λ c m, shown h c m ∧ ∃ t, h !! m = Some t ∧ ¬ blank t)
              (get_rectangles fuel) h (_subtrees t))
    with (acc_ms := @nil id) (acc := @nil (rect_t * colour_t))
    as (ms & rects & Hrun & HF & Hnd & Hin).
  - intros c Hc. assert (Hch : child h a c) by (by exists t).
    apply IH; [by eapply f_closed|apply Hrk in Hch; lia|].
    intros x tx Hx. apply Hnamed. by eapply rtc_l.
  - by eapply f_nodup.
  - intros c1 c2 m Hc1 Hc2 Hne [[Hr1 _] _] [[Hr2 _] _].
    eapply (forest_siblings_disjoint h Hf a c1 c2 m); try done;
      try (by exists t); by apply open_desc.
  - constructor.
  - apply NoDup_nil_2.
  - intros m c Hm. by apply elem_of_nil in Hm.
  - exists ms, rects. split; [done|]. split; [done|]. split; [done|].
    intros m. rewrite Hin. rewrite (shown_below h a t Ht Hleaf Hexp). split.
    + intros [Hm|(c & Hc & Hs & Hd)]; [by apply elem_of_nil in Hm|].
      split; [by exists c|done].
    + intros [(c & Hc & Hs) Hd]. right. by exists c.
Qed.

(** [get_rectangles] on a node of a forest below which every node has a
    name returns, for every large enough budget, without changing
    anything.  The list holds the rectangle and the colour of every leaf
    of the displayed-tree rooted at the node (reached through expanded
    nodes, and itself a leaf or not expanded), each once, except the
    childless nodes of size 0. *)
Theorem get_rectangles_spec h a :
  forest h → is_Some (h !! a) → named_below h a →
  ∃ fuel0, ∀ fuel, (fuel0 ≤ fuel)%nat →
    ∃ ms rects,
      get_rectangles fuel a h = Ok (rects, h)
      ∧ Forall2 (drawn_as h) ms rects
      ∧ NoDup ms
      ∧ ∀ m, m ∈ ms ↔ shown h a m ∧ ∃ t, h !! m = Some t ∧ ¬ blank t.
Proof.
  intros Hf Ha Hnamed. destruct (f_acyclic _ Hf) as [rk Hrk].
  exists (S (rk a)). intros fuel Hle.
  apply (get_rectangles_shown h rk Hf Hrk); [done|lia|done].
Qed.

(** ** The spatial query and the rectangles drawn *)





(** After [collapse_all] from any node of a tree, the tree is drawn as
    one rectangle, that of its root, and every position inside it is
    answered with the root (the root has a name and is not a childless
    node of size 0). *)
Theorem collapse_all_one_rectangle h n r tr :
  forest h → on_chain h n r → root_node h r →
  h !! r = Some tr → _name tr ≠ None → ¬ blank tr →
  ∃ fuel0, ∀ fuel, (fuel0 ≤ fuel)%nat →
    ∃ h', collapse_all fuel n h = Ok (tt, h')
          ∧ get_rectangles fuel r h' = Ok ([(rect tr, _colour tr)], h')
          ∧ ∀ pos, inside (rect tr) pos →
                   get_tree_at_position fuel r pos h' = Ok (Some r, h').
Proof.
  intros Hf Hc Hr Htr Hname Hnb.
  destruct (f_acyclic _ Hf) as [rk Hrk].
  destruct (climb_chain_total h n r Hc Hr) as (f1 & Hclimb).
  exists (Nat.max f1 (S (rk r))). intros [|fuel] Hle; [lia|].
  destruct (_collapse_parent_below h rk Hf Hrk (S fuel) r h)
    as (h' & Hrun & Ha & Hcol & _); [apply agree_refl|by exists tr|lia|].
  exists h'. split.
  { unfold collapse_all. apply bind_Ok. exists r, h. split; [|done].
    rewrite _get_root_climb. apply Hclimb. lia. }
  destruct (agree_Some _ _ _ _ _ Ha Htr) as (tr' & Htr' & He).
  pose proof (Hcol r (rtc_refl _ _) tr' Htr') as Hexp.
  assert (Hsame : tr' = set_expanded false tr).
  { destruct tr', tr. simpl in *. injection He as -> -> -> -> -> ->.
    by rewrite Hexp. }
  subst tr'. split.
  - rewrite (get_rectangles_eq _ _ _ _ Htr') by done. simpl.
    destruct ((data_size tr =? 0) && bool_decide (_subtrees tr = [])) eqn:Hb;
      [|done].
    apply andb_true_iff in Hb as [Hz%Z.eqb_eq Hl%bool_decide_eq_true].
    by destruct Hnb.
  - intros pos Hin. simpl. unfold bind at 1.
    destruct (_is_pos_inside_rect_total r pos h' _ Htr') as (b & Hb).
    rewrite Hb.
    destruct (_is_pos_inside_rect_Ok _ _ _ _ _ _ Htr' Hb) as [_ Hiff].
    rewrite (proj2 Hiff Hin). unfold bind.
    rewrite (_is_leaf_or_not_expanded_eq _ _ _ Htr'). simpl.
    by rewrite orb_true_r.
Qed.

Lemma Forall2_weaken_l {A B} (P Q : A → B → Prop) l k :
  Forall2 P l k → Forall (λ x, ∀ y, P x y → Q x y) l → Forall2 Q l k.
Proof.
  induction 1 as [|x y l k Hxy _ IH]; intros HF; [constructor|].
  apply Forall_cons in HF as [Hx HF]. constructor; eauto.
Qed.

(** After [expand_all] on a node of a forest below which every node has a
    name, [get_rectangles] on that node lists exactly the rectangles of
    the leaves below it whose size is not 0, each once. *)
Theorem expand_all_shows_leaves h r :
  forest h → is_Some (h !! r) → named_below h r →
  ∃ fuel0, ∀ fuel, (fuel0 ≤ fuel)%nat →
    ∃ h' ms rects,
      expand_all fuel r h = Ok (tt, h')
      ∧ get_rectangles fuel r h' = Ok (rects, h')
      ∧ Forall2 (drawn_as h) ms rects
      ∧ NoDup ms
      ∧ ∀ m, m ∈ ms ↔ desc h r m
                      ∧ ∃ t, h !! m = Some t ∧ _subtrees t = []
                             ∧ data_size t ≠ 0.
Proof.
  intros Hf Hr Hnamed.
  destruct (f_acyclic _ Hf) as [rk Hrk].
  exists (S (rk r)). intros fuel Hle.
  destruct (expand_all_below h rk Hf Hrk fuel r h)
    as (h' & Hrun & Ha & Hopen & _ & Hout & Hleaves);
    [apply agree_refl|done|lia|].
  pose proof (agree_expanded_shape _ _ Ha) as Hs.
  pose proof (forest_shape _ _ Hs Hf) as Hf'.
  assert (Hrk' : ∀ p c, child h' p c → (rk c < rk p)%nat).
  { intros p c Hc. apply Hrk. by apply (child_shape _ _ Hs). }
  assert (Hnamed' : named_below h' r).
  { intros x t' Hx Ht'. apply (desc_shape _ _ Hs) in Hx.
    destruct (agree_Some_rev _ _ _ _ _ Ha Ht') as (t & Ht & He).
    assert (Hn : _name t' = _name t) by (by injection He).
    rewrite Hn. by eapply Hnamed. }
  destruct (get_rectangles_shown h' rk Hf' Hrk' fuel r)
    as (ms & rects & Hget & HF & Hnd & Hms); [|lia|done|].
  { destruct Hr as [t Ht]. destruct (agree_Some _ _ _ _ _ Ha Ht) as (? & ? & _).
    eauto. }
  (* what is shown after the expansion: the leaves *)
  assert (Hshown : ∀ m, shown h' r m
                        ↔ desc h r m ∧ ∃ t, h !! m = Some t ∧ _subtrees t = []).
  { intros m. split.
    - intros [Hpath (t' & Ht' & Hstop)].
      assert (Hd : desc h r m) by (by apply (desc_shape _ _ Hs), open_desc).
      split; [done|].
      destruct (agree_Some_rev _ _ _ _ _ Ha Ht') as (t & Ht & He).
      assert (Hsub : _subtrees t' = _subtrees t) by (by injection He).
      exists t. split; [done|].
      destruct (_subtrees t) as [|c l] eqn:Hkids; [done|].
      destruct Hstop as [Hl|Hl]; [congruence|].
      rewrite (Hopen m Hd t' Ht') in Hl; [done|]. by rewrite Hsub.
    - intros [Hd (t & Ht & Hleaf)]. split.
      + clear t Ht Hleaf. unfold desc in Hd. revert m Hd.
        apply (rtc_ind_r (λ m, rtc (open_child h') r m)); [apply rtc_refl|].
        intros y m Hy Hym IH. eapply rtc_r; [exact IH|].
        apply (child_shape _ _ Hs) in Hym. destruct Hym as (ty & Hty & Hin).
        exists ty. split; [done|]. split; [|done].
        apply (Hopen y Hy ty Hty). intros Hnil. rewrite Hnil in Hin.
        by apply elem_of_nil in Hin.
      + exists t. split; [by apply Hleaves|by left]. }
  exists h', ms, rects. split; [done|]. split; [done|]. split; [|split; [done|]].
  - eapply Forall2_weaken_l; [exact HF|]. apply Forall_forall.
    intros m Hm rc (t' & Ht' & ->). apply Hms in Hm as [Hm _].
    apply Hshown in Hm as [_ (t & Ht & Hleaf)].
    rewrite (Hleaves _ _ Ht Hleaf) in Ht'. injection Ht' as <-. by exists t.
  - intros m. rewrite Hms, Hshown. split.
    + intros [[Hd (t & Ht & Hleaf)] (t' & Ht' & Hnb)]. split; [done|].
      exists t. split; [done|]. split; [done|].
      rewrite (Hleaves _ _ Ht Hleaf) in Ht'. injection Ht' as <-.
      intros Hz. by apply Hnb.
    + intros [Hd (t & Ht & Hleaf & Hnz)]. split; [split; [done|by exists t]|].
      exists t. split; [by apply Hleaves|]. by intros [Hz _].
Qed.

(** ** Path strings *)

Section Worlds.
Context {A B : Type}.

Lemma xbind_Done (m : X A) (k : A → X B) w a w1 :
  m w = Done (a, w1) → xbind m k w = k a w1.
Proof. unfold xbind. by intros ->. Qed.

Lemma xbind_Fails (m : X A) (k : A → X B) w e :
  m w = Fails e → xbind m k w = Fails e.
Proof. unfold xbind. by intros ->. Qed.

Lemma xbind_inv (m : X A) (k : A → X B) w v w' :
  xbind m k w = Done (v, w') ↔ ∃ a w1, m w = Done (a, w1) ∧ k a w1 = Done (v, w').
Proof.
  unfold xbind. split.
  - destruct (m w) as [[a w1]| | |]; try discriminate. eauto.
  - intros (a & w1 & -> & Hk). exact Hk.
Qed.
End Worlds.

Lemma call_get h pf n t :
  h !! n = Some t → call (get n) (mkWorld h pf) = Done (t, mkWorld h pf).
Proof. intros Hn. unfold call, get. simpl. by rewrite Hn. Qed.




(** In the base class, where [get_separator] is not implemented, the path
    string of a node without a parent is its name, and asking for the
    path string of a node with a parent raises [NotImplementedError]
    (the parent links lead to a parentless node). *)
Theorem get_path_string_base_class h pf n t :
  h !! n = Some t →
  (_parent_tree t = None →
   ∀ fuel, get_path_string TMTree_get_separator (S fuel) n (mkWorld h pf)
           = Done (_name t, mkWorld h pf))
  ∧ (∀ r, _parent_tree t ≠ None → on_chain h n r → root_node h r →
     ∃ fuel0, ∀ fuel, (fuel0 ≤ fuel)%nat →
       get_path_string TMTree_get_separator fuel n (mkWorld h pf)
       = Fails NotImplementedError).
Proof.
  intros Hn. split.
  - intros Hp fuel. simpl. rewrite (xbind_Done _ _ _ _ _ (call_get h pf n t Hn)).
    by rewrite Hp.
  - intros r Hp Hc Hr.
    assert (Hgen : ∀ a, on_chain h a r →
      ∃ fuel0, ∀ fuel, (fuel0 ≤ fuel)%nat →
        (∃ res, get_path_string TMTree_get_separator fuel a (mkWorld h pf)
                = Done (res, mkWorld h pf))
        ∨ get_path_string TMTree_get_separator fuel a (mkWorld h pf)
          = Fails NotImplementedError).
    { clear n t Hn Hp Hc. intros a Hc.
      induction Hc as [a|a q b (t & Ht & Hq) _ IH].
      - exists 1%nat. intros [|fuel] Hle; [lia|]. left.
        destruct Hr as (t & Ht & Hnone). exists (_name t). simpl.
        rewrite (xbind_Done _ _ _ _ _ (call_get h pf a t Ht)). by rewrite Hnone.
      - destruct (IH Hr) as (fuel0 & Hq0). exists (S fuel0).
        intros [|fuel] Hle; [lia|]. right.
        simpl. rewrite (xbind_Done _ _ _ _ _ (call_get h pf a t Ht)). rewrite Hq.
        destruct (Hq0 fuel) as [(res & Hres)|Hres]; [lia| |].
        + by rewrite (xbind_Done _ _ _ _ _ Hres).
        + by rewrite (xbind_Fails _ _ _ _ Hres). }
    destruct (Hgen n Hc) as (fuel0 & H0). exists (S fuel0).
    intros fuel Hle. destruct (H0 fuel) as [(res & Hres)|Hres]; [lia| |done].
    destruct fuel as [|fuel]; [lia|]. simpl in Hres.
    rewrite (xbind_Done _ _ _ _ _ (call_get h pf n t Hn)) in Hres.
    destruct (_parent_tree t) as [p|]; [|done].
    destruct (get_path_string TMTree_get_separator fuel p (mkWorld h pf))
      as [[a w1]| | |] eqn:Hpp.
    + rewrite (xbind_Done _ _ _ _ _ Hpp) in Hres. discriminate.
    + rewrite (xbind_Fails _ _ _ _ Hpp) in Hres. discriminate.
    + unfold xbind in Hres. rewrite Hpp in Hres. discriminate.
    + unfold xbind in Hres. rewrite Hpp in Hres. discriminate.
Qed.


(** ** [_same] *)

Lemma closest_loop_step (h : heap) tree l cl t c :
  h !! tree = Some t → h !! cl = Some c →
  closest_loop (tree :: l) cl h
  = closest_loop l (if rect_x t <? rect_x c then tree
                    else if rect_y t <? rect_y c then tree else cl) h.
Proof.
  intros Ht Hc. simpl. rewrite (get_bind _ _ _ _ Ht), (get_bind _ _ _ _ Hc).
  unfold rect_x, rect_y. destruct (rect t) as [[[tx ty] tw] th].
  destruct (rect c) as [[[cx cy] cw] chh]. simpl.
  destruct (tx <? cx); [done|]. by destruct (ty <? cy).
Qed.

(** The loop with one coordinate out of play: [key] is the other one,
    [first] says which test decides. *)
Lemma closest_loop_first (key other : TMTree → Z) (h : heap) :
  (∀ tree l cl t c, h !! tree = Some t → h !! cl = Some c →
     other t = other c →
     closest_loop (tree :: l) cl h
     = closest_loop l (if key t <? key c then tree else cl) h) →
  ∀ l done cl pre post,
    (∀ n, n ∈ done ++ l → is_Some (h !! n)) →
    (∀ a b ta tb, a ∈ done ++ l → b ∈ done ++ l →
                  h !! a = Some ta → h !! b = Some tb → other ta = other tb) →
    done = pre ++ cl :: post →
    Forall (λ b, ∀ tb tc, h !! b = Some tb → h !! cl = Some tc →
                          key tc < key tb) pre →
    Forall (λ b, ∀ tb tc, h !! b = Some tb → h !! cl = Some tc →
                          key tc ≤ key tb) post →
    ∃ c pre' post',
      closest_loop l cl h = Ok (c, h) ∧ done ++ l = pre' ++ c :: post'
      ∧ Forall (λ b, ∀ tb tc, h !! b = Some tb → h !! c = Some tc →
                            key tc < key tb) pre'
      ∧ Forall (λ b, ∀ tb tc, h !! b = Some tb → h !! c = Some tc →
                            key tc ≤ key tb) post'.
Proof.
  intros Hstep. induction l as [|tree l IH];
    intros done cl pre post Hex Hoth Hdone Hpre Hpost.
  - exists cl, pre, post. rewrite app_nil_r. done.
  - destruct (Hex tree) as [t Ht]; [apply elem_of_app; right; left|].
    destruct (Hex cl) as [c Hc].
    { apply elem_of_app. left. rewrite Hdone. apply elem_of_app. right. left. }
    rewrite (Hstep tree l cl t c Ht Hc).
    2:{ eapply (Hoth tree cl); [| |done|done].
        - apply elem_of_app; right; left.
        - apply elem_of_app. left. rewrite Hdone. apply elem_of_app.
          right. left. }
    replace (done ++ tree :: l) with ((done ++ [tree]) ++ l) in *
      by (by rewrite <- app_assoc).
    destruct (key t <? key c) eqn:Hlt.
    + apply Z.ltb_lt in Hlt.
      apply (IH (done ++ [tree]) tree done []); [done|done|done| |constructor].
      rewrite Hdone. apply Forall_app. split; [|apply Forall_cons; split].
      * eapply Forall_impl; [exact Hpre|]. intros b Hb tb tc Htb Htc.
        rewrite Ht in Htc. injection Htc as <-.
        pose proof (Hb tb c Htb Hc). lia.
      * intros tb tc Htb Htc. rewrite Ht in Htc. injection Htc as <-.
        rewrite Hc in Htb. injection Htb as <-. done.
      * eapply Forall_impl; [exact Hpost|]. intros b Hb tb tc Htb Htc.
        rewrite Ht in Htc. injection Htc as <-.
        pose proof (Hb tb c Htb Hc). lia.
    + apply Z.ltb_ge in Hlt.
      apply (IH (done ++ [tree]) cl pre (post ++ [tree])); [done|done| |done|].
      * rewrite Hdone. by rewrite <- app_assoc.
      * apply Forall_app. split; [done|]. apply Forall_singleton.
        intros tb tc Htb Htc. rewrite Ht in Htb. injection Htb as <-.
        rewrite Hc in Htc. by injection Htc as <-.
Qed.

Lemma closest_loop_member (h : heap) : ∀ l cl,
  (∀ n, n ∈ cl :: l → is_Some (h !! n)) →
  ∃ c, closest_loop l cl h = Ok (c, h) ∧ c ∈ cl :: l.
Proof.
  induction l as [|tree l IH]; intros cl Hex.
  - exists cl. split; [done|left].
  - destruct (Hex tree) as [t Ht]; [right; left|].
    destruct (Hex cl) as [c Hc]; [left|].
    rewrite (closest_loop_step h tree l cl t c Ht Hc).
    destruct (IH (if rect_x t <? rect_x c then tree
                  else if rect_y t <? rect_y c then tree else cl))
      as (c' & Hrun & Hin).
    { intros n Hn. apply Hex. apply elem_of_cons in Hn as [->|Hn].
      - destruct (_ <? _); [right; left|]. destruct (_ <? _); [right; left|left].
      - right. by right. }
    exists c'. split; [done|]. apply elem_of_cons in Hin as [->|Hin].
    + destruct (_ <? _); [right; left|]. destruct (_ <? _); [right; left|left].
    + right. by right.
Qed.

(** [_same] on trees that exist returns [None] for the empty list and a
    member of the list otherwise.  When all the trees have the same
    second coordinate, the member returned is the first of those whose
    first coordinate is least; when all have the same first coordinate,
    it is the first of those whose second coordinate is least. *)
Theorem _same_spec h trees :
  (∀ n, n ∈ trees → is_Some (h !! n)) →
  ∃ res,
    _same trees h = Ok (res, h)
    ∧ (trees = [] → res = None)
    ∧ (trees ≠ [] → ∃ c, res = Some c ∧ c ∈ trees)
    ∧ ((∀ a b ta tb, a ∈ trees → b ∈ trees → h !! a = Some ta →
                     h !! b = Some tb → rect_y ta = rect_y tb) →
       ∀ c, res = Some c →
         ∃ pre post, trees = pre ++ c :: post
           ∧ Forall (λ b, ∀ tb tc, h !! b = Some tb → h !! c = Some tc →
                                 rect_x tc < rect_x tb) pre
           ∧ Forall (λ b, ∀ tb tc, h !! b = Some tb → h !! c = Some tc →
                                 rect_x tc ≤ rect_x tb) post)
    ∧ ((∀ a b ta tb, a ∈ trees → b ∈ trees → h !! a = Some ta →
                     h !! b = Some tb → rect_x ta = rect_x tb) →
       ∀ c, res = Some c →
         ∃ pre post, trees = pre ++ c :: post
           ∧ Forall (λ b, ∀ tb tc, h !! b = Some tb → h !! c = Some tc →
                                 rect_y tc < rect_y tb) pre
           ∧ Forall (λ b, ∀ tb tc, h !! b = Some tb → h !! c = Some tc →
                                 rect_y tc ≤ rect_y tb) post).
Proof.
  intros Hex. destruct trees as [|first [|second rest]].
  - exists None. split; [done|]. split; [done|]. split; [done|].
    split; intros _ c [=].
  - exists (Some first). split; [done|]. split; [done|]. split.
    { intros _. exists first. split; [done|left]. }
    split; intros _ c [= <-]; exists [], []; repeat split; constructor.
  - set (trees := first :: second :: rest) in *.
    destruct (closest_loop_member h trees first) as (c & Hrun & Hin).
    { intros n [->|Hn]%elem_of_cons; apply Hex; [left|done]. }
    exists (Some c). split.
    { unfold _same. subst trees. cbv beta iota. apply bind_Ok.
      exists c, h. split; [exact Hrun|done]. }
    split; [done|]. split.
    { intros _. exists c. split; [done|].
      apply elem_of_cons in Hin as [->|Hin]; [left|done]. }
    destruct (Hex first) as [tf Htf]; [left|].
    assert (Hfirst : closest_loop trees first h
                     = closest_loop (second :: rest) first h).
    { subst trees. rewrite (closest_loop_step h first _ first tf tf Htf Htf).
      by rewrite !Z.ltb_irrefl. }
    split.
    + intros Hy c' [= <-].
      destruct (closest_loop_first rect_x rect_y h) with
        (l := second :: rest) (done := [first]) (cl := first)
        (pre := @nil id) (post := @nil id)
        as (c2 & pre & post & Hrun2 & Hsplit & Hpre & Hpost); try done.
      * intros tree l cl t c0 Ht Hc0 Heq.
        rewrite (closest_loop_step h tree l cl t c0 Ht Hc0).
        rewrite Heq, Z.ltb_irrefl. done.
      * rewrite Hfirst in Hrun. rewrite Hrun in Hrun2.
        injection Hrun2 as <-. by exists pre, post.
    + intros Hx c' [= <-].
      destruct (closest_loop_first rect_y rect_x h) with
        (l := second :: rest) (done := [first]) (cl := first)
        (pre := @nil id) (post := @nil id)
        as (c2 & pre & post & Hrun2 & Hsplit & Hpre & Hpost); try done.
      * intros tree l cl t c0 Ht Hc0 Heq.
        rewrite (closest_loop_step h tree l cl t c0 Ht Hc0).
        rewrite Heq, Z.ltb_irrefl. done.
      * rewrite Hfirst in Hrun. rewrite Hrun in Hrun2.
        injection Hrun2 as <-. by exists pre, post.
Qed.

(** * Construction *)

(** ** What [__init__] leaves alone *)

(** The store just after the object of a new node has been added. *)
Lemma alloc_facts h nd :
  wf h → (∀ c, c ∈ _subtrees nd → root_node h c) →
  let n := length h in
  let h1 := h ++ [nd] in
  (∀ k, k ≠ n → h1 !! k = h !! k)
  ∧ h1 !! n = Some nd
  ∧ (∀ k, is_Some (h !! k) → k ≠ n)
  ∧ (∀ x y, child h1 x y → x ≠ n → child h x y ∧ y ≠ n)
  ∧ (∀ x y, child h x y → child h1 x y).
Proof.
  intros Hwf Hroots n h1.
  assert (HA1 : ∀ k, k ≠ n → h1 !! k = h !! k).
  { intros k Hk. subst h1. destruct (decide (k < n)%nat) as [Hlt|Hge].
    - by apply lookup_app_l.
    - rewrite (lookup_ge_None_2 h) by (subst n; lia).
      apply lookup_ge_None_2. rewrite length_app. simpl. subst n. lia. }
  assert (HA2 : h1 !! n = Some nd) by apply list_lookup_middle, eq_refl.
  assert (Hin : ∀ k, is_Some (h !! k) → k ≠ n).
  { intros k Hk%lookup_lt_is_Some. subst n. lia. }
  split; [done|]. split; [done|]. split; [done|]. split.
  - intros x y (t & Ht & Hy) Hx. rewrite HA1 in Ht by done.
    assert (Hc : child h x y) by (by exists t). split; [done|].
    apply Hin. by eapply (wf_closed h Hwf).
  - intros x y (t & Ht & Hy). exists t. split; [|done].
    rewrite HA1; [done|]. apply Hin. eauto.
Qed.

(** [__init__] over parentless, distinct children changes no existing
    object, except that each child gets the new node as its parent, and
    the new object is known in full. *)
Lemma __init___exact fuel name kids size colour h self h' :
  Inv h → (∀ c, c ∈ kids → root_node h c) → NoDup kids →
  __init__ fuel name kids size colour h = Ok (self, h') →
  self = length h
  ∧ length h' = S (length h)
  ∧ (∀ k t, h !! k = Some t →
       h' !! k = Some (if decide (k ∈ kids)
                       then set_parent_tree (Some self) t else t))
  ∧ h' !! self
    = Some (mkTMTree (0, 0, 0, 0)
              (if bool_decide (kids = []) then size else sum_sizes h kids)
              colour name kids None false).
Proof.
  intros [Hwf Hw] Hroots Hnd Hrun. unfold __init__ in Hrun.
  apply bind_Ok in Hrun as (n & h1 & Hal & Hrun).
  injection Hal as <- <-.
  set (nd := mkTMTree (0, 0, 0, 0) size colour name kids None false) in *.
  destruct (alloc_facts h nd Hwf Hroots) as (HA1 & HA2 & Hin & Hold & Hnew).
  set (n := length h) in *. set (h1 := h ++ [nd]) in *.
  apply bind_Ok in Hrun as (v & h2 & Hsum & Hrun).
  apply bind_Ok in Hrun as (u & h3 & Hpar & Hrun).
  apply ret_Ok in Hrun as [-> ->].
  pose proof (for_each_set_parent _ _ _ _ _ Hpar) as Hl3.
  assert (Hkn : ∀ c, c ∈ kids → c ≠ n).
  { intros c Hc. destruct (Hroots c Hc) as (t & Ht & _). apply Hin. eauto. }
  (* the sizes below the children are what they were *)
  assert (Hgood1 : ∀ c m, c ∈ kids → desc h1 c m → good h1 m).
  { intros c m Hc Hd. pose proof (Hroots c Hc) as Hr.
    destruct (desc_old h h1 n c m Hold (Hkn c Hc) Hd) as [Hd0 Hmn].
    eapply good_ext; [by apply (Hw c m)|by apply HA1|].
    intros x Hx. apply HA1, Hin. by eapply (wf_closed h Hwf). }
  assert (H2 : (∀ k, k ≠ n → h2 !! k = h1 !! k)
               ∧ h2 !! n = Some (set_data_size
                                   (if bool_decide (kids = []) then size
                                    else sum_sizes h kids) nd)).
  { change (update_data_sizes fuel n h1 = Ok (v, h2)) in Hsum.
    destruct fuel as [|fuel]; simpl in Hsum; [discriminate|].
    rewrite (get_bind _ _ _ _ HA2) in Hsum. simpl in Hsum.
    destruct kids as [|c0 l0] eqn:Hkids.
    { apply ret_Ok in Hsum as [_ ->]. split; [done|]. by rewrite HA2. }
    rewrite <- Hkids in *.
    apply bind_Ok in Hsum as (total & h1' & Hs & Hsum).
    apply sum_over_fixed in Hs as [-> ->].
    2:{ intros c v' h'' Hc Hrunc.
        eapply update_data_sizes_fixed; [|exact Hrunc]. intros m. by apply Hgood1. }
    apply bind_Ok in Hsum as (u1 & h1' & Hm & Hsum).
    apply modify_Ok in Hm as (t1 & Ht1 & ->). rewrite HA2 in Ht1.
    injection Ht1 as <-.
    apply bind_Ok in Hsum as (t2 & h0 & Hg & Hsum). apply get_Ok in Hg as [_ ->].
    apply ret_Ok in Hsum as [_ ->]. split.
    - intros k Hk. by apply list_lookup_insert_ne.
    - rewrite list_lookup_insert_eq by (by eapply lookup_lt_Some).
      rewrite bool_decide_eq_false_2 by (by rewrite Hkids).
      do 2 f_equal. rewrite Z.add_0_l. apply sum_sizes_ext.
      intros c Hc. apply HA1. by apply Hkn. }
  destruct H2 as [H2 H2n]. split; [done|]. split; [|split].
  - assert (Hlen2 : length h2 = length h1).
    { change (update_data_sizes fuel n h1 = Ok (v, h2)) in Hsum.
      destruct (update_data_sizes_leaves _ _ _ _ _ Hsum) as [Ha _].
      by apply agree_length in Ha. }
    assert (Hlen3 : length h3 = length h2).
    { apply (agree_length down). apply agree_pointwise. intros k. rewrite Hl3.
      destruct (decide (k ∈ kids)); [|done]. by destruct (h2 !! k). }
    rewrite Hlen3, Hlen2. subst h1. rewrite length_app. simpl. lia.
  - intros k t Hk. assert (Hk' : k ≠ n) by (apply Hin; eauto).
    rewrite Hl3, H2, HA1, Hk by done. by destruct (decide (k ∈ kids)).
  - rewrite Hl3, H2n. rewrite decide_False; [done|].
    intros Hc. by apply (Hkn n).
Qed.

(** [TMTree(name, subtrees, data_size)] over parentless, distinct
    children, in a store where the weight sums hold, returns for every
    large enough budget.  The new object has the empty rectangle, the name
    and the children given, no parent, is not expanded, and its size is
    [data_size] when there is no child and the sum of the children's sizes
    otherwise; each child has the new object as its parent; no other
    attribute of any existing object changes. *)
Theorem __init___full_spec h name kids size colour :
  Inv h → (∀ c, c ∈ kids → root_node h c) → NoDup kids →
  ∃ fuel0, ∀ fuel, (fuel0 ≤ fuel)%nat →
    ∃ h', __init__ fuel name kids size colour h = Ok (length h, h')
          ∧ Inv h'
          ∧ length h' = S (length h)
          ∧ (∀ k t, h !! k = Some t →
               h' !! k = Some (if decide (k ∈ kids)
                               then set_parent_tree (Some (length h)) t
                               else t))
          ∧ h' !! length h
            = Some (mkTMTree (0, 0, 0, 0)
                      (if bool_decide (kids = []) then size
                       else sum_sizes h kids)
                      colour name kids None false).
Proof.
  intros HI Hroots Hnd.
  destruct (__init___total h name kids size colour (proj1 HI) Hroots Hnd)
    as (fuel0 & Htot).
  exists fuel0. intros fuel Hle. destruct (Htot fuel Hle) as (h' & Hrun).
  exists h'. split; [done|].
  destruct (__init___spec _ _ _ _ _ _ _ _ HI Hroots Hnd Hrun) as (HI' & _).
  destruct (__init___exact _ _ _ _ _ _ _ _ HI Hroots Hnd Hrun)
    as (_ & Hlen & Hold & Hnew).
  done.
Qed.

(** ** Trees of files and folders *)

Lemma call_Done {A} (m : M A) h pf a w' :
  call m (mkWorld h pf) = Done (a, w') ↔
  ∃ h', m h = Ok (a, h') ∧ w' = mkWorld h' pf.
Proof.
  unfold call. simpl. split.
  - destruct (m h) as [[a' h']| | |]; try discriminate.
    intros [= <- <-]. eauto.
  - intros (h' & -> & ->). done.
Qed.

Lemma returned_Done {A} (x : error + A) w a w' :
  returned x w = Done (a, w') ↔ x = inr a ∧ w' = w.
Proof.
  destruct x as [e|a0]; simpl; unfold fail, xret; split.
  - discriminate.
  - intros [[=] _].
  - intros [= <- <-]. done.
  - intros [[= ->] ->]. done.
Qed.

Lemma prefix_app (h h' : heap) :
  (length h ≤ length h')%nat → (∀ k t, h !! k = Some t → h' !! k = Some t) →
  ∃ new, h' = h ++ new.
Proof.
  intros Hlen Hsame. exists (drop (length h) h').
  rewrite <- (take_drop (length h) h') at 1. f_equal.
  apply list_eq. intros k. destruct (h !! k) as [t|] eqn:Hk.
  - rewrite lookup_take_lt by (by eapply lookup_lt_Some). by apply Hsame.
  - apply lookup_ge_None in Hk. apply lookup_ge_None.
    rewrite length_take. lia.
Qed.

(** A tree that mirrors a path still does when objects are added and
    parentless nodes are given a parent. *)
Lemma mirrors_ext sys (h h' : heap) :
  (∀ k t, h !! k = Some t →
     ∃ t', h' !! k = Some t' ∧ no_parent t' = no_parent t
           ∧ (_parent_tree t ≠ None → t' = t)) →
  ∀ path c, mirrors sys h path c → mirrors sys h' path c.
Proof.
  intros Hext.
  apply (mirrors_mut sys h
           (λ path c _, mirrors sys h' path c)
           (λ path self l fs _, mirrors_each sys h' path self l fs)).
  - intros p s t Ht Hd Hn Hs Hg.
    destruct (Hext s t Ht) as (t' & Ht' & He & _).
    injection He as Hr Hsz Hc Hnm Hsb Hex.
    eapply mirrors_file; [exact Ht'|done| | |]; congruence.
  - intros p s t fs Ht Hd Hn Hl _ IH.
    destruct (Hext s t Ht) as (t' & Ht' & He & _).
    injection He as Hr Hsz Hc Hnm Hsb Hex.
    eapply (mirrors_dir _ _ _ _ t' fs); [exact Ht'|done|congruence|done|].
    by rewrite Hsb.
  - constructor.
  - intros p s c l f fs _ IHm Hp _ IHl. constructor; [done| |done].
    destruct Hp as (tc & Htc & Hpc).
    destruct (Hext c tc Htc) as (tc' & Htc' & _ & Hsame).
    exists tc'. split; [done|]. rewrite Hsame; [done|congruence].
Qed.

Lemma Inv_set_root_leaf_size h n t z :
  Inv h → h !! n = Some t → _subtrees t = [] → _parent_tree t = None →
  Inv (<[n := set_data_size z t]> h).
Proof.
  intros [Hwf Hw] Hn Hleaf Hroot.
  set (h' := <[n := set_data_size z t]> h).
  assert (Ha : agree no_size h h') by (by eapply agree_insert).
  pose proof (agree_size_shape _ _ Ha) as Hs.
  split; [by eapply wf_shape|].
  intros r m Hr%(root_node_shape _ _ Hs) Hd%(desc_shape _ _ Hs).
  destruct (decide (m = n)) as [->|Hmn].
  - intros t' Ht' Hne. subst h'.
    rewrite list_lookup_insert_eq in Ht' by (by eapply lookup_lt_Some).
    injection Ht' as <-. done.
  - eapply good_ext; [by apply (Hw r m)| |].
    + subst h'. by rewrite list_lookup_insert_ne.
    + intros c Hc. subst h'. apply list_lookup_insert_ne. intros Hnc.
      rewrite <- Hnc in Hc.
      apply (root_not_child h Hwf n m); [by exists t|done].
Qed.

Lemma root_node_app (h new : heap) r : root_node h r → root_node (h ++ new) r.
Proof.
  intros (t & Ht & Hp). exists t. split; [|done].
  rewrite lookup_app_l; [done|]. by eapply lookup_lt_Some.
Qed.

Lemma mirrors_app sys (h new : heap) path c :
  mirrors sys h path c → mirrors sys (h ++ new) path c.
Proof.
  apply mirrors_ext. intros k t Hk. exists t. split; [|done].
  rewrite lookup_app_l; [done|]. by eapply lookup_lt_Some.
Qed.

(** What the loop over the entries of a folder builds. *)
Lemma append_each_files sys (build : string → X id) path (h0 : heap) pf :
  (∀ filename h self w',
     Inv h → build filename (mkWorld h pf) = Done (self, w') →
     ∃ new, w' = mkWorld (h ++ new) pf ∧ Inv (h ++ new)
            ∧ (length h ≤ self)%nat ∧ root_node (h ++ new) self
            ∧ mirrors sys (h ++ new) (join sys path filename) self) →
  ∀ filenames built acc h subtrees w',
    Inv h → (length h0 ≤ length h)%nat →
    (∀ c, c ∈ acc → root_node h c ∧ (length h0 ≤ c)%nat) →
    NoDup acc →
    Forall2 (λ c filename, mirrors sys h (join sys path filename) c)
            acc built →
    append_each filenames build acc (mkWorld h pf) = Done (subtrees, w') →
    ∃ new, w' = mkWorld (h ++ new) pf ∧ Inv (h ++ new)
           ∧ (∀ c, c ∈ subtrees →
                root_node (h ++ new) c ∧ (length h0 ≤ c)%nat)
           ∧ NoDup subtrees
           ∧ Forall2 (λ c filename,
                        mirrors sys (h ++ new) (join sys path filename) c)
                     subtrees (built ++ filenames).
Proof.
  intros Hbuild. induction filenames as [|f fs IH];
    intros built acc h subtrees w' HI Hlen Hacc Hnd HF Hrun; simpl in Hrun.
  - injection Hrun as <- <-. exists []. rewrite !app_nil_r. done.
  - apply xbind_inv in Hrun as (self & w1 & Hb & Hrun).
    destruct (Hbuild f h self w1 HI Hb)
      as (new1 & -> & HI1 & Hfresh & Hroot & Hm).
    destruct (IH (built ++ [f]) (acc ++ [self]) (h ++ new1) subtrees w')
      as (new2 & -> & HI2 & Hsub & Hnd2 & HF2); try done.
    + rewrite length_app. lia.
    + intros c [Hc| ->%list_elem_of_singleton]%elem_of_app.
      * destruct (Hacc c Hc) as [Hr Hge]. split; [by apply root_node_app|done].
      * split; [done|lia].
    + apply NoDup_app. split; [done|]. split; [|apply NoDup_singleton].
      intros c Hc ->%list_elem_of_singleton.
      destruct (Hacc self Hc) as [(t & Ht & _) _].
      apply lookup_lt_Some in Ht. lia.
    + apply Forall2_app; [|by constructor].
      eapply Forall2_impl; [exact HF|]. intros c f' Hc. by apply mirrors_app.
    + exists (new1 ++ new2). rewrite !app_assoc in *.
      rewrite <- (app_assoc built [f] fs) in HF2. done.
Qed.

Lemma mirrors_each_Forall2 sys h path self l fs :
  Forall2 (λ c filename, mirrors sys h (join sys path filename) c
                         ∧ parent_is h c self) l fs →
  mirrors_each sys h path self l fs.
Proof. induction 1 as [|c f l fs [Hm Hp] _ IH]; by constructor. Qed.

(** What [FileSystemTree(path)] has built when it returns. *)
Lemma FileSystemTree_effect sys pick fuel : ∀ path h pf self w',
  Inv h →
  FileSystemTree__init__ sys pick fuel path (mkWorld h pf) = Done (self, w') →
  ∃ new, w' = mkWorld (h ++ new) pf ∧ Inv (h ++ new)
         ∧ (length h ≤ self)%nat ∧ root_node (h ++ new) self
         ∧ mirrors sys (h ++ new) path self.
Proof.
  induction fuel as [|fuel IH]; intros path h pf self w' HI Hrun;
    simpl in Hrun; [discriminate|].
  destruct (isdir sys path) eqn:Hdir.
  - apply xbind_inv in Hrun as (filenames & w1 & Hls & Hrun).
    apply returned_Done in Hls as [Hls ->].
    apply xbind_inv in Hrun as (subtrees & w2 & Hloop & Hrun).
    destruct (append_each_files sys
                (λ filename, FileSystemTree__init__ sys pick fuel
                               (join sys path filename))
                path h pf) with (filenames := filenames) (built := @nil string)
                (acc := @nil id) (h := h) (subtrees := subtrees) (w' := w2)
      as (new1 & -> & HI1 & Hsub & Hnd & HF);
      [intros f h1 s1 w1' HI1 Hb; by apply IH|done|done
      |by intros c Hc; apply elem_of_nil in Hc|apply NoDup_nil_2|constructor
      |exact Hloop|].
    simpl in HF. set (hf := h ++ new1) in *.
    apply xbind_inv in Hrun as (n & w3 & Hn & Hrun).
    injection Hn as <- <-. simpl in Hrun.
    apply call_Done in Hrun as (h' & Hinit & ->).
    assert (Hroots : ∀ c, c ∈ subtrees → root_node hf c)
      by (intros c Hc; by apply Hsub).
    destruct (__init___spec _ _ _ _ _ _ _ _ HI1 Hroots Hnd Hinit) as (HI' & _).
    destruct (__init___exact _ _ _ _ _ _ _ _ HI1 Hroots Hnd Hinit)
      as (-> & Hlen' & Hold & Hnew).
    assert (Hlenf : (length h ≤ length hf)%nat).
    { subst hf. rewrite length_app. lia. }
    destruct (prefix_app h h') as (new & ->).
    { lia. }
    { intros k t Hk. assert (Hkf : hf !! k = Some t).
      { subst hf. rewrite lookup_app_l; [done|]. by eapply lookup_lt_Some. }
      rewrite (Hold k t Hkf). rewrite decide_False; [done|].
      intros Hc. destruct (Hsub k Hc) as [_ Hge].
      apply lookup_lt_Some in Hk. lia. }
    exists new. split; [done|]. split; [done|]. split; [lia|]. split.
    { eexists. split; [exact Hnew|done]. }
    eapply (mirrors_dir _ _ _ _ _ filenames); [exact Hnew|done|done|done|].
    simpl. apply mirrors_each_Forall2.
    eapply Forall2_weaken_l; [exact HF|]. apply Forall_forall.
    intros c Hc f Hm. destruct (Hroots c Hc) as (tc & Htc & Hpc).
    split.
    + eapply (mirrors_ext sys hf); [|exact Hm]. intros k t Hk.
      rewrite (Hold k t Hk). destruct (decide (k ∈ subtrees)) as [Hin|_].
      * eexists. split; [done|]. split; [done|].
        destruct (Hroots k Hin) as (t' & Ht' & Hp'). congruence.
      * by exists t.
    + exists (set_parent_tree (Some (length hf)) tc). split; [|done].
      rewrite (Hold c tc Htc). by rewrite decide_True.
  - apply xbind_inv in Hrun as (n & w1 & Hn & Hrun).
    injection Hn as <- <-. simpl in Hrun.
    apply xbind_inv in Hrun as (self0 & w2 & Hinit & Hrun).
    apply call_Done in Hinit as (h1 & Hinit & ->).
    assert (Hroots : ∀ c, c ∈ @nil id → root_node h c).
    { intros c Hc. by apply elem_of_nil in Hc. }
    destruct (__init___spec _ _ _ _ _ _ _ _ HI Hroots (NoDup_nil_2) Hinit)
      as (HI1 & _).
    destruct (__init___exact _ _ _ _ _ _ _ _ HI Hroots (NoDup_nil_2) Hinit)
      as (-> & Hlen1 & Hold & Hnew).
    apply xbind_inv in Hrun as (size & w3 & Hsz & Hrun).
    apply returned_Done in Hsz as [Hsz ->].
    apply xbind_inv in Hrun as (u & w4 & Hm & Hrun).
    apply call_Done in Hm as (h2 & Hm & ->).
    apply modify_Ok in Hm as (t1 & Ht1 & ->). rewrite Hnew in Ht1.
    injection Ht1 as <-. injection Hrun as <- <-.
    match goal with
    | |- context [<[_ := ?x]> _] => set (t2 := x)
    end.
    assert (Hself : <[length h := t2]> h1 !! length h = Some t2).
    { apply list_lookup_insert_eq. lia. }
    destruct (prefix_app h (<[length h := t2]> h1)) as (new & Hnew2).
    { rewrite length_insert. lia. }
    { intros k t Hk. rewrite list_lookup_insert_ne.
      - rewrite (Hold k t Hk). by rewrite decide_False by apply not_elem_of_nil.
      - apply lookup_lt_Some in Hk. lia. }
    rewrite Hnew2 in *. exists new. split; [done|]. split.
    { rewrite <- Hnew2. by eapply Inv_set_root_leaf_size. }
    split; [done|]. split; [by exists t2|].
    by eapply (mirrors_file _ _ _ _ t2).
Qed.

(** A budget above the ranks of the children is enough for [__init__]. *)
Lemma __init___ranked h name kids size colour (rk : id → nat) F fuel :
  wf h → (∀ c, c ∈ kids → root_node h c) → NoDup kids →
  ranked h rk → (∀ c, c ∈ kids → (rk c < F)%nat) → (F < fuel)%nat →
  ∃ h', __init__ fuel name kids size colour h = Ok (length h, h')
        ∧ ranked h' (λ k, if decide (k = length h) then F else rk k).
Proof.
  intros Hwf Hroots Hnd Hrk Hkids Hfuel.
  set (nd := mkTMTree (0, 0, 0, 0) size colour name kids None false).
  pose proof (alloc_forest h nd Hwf Hroots Hnd) as Hf1.
  destruct (alloc_facts h nd Hwf Hroots) as (HA1 & HA2 & Hin & Hold & Hnew).
  set (n := length h) in *. set (h1 := h ++ [nd]) in *.
  set (rk1 := λ k, if decide (k = n) then F else rk k).
  assert (Hrk1 : ranked h1 rk1).
  { intros a b Hc. unfold rk1. destruct (decide (a = n)) as [->|Ha].
    - destruct Hc as (t & Ht & Hb). rewrite HA2 in Ht. injection Ht as <-.
      simpl in Hb. rewrite decide_False; [by apply Hkids|].
      destruct (Hroots b Hb) as (tb & Htb & _). apply Hin. eauto.
    - destruct (Hold a b Hc Ha) as [Hc0 Hb]. rewrite decide_False by done.
      by apply Hrk. }
  destruct (update_data_sizes_total h1 rk1 Hf1 Hrk1 fuel n h1)
    as (v & h2 & Hsum & Ha2); [apply agree_refl|by exists nd| |].
  { unfold rk1. by rewrite decide_True. }
  destruct (for_each_modify_total (set_parent_tree (Some n)) kids h2)
    as (h3 & Hpar).
  { intros c Hc. destruct (Hroots c Hc) as (t & Ht & _).
    apply lookup_lt_is_Some. rewrite (agree_length _ _ _ Ha2).
    subst h1. rewrite length_app. apply lookup_lt_Some in Ht. lia. }
  exists h3. split.
  - unfold __init__. apply bind_Ok. exists n, h1.
    split; [done|]. apply bind_Ok. exists v, h2. split; [exact Hsum|].
    apply bind_Ok. exists tt, h3. split; [exact Hpar|done].
  - assert (Ha3 : agree down h2 h3).
    { apply agree_pointwise. intros k.
      rewrite (for_each_set_parent _ _ _ _ _ Hpar).
      destruct (decide (k ∈ kids)); [|done]. by destruct (h2 !! k). }
    intros a b Hc. apply Hrk1.
    apply (child_down h1 h3); [|done]. by eapply agree_trans.
Qed.

Lemma mirrors_readable sys h path c : mirrors sys h path c → readable sys path.
Proof.
  apply (mirrors_mut sys h (λ path c _, readable sys path)
           (λ path self l fs _,
              ∀ f, f ∈ fs → readable sys (join sys path f))).
  - intros p s t Ht Hd Hn Hs Hg. by eapply readable_file.
  - intros p s t fs Ht Hd Hn Hl _ IH. by eapply readable_dir.
  - intros p s f Hf. by apply elem_of_nil in Hf.
  - intros p s c' l f fs _ IHm _ _ IHl f' [->|Hf']%elem_of_cons; eauto.
Qed.

Lemma uniform_budget {A} (Q : A → nat → Prop) (l : list A) :
  (∀ x n m, Q x n → (n ≤ m)%nat → Q x m) →
  (∀ x, x ∈ l → ∃ n, Q x n) →
  ∃ F, ∀ x, x ∈ l → Q x F.
Proof.
  intros Hmono. induction l as [|x l IH]; intros Hl.
  - exists O. intros x Hx. by apply elem_of_nil in Hx.
  - destruct (Hl x (list_elem_of_here _ _)) as (n & Hn).
    destruct IH as (F & HF); [intros y Hy; apply Hl; by right|].
    exists (Nat.max n F). intros y [->|Hy]%elem_of_cons.
    + eapply Hmono; [exact Hn|lia].
    + eapply Hmono; [by apply HF|lia].
Qed.

Lemma builds_mono sys pick path n m :
  builds sys pick path n → (n ≤ m)%nat → builds sys pick path m.
Proof.
  intros Hb Hle fuel Hf h pf rk HI Hrk.
  destruct (Hb fuel ltac:(lia) h pf rk HI Hrk) as (self & w' & rk' & ? & ? & ? & ?).
  exists self, w', rk'. repeat (split; [done|]). lia.
Qed.

Lemma append_each_builds sys pick path F fuel pf :
  (F ≤ fuel)%nat →
  ∀ filenames,
    (∀ f, f ∈ filenames → builds sys pick (join sys path f) F) →
    ∀ acc h rk, Inv h → ranked h rk →
      (∀ c, c ∈ acc → (c < length h)%nat ∧ (rk c < F)%nat) →
      ∃ subtrees w' rk',
        append_each filenames
          (λ filename, FileSystemTree__init__ sys pick fuel
                         (join sys path filename))
          acc (mkWorld h pf) = Done (subtrees, w')
        ∧ ranked (trees w') rk'
        ∧ (∀ k, (k < length h)%nat → rk' k = rk k)
        ∧ (∀ c, c ∈ subtrees → (rk' c < F)%nat).
Proof.
  intros Hfuel. induction filenames as [|f fs IH];
    intros Hall acc h rk HI Hrk Hacc.
  - exists acc, (mkWorld h pf), rk. split; [done|]. split; [done|].
    split; [done|]. intros c Hc. by apply Hacc.
  - destruct (Hall f (list_elem_of_here _ _) fuel Hfuel h pf rk HI Hrk)
      as (self & w1 & rk1 & Hrun & Hrk1 & Hsame1 & Hself).
    destruct (FileSystemTree_effect _ _ _ _ _ _ _ _ HI Hrun)
      as (new1 & -> & HI1 & Hfresh & (ts & Hts & _) & _).
    simpl in Hrk1.
    destruct (IH (λ f' Hf', Hall f' (list_elem_of_further _ _ _ Hf'))
                 (acc ++ [self]) (h ++ new1) rk1 HI1 Hrk1)
      as (subtrees & w2 & rk2 & Hloop & Hrk2 & Hsame2 & Hsub).
    { intros c [Hc| ->%list_elem_of_singleton]%elem_of_app.
      - destruct (Hacc c Hc) as [Hlt Hr]. split.
        + rewrite length_app. lia.
        + by rewrite Hsame1.
      - split; [by eapply lookup_lt_Some|done]. }
    exists subtrees, w2, rk2. split.
    { simpl. by rewrite (xbind_Done _ _ _ _ _ Hrun). }
    split; [done|]. split; [|done].
    intros k Hk. rewrite Hsame2 by (rewrite length_app; lia). by apply Hsame1.
Qed.

Lemma readable_builds sys pick path :
  readable sys path → ∃ F, builds sys pick path F.
Proof.
  induction 1 as [path size Hdir Hsize|path filenames Hdir Hls _ IH].
  - exists 1%nat. intros [|fuel] Hle h pf rk HI Hrk; [lia|].
    set (nd := mkTMTree (0, 0, 0, 0) 0 (pick (length h))
                        (Some (basename sys path)) [] None false).
    assert (Hroots : ∀ c, c ∈ _subtrees nd → root_node h c).
    { intros c Hc. by apply elem_of_nil in Hc. }
    destruct (alloc_facts h nd (proj1 HI) Hroots) as (HA1 & HA2 & Hin & Hold & _).
    assert (Hinit : __init__ (S fuel) (Some (basename sys path)) [] 0
                             (pick (length h)) h
                    = Ok (length h, h ++ [nd])).
    { unfold __init__, alloc. unfold bind at 1. simpl.
      unfold bind at 1. rewrite (get_bind _ _ _ _ HA2). done. }
    set (h2 := <[length h := set_data_size size nd]> (h ++ [nd])).
    exists (length h), (mkWorld h2 pf),
      (λ k, if decide (k = length h) then O else rk k).
    split; [|split; [|split]].
    + simpl. rewrite Hdir. unfold xbind at 1, next_id. simpl.
      rewrite (xbind_Done _ _ _ (length h) (mkWorld (h ++ [nd]) pf))
        by (apply call_Done; eauto).
      rewrite Hsize. unfold xbind at 1. simpl.
      rewrite (xbind_Done _ _ _ tt (mkWorld h2 pf)); [done|].
      apply call_Done. exists h2. split; [|done]. apply modify_Ok. eauto.
    + simpl. intros a b (t & Ht & Hb). subst h2.
      destruct (decide (a = length h)) as [->|Ha].
      * rewrite list_lookup_insert_eq in Ht by (by eapply lookup_lt_Some).
        injection Ht as <-. by apply elem_of_nil in Hb.
      * rewrite list_lookup_insert_ne in Ht by done.
        destruct (Hold a b) as [Hc Hbn]; [by exists t|done|].
        rewrite (decide_False (P := b = length h)) by done. by apply Hrk.
    + intros k Hk. rewrite decide_False; [done|lia].
    + rewrite decide_True by done. lia.
  - destruct (uniform_budget (λ f F, builds sys pick (join sys path f) F)
                filenames) as (F & HF).
    { intros f n m. apply builds_mono. }
    { done. }
    exists (S F). intros [|fuel] Hle h pf rk HI Hrk; [lia|].
    destruct (append_each_builds sys pick path F fuel pf ltac:(lia) filenames
                HF [] h rk HI Hrk)
      as (subtrees & w1 & rk1 & Hloop & Hrk1 & Hsame1 & Hsub).
    { intros c Hc. by apply elem_of_nil in Hc. }
    destruct (append_each_files sys
                (λ filename, FileSystemTree__init__ sys pick fuel
                               (join sys path filename))
                path h pf) with (filenames := filenames) (built := @nil string)
                (acc := @nil id) (h := h) (subtrees := subtrees) (w' := w1)
      as (new1 & -> & HI1 & Hroots & Hnd & _);
      [intros f h1 s1 w1' HI1 Hb; by eapply FileSystemTree_effect|done|done
      |by intros c Hc; apply elem_of_nil in Hc|apply NoDup_nil_2|constructor
      |exact Hloop|].
    simpl in Hrk1. set (hf := h ++ new1) in *.
    destruct (__init___ranked hf (Some (basename sys path)) subtrees 0
                (pick (length hf)) rk1 F (S fuel))
      as (h' & Hinit & Hrk'); [apply HI1|by intros c Hc; apply Hroots|done
                              |done|done|lia|].
    exists (length hf), (mkWorld h' pf),
      (λ k, if decide (k = length hf) then F else rk1 k).
    split; [|split; [done|split]].
    + simpl. rewrite Hdir, Hls. unfold xbind at 1. simpl.
      rewrite (xbind_Done _ _ _ _ _ Hloop). unfold xbind at 1, next_id. simpl.
      apply call_Done. eauto.
    + intros k Hk. rewrite decide_False; [by apply Hsame1|].
      subst hf. rewrite length_app. lia.
    + rewrite decide_True by done. lia.
Qed.

(** [FileSystemTree(path)] returns exactly when [path] and everything
    below it can be read, with a budget that does not depend on the
    store.  The node returned is a new parentless node whose tree mirrors
    what is found at [path]: names are base names, files are childless
    nodes with the file's size, the children of a folder follow the order
    of its listing.  The existing objects are untouched and the weight
    sums hold in the store returned. *)
Theorem FileSystemTree_spec sys pick path :
  (∀ fuel h pf self w',
     Inv h →
     FileSystemTree__init__ sys pick fuel path (mkWorld h pf)
     = Done (self, w') →
     readable sys path
     ∧ ∃ new, w' = mkWorld (h ++ new) pf ∧ Inv (h ++ new)
              ∧ (length h ≤ self)%nat ∧ root_node (h ++ new) self
              ∧ mirrors sys (h ++ new) path self)
  ∧ (readable sys path →
     ∃ fuel0, ∀ fuel h pf, (fuel0 ≤ fuel)%nat → Inv h →
       ∃ self w', FileSystemTree__init__ sys pick fuel path (mkWorld h pf)
                  = Done (self, w')).
Proof.
  split.
  - intros fuel h pf self w' HI Hrun.
    destruct (FileSystemTree_effect _ _ _ _ _ _ _ _ HI Hrun)
      as (new & Hw & HI' & Hfresh & Hroot & Hm).
    split; [by eapply mirrors_readable|]. by exists new.
  - intros Hread. destruct (readable_builds sys pick path Hread) as (F & HF).
    exists F. intros fuel h pf Hle HI.
    destruct (wf_acyclic _ (proj1 HI)) as [rk Hrk].
    destruct (HF fuel Hle h pf rk HI Hrk) as (self & w' & _ & Hrun & _).
    eauto.
Qed.

(** * The papers data set *)

(** ** Building the trees *)

Lemma PaperTree_plain load pick fuel name kids authors doi citations by_year
    h pf self h' :
  __init__ fuel name kids citations (pick (length h)) h = Ok (self, h') →
  PaperTree__init__ load pick fuel name kids authors doi citations by_year
                    false (mkWorld h pf)
  = Done (self, mkWorld h' (pf ++ [(self, mkPaperFields authors doi)])).
Proof.
  intros Hinit. unfold PaperTree__init__, xbind, xret, next_id, call. simpl.
  by rewrite Hinit.
Qed.

Lemma extends_refl w : extends w w.
Proof. exists [], []. destruct w. simpl. by rewrite !app_nil_r. Qed.

Lemma extends_trans w1 w2 w3 : extends w1 w2 → extends w2 w3 → extends w1 w3.
Proof.
  intros (n1 & f1 & ->) (n2 & f2 & ->). exists (n1 ++ n2), (f1 ++ f2).
  simpl. by rewrite !app_assoc.
Qed.

Lemma extends_lookup w w' k t :
  extends w w' → trees w !! k = Some t → trees w' !! k = Some t.
Proof.
  intros (new & f & ->) Hk. simpl. rewrite lookup_app_l; [done|].
  by eapply lookup_lt_Some.
Qed.

Lemma extends_length w w' : extends w w' → (length (trees w) ≤ length (trees w'))%nat.
Proof. intros (new & f & ->). simpl. rewrite length_app. lia. Qed.

Lemma extends_child w w' p c :
  extends w w' → child (trees w) p c → child (trees w') p c.
Proof. intros He (t & Ht & Hc). exists t. split; [|done]. by eapply extends_lookup. Qed.

Lemma extends_desc w w' a b :
  extends w w' → desc (trees w) a b → desc (trees w') a b.
Proof. intros He. apply rtc_subrel. intros x y. by apply extends_child. Qed.

Lemma extends_paper_node w w' n p :
  extends w w' → paper_node w n p → paper_node w' n p.
Proof.
  intros He (t & Ht & Hn & Hs & Hd & Hf). exists t.
  split; [by eapply extends_lookup|]. repeat (split; [done|]).
  destruct He as (new & f & ->). simpl. apply elem_of_app. by left.
Qed.

Lemma sum_sizes_extends w w' l :
  extends w w' → (∀ c, c ∈ l → is_Some (trees w !! c)) →
  sum_sizes (trees w') l = sum_sizes (trees w) l.
Proof.
  intros He Hl. induction l as [|c l IH]; [done|]. simpl.
  rewrite IH by (intros c' Hc'; apply Hl; by right).
  destruct (Hl c (list_elem_of_here _ _)) as [t Ht]. unfold size_at.
  by rewrite Ht, (extends_lookup _ _ _ _ He Ht).
Qed.

(** A grove stays one when objects are added. *)
Lemma grove_extends base w w' rk rk' bound subtrees ps :
  extends w w' → (∀ k, (k < length (trees w))%nat → rk' k = rk k) →
  grove base w rk bound subtrees ps → grove base w' rk' bound subtrees ps.
Proof.
  intros He Hrk (Hsub & Hnd & Hsum & Hps).
  assert (Hex : ∀ c, c ∈ subtrees → is_Some (trees w !! c)).
  { intros c Hc. destruct (Hsub c Hc) as [(t & Ht & _) _]. eauto. }
  split; [|split; [done|split]].
  - intros c Hc. destruct (Hsub c Hc) as ((t & Ht & Hp) & Hb & Hr).
    split; [exists t; split; [by eapply extends_lookup|done]|].
    split; [done|]. rewrite Hrk; [done|]. by eapply lookup_lt_Some.
  - by rewrite (sum_sizes_extends w w').
  - intros p Hp. destruct (Hps p Hp) as (c & n & Hc & Hd & Hn).
    exists c, n. split; [done|].
    split; [by eapply extends_desc|by eapply extends_paper_node].
Qed.

Lemma sum_citations_app l1 l2 :
  sum_citations (l1 ++ l2) = sum_citations l1 + sum_citations l2.
Proof. induction l1 as [|p l IH]; simpl; [done|]. rewrite IH. lia. Qed.

Lemma sum_sizes_app h l1 l2 :
  sum_sizes h (l1 ++ l2) = sum_sizes h l1 + sum_sizes h l2.
Proof. induction l1 as [|p l IH]; simpl; [done|]. rewrite IH. lia. Qed.

(** One more subtree in a grove. *)
Lemma grove_snoc base w rk bound subtrees ps c ps' :
  grove base w rk bound subtrees ps →
  root_node (trees w) c → (base ≤ c)%nat → (rk c < bound)%nat →
  c ∉ subtrees → size_at (trees w) c = sum_citations ps' →
  (∀ p, p ∈ ps' → ∃ n, desc (trees w) c n ∧ paper_node w n p) →
  grove base w rk bound (subtrees ++ [c]) (ps ++ ps').
Proof.
  intros (Hsub & Hnd & Hsum & Hps) Hr Hb Hrk Hnew Hsz Hps'.
  split; [|split; [|split]].
  - intros c' [Hc'| ->%list_elem_of_singleton]%elem_of_app; [by apply Hsub|done].
  - apply NoDup_app. split; [done|]. split; [|apply NoDup_singleton].
    intros x Hx ->%list_elem_of_singleton. done.
  - rewrite sum_sizes_app, sum_citations_app, Hsum. simpl. lia.
  - intros p [Hp|Hp]%elem_of_app.
    + destruct (Hps p Hp) as (c' & n & Hc' & Hd & Hn). exists c', n.
      split; [apply elem_of_app; by left|done].
    + destruct (Hps' p Hp) as (n & Hd & Hn). exists c, n.
      split; [apply elem_of_app; right; by apply list_elem_of_singleton|done].
Qed.

Lemma sum_over_reads_value l : ∀ (h : heap) acc,
  (∀ c, c ∈ l → is_Some (h !! c)) →
  sum_over l (λ c, let* st := get c in ret (data_size st)) acc h
  = Ok (acc + sum_sizes h l, h).
Proof.
  induction l as [|c l IH]; intros h acc Hl; simpl.
  - unfold ret. do 2 f_equal. lia.
  - destruct (Hl c (list_elem_of_here _ _)) as [t Ht].
    unfold bind at 1. rewrite (get_bind _ _ _ _ Ht). unfold ret at 1.
    rewrite IH by (intros c' Hc'; apply Hl; by right).
    unfold size_at. rewrite Ht. simpl. do 2 f_equal. lia.
Qed.

(** A leaf for one paper. *)
Lemma paper_leaf_spec pick fuel p h pf rk :
  Inv h → ranked h rk → (1 ≤ fuel)%nat →
  ∃ w' rk',
    paper_leaf pick fuel p (mkWorld h pf) = Done (length h, w')
    ∧ extends (mkWorld h pf) w' ∧ Inv (trees w') ∧ ranked (trees w') rk'
    ∧ (∀ k, (k < length h)%nat → rk' k = rk k) ∧ rk' (length h) = O
    ∧ root_node (trees w') (length h)
    ∧ size_at (trees w') (length h) = p_citations p
    ∧ paper_node w' (length h) p.
Proof.
  intros HI Hrk Hfuel. destruct fuel as [|fuel]; [lia|].
  set (nd := mkTMTree (0, 0, 0, 0) (p_citations p) (pick (length h))
                      (Some (p_title p)) [] None false).
  assert (Hroots : ∀ c, c ∈ _subtrees nd → root_node h c).
  { intros c Hc. by apply elem_of_nil in Hc. }
  destruct (alloc_facts h nd (proj1 HI) Hroots) as (HA1 & HA2 & Hin & Hold & _).
  assert (Hinit : __init__ (S fuel) (Some (p_title p)) [] (p_citations p)
                           (pick (length h)) h
                  = Ok (length h, h ++ [nd])).
  { unfold __init__, alloc. unfold bind at 1. simpl.
    unfold bind at 1. rewrite (get_bind _ _ _ _ HA2). done. }
  destruct (__init___spec _ _ _ _ _ _ _ _ HI Hroots (NoDup_nil_2) Hinit)
    as (HI1 & _).
  exists (mkWorld (h ++ [nd])
            (pf ++ [(length h, mkPaperFields (p_authors p) (p_doi p))])),
    (λ k, if decide (k = length h) then O else rk k).
  split; [by apply PaperTree_plain|]. split; [by eexists _, _|].
  split; [done|]. simpl. split; [|split; [|split; [|split; [|split]]]].
  - intros a b (t & Ht & Hb). destruct (decide (a = length h)) as [->|Ha].
    + rewrite HA2 in Ht. injection Ht as <-. by apply elem_of_nil in Hb.
    + destruct (Hold a b) as [Hc Hbn]; [by exists t|done|].
      rewrite (decide_False (P := b = length h)) by done. by apply Hrk.
  - intros k Hk. rewrite decide_False; [done|lia].
  - by rewrite decide_True.
  - by exists nd.
  - unfold size_at. by rewrite HA2.
  - exists nd. split; [done|]. repeat (split; [done|]).
    simpl. apply elem_of_app. right. by apply list_elem_of_singleton.
Qed.

Lemma grove_below base w rk bound subtrees ps c :
  grove base w rk bound subtrees ps → c ∈ subtrees →
  (c < length (trees w))%nat.
Proof.
  intros (Hsub & _) Hc. destruct (Hsub c Hc) as ((t & Ht & _) & _).
  by eapply lookup_lt_Some.
Qed.

Lemma grove_nil base w rk bound : grove base w rk bound [] [].
Proof.
  split; [|split; [apply NoDup_nil_2|split; [done|]]].
  - intros c Hc. by apply elem_of_nil in Hc.
  - intros p Hp. by apply elem_of_nil in Hp.
Qed.

Lemma kept_refl w : kept w w.
Proof. split; [|done]. intros k t Ht. by exists t. Qed.

Lemma kept_trans w1 w2 w3 : kept w1 w2 → kept w2 w3 → kept w1 w3.
Proof.
  intros [H1 F1] [H2 F2]. split; [|by auto].
  intros k t Ht. destruct (H1 k t Ht) as (t2 & Ht2 & Hn2 & Hs2 & Hd2 & Hp2).
  destruct (H2 k t2 Ht2) as (t3 & Ht3 & Hn3 & Hs3 & Hd3 & Hp3).
  exists t3. split; [done|]. split; [congruence|]. split; [congruence|].
  split; [congruence|]. intros Hp. rewrite Hp3, Hp2; [done|done|].
  by rewrite Hp2.
Qed.

Lemma extends_kept w w' : extends w w' → kept w w'.
Proof.
  intros He. split.
  - intros k t Ht. exists t. split; [by eapply extends_lookup|done].
  - destruct He as (new & f & ->). simpl. intros x Hx. apply elem_of_app.
    by left.
Qed.

Lemma kept_paper_node w w' n p : kept w w' → paper_node w n p → paper_node w' n p.
Proof.
  intros [Hk Hf] (t & Ht & Hn & Hs & Hd & Hfld).
  destruct (Hk n t Ht) as (t' & Ht' & Hn' & Hs' & Hd' & _).
  exists t'. split; [done|]. split; [congruence|]. split; [congruence|].
  split; [congruence|by auto].
Qed.

(** What depicts a dictionary goes on doing so. *)
Lemma depicts_kept w w' d l : kept w w' → depicts w d l → depicts w' d l.
Proof.
  intros Hkept Hd. induction Hd as
    [|entries l leaves rest Hleaves Hrest IH
     |key d l node t rest Hkey Ht Hname Hfld Hkids IHkids Hpar Hrest IHrest].
  - constructor.
  - constructor; [|done].
    eapply Forall2_impl; [exact Hleaves|]. intros n p. by apply kept_paper_node.
  - destruct Hkept as [Hk Hf].
    destruct (Hk node t Ht) as (t' & Ht' & Hn' & Hs' & Hd' & _).
    apply (depicts_category w' key d l node t' rest); try done.
    + congruence.
    + by auto.
    + by rewrite Hs'.
    + rewrite Hs'. intros c Hc. destruct (Hpar c Hc) as (tc & Htc & Hp).
      destruct (Hk c tc Htc) as (tc' & Htc' & _ & _ & _ & Hp').
      exists tc'. split; [done|]. rewrite Hp'; [done|]. by rewrite Hp.
Qed.

Lemma depicts_app w d1 l1 d2 l2 :
  depicts w d1 l1 → depicts w d2 l2 → depicts w (d1 ++ d2) (l1 ++ l2).
Proof.
  intros H1 H2. induction H1; simpl.
  - done.
  - rewrite <- app_assoc. by constructor.
  - by econstructor.
Qed.

(** The leaves for a list of papers, appended to the subtrees built so
    far. *)
Lemma paper_leaves_spec pick fuel base bound :
  (1 ≤ fuel)%nat → (1 ≤ bound)%nat →
  ∀ entries acc ps h pf rk,
    Inv h → ranked h rk → (base ≤ length h)%nat →
    grove base (mkWorld h pf) rk bound acc ps →
    ∃ leaves w' rk',
      append_each entries (paper_leaf pick fuel) acc (mkWorld h pf)
      = Done (acc ++ leaves, w')
      ∧ extends (mkWorld h pf) w' ∧ Inv (trees w') ∧ ranked (trees w') rk'
      ∧ (∀ k, (k < length h)%nat → rk' k = rk k)
      ∧ grove base w' rk' bound (acc ++ leaves) (ps ++ entries)
      ∧ Forall2 (paper_node w') leaves entries.
Proof.
  intros Hfuel Hbound. induction entries as [|p entries IH];
    intros acc ps h pf rk HI Hrk Hbase Hg.
  - exists [], (mkWorld h pf), rk. rewrite !app_nil_r.
    split; [done|]. split; [apply extends_refl|]. done.
  - destruct (paper_leaf_spec pick fuel p h pf rk HI Hrk Hfuel)
      as (w1 & rk1 & Hrun & He1 & HI1 & Hrk1 & Hsame1 & Hzero & Hroot & Hsz & Hpn).
    pose proof He1 as (new1 & f1 & Hw1). simpl in Hw1. subst w1. simpl in *.
    destruct (IH (acc ++ [length h]) (ps ++ [p]) (h ++ new1) (pf ++ f1) rk1)
      as (leaves & w2 & rk2 & Hloop & He2 & HI2 & Hrk2 & Hsame2 & Hg2 & Hl2);
      [done|done|rewrite length_app; lia| |].
    + apply grove_snoc.
      * eapply grove_extends; [exact He1|done|done].
      * done.
      * done.
      * rewrite Hzero. lia.
      * intros Hin. apply (grove_below _ _ _ _ _ _ _ Hg) in Hin.
        simpl in Hin. lia.
      * simpl. rewrite Hsz. lia.
      * intros p' ->%list_elem_of_singleton. exists (length h).
        split; [apply rtc_refl|done].
    + exists (length h :: leaves), w2, rk2. split.
      { simpl. rewrite (xbind_Done _ _ _ _ _ Hrun).
        by rewrite <- app_assoc in Hloop. }
      split; [by eapply extends_trans|]. split; [done|]. split; [done|].
      split.
      { intros k Hk. rewrite Hsame2 by (rewrite length_app; lia).
        by apply Hsame1. }
      split; [by rewrite <- !app_assoc in Hg2|].
      constructor; [|done]. by eapply extends_paper_node.
Qed.

(** A node over the subtrees of a grove. *)
Lemma node_spec load pick fuel name authors doi citations by_year
    w0 w rk bound kids ps :
  extends w0 w → Inv (trees w) → ranked (trees w) rk →
  grove (length (trees w0)) w rk bound kids ps → (bound < fuel)%nat →
  ∃ w' rk' t,
    PaperTree__init__ load pick fuel name kids authors doi citations by_year
                      false w
    = Done (length (trees w), w')
    ∧ extends w0 w' ∧ kept w w' ∧ Inv (trees w') ∧ ranked (trees w') rk'
    ∧ (∀ k, (k < length (trees w))%nat → rk' k = rk k)
    ∧ rk' (length (trees w)) = bound
    ∧ trees w' !! length (trees w) = Some t
    ∧ _parent_tree t = None ∧ _name t = name ∧ _subtrees t = kids
    ∧ data_size t
      = (if bool_decide (kids = []) then citations else sum_citations ps)
    ∧ (length (trees w), mkPaperFields authors doi) ∈ paper_fields w'
    ∧ (∀ c, c ∈ kids → parent_is (trees w') c (length (trees w)))
    ∧ (∀ p, p ∈ ps → ∃ n, desc (trees w') (length (trees w)) n
                          ∧ paper_node w' n p).
Proof.
  intros He HI Hrk (Hsub & Hnd & Hsum & Hps) Hfuel.
  destruct w as [h pf]. simpl in *.
  assert (Hroots : ∀ c, c ∈ kids → root_node h c).
  { intros c Hc. by apply Hsub. }
  destruct (__init___ranked h name kids citations
              (pick (length h)) rk bound fuel (proj1 HI) Hroots Hnd Hrk)
    as (h' & Hinit & Hrk'); [intros c Hc; by apply Hsub|done|].
  destruct (__init___spec _ _ _ _ _ _ _ _ HI Hroots Hnd Hinit)
    as (HI' & _ & _ & Hpar).
  destruct (__init___exact _ _ _ _ _ _ _ _ HI Hroots Hnd Hinit)
    as (_ & Hlen & Hold & Hnew).
  set (self := length h) in *.
  set (w' := mkWorld h' (pf ++ [(self, mkPaperFields authors doi)])).
  assert (Hkept : kept (mkWorld h pf) w').
  { split; simpl.
    - intros k t Ht. eexists. split; [exact (Hold k t Ht)|].
      destruct (decide (k ∈ kids)) as [Hk|Hk]; [|done].
      repeat (split; [done|]). intros Hp.
      destruct (Hroots k Hk) as (t0 & Ht0 & Hp0). congruence.
    - intros x Hx. apply elem_of_app. by left. }
  exists w', (λ k, if decide (k = self) then bound else rk k). eexists.
  split; [by apply PaperTree_plain|].
  split.
  { destruct He as (new & f & Hw). injection Hw as -> ->.
    assert (Hh' : ∃ new', h' = trees w0 ++ new').
    { exists (drop (length (trees w0)) h').
      rewrite <- (take_drop (length (trees w0)) h') at 1. f_equal.
      apply list_eq. intros k.
      destruct (decide (k < length (trees w0))%nat) as [Hk|Hk].
      - rewrite lookup_take_lt by done.
        destruct (lookup_lt_is_Some_2 (trees w0) k Hk) as [t Ht].
        rewrite Ht.
        assert (Ht' : (trees w0 ++ new) !! k = Some t)
          by (by rewrite lookup_app_l).
        rewrite (Hold k t Ht'). rewrite decide_False; [done|].
        intros Hin. apply Hsub in Hin as (_ & Hge & _). lia.
      - rewrite lookup_take_ge by lia. symmetry. apply lookup_ge_None_2. lia. }
    destruct Hh' as (new' & Hh').
    exists new', (f ++ [(self, mkPaperFields authors doi)]).
    unfold w'. rewrite Hh'. simpl. by rewrite app_assoc. }
  split; [done|]. split; [done|]. split; [done|]. split.
  { intros k Hk. rewrite decide_False; [done|]. unfold self. lia. }
  split; [by rewrite decide_True|]. split; [exact Hnew|]. simpl.
  split; [done|]. split; [done|]. split; [done|]. split.
  { by rewrite <- Hsum. }
  split.
  { apply elem_of_app. right. by apply list_elem_of_singleton. }
  split; [done|].
  intros p Hp. destruct (Hps p Hp) as (c & n & Hc & Hd & Hn). exists n. split.
  - eapply rtc_l.
    + eexists. split; [exact Hnew|done].
    + eapply rtc_subrel; [|exact Hd]. intros a b (t & Ht & Hb).
      destruct (proj1 Hkept a t Ht) as (t' & Ht' & _ & Hs' & _).
      exists t'. split; [done|]. by rewrite Hs'.
  - by apply (kept_paper_node (mkWorld h pf)).
Qed.

(** A node for a category over the subtrees built for its contents. *)
Lemma category_node_spec pick fuel category w0 w rk bound kids ps :
  extends w0 w → Inv (trees w) → ranked (trees w) rk →
  grove (length (trees w0)) w rk bound kids ps → (bound < fuel)%nat →
  ∃ w' rk' t,
    (let+ citations := sum_data_sizes kids in
     PaperTree__init__ (λ _, unfinished) pick fuel (Some category) kids
                       "" "" citations true false) w
    = Done (length (trees w), w')
    ∧ extends w0 w' ∧ kept w w' ∧ Inv (trees w') ∧ ranked (trees w') rk'
    ∧ (∀ k, (k < length (trees w))%nat → rk' k = rk k)
    ∧ rk' (length (trees w)) = bound
    ∧ trees w' !! length (trees w) = Some t
    ∧ _parent_tree t = None ∧ _name t = Some category ∧ _subtrees t = kids
    ∧ data_size t = sum_citations ps
    ∧ (length (trees w), mkPaperFields "" "") ∈ paper_fields w'
    ∧ (∀ c, c ∈ kids → parent_is (trees w') c (length (trees w)))
    ∧ (∀ p, p ∈ ps → ∃ n, desc (trees w') (length (trees w)) n
                          ∧ paper_node w' n p).
Proof.
  intros He HI Hrk Hg Hfuel.
  assert (Hsumrun : sum_data_sizes kids w = Done (sum_sizes (trees w) kids, w)).
  { destruct w as [h pf]. unfold sum_data_sizes, call. simpl.
    rewrite (sum_over_reads_value kids h 0), Z.add_0_l; [done|].
    intros c Hc. destruct Hg as (Hsub & _).
    destruct (Hsub c Hc) as ((t & Ht & _) & _). eauto. }
  destruct (node_spec (λ _, unfinished) pick fuel (Some category) "" ""
              (sum_sizes (trees w) kids) true w0 w rk bound kids ps
              He HI Hrk Hg Hfuel)
    as (w' & rk' & t & Hrun & Hrest).
  exists w', rk', t. split.
  { by rewrite (xbind_Done _ _ _ _ _ Hsumrun). }
  destruct Hrest as (? & ? & ? & ? & ? & ? & ? & ? & ? & ? & Hsz & ?).
  repeat (split; [done|]). split; [|done].
  rewrite Hsz. case_bool_decide as Hk; [|done].
  destruct Hg as (_ & _ & Hsum & _). by rewrite <- Hsum.
Qed.

Lemma papers_of_cons key v l :
  papers_of (PDict ((key, v) :: l)) = papers_of v ++ papers_of (PDict l).
Proof. done. Qed.

Lemma depth_cons key v l :
  depth (PDict ((key, v) :: l))
  = S (Nat.max (depth v) (Nat.pred (depth (PDict l)))).
Proof. done. Qed.

Lemma shaped_cons key v l :
  shaped (PDict ((key, v) :: l))
  = (if decide (key = "papers"%string)
     then match v with PList _ => true | PDict _ => false end
     else shaped v) && shaped (PDict l).
Proof. done. Qed.

Lemma build_value_eq pick fuel data :
  build_value pick fuel (PDict data)
  = match item "papers" data, Nat.eqb (length data) 1 with
    | Some v, true => paper_leaves pick fuel v []
    | _, _ => build_each pick fuel data []
    end.
Proof. done. Qed.

Lemma build_each_cons pick fuel category contents l subtrees :
  build_each pick fuel ((category, contents) :: l) subtrees
  = if decide (category = "papers"%string) then
      let+ subtrees' := paper_leaves pick fuel contents subtrees in
      build_each pick fuel l subtrees'
    else
      let+ category_tree := build_value pick fuel contents in
      let+ citations := sum_data_sizes category_tree in
      let+ node :=
        PaperTree__init__ (λ _, unfinished) pick fuel (Some category)
                          category_tree "" "" citations true false in
      build_each pick fuel l (subtrees ++ [node]).
Proof. done. Qed.

(** The loop over the items of a dictionary, once the dictionaries one
    level down can be built. *)
Lemma build_each_grove pick fuel B base bound :
  (∀ d, (depth (PDict d) ≤ B)%nat → shaped (PDict d) = true →
        build_ok pick fuel d) →
  (bound ≤ fuel)%nat →
  ∀ l, (depth (PDict l) ≤ S B)%nat → (depth (PDict l) ≤ bound)%nat →
    shaped (PDict l) = true →
    ∀ done acc ps h pf rk,
      Inv h → ranked h rk → (base ≤ length h)%nat →
      grove base (mkWorld h pf) rk bound acc ps →
      depicts (mkWorld h pf) done acc →
      ∃ subtrees w' rk',
        build_each pick fuel l acc (mkWorld h pf) = Done (subtrees, w')
        ∧ extends (mkWorld h pf) w' ∧ Inv (trees w') ∧ ranked (trees w') rk'
        ∧ (∀ k, (k < length h)%nat → rk' k = rk k)
        ∧ grove base w' rk' bound subtrees (ps ++ papers_of (PDict l))
        ∧ depicts w' (done ++ l) subtrees.
Proof.
  intros IHv Hfuel. induction l as [|[key v] l IH];
    intros HdB Hdb Hshape done acc ps h pf rk HI Hrk Hbase Hg Hdep.
  - exists acc, (mkWorld h pf), rk. simpl. rewrite !app_nil_r.
    split; [done|]. split; [apply extends_refl|]. done.
  - rewrite depth_cons in HdB, Hdb. rewrite shaped_cons in Hshape.
    apply andb_true_iff in Hshape as [Hv Hl].
    assert (HdlB : (depth (PDict l) ≤ S B)%nat)
      by (destruct (depth (PDict l)); lia).
    assert (Hdlb : (depth (PDict l) ≤ bound)%nat)
      by (destruct (depth (PDict l)); lia).
    rewrite build_each_cons, papers_of_cons.
    replace (done ++ (key, v) :: l) with ((done ++ [(key, v)]) ++ l)
      by (by rewrite <- app_assoc).
    destruct (decide (key = "papers"%string)) as [->|Hkey].
    + destruct v as [items|entries]; [done|].
      destruct (paper_leaves_spec pick fuel base bound ltac:(lia) ltac:(lia)
                  entries acc ps h pf rk HI Hrk Hbase Hg)
        as (leaves & w1 & rk1 & Hrun1 & He1 & HI1 & Hrk1 & Hsame1 & Hg1 & Hl1).
      pose proof He1 as (new1 & f1 & Hw1). simpl in Hw1. subst w1.
      simpl in *.
      destruct (IH HdlB Hdlb Hl (done ++ [("papers"%string, PList entries)])
                  (acc ++ leaves) (ps ++ entries) (h ++ new1) (pf ++ f1)
                  rk1 HI1 Hrk1)
        as (sub2 & w2 & rk2 & Hrun2 & He2 & HI2 & Hrk2 & Hsame2 & Hg2 & Hd2);
        [rewrite length_app; lia|done| |].
      { apply depicts_app.
        - eapply depicts_kept; [|exact Hdep]. by apply extends_kept.
        - rewrite <- (app_nil_r leaves). constructor; [done|constructor]. }
      exists sub2, w2, rk2. split.
      { by rewrite (xbind_Done _ _ _ _ _ Hrun1). }
      split; [by eapply extends_trans|]. split; [done|]. split; [done|].
      split.
      { intros k Hk. rewrite Hsame2 by (rewrite length_app; lia).
        by apply Hsame1. }
      split; [by rewrite app_assoc|done].
    + destruct v as [d|entries]; [|done].
      destruct (IHv d ltac:(lia) Hv h pf rk HI Hrk)
        as (kids & w1 & rk1 & Hrun1 & He1 & HI1 & Hrk1 & Hsame1 & Hg1 & Hd1).
      destruct (category_node_spec pick fuel key (mkWorld h pf) w1 rk1
                  (depth (PDict d)) kids (papers_of (PDict d)) He1 HI1 Hrk1
                  Hg1 ltac:(lia))
        as (w2 & rk2 & t & Hrun2 & He2 & Hk2 & HI2 & Hrk2 & Hsame2 & Hnode
            & Ht & Hroot & Hname & Hkids & Hsz & Hfld & Hpar & Hps).
      apply xbind_inv in Hrun2 as (citations & w1' & Hsum & Hinit).
      pose proof (extends_length _ _ He1) as Hlen1. simpl in Hlen1.
      pose proof (extends_length _ _ He2) as Hlen2. simpl in Hlen2.
      pose proof He2 as (new2 & f2 & Hw2). simpl in Hw2. subst w2.
      simpl in *.
      destruct (IH HdlB Hdlb Hl (done ++ [(key, PDict d)])
                  (acc ++ [length (trees w1)])
                  (ps ++ papers_of (PDict d)) (h ++ new2) (pf ++ f2) rk2
                  HI2 Hrk2)
        as (sub3 & w3 & rk3 & Hrun3 & He3 & HI3 & Hrk3 & Hsame3 & Hg3 & Hd3);
        [lia| | |].
      { apply grove_snoc.
        - eapply grove_extends; [exact He2| |exact Hg].
          simpl. intros k Hk. rewrite Hsame2 by lia. by apply Hsame1.
        - by exists t.
        - lia.
        - rewrite Hnode. lia.
        - intros Hin. apply (grove_below _ _ _ _ _ _ _ Hg) in Hin.
          simpl in Hin. lia.
        - unfold size_at. simpl. by rewrite Ht.
        - done. }
      { apply depicts_app.
        - eapply depicts_kept; [|exact Hdep]. by apply extends_kept.
        - apply (depicts_category _ key d [] _ t []); try done.
          + rewrite Hkids. by eapply depicts_kept.
          + by rewrite Hkids.
          + constructor. }
      exists sub3, w3, rk3. split.
      { rewrite (xbind_Done _ _ _ _ _ Hrun1).
        rewrite (xbind_Done _ _ _ _ _ Hsum).
        by rewrite (xbind_Done _ _ _ _ _ Hinit). }
      split; [by eapply extends_trans|]. split; [done|]. split; [done|].
      split.
      { intros k Hk. rewrite Hsame3 by lia.
        rewrite Hsame2 by lia. by apply Hsame1. }
      split; [by rewrite app_assoc|done].
Qed.

(** Every dictionary of the loader's shape can be built, with a budget
    of its depth. *)
Lemma build_value_ok pick fuel :
  ∀ B data, (depth (PDict data) ≤ B)%nat → (B ≤ fuel)%nat →
            shaped (PDict data) = true → build_ok pick fuel data.
Proof.
  induction B as [|B IHB]; intros data Hd Hfuel Hshape.
  { simpl in Hd; lia. }
  intros h pf rk HI Hrk. rewrite build_value_eq.
  assert (Hloop : ∃ subtrees w' rk',
    build_each pick fuel data [] (mkWorld h pf) = Done (subtrees, w')
    ∧ extends (mkWorld h pf) w' ∧ Inv (trees w') ∧ ranked (trees w') rk'
    ∧ (∀ k, (k < length h)%nat → rk' k = rk k)
    ∧ grove (length h) w' rk' (depth (PDict data)) subtrees
            (papers_of (PDict data))
    ∧ depicts w' data subtrees).
  { assert (IHd : ∀ d, (depth (PDict d) ≤ B)%nat → shaped (PDict d) = true →
                         build_ok pick fuel d).
    { intros d Hd' Hs'. apply (IHB d); [done|lia|done]. }
    apply (build_each_grove pick fuel B (length h) (depth (PDict data)) IHd
             ltac:(lia) data Hd ltac:(lia) Hshape [] [] [] h pf rk HI Hrk
             ltac:(lia) (grove_nil _ _ _ _) (depicts_nil _)). }
  destruct (item "papers" data) as [v|] eqn:Hitem; [|exact Hloop].
  destruct (Nat.eqb (length data) 1) eqn:Hone; [|exact Hloop].
  apply Nat.eqb_eq in Hone.
  destruct data as [|[key v'] [|? ?]]; try discriminate.
  simpl in Hitem. destruct (decide (key = "papers"%string)) as [->|]; [|done].
  injection Hitem as ->. rewrite shaped_cons in Hshape.
  rewrite decide_True in Hshape by done.
  destruct v as [items|entries]; [done|].
  destruct (paper_leaves_spec pick fuel (length h) 1 ltac:(lia) ltac:(lia)
              entries [] [] h pf rk HI Hrk ltac:(lia) (grove_nil _ _ _ _))
    as (leaves & w1 & rk1 & Hrun1 & He1 & HI1 & Hrk1 & Hsame1 & Hg1 & Hl1).
  exists leaves, w1, rk1. split; [exact Hrun1|]. repeat (split; [done|]).
  split.
  - rewrite papers_of_cons. simpl. rewrite app_nil_r. by simpl in Hg1.
  - rewrite <- (app_nil_r leaves). constructor; [done|constructor].
Qed.

(** ** Loading the rows *)

Lemma item_set_item_eq key v d : item key (set_item key v d) = Some v.
Proof.
  induction d as [|[k v0] d IH]; simpl.
  - by rewrite decide_True.
  - destruct (decide (k = key)) as [->|Hk]; simpl.
    + by rewrite decide_True.
    + by rewrite decide_False.
Qed.

Lemma item_set_item_ne key key' v d :
  key' ≠ key → item key' (set_item key v d) = item key' d.
Proof.
  intros Hne. induction d as [|[k v0] d IH]; simpl.
  - by rewrite decide_False.
  - destruct (decide (k = key)) as [->|Hk]; simpl.
    + by rewrite !(decide_False (P := key = key')).
    + by rewrite IH.
Qed.

Lemma shaped_item_papers d v :
  shaped (PDict d) = true → item "papers" d = Some v →
  ∃ entries, v = PList entries.
Proof.
  induction d as [|[k v0] d IH]; [done|]. rewrite shaped_cons. simpl.
  intros [Hv Hd]%andb_true_iff. destruct (decide (k = "papers"%string)).
  - intros [= ->]. destruct v; [done|eauto].
  - by apply IH.
Qed.

Lemma shaped_item_other key d v :
  shaped (PDict d) = true → key ≠ "papers"%string → item key d = Some v →
  ∃ below, v = PDict below ∧ shaped (PDict below) = true.
Proof.
  intros Hs Hkey. induction d as [|[k v0] d IH]; [done|].
  rewrite shaped_cons in Hs. apply andb_true_iff in Hs as [Hv Hd]. simpl.
  destruct (decide (k = key)) as [->|Hk].
  - intros [= ->]. rewrite decide_False in Hv by done.
    destruct v; [eauto|done].
  - by apply IH.
Qed.

Lemma shaped_set_item key v d :
  shaped (PDict d) = true →
  (if decide (key = "papers"%string)
   then match v with PList _ => true | PDict _ => false end
   else shaped v) = true →
  shaped (PDict (set_item key v d)) = true.
Proof.
  intros Hs Hv. induction d as [|[k v0] d IH].
  - simpl set_item. rewrite shaped_cons. by rewrite Hv.
  - rewrite shaped_cons in Hs. apply andb_true_iff in Hs as [Hv0 Hd].
    simpl set_item. destruct (decide (k = key)) as [->|Hk].
    + rewrite shaped_cons. by rewrite Hv, Hd.
    + rewrite shaped_cons. by rewrite Hv0, IH.
Qed.

Lemma papers_of_set_item key v' d dflt p :
  papers_of dflt = [] →
  papers_of v' ≡ₚ papers_of (default dflt (item key d)) ++ [p] →
  papers_of (PDict (set_item key v' d)) ≡ₚ papers_of (PDict d) ++ [p].
Proof.
  intros Hdflt. induction d as [|[k v0] d IH]; intros Hv'.
  - simpl in Hv'. rewrite Hdflt in Hv'. simpl set_item.
    rewrite papers_of_cons. simpl. by rewrite app_nil_r.
  - simpl in Hv'. simpl set_item. destruct (decide (k = key)) as [->|Hk].
    + rewrite !papers_of_cons. simpl in Hv'. rewrite Hv'.
      rewrite <- !app_assoc. apply Permutation_app_head.
      apply Permutation_app_comm.
    + rewrite !papers_of_cons. rewrite IH by done. by rewrite app_assoc.
Qed.

Lemma entries_at_nil keys : entries_at keys [] = [].
Proof. by destruct keys. Qed.

(** One paper added under the keys [categories] of a well-shaped
    dictionary. *)
Lemma add_paper_spec int authors title year doi citations n :
  int citations = Some n →
  ∀ categories d,
    "papers"%string ∉ categories → shaped (PDict d) = true →
    ∃ d', add_paper int categories authors title year doi citations d
          = inr d'
      ∧ shaped (PDict d') = true
      ∧ papers_of (PDict d')
        ≡ₚ papers_of (PDict d) ++ [mkPaper authors title year doi n]
      ∧ ∀ keys, entries_at keys d'
                = entries_at keys d
                  ++ (if decide (keys = categories)
                      then [mkPaper authors title year doi n] else []).
Proof.
  intros Hint. set (p := mkPaper authors title year doi n).
  induction categories as [|category rest IH]; intros d Hno Hs.
  - simpl. rewrite Hint.
    assert (He : ∃ entries, default (PList []) (item "papers" d)
                            = PList entries
                            ∧ entries_at [] d = entries).
    { unfold entries_at. simpl.
      destruct (item "papers" d) as [v|] eqn:Hit; [|by exists []].
      destruct (shaped_item_papers d v Hs Hit) as (e & ->). by exists e. }
    destruct He as (entries & Hd & Hentries). rewrite Hd.
    eexists. split; [done|]. split; [by apply shaped_set_item|]. split.
    + apply (papers_of_set_item _ _ _ (PList [])); [done|]. by rewrite Hd.
    + intros [|k ks].
      * rewrite decide_True by done. rewrite Hentries.
        unfold entries_at. simpl. by rewrite item_set_item_eq.
      * rewrite decide_False by done. rewrite app_nil_r.
        unfold entries_at. simpl.
        destruct (decide (k = "papers"%string)) as [->|Hk].
        -- rewrite item_set_item_eq.
           destruct (item "papers" d) as [v|] eqn:Hit; [|done].
           by destruct (shaped_item_papers d v Hs Hit) as (e & ->).
        -- by rewrite item_set_item_ne.
  - apply not_elem_of_cons in Hno as [Hcat Hrest]. simpl.
    assert (Hb : ∃ below, default (PDict []) (item category d) = PDict below
                          ∧ shaped (PDict below) = true
                          ∧ ∀ ks, entries_at (category :: ks) d
                                  = entries_at ks below).
    { destruct (item category d) as [v|] eqn:Hit.
      - destruct (shaped_item_other category d v Hs ltac:(done) Hit)
          as (below & -> & Hsb).
        exists below. split; [done|]. split; [done|].
        intros ks. unfold entries_at. simpl. by rewrite Hit.
      - exists []. split; [done|]. split; [done|].
        intros ks. rewrite entries_at_nil. unfold entries_at. simpl.
        by rewrite Hit. }
    destruct Hb as (below & Hd & Hsb & Hbelow). rewrite Hd.
    destruct (IH below Hrest Hsb) as (below' & -> & Hs' & Hp' & He').
    eexists. split; [done|]. split.
    { apply shaped_set_item; [done|]. by rewrite decide_False. }
    split.
    { apply (papers_of_set_item _ _ _ (PDict [])); [done|]. by rewrite Hd. }
    intros [|k ks].
    + rewrite decide_False by done. rewrite app_nil_r.
      unfold entries_at. simpl. by rewrite item_set_item_ne.
    + destruct (decide (k = category)) as [->|Hk].
      * rewrite (Hbelow ks).
        assert (Hl : entries_at (category :: ks)
                       (set_item category (PDict below') d)
                     = entries_at ks below').
        { unfold entries_at. simpl. by rewrite item_set_item_eq. }
        rewrite Hl, He'. f_equal.
        destruct (decide (ks = rest)) as [->|Hne].
        -- by rewrite decide_True.
        -- rewrite decide_False; [done|]. by intros [= ->].
      * rewrite decide_False by (by intros [= -> _]). rewrite app_nil_r.
        unfold entries_at. simpl. by rewrite item_set_item_ne.
Qed.

Lemma split_colon_space_nonempty s : ∀ piece, split_colon_space s piece ≠ [].
Proof.
  induction s as [|c s IH]; intros piece; [done|]. simpl.
  destruct (Ascii.eqb_spec c ":"%char) as [->|Hc].
  - destruct s as [|c' s]; [done|].
    destruct (Ascii.eqb_spec c' " "%char) as [->|Hc']; [done|].
    destruct c' as [[] [] [] [] [] [] [] []]; try done; apply IH.
  - destruct c as [[] [] [] [] [] [] [] []]; try done; apply IH.
Qed.

(** With the year first, a row is entered like any other path of keys. *)
Lemma add_row_six int by_year authors title year category_string doi
    citations data :
  add_row int by_year [authors; title; year; category_string; doi; citations]
          data
  = add_paper int
      (row_keys by_year
                [authors; title; year; category_string; doi; citations])
      authors title year doi citations data.
Proof.
  destruct by_year; [|done]. simpl.
  destruct (default (PDict []) (item year data)); [done|].
  pose proof (split_colon_space_nonempty category_string "") as Hne.
  by destruct (split_colon_space category_string "").
Qed.



Lemma omap_cons_Some {A B} (f : A → option B) x l y :
  f x = Some y → omap f (x :: l) = y :: omap f l.
Proof. intros Hx. simpl. by rewrite Hx. Qed.

Lemma add_rows_spec int by_year :
  ∀ rows data,
    (∀ row, row ∈ rows → is_Some (row_paper int row)
                         ∧ "papers"%string ∉ row_keys by_year row) →
    shaped (PDict data) = true →
    ∃ data', add_rows int by_year rows data = inr data'
      ∧ shaped (PDict data') = true
      ∧ papers_of (PDict data')
        ≡ₚ papers_of (PDict data) ++ omap (row_paper int) rows
      ∧ ∀ keys, entries_at keys data'
                = entries_at keys data
                  ++ omap (row_paper int)
                       (filter (λ row, row_keys by_year row = keys) rows).
Proof.
  induction rows as [|row rows IH]; intros data Hrows Hs.
  - exists data. split; [done|]. split; [done|]. split.
    + simpl. by rewrite app_nil_r.
    + intros keys. simpl. by rewrite app_nil_r.
  - destruct (Hrows row (list_elem_of_here _ _)) as [[p Hp] Hno].
    destruct row as [|a [|t [|y [|cs [|doi [|c [|? ?]]]]]]];
      try discriminate.
    set (row := [a; t; y; cs; doi; c]) in *.
    assert (Hint : ∃ n, int c = Some n ∧ p = mkPaper a t y doi n).
    { unfold row_paper, row in Hp. destruct (int c) as [n|]; [|done].
      injection Hp as <-. eauto. }
    destruct Hint as (n & Hint & ->).
    destruct (add_paper_spec int a t y doi c n Hint (row_keys by_year row)
                data Hno Hs) as (data1 & Hrun1 & Hs1 & Hp1 & He1).
    destruct (IH data1) as (data2 & Hrun2 & Hs2 & Hp2 & He2);
      [intros r Hr; apply Hrows; by right|done|].
    exists data2. split.
    { change (add_rows int by_year (row :: rows) data)
        with (match add_row int by_year row data with
              | inr data' => add_rows int by_year rows data'
              | inl e => inl e
              end).
      unfold row at 1. rewrite add_row_six. fold row. by rewrite Hrun1. }
    split; [done|]. split.
    + rewrite Hp2, Hp1. rewrite (omap_cons_Some _ _ _ _ Hp).
      by rewrite <- app_assoc.
    + intros keys. rewrite He2, He1. rewrite <- app_assoc. f_equal.
      rewrite filter_cons.
      destruct (decide (keys = row_keys by_year row)) as [->|Hne].
      * rewrite decide_True by done. by rewrite (omap_cons_Some _ _ _ _ Hp).
      * rewrite decide_False by done. done.
Qed.

(** The loader on well-formed data: every row has six
    fields, its last field is an integer, and no year or category is
    called 'papers'.  The header is skipped; the dictionary returned has
    a list under every 'papers' and dictionaries elsewhere; it holds the
    papers of the rows and no others; under a path of keys, the papers of
    the rows with that path, in the order of the rows. *)
Theorem _load_papers_to_dict_spec int header rows by_year :
  (∀ row, row ∈ rows → is_Some (row_paper int row)
                       ∧ "papers"%string ∉ row_keys by_year row) →
  ∃ data,
    _load_papers_to_dict int (header :: rows) by_year = inr data
    ∧ shaped (PDict data) = true
    ∧ papers_of (PDict data) ≡ₚ omap (row_paper int) rows
    ∧ ∀ keys, entries_at keys data
              = omap (row_paper int)
                  (filter (λ row, row_keys by_year row = keys) rows).
Proof.
  intros Hrows.
  destruct (add_rows_spec int by_year rows [] Hrows eq_refl)
    as (data & Hrun & Hs & Hp & He).
  exists data. split; [done|]. split; [done|]. split; [done|].
  intros keys. by rewrite He, entries_at_nil.
Qed.


(** ** The trees of the data set *)

(** Building the trees of a dictionary of the loader's shape, with a
    budget of at least its depth, in a store that satisfies the
    invariant: the call returns; it adds objects and changes none; the
    subtrees returned are new, distinct and parentless; they depict the
    dictionary, item by item; their sizes add up to the citations of all
    the papers in it; the store still satisfies the invariant. *)
Theorem _build_tree_from_dict_spec pick fuel data name h pf :
  shaped (PDict data) = true → (depth (PDict data) ≤ fuel)%nat → Inv h →
  ∃ subtrees w',
    _build_tree_from_dict pick fuel data name (mkWorld h pf)
    = Done (subtrees, w')
    ∧ extends (mkWorld h pf) w' ∧ Inv (trees w')
    ∧ NoDup subtrees
    ∧ (∀ c, c ∈ subtrees → root_node (trees w') c ∧ (length h ≤ c)%nat)
    ∧ depicts w' data subtrees
    ∧ sum_sizes (trees w') subtrees = sum_citations (papers_of (PDict data)).
Proof.
  intros Hs Hd HI. destruct (wf_acyclic _ (proj1 HI)) as [rk Hrk].
  destruct (build_value_ok pick fuel (depth (PDict data)) data
              ltac:(lia) Hd Hs h pf rk HI Hrk)
    as (subtrees & w' & rk' & Hrun & He & HI' & _ & _ & Hg & Hdep).
  destruct Hg as (Hsub & Hnd & Hsum & _).
  exists subtrees, w'. repeat (split; [done|]). split; [|done].
  intros c Hc. destruct (Hsub c Hc) as (Hr & Hb & _). done.
Qed.

Lemma sum_citations_perm l1 l2 :
  l1 ≡ₚ l2 → sum_citations l1 = sum_citations l2.
Proof. induction 1; simpl in *; lia. Qed.

Lemma depicts_category_nonempty w d l key below :
  depicts w d l → item key d = Some (PDict below) → l ≠ [].
Proof.
  induction 1 as [|entries l leaves rest Hleaves Hrest IH
                  |key' d l node t rest]; simpl; [done| |done].
  destruct (decide ("papers"%string = key)); [done|].
  intros Hit. specialize (IH Hit). by destruct leaves, rest.
Qed.

Lemma row_keys_nonempty int by_year row :
  is_Some (row_paper int row) → row_keys by_year row ≠ [].
Proof.
  intros [p Hp].
  destruct row as [|a [|t [|y [|cs [|doi [|c [|? ?]]]]]]]; try discriminate.
  unfold row_keys. destruct by_year; [done|]. simpl.
  apply split_colon_space_nonempty.
Qed.

(** [PaperTree(name, subtrees, authors, doi, citations, by_year,
    all_papers=True)] on a data file of well-formed rows: with a large
    enough budget the call returns a new parentless node of the given
    name, authors and doi whose children depict the dictionary loaded from
    the file and have the node as their parent; the objects that were
    there are not changed and the invariant is kept.  The node's size is
    the sum of the citations of all rows; with no rows, it is a leaf whose
    size is the [citations] argument.  The [subtrees] argument is not
    used. *)
Theorem PaperTree_all_papers_spec int header rows pick name subtrees authors
    doi citations by_year h pf :
  (∀ row, row ∈ rows → is_Some (row_paper int row)
                       ∧ "papers"%string ∉ row_keys by_year row) →
  Inv h →
  ∃ data fuel0,
    _load_papers_to_dict int (header :: rows) by_year = inr data
    ∧ ∀ fuel, (fuel0 ≤ fuel)%nat →
      ∃ self w' t,
        PaperTree int (inr (header :: rows)) pick fuel name subtrees authors
                  doi citations by_year true (mkWorld h pf)
        = Done (self, w')
        ∧ extends (mkWorld h pf) w' ∧ Inv (trees w')
        ∧ trees w' !! self = Some t
        ∧ _name t = name ∧ _parent_tree t = None
        ∧ (self, mkPaperFields authors doi) ∈ paper_fields w'
        ∧ depicts w' data (_subtrees t)
        ∧ (∀ c, c ∈ _subtrees t → parent_is (trees w') c self)
        ∧ (rows ≠ [] →
           data_size t = sum_citations (omap (row_paper int) rows))
        ∧ (rows = [] → _subtrees t = [] ∧ data_size t = citations).
Proof.
  intros Hrows HI.
  destruct (add_rows_spec int by_year rows [] Hrows eq_refl)
    as (data & Hload & Hs & Hperm & Hat).
  change (add_rows int by_year rows [])
    with (_load_papers_to_dict int (header :: rows) by_year) in Hload.
  exists data, (S (depth (PDict data))). split; [done|].
  intros fuel Hfuel. destruct (wf_acyclic _ (proj1 HI)) as [rk Hrk].
  destruct (build_value_ok pick fuel (depth (PDict data)) data
              ltac:(lia) ltac:(lia) Hs h pf rk HI Hrk)
    as (kids & w1 & rk1 & Hrun1 & He1 & HI1 & Hrk1 & Hsame1 & Hg1 & Hd1).
  destruct (node_spec
              (λ by_year,
                 let+ reader := returned (inr (header :: rows)) in
                 let+ data :=
                   returned (_load_papers_to_dict int reader by_year) in
                 _build_tree_from_dict pick fuel data "CS1")
              pick fuel name authors doi citations by_year
              (mkWorld h pf) w1 rk1 (depth (PDict data)) kids
              (papers_of (PDict data)) He1 HI1 Hrk1 Hg1 ltac:(lia))
    as (w2 & rk2 & t & Hrun2 & He2 & Hk2 & HI2 & Hrk2 & Hsame2 & Hnode
        & Ht & Hroot & Hname & Hkids & Hsz & Hfld & Hpar & Hps).
  exists (length (trees w1)), w2, t. split.
  { unfold PaperTree.
    change (PaperTree__init__ ?load pick fuel name subtrees authors doi
              citations by_year true)
      with (let+ kids := load by_year in
            PaperTree__init__ load pick fuel name kids authors doi
                              citations by_year false).
    apply xbind_inv. exists kids, w1. split; [|done].
    unfold xbind, returned, xret. cbv beta iota. rewrite Hload.
    exact Hrun1. }
  split; [done|]. split; [done|]. split; [done|]. split; [done|].
  split; [done|]. split; [done|]. split.
  { rewrite Hkids. by eapply depicts_kept. }
  split; [by rewrite Hkids|]. split.
  - intros Hne. rewrite Hsz.
    assert (Hkne : kids ≠ []).
    { destruct rows as [|row rows']; [done|].
      destruct (Hrows row (list_elem_of_here _ _)) as [[p Hp] Hno].
      pose proof (row_keys_nonempty int by_year row (mk_is_Some _ _ Hp))
        as Hkeys.
      specialize (Hat (row_keys by_year row)).
      rewrite entries_at_nil, filter_cons, decide_True in Hat by done.
      rewrite (omap_cons_Some _ _ _ _ Hp) in Hat.
      destruct (row_keys by_year row) as [|k ks]; [done|].
      unfold entries_at in Hat. simpl in Hat.
      destruct (item k data) as [[below|?]|] eqn:Hit; try done.
      by eapply depicts_category_nonempty. }
    rewrite bool_decide_false by done.
    by apply sum_citations_perm.
  - intros ->. simpl in Hload. injection Hload as <-.
    assert (Hk : kids = []) by (by inversion Hd1).
    rewrite Hk in Hkids, Hsz.
    split; [done|]. rewrite Hsz. by rewrite bool_decide_true.
Qed.

(** * The further properties on the example stores *)

Lemma forest_two_leaves : forest two_leaves.
Proof. apply wf_forest, reachable_Inv, reachable_two_leaves. Qed.

Lemma forest_chain3 : forest chain3.
Proof. apply wf_forest, reachable_Inv, reachable_chain3. Qed.

Lemma reachable_chain3_expanded : reachable chain3_expanded.
Proof.
  eapply (reach_mutation chain3 3 (ExpandAll 2%nat));
    [apply reachable_chain3|reflexivity].
Qed.

Lemma forest_chain3_expanded : forest chain3_expanded.
Proof. apply wf_forest, reachable_Inv, reachable_chain3_expanded. Qed.

Lemma forest_gap_tree : forest gap_tree.
Proof. apply wf_forest, reachable_Inv, reachable_gap_tree. Qed.

Lemma named_below_all h a :
  Forall (λ t, _name t ≠ None) h → named_below h a.
Proof.
  intros HF x t _ Ht. rewrite Forall_forall in HF. apply HF.
  by eapply list_elem_of_lookup_2.
Qed.

Lemma Inv_nil : Inv [].
Proof. apply reachable_Inv, reach_empty. Qed.

Lemma update_data_sizes_spec_witness :
  ∃ fuel v h', update_data_sizes fuel 2%nat two_leaves = Ok (v, h')
               ∧ size_at h' 2%nat = v
               ∧ update_data_sizes fuel 2%nat h' = Ok (v, h').
Proof.
  destruct (update_data_sizes_spec two_leaves 2%nat forest_two_leaves)
    as (fuel0 & Hf); [by eexists|].
  destruct (Hf fuel0 (le_n _))
    as (v & h' & Hrun & _ & _ & _ & _ & Hv & Hagain).
  by exists fuel0, v, h'.
Defined.

Lemma move_spec_witness :
  ∃ fuel h', move fuel 0%nat 2%nat chain3 = Ok (tt, h') ∧ Inv h'
             ∧ parent_is h' 0%nat 2%nat ∧ collapsed h' 1%nat
             ∧ size_at h' 1%nat = 0.
Proof.
  destruct (move_spec chain3 0%nat 2%nat _ _ 1%nat 2%nat 2%nat
              (reachable_Inv _ reachable_chain3)
              eq_refl eq_refl eq_refl eq_refl)
    as (tp & l & Hp & Hl & fuel0 & Hf).
  - discriminate.
  - discriminate.
  - discriminate.
  - eexists. split; reflexivity.
  - eapply rtc_l; [eexists; split; [reflexivity|left]|].
    apply rtc_once. eexists. split; [reflexivity|left].
  - eexists. split; reflexivity.
  - apply rtc_refl.
  - injection Hp as <-. injection Hl as <-.
    destruct (Hf fuel0 (le_n _))
      as (h' & Hrun & HI & Hs & _ & (tp' & Htp' & Hno & Hzero) & _).
    exists fuel0, h'. split; [done|]. split; [done|]. split.
    + eexists. split; [exact Hs|reflexivity].
    + split.
      * intros t Ht. rewrite Htp' in Ht. injection Ht as <-.
        by injection Hno.
      * unfold size_at. rewrite Htp'. by apply Hzero.
Defined.

Lemma move_parentless_raises_witness :
  move 3 3%nat 2%nat leaf_beside = Raise AttributeError.
Proof.
  apply (move_parentless_raises 3 leaf_beside 3%nat 2%nat _ _
           eq_refl eq_refl eq_refl eq_refl); discriminate.
Defined.

Lemma delete_self_spec_witness :
  ∃ fuel h', delete_self fuel 1%nat two_leaves = Ok (true, h') ∧ Inv h'
             ∧ size_at h' 1%nat = 0.
Proof.
  destruct (delete_self_spec two_leaves 1%nat _ 2%nat 2%nat
              (reachable_Inv _ reachable_two_leaves) eq_refl eq_refl)
    as (tp & l & _ & _ & fuel0 & Hf).
  - eexists. split; reflexivity.
  - apply rtc_once. eexists. split; [reflexivity|right; left].
  - destruct (Hf fuel0 (le_n _)) as (h' & Hrun & HI & Hs & _).
    exists fuel0, h'. split; [done|]. split; [done|].
    unfold size_at. by rewrite Hs.
Defined.

Lemma expand_all_spec_witness :
  ∃ fuel h', expand_all fuel 2%nat chain3 = Ok (tt, h')
             ∧ opened h' 2%nat ∧ opened h' 1%nat ∧ opened h' 0%nat.
Proof.
  destruct (expand_all_spec chain3 2%nat forest_chain3) as (fuel0 & Hf);
    [by eexists|].
  destruct (Hf fuel0 (le_n _)) as (h' & Hrun & _ & Hopen & _).
  assert (H1 : desc chain3 2%nat 1%nat).
  { apply rtc_once. eexists. split; [reflexivity|left]. }
  assert (H0 : desc chain3 2%nat 0%nat).
  { eapply rtc_r; [exact H1|]. eexists. split; [reflexivity|left]. }
  exists fuel0, h'. split; [done|]. split; [apply Hopen, rtc_refl|].
  split; by apply Hopen.
Defined.

Lemma collapse_all_spec_witness :
  ∃ fuel h', collapse_all fuel 0%nat chain3_expanded = Ok (tt, h')
             ∧ collapsed h' 2%nat ∧ collapsed h' 1%nat.
Proof.
  destruct (collapse_all_spec chain3_expanded 0%nat 2%nat
              forest_chain3_expanded) as (fuel0 & Hf).
  - eapply rtc_l; [eexists; split; reflexivity|].
    apply rtc_once. eexists. split; reflexivity.
  - eexists. split; reflexivity.
  - destruct (Hf fuel0 (le_n _)) as (h' & Hrun & _ & Hcol & _).
    exists fuel0, h'. split; [done|]. split; [apply Hcol, rtc_refl|].
    apply Hcol, rtc_once. eexists. split; [reflexivity|left].
Defined.

Lemma get_rectangles_spec_witness :
  ∃ fuel ms rects,
    get_rectangles fuel 4%nat gap_tree = Ok (rects, gap_tree)
    ∧ Forall2 (drawn_as gap_tree) ms rects
    ∧ (0%nat ∈ ms ∧ 3%nat ∉ ms).
Proof.
  destruct (get_rectangles_spec gap_tree 4%nat forest_gap_tree)
    as (fuel0 & Hf); [by eexists| |].
  { apply named_below_all. repeat constructor; discriminate. }
  destruct (Hf fuel0 (le_n _)) as (ms & rects & Hrun & HF & _ & Hms).
  exists fuel0, ms, rects. split; [done|]. split; [done|]. split.
  - apply Hms. split.
    + split; [apply rtc_once; eexists; split; [reflexivity|split; [reflexivity|left]]|].
      eexists. split; [reflexivity|by left].
    + eexists. split; [reflexivity|]. intros [Hz _]. discriminate.
  - intros [_ (t & Ht & Hnb)]%Hms. injection Ht as <-. by apply Hnb.
Defined.


Lemma collapse_all_one_rectangle_witness :
  ∃ fuel h', collapse_all fuel 0%nat chain3_expanded = Ok (tt, h')
             ∧ get_rectangles fuel 2%nat h' = Ok ([((0, 0, 0, 0), grey)], h')
             ∧ get_tree_at_position fuel 2%nat (0, 0) h' = Ok (Some 2%nat, h').
Proof.
  destruct (collapse_all_one_rectangle chain3_expanded 0%nat 2%nat
              (mkTMTree (0, 0, 0, 0) 5 grey (Some "root"%string) [1%nat]
                        None true)
              forest_chain3_expanded) as (fuel0 & Hf).
  - eapply rtc_l; [eexists; split; reflexivity|].
    apply rtc_once. eexists. split; reflexivity.
  - eexists. split; reflexivity.
  - reflexivity.
  - discriminate.
  - intros [_ Hl]. discriminate.
  - destruct (Hf fuel0 (le_n _)) as (h' & Hrun & Hget & Hq).
    exists fuel0, h'. split; [done|]. split; [done|].
    apply Hq. simpl. lia.
Defined.

Lemma expand_all_shows_leaves_witness :
  ∃ fuel h' ms rects,
    expand_all fuel 2%nat two_leaves = Ok (tt, h')
    ∧ get_rectangles fuel 2%nat h' = Ok (rects, h')
    ∧ Forall2 (drawn_as two_leaves) ms rects
    ∧ (0%nat ∈ ms ∧ 1%nat ∈ ms ∧ 2%nat ∉ ms).
Proof.
  destruct (expand_all_shows_leaves two_leaves 2%nat forest_two_leaves)
    as (fuel0 & Hf); [by eexists| |].
  { apply named_below_all. repeat constructor; discriminate. }
  destruct (Hf fuel0 (le_n _)) as (h' & ms & rects & Hrun & Hget & HF & _ & Hms).
  exists fuel0, h', ms, rects. split; [done|]. split; [done|].
  split; [done|]. split; [|split].
  - apply Hms. split.
    + apply rtc_once. eexists. split; [reflexivity|left].
    + eexists. split; [reflexivity|]. split; [reflexivity|discriminate].
  - apply Hms. split.
    + apply rtc_once. eexists. split; [reflexivity|right; left].
    + eexists. split; [reflexivity|]. split; [reflexivity|discriminate].
  - intros [_ (t & Ht & Hl & _)]%Hms. injection Ht as <-. discriminate.
Defined.

Lemma get_path_string_base_class_witness :
  get_path_string TMTree_get_separator 1 2%nat (mkWorld chain3 [])
  = Done (Some "root"%string, mkWorld chain3 [])
  ∧ ∃ fuel,
      get_path_string TMTree_get_separator fuel 0%nat (mkWorld chain3 [])
      = Fails NotImplementedError.
Proof.
  split.
  - exact (proj1 (get_path_string_base_class chain3 [] 2%nat _ eq_refl)
             eq_refl 0%nat).
  - destruct (proj2 (get_path_string_base_class chain3 [] 0%nat _ eq_refl)
                2%nat) as (fuel0 & Hf).
    + discriminate.
    + eapply rtc_l; [eexists; split; reflexivity|].
      apply rtc_once. eexists. split; reflexivity.
    + eexists. split; reflexivity.
    + exists fuel0. by apply Hf.
Defined.


Lemma _same_spec_witness :
  ∃ c, _same [0; 1]%nat two_leaves_laid_out
       = Ok (Some c, two_leaves_laid_out)
       ∧ c ∈ [0; 1]%nat.
Proof.
  destruct (_same_spec two_leaves_laid_out [0; 1]%nat)
    as (res & Hrun & _ & Hsome & _).
  - intros n [->|[->|[]%elem_of_nil]%elem_of_cons]%elem_of_cons; by eexists.
  - destruct Hsome as (c & -> & Hc); [discriminate|]. by exists c.
Defined.

Lemma __init___full_spec_witness :
  ∃ fuel h',
    __init__ fuel (Some "top"%string) [2%nat] 0 grey two_leaves
    = Ok (3%nat, h')
    ∧ Inv h'
    ∧ h' !! 3%nat
      = Some (mkTMTree (0, 0, 0, 0) 50 grey (Some "top"%string) [2%nat]
                       None false).
Proof.
  destruct (__init___full_spec two_leaves (Some "top"%string) [2%nat] 0 grey
              (reachable_Inv _ reachable_two_leaves)) as (fuel0 & Hf).
  - intros c ->%list_elem_of_singleton. eexists. split; reflexivity.
  - apply NoDup_singleton.
  - destruct (Hf fuel0 (le_n _)) as (h' & Hrun & HI & _ & _ & Hnew).
    by exists fuel0, h'.
Defined.

Lemma readable_docs : readable docs_os "docs".
Proof.
  eapply readable_dir; [reflexivity|reflexivity|].
  intros f [->|[->|[]%elem_of_nil]%elem_of_cons]%elem_of_cons;
    eapply readable_file; reflexivity.
Qed.

Lemma FileSystemTree_spec_witness :
  ∃ fuel self w',
    FileSystemTree__init__ docs_os (λ _, grey) fuel "docs" (mkWorld [] [])
    = Done (self, w')
    ∧ Inv (trees w') ∧ mirrors docs_os (trees w') "docs" self.
Proof.
  destruct (FileSystemTree_spec docs_os (λ _, grey) "docs") as [Heff Htot].
  destruct (Htot readable_docs) as (fuel0 & Hf).
  destruct (Hf fuel0 [] [] (le_n _) Inv_nil) as (self & w' & Hrun).
  destruct (Heff _ _ _ _ _ Inv_nil Hrun)
    as (_ & new & -> & HI & _ & _ & Hm).
  by exists fuel0, self, (mkWorld ([] ++ new) []).
Defined.

Lemma _build_tree_from_dict_spec_witness :
  ∃ subtrees w',
    _build_tree_from_dict (λ _, grey) 4 sample_dict "CS1" (mkWorld [] [])
    = Done (subtrees, w')
    ∧ Inv (trees w') ∧ depicts w' sample_dict subtrees
    ∧ sum_sizes (trees w') subtrees = 12.
Proof.
  destruct (_build_tree_from_dict_spec (λ _, grey) 4 sample_dict "CS1" [] [])
    as (subtrees & w' & Hrun & _ & HI & _ & _ & Hdep & Hsum).
  - vm_compute. reflexivity.
  - apply Nat.leb_le. vm_compute. reflexivity.
  - exact Inv_nil.
  - exists subtrees, w'. split; [exact Hrun|]. split; [exact HI|].
    split; [exact Hdep|]. rewrite Hsum. vm_compute. reflexivity.
Defined.

Lemma sample_rows_well_formed row :
  row ∈ sample_rows →
  is_Some (row_paper int_of_digits row)
  ∧ "papers"%string ∉ row_keys true row.
Proof.
  intros Hrow. unfold sample_rows in Hrow.
  repeat (apply elem_of_cons in Hrow as [->|Hrow]);
    [| | |by apply elem_of_nil in Hrow];
    (split; [by eexists|]); vm_compute;
    intros Hin; repeat (apply elem_of_cons in Hin as [Hin|Hin];
                        [discriminate|]); by apply elem_of_nil in Hin.
Qed.

Lemma _load_papers_to_dict_spec_witness :
  _load_papers_to_dict int_of_digits (sample_header :: sample_rows) true
  = inr sample_dict
  ∧ entries_at ["2001"; "Education"]%string sample_dict
    = [mkPaper "Bob" "On maps" "2001" "10.1/2" 7].
Proof.
  destruct (_load_papers_to_dict_spec int_of_digits sample_header sample_rows
              true sample_rows_well_formed)
    as (data & Hrun & _ & _ & Hat).
  assert (Hload : _load_papers_to_dict int_of_digits
                    (sample_header :: sample_rows) true = inr sample_dict)
    by (vm_compute; reflexivity).
  split; [exact Hload|]. rewrite Hload in Hrun. injection Hrun as <-.
  rewrite (Hat ["2001"; "Education"]%string). vm_compute. reflexivity.
Defined.


Lemma PaperTree_all_papers_spec_witness :
  ∃ fuel self w' t,
    PaperTree int_of_digits (inr (sample_header :: sample_rows)) (λ _, grey)
              fuel (Some "CS1"%string) [] "" "" 0 true true (mkWorld [] [])
    = Done (self, w')
    ∧ trees w' !! self = Some t ∧ _name t = Some "CS1"%string
    ∧ depicts w' sample_dict (_subtrees t) ∧ data_size t = 12.
Proof.
  destruct (PaperTree_all_papers_spec int_of_digits sample_header sample_rows
              (λ _, grey) (Some "CS1"%string) [] "" "" 0 true [] []
              sample_rows_well_formed Inv_nil)
    as (data & fuel0 & Hload & Hf).
  assert (Hdict : _load_papers_to_dict int_of_digits
                    (sample_header :: sample_rows) true = inr sample_dict)
    by (vm_compute; reflexivity).
  rewrite Hdict in Hload. injection Hload as <-.
  destruct (Hf fuel0 (le_n _))
    as (self & w' & t & Hrun & _ & _ & Ht & Hname & _ & _ & Hdep & _ & Hsz & _).
  exists fuel0, self, w', t. split; [exact Hrun|]. split; [exact Ht|].
  split; [exact Hname|]. split; [exact Hdep|].
  rewrite Hsz by discriminate. vm_compute. reflexivity.
Defined.
